(** * A shallow embedding of the graph library (graph.py, digraph.py, graphs.py)

    The three Python modules are embedded as functions over an explicit
    program state.

    - Python [int]s are [Z] (the dfs counter, which only counts up from 0,
      is a [nat]).
    - Python 3 [float]s are exact rationals [Q]: [graph.ne] is produced by a
      true division by 2, and the sampling weights by a true division by
      [norm].  Rounding of binary64 is not modelled; every concrete value
      evaluated below is a dyadic rational of small magnitude, on which
      binary64 arithmetic is exact.
    - A Python [dict] is an association list with unique keys in insertion
      order ([pydict]); a Python [set] is a [gset].  The iteration order of a
      set is left open: it is a parameter [set_order] of the development.
    - Python sets are mutable objects that the constructor takes over from
      the seed mapping without copying them.  They live in a heap (a list of
      sets indexed by location) and dictionaries hold locations, so that
      aliasing is visible.
    - Exceptions and [print] are effects of a small state-and-exception
      monad [py].  Calls of the module [random] take their outcome as an
      argument ([cutoff] for [random.random()], [pick] for
      [random.choice]). *)

From Stdlib Require Import QArith Qabs Lqa.
Close Scope Q_scope.
From stdpp Require Import gmap strings list fin_maps sorting.

(** ** Exceptions, outcomes and the monad *)

Inductive exn : Set :=
  | KeyError
  | IndexError
  | NameError
  | UnboundLocalError
  | RecursionError.

Inductive outcome (A : Type) : Type :=
  | Ret (a : A)
  | Exc (e : exn).
Arguments Ret {A} a.
Arguments Exc {A} e.

(** A computation over a state of type [S]: it ends with a value or with an
    exception, and in both cases with the state reached so far. *)
Definition py (S A : Type) : Type := S → outcome A * S.

Definition ret {S A} (a : A) : py S A := λ s, (Ret a, s).
Definition raise {S A} (e : exn) : py S A := λ s, (Exc e, s).
Definition bind {S A B} (m : py S A) (k : A → py S B) : py S B :=
  λ s, match m s with
       | (Ret a, s1) => k a s1
       | (Exc e, s1) => (Exc e, s1)
       end.
Definition get {S} : py S S := λ s, (Ret s, s).
Definition put {S} (s : S) : py S () := λ _, (Ret (), s).
Definition lift {S A} (o : outcome A) : py S A := λ s, (o, s).

Declare Scope py_scope.
Delimit Scope py_scope with py.
Notation "x ⇐ m ;; k" := (bind m (λ x, k))
  (at level 100, m at next level, right associativity) : py_scope.
Notation "m ;;; k" := (bind m (λ _, k))
  (at level 100, right associativity) : py_scope.
Open Scope py_scope.

(** [for x in xs: acc = body(x, acc)] *)
Fixpoint for_in {S A X} (xs : list X) (acc : A) (body : X → A → py S A)
  : py S A :=
  match xs with
  | [] => ret acc
  | x :: xs' => acc' ⇐ body x acc ;; for_in xs' acc' body
  end.

(** ** Python dictionaries *)

Definition pydict (K A : Type) : Type := list (K * A).

Section pydict.
Context {K : Type} `{EqDecision K} {A : Type}.

Definition keys (d : pydict K A) : list K := d.*1.
Definition values (d : pydict K A) : list A := d.*2.

(** [d.get(k)] *)
Fixpoint dict_get (d : pydict K A) (k : K) : option A :=
  match d with
  | [] => None
  | (k', a) :: d' => if decide (k = k') then Some a else dict_get d' k
  end.

(** [d[k]] *)
Definition getitem (d : pydict K A) (k : K) : outcome A :=
  match dict_get d k with
  | Some a => Ret a
  | None => Exc KeyError
  end.

(** [k in d] *)
Definition contains (d : pydict K A) (k : K) : bool :=
  bool_decide (k ∈ keys d).

(** [d[k] = a]: an existing key keeps its position. *)
Fixpoint dict_set (k : K) (a : A) (d : pydict K A) : pydict K A :=
  match d with
  | [] => [(k, a)]
  | (k', a') :: d' =>
      if decide (k = k') then (k, a) :: d' else (k', a') :: dict_set k a d'
  end.

(** [dict(pairs)] *)
Definition dict (pairs : list (K * A)) : pydict K A :=
  foldl (λ d p, dict_set p.1 p.2 d) [] pairs.
End pydict.

(** ** The module-level sampler *)

Section weighted_choice.
Context {K : Type}.

(** [sum(weight_dict.values())] *)
Definition sum_values (weight_dict : pydict K Q) : Q :=
  foldl Qplus (0%Q) (values weight_dict).

(** The [for] loop of [weighted_choice]; [choice] is the loop variable,
    unbound before the first iteration. *)
Fixpoint choice_loop (items : pydict K Q) (threshold cutoff : Q)
    (choice : option K) : option K :=
  match items with
  | [] => choice
  | (k, w) :: items' =>
      if Qle_bool cutoff (threshold + w)%Q then Some k
      else choice_loop items' (threshold + w)%Q cutoff (Some k)
  end.

(** [weighted_choice] of graph.py and graphs.py: the sum [w] is computed
    and never used. *)
Definition weighted_choice (weight_dict : pydict K Q) (cutoff : Q)
  : outcome K :=
  let w := sum_values weight_dict in
  match choice_loop weight_dict 0%Q cutoff None with
  | Some k => Ret k
  | None => Exc UnboundLocalError
  end.

(** What digraph.py's [weighted_choice] returns: a key or [False]. *)
Inductive choice_or_False : Type :=
  | Chosen (k : K)
  | PyFalse.

Definition sum_error : string := "error: dict_values should sum to 1.".

(** [weighted_choice] of digraph.py; the second component is what it
    prints. *)
Definition weighted_choice_checked (weight_dict : pydict K Q) (cutoff : Q)
  : outcome choice_or_False * list string :=
  if negb (Qeq_bool (sum_values weight_dict) 1%Q) then
    (Ret PyFalse, [sum_error])
  else
    match choice_loop weight_dict 0%Q cutoff None with
    | Some k => (Ret (Chosen k), [])
    | None => (Exc UnboundLocalError, [])
    end.
End weighted_choice.
Arguments choice_or_False K : clear implicits.

(** [random.choice(seq)]: [pick] is the outcome of the generator. *)
Definition random_choice {A} (pick : nat) (seq : list A) : outcome A :=
  match seq !! (pick `mod` length seq) with
  | Some a => Ret a
  | None => Exc IndexError
  end.

(** ** The heap of set objects and the world *)

Definition loc : Set := nat.

Record world {V : Type} `{Countable V} : Type := World {
  heap : list (gset V);
  stdout : list string;
}.
Arguments world V {_ _}.
Arguments World {V _ _} heap stdout.

Section world.
Context {V : Type} `{Countable V}.

(** The set object at a location. *)
Definition deref (w : world V) (l : loc) : gset V :=
  default ∅ (heap w !! l).

(** [set(elems)]: a new set object. *)
Definition new_set (elems : gset V) : py (world V) loc :=
  λ w, (Ret (length (heap w)), World (heap w ++ [elems]) (stdout w)).

(** [s.add(x)] on the set object at [l]. *)
Definition set_add (l : loc) (x : V) (w : world V) : world V :=
  World (<[l := deref w l ∪ {[x]}]> (heap w)) (stdout w).

(** [print(line)] *)
Definition print (line : string) (w : world V) : world V :=
  World (heap w) (stdout w ++ [line]).
End world.

(** What a constructor asks of its [verts] argument: iteration and [len]. *)
Record collection (V : Type) : Type := Collection {
  iter : list V;
  len : Z;
}.
Arguments Collection {V} iter len.
Arguments iter {V} c.
Arguments len {V} c.

(** A Python sequence (list, range, tuple) as a collection. *)
Definition sequence {V} (l : list V) : collection V :=
  Collection l (Z.of_nat (length l)).

(** The view [d.keys()] of a dictionary as a collection. *)
Definition dict_keys {K A} (d : list (K * A)) : collection K :=
  Collection d.*1 (Z.of_nat (length d)).

(** ** numpy arrays of two axes *)

(** [np.zeros((n, n))] *)
Definition np_zeros (n : Z) : list (list Q) :=
  replicate (Z.to_nat n) (replicate (Z.to_nat n) 0%Q).

(** The position an integer index [k] denotes on an axis of size [n]:
    negative indices count from the end. *)
Definition np_index (n k : Z) : outcome nat :=
  if (0 <=? k)%Z && (k <? n)%Z then Ret (Z.to_nat k)
  else if (- n <=? k)%Z && (k <? 0)%Z then Ret (Z.to_nat (k + n))
  else Exc IndexError.

(** [mat[i, j] = x] on an array of shape [(n, n)] *)
Definition np_setitem (n : Z) (mat : list (list Q)) (i j : Z) (x : Q)
  : outcome (list (list Q)) :=
  match np_index n i with
  | Ret r =>
      match np_index n j with
      | Ret c => Ret (alter (λ row, <[c := x]> row) r mat)
      | Exc e => Exc e
      end
  | Exc e => Exc e
  end.

(** The body of [adj_mat], the same in the three classes: the labels are
    used as indices, so they are integers here.  [set_order] is the order in
    which Python iterates over a set. *)
Definition adj_mat_of (set_order : gset Z → list Z) (nv : Z)
    (ve_dict : pydict Z loc) (w : world Z) : outcome (list (list Q)) :=
  (for_in (seqZ 0 nv) (np_zeros nv)
     (λ i mat,
        l ⇐ lift (getitem ve_dict i) ;;
        for_in (set_order (deref w l)) mat
          (λ j mat, lift (np_setitem nv mat i j 1%Q)))
     ()).1.

Definition complete_error : string :=
  "error: graph complete, no more edges to add".

Definition reads {S A} (f : S → A) : py S A := λ s, (Ret (f s), s).
Definition modify {S} (f : S → S) : py S () := λ s, (Ret (), f s).

(** [[f(x) for x in xs]] *)
Fixpoint map_py {S X Y} (f : X → py S Y) (xs : list X) : py S (list Y) :=
  match xs with
  | [] => ret []
  | x :: xs' => y ⇐ f x ;; ys ⇐ map_py f xs' ;; ret (y :: ys)
  end.

(** [[x for x in xs if p(x)]] *)
Fixpoint filter_py {S X} (p : X → py S bool) (xs : list X) : py S (list X) :=
  match xs with
  | [] => ret []
  | x :: xs' =>
      b ⇐ p x ;; ys ⇐ filter_py p xs' ;; ret (if b then x :: ys else ys)
  end.

(** Runs a computation on the second component of a pair state. *)
Definition on_snd {S1 S2 A} (m : py S2 A) : py (S1 * S2) A :=
  λ s, let '(o, s2) := m s.2 in (o, (s.1, s2)).

(** A client program [G = new(...); calls on G]: the value of the calls and
    the instance as they leave it. *)
Definition with_instance {S G A} (new : py S G) (calls : py (G * S) A)
  : py S (A * G) :=
  λ s, match new s with
       | (Ret g, s1) =>
           match calls (g, s1) with
           | (Ret a, (g', s2)) => (Ret (a, g'), s2)
           | (Exc e, (_, s2)) => (Exc e, s2)
           end
       | (Exc e, s1) => (Exc e, s1)
       end.

(** ** graph.py (and the identical class of graphs.py) *)

Module graph.
Section graph.
Context {V : Type} `{Countable V}.

Record t : Type := Graph {
  ve_dict : pydict V loc;
  degs : pydict V Z;
  nv : Z;
  ne : Q;
}.

Definition with_degs (d : pydict V Z) (g : t) : t :=
  Graph (ve_dict g) d (nv g) (ne g).
Definition with_ne (q : Q) (g : t) : t :=
  Graph (ve_dict g) (degs g) (nv g) q.

(** [edge_dict.get(v, set())]: the default [set()] is built before the
    lookup. *)
Definition get_or_new (edge_dict : pydict V loc) (v : V)
  : py (world V) loc :=
  l ⇐ new_set ∅ ;; ret (default l (dict_get edge_dict v)).

(** [sum(map(len, ve_dict.values()))] *)
Definition sum_len (ve : pydict V loc) (w : world V) : Z :=
  foldl Z.add 0%Z ((λ l, Z.of_nat (size (deref w l))) <$> values ve).

Definition __init__ (verts : collection V) (edge_dict : pydict V loc)
  : py (world V) t :=
  pairs ⇐ map_py (λ v, l ⇐ get_or_new edge_dict v ;; ret (v, l))
                  (iter verts) ;;
  let ve := dict pairs in
  w ⇐ get ;;
  ret (Graph ve
             (dict ((λ v, (v, 0%Z)) <$> iter verts))
             (len verts)
             (inject_Z (sum_len ve w) / 2)%Q).

Definition __iter__ (self : t) : list V := keys (ve_dict self).
Definition __getitem__ (self : t) (key : V) : outcome loc :=
  getitem (ve_dict self) key.
Definition __len__ (self : t) : Z := nv self.

(** A graph handed to a constructor as its [verts]. *)
Definition as_collection (self : t) : collection V :=
  Collection (__iter__ self) (__len__ self).

(** The value of [self.ve_dict[v]] as a set. *)
Definition adj (v : V) : py (t * world V) (gset V) :=
  s ⇐ get ;; l ⇐ lift (getitem (ve_dict s.1) v) ;; ret (deref s.2 l).

(** [self.ne += 1] *)
Definition incr_ne : py (t * world V) () :=
  modify (λ s, (with_ne (ne s.1 + 1)%Q s.1, s.2)).

(** [self.degs[v] += 1] *)
Definition incr_deg (v : V) : py (t * world V) () :=
  s ⇐ get ;;
  d ⇐ lift (getitem (degs s.1) v) ;;
  put (with_degs (dict_set v (d + 1)%Z (degs s.1)) s.1, s.2).

(** [self.ve_dict[v].add(x)] *)
Definition adj_add (v x : V) : py (t * world V) () :=
  s ⇐ get ;;
  l ⇐ lift (getitem (ve_dict s.1) v) ;;
  put (s.1, set_add l x s.2).

Definition add_edge (i j : V) : py (t * world V) bool :=
  self ⇐ reads fst ;;
  if contains (ve_dict self) i && contains (ve_dict self) j then
    if bool_decide (i = j) then ret false
    else
      a ⇐ adj j ;;
      if bool_decide (i ∉ a) then
        incr_ne ;;;
        incr_deg i ;;;
        incr_deg j ;;;
        adj_add i j ;;;
        adj_add j i ;;;
        ret true
      else ret false
  else ret false.

Definition subgraph (self : t) (some_verts : collection V)
  : py (world V) t :=
  pairs ⇐ map_py
    (λ v, l ⇐ lift (getitem (ve_dict self) v) ;;
          w ⇐ get ;;
          l' ⇐ new_set
                 (filter (λ e, e ∈ iter some_verts) (deref w l)) ;;
          ret (v, l'))
    (iter some_verts) ;;
  __init__ some_verts (dict pairs).

(** [norm] of [add_rand_edge] *)
Definition norm (self : t) : Q :=
  (inject_Z (nv self * (nv self - 1)) - 2 * ne self)%Q.

(** The comprehension of [add_rand_edge] that lists the targets. *)
Definition targets (v : V) : py (t * world V) (list V) :=
  self ⇐ reads fst ;;
  filter_py
    (λ e, if bool_decide (e ≠ v) then
            a ⇐ adj v ;; ret (bool_decide (e ∉ a))
          else ret false)
    (keys (ve_dict self)).

(** The comprehension of [add_rand_edge] that builds [choice_dict]. *)
Definition choice_dict : py (t * world V) (pydict V Q) :=
  self ⇐ reads fst ;;
  pairs ⇐ map_py
    (λ v, d ⇐ lift (getitem (degs self) v) ;;
          ret (v, (inject_Z (nv self - d - 1) / norm self)%Q))
    (keys (ve_dict self)) ;;
  ret (dict pairs).

Definition add_rand_edge (cutoff : Q) (pick : nat) : py (t * world V) () :=
  self ⇐ reads fst ;;
  if negb (Qeq_bool (norm self) 0) then
    cd ⇐ choice_dict ;;
    v ⇐ lift (weighted_choice cd cutoff) ;;
    ts ⇐ targets v ;;
    w ⇐ lift (random_choice pick ts) ;;
    adj_add v w ;;;
    adj_add w v ;;;
    incr_ne ;;;
    incr_deg v ;;;
    incr_deg w
  else
    on_snd (modify (print complete_error)).

Definition is_complete (self : t) : bool :=
  if Qeq_bool (ne self) (inject_Z (nv self * (nv self - 1)) / 2) then true
  else false.
End graph.
(** [adj_mat], for integer labels *)
Definition adj_mat (set_order : gset Z → list Z) (self : @t Z)
    (w : world Z) : outcome (list (list Q)) :=
  adj_mat_of set_order (nv self) (ve_dict self) w.
End graph.
Arguments graph.t : clear implicits.

(** ** digraph.py *)

Module digraph.
Section digraph.
Context {V : Type} `{Countable V}.

(** The vertex label that compares equal to Python's [False] ([0] when the
    labels are numbers), if the label type has one.  It is what a lookup
    with the key [False] finds. *)
Context (false_key : option V).

Record t : Type := Digraph {
  ve_dict : pydict V loc;
  out_deg : pydict V Z;
  nv : Z;
  ne : Z;
}.

Definition with_out_deg (d : pydict V Z) (g : t) : t :=
  Digraph (ve_dict g) d (nv g) (ne g).
Definition with_ne (n : Z) (g : t) : t :=
  Digraph (ve_dict g) (out_deg g) (nv g) n.

Definition __init__ (verts : collection V) (edge_dict : pydict V loc)
  : py (world V) t :=
  pairs ⇐ map_py (λ v, l ⇐ graph.get_or_new edge_dict v ;; ret (v, l))
                  (iter verts) ;;
  let ve := dict pairs in
  w ⇐ get ;;
  ret (Digraph ve
               (dict ((λ v, (v, 0%Z)) <$> iter verts))
               (len verts)
               (graph.sum_len ve w)).

Definition __iter__ (self : t) : list V := keys (ve_dict self).
Definition __getitem__ (self : t) (key : V) : outcome loc :=
  getitem (ve_dict self) key.
Definition __len__ (self : t) : Z := nv self.

Definition adj (v : V) : py (t * world V) (gset V) :=
  s ⇐ get ;; l ⇐ lift (getitem (ve_dict s.1) v) ;; ret (deref s.2 l).

Definition incr_ne : py (t * world V) () :=
  modify (λ s, (with_ne (ne s.1 + 1)%Z s.1, s.2)).

Definition incr_out_deg (v : V) : py (t * world V) () :=
  s ⇐ get ;;
  d ⇐ lift (getitem (out_deg s.1) v) ;;
  put (with_out_deg (dict_set v (d + 1)%Z (out_deg s.1)) s.1, s.2).

Definition adj_add (v x : V) : py (t * world V) () :=
  s ⇐ get ;;
  l ⇐ lift (getitem (ve_dict s.1) v) ;;
  put (s.1, set_add l x s.2).

Definition add_edge (v w : V) : py (t * world V) bool :=
  self ⇐ reads fst ;;
  if contains (ve_dict self) v && contains (ve_dict self) w then
    if bool_decide (v = w) then ret false
    else
      a ⇐ adj v ;;
      if bool_decide (w ∉ a) then
        incr_ne ;;;
        incr_out_deg v ;;;
        adj_add v w ;;;
        ret true
      else ret false
  else ret false.

(** The names bound at the top level of digraph.py. *)
Definition globals : list string :=
  ["np"; "random"; "weighted_choice"; "digraph"; "dfs"].

(** Evaluation of a global name that is no builtin. *)
Definition global_name {S} (name : string) : py S () :=
  if bool_decide (name ∈ globals) then ret () else raise NameError.

(** [subgraph] ends with [return graph(some_verts, some_edges)]: were the
    name bound, it would be to the undirected class of graph.py. *)
Definition subgraph (self : t) (some_verts : collection V)
  : py (world V) (graph.t V) :=
  pairs ⇐ map_py
    (λ v, l ⇐ lift (getitem (ve_dict self) v) ;;
          w ⇐ get ;;
          l' ⇐ new_set
                 (filter (λ e, e ∈ iter some_verts) (deref w l)) ;;
          ret (v, l'))
    (iter some_verts) ;;
  global_name "graph" ;;;
  graph.__init__ some_verts (dict pairs).

(** The key a value returned by [weighted_choice] acts as. *)
Definition as_key (c : choice_or_False V) : option V :=
  match c with
  | Chosen k => Some k
  | PyFalse => false_key
  end.

(** [self.ve_dict[v]] for such a value. *)
Definition adj_of (v : option V) : py (t * world V) (gset V) :=
  match v with
  | Some k => adj k
  | None => raise KeyError
  end.

Definition targets (v : option V) : py (t * world V) (list V) :=
  self ⇐ reads fst ;;
  filter_py
    (λ e, if bool_decide (Some e ≠ v) then
            a ⇐ adj_of v ;; ret (bool_decide (e ∉ a))
          else ret false)
    (keys (ve_dict self)).

Definition norm (self : t) : Z := (nv self * (nv self - 1) - ne self)%Z.

Definition choice_dict : py (t * world V) (pydict V Q) :=
  self ⇐ reads fst ;;
  pairs ⇐ map_py
    (λ i, d ⇐ lift (getitem (out_deg self) i) ;;
          ret (i, (inject_Z (nv self - d - 1) / inject_Z (norm self))%Q))
    (keys (ve_dict self)) ;;
  ret (dict pairs).

Definition add_rand_edge (cutoff : Q) (pick : nat) : py (t * world V) () :=
  self ⇐ reads fst ;;
  if negb (norm self =? 0)%Z then
    cd ⇐ choice_dict ;;
    let r := weighted_choice_checked cd cutoff in
    on_snd (modify (λ w, foldl (λ w line, print line w) w r.2)) ;;;
    c ⇐ lift r.1 ;;
    let v := as_key c in
    ts ⇐ targets v ;;
    w ⇐ lift (random_choice pick ts) ;;
    match v with
    | Some k => add_edge k w ;;; ret ()
    | None => ret ()
    end
  else
    on_snd (modify (print complete_error)).

Definition is_complete (self : t) : bool :=
  if (ne self =? nv self * (nv self - 1))%Z then true else false.

(** [reverse]; [set_order] is the order in which Python iterates over a
    set.  The sets of [reverse_graph] are new objects, so that no set is
    added to while it is iterated. *)
Definition reverse (set_order : gset V → list V) (self : t)
  : py (world V) t :=
  reverse_graph ⇐ __init__ (dict_keys (ve_dict self)) [] ;;
  λ w0,
    let r := for_in (keys (ve_dict self)) ()
               (λ v _,
                  l ⇐ lift (getitem (ve_dict self) v) ;;
                  s ⇐ get ;;
                  for_in (set_order (deref s.2 l)) ()
                    (λ w _, add_edge w v ;;; ret ()))
               (reverse_graph, w0) in
    (match r.1 with
     | Ret _ => Ret r.2.1
     | Exc e => Exc e
     end, r.2.2).
End digraph.
(** [adj_mat], for integer labels *)
Definition adj_mat (set_order : gset Z → list Z) (self : @t Z)
    (w : world Z) : outcome (list (list Q)) :=
  adj_mat_of set_order (nv self) (ve_dict self) w.
End digraph.
Arguments digraph.t : clear implicits.

(** ** The traversals *)

(** What [dfs] and [spanning_forest] ask of their argument [G]: iteration
    over the vertices and indexing by a vertex. *)
Record indexable (V : Type) : Type := Indexable {
  ix_iter : list V;
  ix_getitem : V → outcome loc;
}.
Arguments Indexable {V} ix_iter ix_getitem.
Arguments ix_iter {V} _.
Arguments ix_getitem {V} _ _.

Definition graph_indexable {V} `{Countable V} (G : graph.t V) : indexable V :=
  Indexable (graph.__iter__ G) (graph.__getitem__ G).
Definition digraph_indexable {V} `{Countable V} (G : digraph.t V)
  : indexable V :=
  Indexable (digraph.__iter__ G) (digraph.__getitem__ G).

Section traversal.
Context {V : Type} `{Countable V}.

(** The order in which Python iterates over a set. *)
Context (set_order : gset V → list V).

(** The list [G[v]] is iterated in. *)
Definition neighbours (G : indexable V) (w : world V) (v : V)
  : outcome (list V) :=
  match ix_getitem G v with
  | Ret l => Ret (set_order (deref w l))
  | Exc e => Exc e
  end.

(** *** dfs (the same function in graph.py, digraph.py and graphs.py) *)

Record dfs_state : Type := DfsState {
  visited : pydict V bool;
  pre_post : pydict V (list nat);
}.

(** [visited[v] = True] *)
Definition mark (v : V) : py dfs_state () :=
  modify (λ s, DfsState (dict_set v true (visited s)) (pre_post s)).

(** [visited[u]] *)
Definition is_visited (u : V) : py dfs_state bool :=
  s ⇐ get ;; lift (getitem (visited s) u).

(** [pre_post[v].append(counter)] *)
Definition stamp (v : V) (counter : nat) : py dfs_state () :=
  s ⇐ get ;;
  l ⇐ lift (getitem (pre_post s) v) ;;
  put (DfsState (visited s) (dict_set v (l ++ [counter]) (pre_post s))).

(** [explore(v, counter)]; [depth] is the number of frames the interpreter
    still allows. *)
Fixpoint explore (G : indexable V) (w : world V) (depth : nat)
    (v : V) (counter : nat) : py dfs_state nat :=
  match depth with
  | 0 => raise RecursionError
  | S depth' =>
      mark v ;;;
      stamp v counter ;;;
      let counter := counter + 1 in
      us ⇐ lift (neighbours G w v) ;;
      counter ⇐ for_in us counter
        (λ u counter,
           b ⇐ is_visited u ;;
           if negb b then explore G w depth' u counter else ret counter) ;;
      stamp v counter ;;;
      ret (counter + 1)
  end.

(** The state [dfs] starts from. *)
Definition dfs_init (G : indexable V) : dfs_state :=
  DfsState (dict ((λ v, (v, false)) <$> ix_iter G))
           (dict ((λ v, (v, [])) <$> ix_iter G)).

(** The outer loop of [dfs]; the value is the final [counter]. *)
Definition dfs_loop (G : indexable V) (w : world V) (depth : nat)
  : py dfs_state nat :=
  for_in (ix_iter G) 0
    (λ v counter,
       b ⇐ is_visited v ;;
       if negb b then explore G w depth v counter else ret counter).

Definition dfs (G : indexable V) (w : world V) (depth : nat)
  : outcome (pydict V (list nat)) :=
  match dfs_loop G w depth (dfs_init G) with
  | (Ret _, s) => Ret (pre_post s)
  | (Exc e, _) => Exc e
  end.

(** *** spanning_forest (graph.py; graphs.py splits off [sf_explore]) *)

Record sf_state : Type := SfState {
  sf_visited : pydict V bool;
  sp_forest : graph.t V;
  sf_world : world V;
}.

(** A call of a method of [sp_forest]. *)
Definition on_forest {A} (m : py (graph.t V * world V) A) : py sf_state A :=
  λ s, let '(o, (g, w)) := m (sp_forest s, sf_world s) in
       (o, SfState (sf_visited s) g w).

Definition sf_mark (v : V) : py sf_state () :=
  modify (λ s, SfState (dict_set v true (sf_visited s))
                       (sp_forest s) (sf_world s)).

Definition sf_is_visited (u : V) : py sf_state bool :=
  s ⇐ get ;; lift (getitem (sf_visited s) u).

Fixpoint sf_explore (G : indexable V) (depth : nat) (v : V)
  : py sf_state () :=
  match depth with
  | 0 => raise RecursionError
  | S depth' =>
      sf_mark v ;;;
      s ⇐ get ;;
      us ⇐ lift (neighbours G (sf_world s) v) ;;
      for_in us ()
        (λ u _,
           b ⇐ sf_is_visited u ;;
           if negb b then
             on_forest (graph.add_edge u v) ;;;
             sf_explore G depth' u
           else ret ())
  end.

Definition spanning_forest (G : graph.t V) (depth : nat)
  : py (world V) (graph.t V) :=
  let visited := dict ((λ v, (v, false)) <$> graph.__iter__ G) in
  forest ⇐ graph.__init__ (graph.as_collection G) [] ;;
  λ w,
    let r := for_in (graph.__iter__ G) ()
               (λ v _,
                  b ⇐ sf_is_visited v ;;
                  if negb b then sf_explore (graph_indexable G) depth v
                  else ret ())
               (SfState visited forest w) in
    (match r.1 with
     | Ret _ => Ret (sp_forest r.2)
     | Exc e => Exc e
     end, sf_world r.2).

(** *** connected_components (graph.py) *)

Record cc_state : Type := CcState {
  cc_visited : pydict V bool;
  this_comp : list V;
  comps : list (graph.t V);
  cc_world : world V;
}.

(** [this_comp.append(v)] *)
Definition cc_append (v : V) : py cc_state () :=
  modify (λ s, CcState (cc_visited s) (this_comp s ++ [v]) (comps s)
                       (cc_world s)).

Definition cc_mark (v : V) : py cc_state () :=
  modify (λ s, CcState (dict_set v true (cc_visited s)) (this_comp s)
                       (comps s) (cc_world s)).

Definition cc_is_visited (u : V) : py cc_state bool :=
  s ⇐ get ;; lift (getitem (cc_visited s) u).

Fixpoint cc_explore (G : indexable V) (depth : nat) (v : V)
  : py cc_state () :=
  match depth with
  | 0 => raise RecursionError
  | S depth' =>
      cc_append v ;;;
      cc_mark v ;;;
      s ⇐ get ;;
      ws ⇐ lift (neighbours G (cc_world s) v) ;;
      for_in ws ()
        (λ w _,
           b ⇐ cc_is_visited w ;;
           if negb b then cc_explore G depth' w else ret ())
  end.

(** [comps.append(G.subgraph(this_comp))], then [this_comp = []] *)
Definition cc_collect (G : graph.t V) : py cc_state () :=
  s ⇐ get ;;
  match graph.subgraph G (sequence (this_comp s)) (cc_world s) with
  | (Ret c, w) => put (CcState (cc_visited s) [] (comps s ++ [c]) w)
  | (Exc e, w) =>
      put (CcState (cc_visited s) (this_comp s) (comps s) w) ;;; raise e
  end.

Definition connected_components (G : graph.t V) (depth : nat)
  : py (world V) (list (graph.t V)) :=
  let visited := dict ((λ v, (v, false)) <$> graph.__iter__ G) in
  λ w,
    let r := for_in (graph.__iter__ G) ()
               (λ v _,
                  b ⇐ cc_is_visited v ;;
                  if negb b then
                    cc_explore (graph_indexable G) depth v ;;;
                    cc_collect G
                  else ret ())
               (CcState visited [] [] w) in
    (match r.1 with
     | Ret _ => Ret (comps r.2)
     | Exc e => Exc e
     end, cc_world r.2).
End traversal.

(** ** Vocabulary of the specification *)

Section vocabulary.
Context {V : Type} `{Countable V}.

(** The neighbour set of [v], as indexing the instance by [v] yields it
    (empty for a label that is no vertex). *)
Definition graph_nbrs (g : graph.t V) (w : world V) (v : V) : gset V :=
  match dict_get (graph.ve_dict g) v with
  | Some l => deref w l
  | None => ∅
  end.
Definition digraph_nbrs (g : digraph.t V) (w : world V) (v : V) : gset V :=
  match dict_get (digraph.ve_dict g) v with
  | Some l => deref w l
  | None => ∅
  end.

(** The degree counter of [v]. *)
Definition graph_deg (g : graph.t V) (v : V) : option Z :=
  dict_get (graph.degs g) v.
Definition digraph_out_deg (g : digraph.t V) (v : V) : option Z :=
  dict_get (digraph.out_deg g) v.

(** What every instance built by the constructor satisfies, whatever the
    seed: the dictionaries have unique keys, the counters are kept for
    the vertices, and the adjacency sets are objects of the heap. *)
Record graph_wf (g : graph.t V) (w : world V) : Prop := GraphWf {
  graph_wf_keys : NoDup (keys (graph.ve_dict g));
  graph_wf_degs : ∀ v, v ∈ keys (graph.ve_dict g) →
                       is_Some (dict_get (graph.degs g) v);
  graph_wf_locs : ∀ v l, dict_get (graph.ve_dict g) v = Some l →
                         l < length (heap w);
}.
Record digraph_wf (g : digraph.t V) (w : world V) : Prop := DigraphWf {
  digraph_wf_keys : NoDup (keys (digraph.ve_dict g));
  digraph_wf_degs : ∀ v, v ∈ keys (digraph.ve_dict g) →
                         is_Some (dict_get (digraph.out_deg g) v);
  digraph_wf_locs : ∀ v l, dict_get (digraph.ve_dict g) v = Some l →
                           l < length (heap w);
}.

(** The symmetry invariant of the undirected data model. *)
Definition graph_symmetric (g : graph.t V) (w : world V) : Prop :=
  ∀ u v, v ∈ graph_nbrs g w u ↔ u ∈ graph_nbrs g w v.
End vocabulary.

Section constructor_vocabulary.
Context {V : Type} `{Countable V}.
Implicit Types (w : world V) (ed : pydict V loc) (vs : list V).

(** The pairs the constructor hands to [dict]: the seed's set object where
    the seed has the vertex, the new empty set otherwise. *)
Definition seeded_pairs ed vs (n : nat) : list (V * loc) :=
  imap (λ i v, (v, default (n + i) (dict_get ed v))) vs.

(** The world after [n] empty sets were allocated. *)
Definition grown w (n : nat) : world V :=
  World (heap w ++ replicate n ∅) (stdout w).

(** The sets of a seed mapping are objects of the heap. *)
Definition seed_allocated ed w : Prop :=
  ∀ v l, dict_get ed v = Some l → l < length (heap w).
End constructor_vocabulary.

Section sampler_vocabulary.
Context {K : Type}.



End sampler_vocabulary.

(** [R] relates every state to the state [m] leaves, whatever the outcome. *)
Definition stable {S A} (R : relation S) (m : py S A) : Prop :=
  ∀ s, R s (m s).2.

Section output_vocabulary.
Context {V : Type} `{Countable V}.

(** The output is as it was. *)
Definition same_stdout {G : Type} : relation (G * world V) :=
  λ s s', stdout s'.2 = stdout s.2.

(** Output was added, but not the message of a complete graph. *)
Definition no_complete_error {G : Type} : relation (G * world V) :=
  λ s s', ∃ out, stdout s'.2 = stdout s.2 ++ out ∧ complete_error ∉ out.
End output_vocabulary.

(** The sum of the degree counters. *)
Definition graph_degree_sum {V} (g : graph.t V) : Z :=
  foldl Z.add 0%Z (values (graph.degs g)).
Definition digraph_out_degree_sum {V} (g : digraph.t V) : Z :=
  foldl Z.add 0%Z (values (digraph.out_deg g)).

Section dfs_vocabulary.
Context {V : Type} `{Countable V}.
Implicit Types (s : dfs_state (V:=V)) (vs L : list V) (u v : V) (c : nat).

(** The vertices of [vs] that [s] has not visited. *)
Definition unvisited s vs : list V :=
  filter (λ u, dict_get (visited s) u = Some false) vs.

(** All the timestamps [s] holds for the vertices of [L]. *)
Definition all_stamps s L : list nat :=
  L ≫= (λ u, default [] (dict_get (pre_post s) u)).

(** Two intervals are disjoint, or one lies strictly inside the other. *)
Definition nested_or_disjoint (p1 q1 p2 q2 : nat) : Prop :=
  q1 < p2 ∨ q2 < p1 ∨ (p1 < p2 ∧ q2 < q1) ∨ (p2 < p1 ∧ q1 < q2).

(** Every vertex that [s] has not visited is known to it and has no
    timestamp yet. *)
Definition dfs_ok vs s : Prop :=
  (∀ u, u ∈ vs → is_Some (dict_get (visited s) u))
  ∧ (∀ u, dict_get (visited s) u = Some false →
          dict_get (pre_post s) u = Some []).

(** A piece of the traversal took [s] with counter [c] to [s'] with counter
    [c']; [L] lists the vertices it discovered. *)
Record dfs_step s c s' c' L : Prop := DfsStep {
  step_nodup : NoDup L;
  step_new : ∀ u, u ∈ L → dict_get (visited s) u = Some false;
  step_visited : ∀ u, dict_get (visited s') u =
                        if decide (u ∈ L) then Some true
                        else dict_get (visited s) u;
  step_counter : c' = c + 2 * length L;
  step_keys : keys (pre_post s') = keys (pre_post s);
  step_old : ∀ u, u ∉ L → dict_get (pre_post s') u = dict_get (pre_post s) u;
  step_stamps : ∀ u, u ∈ L →
    ∃ p q, dict_get (pre_post s') u = Some [p; q] ∧ c ≤ p ∧ p < q ∧ q < c';
  step_nested : ∀ u1 u2 p1 q1 p2 q2,
    u1 ∈ L → u2 ∈ L → u1 ≠ u2 →
    dict_get (pre_post s') u1 = Some [p1; q1] →
    dict_get (pre_post s') u2 = Some [p2; q2] →
    nested_or_disjoint p1 q1 p2 q2;
  step_perm : all_stamps s' L ≡ₚ seq c (2 * length L);
}.

(** What [explore] does when called with [d] frames left on a vertex that
    is not visited. *)
Definition explore_ok (set_order : gset V → list V) (G : indexable V)
    (w : world V) (d : nat) : Prop :=
  ∀ v c s,
    v ∈ ix_iter G → dfs_ok (ix_iter G) s →
    dict_get (visited s) v = Some false →
    length (unvisited s (ix_iter G)) ≤ d →
    ∃ c' s' L,
      explore set_order G w d v c s = (Ret c', s')
      ∧ dfs_step s c s' c' L ∧ v ∈ L.
End dfs_vocabulary.

(** The body of both loops of [dfs]. *)
Abbreviation dfs_body set_order G w d :=
  (λ u counter,
     b ⇐ is_visited u ;;
     if negb b then explore set_order G w d u counter else ret counter).

Section closed_vocabulary.
Context {V : Type} `{Countable V}.

(** The adjacency sets mention vertices only. *)
Definition graph_closed (g : graph.t V) (w : world V) : Prop :=
  ∀ v u, u ∈ graph_nbrs g w v → u ∈ graph.__iter__ g.
Definition digraph_closed (g : digraph.t V) (w : world V) : Prop :=
  ∀ v u, u ∈ digraph_nbrs g w v → u ∈ digraph.__iter__ g.

(** What [dfs] returns for the vertices [vs]: one pair [[pre, post]] per
    vertex, with [pre < post], and any two pairs disjoint or strictly
    nested. *)
Definition dfs_intervals (vs : list V) (pp : pydict V (list nat)) : Prop :=
  keys pp = vs
  ∧ (∀ v, v ∈ vs → ∃ p q, dict_get pp v = Some [p; q] ∧ p < q)
  ∧ (∀ u v p1 q1 p2 q2,
       u ≠ v →
       dict_get pp u = Some [p1; q1] → dict_get pp v = Some [p2; q2] →
       nested_or_disjoint p1 q1 p2 q2).
End closed_vocabulary.

Section forest_vocabulary.
Context {V : Type} `{Countable V}.
Implicit Types (adj : relation V) (T : list (V * V)) (P : gset V).

(** [c] is a simple cycle of [adj]: at least three distinct vertices, each
    adjacent to the next and the last to the first. *)
Definition is_cycle adj (c : list V) : Prop :=
  NoDup c ∧ 3 ≤ length c
  ∧ ∀ i a b, c !! i = Some a → c !! (S i `mod` length c) = Some b → adj a b.

Definition acyclic adj : Prop := ∀ c, ¬ is_cycle adj c.

(** [roots] holds one vertex of every connected component of [adj] on the
    vertices [vs]. *)
Definition components adj (vs roots : list V) : Prop :=
  NoDup roots
  ∧ (∀ r, r ∈ roots → r ∈ vs)
  ∧ (∀ v, v ∈ vs → ∃ r, r ∈ roots ∧ rtc adj r v)
  ∧ (∀ r r', r ∈ roots → r' ∈ roots → rtc adj r r' → r = r').

(** The undirected adjacency of a list of tree edges (child, parent). *)
Definition tadj T : relation V := λ a b, (a, b) ∈ T ∨ (b, a) ∈ T.

(** The edges of [T] attach, one after the other, a new vertex to a vertex
    of [P] or to a vertex attached before. *)
Fixpoint attach P T : Prop :=
  match T with
  | [] => True
  | (u, p) :: T' => (u ∉ P) ∧ (p ∈ P) ∧ attach ({[u]} ∪ P) T'
  end.
End forest_vocabulary.

Section sf_vocabulary.
Context {V : Type} `{Countable V}.
Implicit Types (st : sf_state (V:=V)) (S : gset V) (T : list (V * V)).

(** The vertices [st] has visited are those of [S]. *)
Definition sf_visited_is st S : Prop :=
  ∀ u, dict_get (sf_visited st) u = Some true ↔ u ∈ S.

(** The neighbour set of [a] in the forest of [st]. *)
Definition forest_nbrs st (a : V) : gset V :=
  graph_nbrs (sp_forest st) (sf_world st) a.

(** The forest touches vertices of [S] only. *)
Definition forest_within st S : Prop :=
  ∀ a b, b ∈ forest_nbrs st a → a ∈ S ∧ b ∈ S.

(** What holds of every state of [spanning_forest(g)] called in the world
    [w0]: the forest has the vertices of [g] and its own, new adjacency
    sets, and the objects of [w0] are as they were. *)
Record sf_inv (g : graph.t V) (w0 : world V) st : Prop := SfInv {
  inv_ve : graph.ve_dict (sp_forest st) =
             seeded_pairs [] (graph.__iter__ g) (length (heap w0));
  inv_degs : ∀ v, v ∈ graph.__iter__ g →
                  is_Some (dict_get (graph.degs (sp_forest st)) v);
  inv_nv : graph.nv (sp_forest st) = graph.nv g;
  inv_heap : length (heap (sf_world st)) =
               length (heap w0) + length (graph.__iter__ g);
  inv_frame : ∀ l, l < length (heap w0) → deref (sf_world st) l = deref w0 l;
  inv_stdout : stdout (sf_world st) = stdout w0;
  inv_visited : ∀ u, u ∈ graph.__iter__ g →
                     is_Some (dict_get (sf_visited st) u);
}.

(** From [st] to [st'] the tree edges [T] were added to the forest. *)
Record sf_step st st' T : Prop := SfStep {
  sfs_ne : (graph.ne (sp_forest st') ==
              graph.ne (sp_forest st) + inject_Z (Z.of_nat (length T)))%Q;
  sfs_adj : ∀ a b, b ∈ forest_nbrs st' a ↔ b ∈ forest_nbrs st a ∨ tadj T a b;
}.

(** The vertices of [vs] outside [S]. *)
Definition unvisited_in (vs : list V) S : list V := filter (λ u, u ∉ S) vs.

(** What the tree edges [T] found below [v] satisfy, [S] being the vertices
    visited before: they hang new vertices of [g] on [v] or on one another
    along edges of [g], and every neighbour of a new vertex is visited. *)
Record sf_found (g : graph.t V) (w0 : world V) S (v : V) T : Prop := SfFound {
  found_attach : attach {[v]} T;
  found_fresh : ∀ u, u ∈ T.*1 → u ∈ graph.__iter__ g ∧ u ∉ S;
  found_edges : ∀ u p, (u, p) ∈ T → u ∈ graph_nbrs g w0 p;
  found_closed : ∀ n b, n ∈ T.*1 → b ∈ graph_nbrs g w0 n →
                        b ∈ S ∪ list_to_set T.*1;
}.

(** What [sf_explore] does when called with [d] frames left on a vertex
    that is not visited. *)
Definition sf_explore_ok (set_order : gset V → list V) (g : graph.t V)
    (w0 : world V) (d : nat) : Prop :=
  ∀ v st S,
    v ∈ graph.__iter__ g → v ∉ S →
    sf_inv g w0 st → sf_visited_is st S → forest_within st (S ∪ {[v]}) →
    length (unvisited_in (graph.__iter__ g) S) ≤ d →
    ∃ st' T,
      sf_explore set_order (graph_indexable g) d v st = (Ret (), st')
      ∧ sf_inv g w0 st'
      ∧ sf_visited_is st' (S ∪ {[v]} ∪ list_to_set T.*1)
      ∧ sf_step st st' T
      ∧ sf_found g w0 (S ∪ {[v]}) v T
      ∧ ∀ b, b ∈ graph_nbrs g w0 v → b ∈ S ∪ {[v]} ∪ list_to_set T.*1.

(** What holds between two turns of the outer loop of [spanning_forest]:
    [R] lists the vertices the loop called [sf_explore] on and [T] the tree
    edges added so far. *)
Record sf_top (g : graph.t V) (w0 : world V) st (R : list V) T : Prop := SfTop {
  top_inv : sf_inv g w0 st;
  top_visited : sf_visited_is st (list_to_set R ∪ list_to_set T.*1);
  top_attach : attach (list_to_set R) T;
  top_nodup : NoDup R;
  top_roots : ∀ r, r ∈ R → r ∈ graph.__iter__ g;
  top_children : ∀ u, u ∈ T.*1 → u ∈ graph.__iter__ g;
  top_edges : ∀ u p, (u, p) ∈ T → u ∈ graph_nbrs g w0 p;
  top_closed : ∀ n b, n ∈ (list_to_set R ∪ list_to_set T.*1 : gset V) →
                      b ∈ graph_nbrs g w0 n →
                      b ∈ (list_to_set R ∪ list_to_set T.*1 : gset V);
  top_adj : ∀ a b, b ∈ forest_nbrs st a ↔ tadj T a b;
  top_ne : (graph.ne (sp_forest st) == inject_Z (Z.of_nat (length T)))%Q;
  top_separate : ∀ r r', r ∈ R → r' ∈ R →
                         rtc (λ a b, b ∈ graph_nbrs g w0 a) r r' → r = r';
}.
End sf_vocabulary.

(** The body of the outer loop of [spanning_forest]. *)
Abbreviation sf_top_body set_order G d :=
  (λ v (_ : ()),
     b ⇐ sf_is_visited v ;;
     if negb b then sf_explore set_order G d v else ret ()).

(** The body of the loop of [sf_explore]. *)
Abbreviation sf_body set_order G d v :=
  (λ u (_ : ()),
     b ⇐ sf_is_visited u ;;
     if negb b then
       on_forest (graph.add_edge u v) ;;; sf_explore set_order G d u
     else ret ()).

Section client_programs.
Context {V : Type} `{Countable V}.

(** A sequence of [add_edge] calls on one instance; the value is that of
    the last call. *)
Definition graph_add_edges (calls : list (V * V))
  : py (graph.t V * world V) bool :=
  for_in calls true (λ c _, graph.add_edge c.1 c.2).
Definition digraph_add_edges (calls : list (V * V))
  : py (digraph.t V * world V) bool :=
  for_in calls true (λ c _, digraph.add_edge c.1 c.2).

(** The invariant of the data model between [edge_count] and the degree
    counters. *)
Definition graph_counts_agree (g : graph.t V) : Prop :=
  (graph.ne g == inject_Z (graph_degree_sum g) / 2)%Q.
Definition digraph_counts_agree (g : digraph.t V) : Prop :=
  digraph.ne g = digraph_out_degree_sum g.
End client_programs.

(** ** Sample instances *)

Module sample.
(** [graph([0, 1])] and [digraph([0, 1])], built in one world. *)
Definition w0 : world nat := World [∅; ∅; ∅; ∅] [].
Definition g0 : graph.t nat :=
  graph.Graph [(0, 0); (1, 1)] [(0, 0%Z); (1, 0%Z)] 2 0.
Definition d0 : digraph.t nat :=
  digraph.Digraph [(0, 2); (1, 3)] [(0, 0%Z); (1, 0%Z)] 2 0.

(** The complete graph on two vertices. *)
Definition k2 : graph.t nat :=
  graph.Graph [(0, 0); (1, 1)] [(0, 1%Z); (1, 1%Z)] 2 1.
Definition w_k2 : world nat := World [{[1]}; {[0]}] [].

(** The complete graph on two vertices and [digraph([0, 1])] in one
    world. *)
Definition w1 : world nat := World [{[1]}; {[0]}; ∅; ∅] [].
End sample.

(** ** Vocabulary of the instances built without seed edges *)

Section consistency_vocabulary.
Context {V : Type} `{Countable V}.

(** The invariant of the undirected class: every vertex owns its set
    object, the adjacency mentions vertices only, is symmetric and has no
    loop, the degree counter of a vertex is the size of its set, and [ne]
    is half the sum of the counters. *)
Record graph_consistent (g : graph.t V) (w : world V) : Prop :=
  GraphConsistent {
  gc_wf : graph_wf g w;
  gc_own : ∀ u v l, dict_get (graph.ve_dict g) u = Some l →
                    dict_get (graph.ve_dict g) v = Some l → u = v;
  gc_closed : graph_closed g w;
  gc_symmetric : graph_symmetric g w;
  gc_loop_free : ∀ v, v ∉ graph_nbrs g w v;
  gc_degs : graph.degs g =
              (λ v, (v, Z.of_nat (size (graph_nbrs g w v))))
                <$> graph.__iter__ g;
  gc_ne : graph_counts_agree g;
}.

(** The invariant of the directed class. *)
Record digraph_consistent (g : digraph.t V) (w : world V) : Prop :=
  DigraphConsistent {
  dc_wf : digraph_wf g w;
  dc_own : ∀ u v l, dict_get (digraph.ve_dict g) u = Some l →
                    dict_get (digraph.ve_dict g) v = Some l → u = v;
  dc_closed : digraph_closed g w;
  dc_loop_free : ∀ v, v ∉ digraph_nbrs g w v;
  dc_out_deg : digraph.out_deg g =
                 (λ v, (v, Z.of_nat (size (digraph_nbrs g w v))))
                   <$> digraph.__iter__ g;
  dc_ne : digraph_counts_agree g;
}.

(** [nv] is the number of vertices. *)
Definition graph_sized (g : graph.t V) : Prop :=
  graph.nv g = Z.of_nat (length (graph.__iter__ g)).
Definition digraph_sized (g : digraph.t V) : Prop :=
  digraph.nv g = Z.of_nat (length (digraph.__iter__ g)).

(** Every two distinct vertices are adjacent. *)
Definition graph_all_adjacent (g : graph.t V) (w : world V) : Prop :=
  ∀ u v, u ∈ graph.__iter__ g → v ∈ graph.__iter__ g → u ≠ v →
         v ∈ graph_nbrs g w u.
Definition digraph_all_adjacent (g : digraph.t V) (w : world V) : Prop :=
  ∀ u v, u ∈ digraph.__iter__ g → v ∈ digraph.__iter__ g → u ≠ v →
         v ∈ digraph_nbrs g w u.


(** [g'] is [g] with the edge between [i] and [j] added. *)
Definition graph_edge_added (g : graph.t V) (w : world V) (i j : V)
    (g' : graph.t V) (w' : world V) : Prop :=
  graph.__iter__ g' = graph.__iter__ g
  ∧ graph.nv g' = graph.nv g
  ∧ (graph.ne g' == graph.ne g + 1)%Q
  ∧ (∀ v, graph_nbrs g' w' v =
          if decide (v = i) then graph_nbrs g w v ∪ {[j]}
          else if decide (v = j) then graph_nbrs g w v ∪ {[i]}
          else graph_nbrs g w v)
  ∧ stdout w' = stdout w.

(** [g'] is [g] with the edge from [i] to [j] added. *)
Definition digraph_edge_added (g : digraph.t V) (w : world V) (i j : V)
    (g' : digraph.t V) (w' : world V) : Prop :=
  digraph.__iter__ g' = digraph.__iter__ g
  ∧ digraph.nv g' = digraph.nv g
  ∧ digraph.ne g' = (digraph.ne g + 1)%Z
  ∧ (∀ v, digraph_nbrs g' w' v =
          if decide (v = i) then digraph_nbrs g w v ∪ {[j]}
          else digraph_nbrs g w v)
  ∧ stdout w' = stdout w.
End consistency_vocabulary.

(** ** Vocabulary of [adj_mat] *)

(** [mat] is an array of shape [(n, n)]. *)
Definition np_shape (n : nat) (mat : list (list Q)) : Prop :=
  length mat = n ∧ ∀ r row, mat !! r = Some row → length row = n.

(** The entry [mat[r, c]]. *)
Definition np_entry (mat : list (list Q)) (r c : nat) : option Q :=
  row ← mat !! r; row !! c.

(** The set the dictionary [ve] holds for the label [i]. *)
Definition labelled_nbrs (ve : pydict Z loc) (w : world Z) (i : Z) : gset Z :=
  match dict_get ve i with
  | Some l => deref w l
  | None => ∅
  end.

(** What [adj_mat] needs of an instance: every number below [nv] is a
    label, and the labels in the set of such a number are indices of an
    axis of size [nv]. *)
Definition indexable_by_labels (nv : Z) (ve : pydict Z loc) (w : world Z)
  : Prop :=
  ∀ i, (0 ≤ i < nv)%Z →
       i ∈ keys ve ∧ ∀ j, j ∈ labelled_nbrs ve w i → (- nv ≤ j < nv)%Z.

(** [mat] is the array of shape [(n, n)] that holds 1 at the positions
    [marked] and 0 elsewhere. *)
Definition np_marks (n : nat) (mat : list (list Q))
    (marked : nat → nat → Prop) : Prop :=
  np_shape n mat
  ∧ ∀ r c, r < n → c < n →
           (np_entry mat r c = Some 1%Q ∧ marked r c)
           ∨ (np_entry mat r c = Some 0%Q ∧ ¬ marked r c).

(** ** Sample instances with integer labels *)

Module int_sample.
(** The complete graph on the labels 0 and 1 and the digraph on these
    labels with the one edge from 0 to 1, in one world. *)
Definition k2 : graph.t Z :=
  graph.Graph [(0%Z, 0); (1%Z, 1)] [(0%Z, 1%Z); (1%Z, 1%Z)] 2 1.
Definition d1 : digraph.t Z :=
  digraph.Digraph [(0%Z, 2); (1%Z, 3)] [(0%Z, 1%Z); (1%Z, 0%Z)] 2 1.
Definition w : world Z := World [{[1%Z]}; {[0%Z]}; {[1%Z]}; ∅] [].
End int_sample.

(** ** Vocabulary of [connected_components] *)

Section cc_vocabulary.
Context {V : Type} `{Countable V}.
Implicit Types (st : cc_state (V:=V)) (S : gset V) (L : list V).

(** What holds of every state of [connected_components(g)] called in the
    world [w0]: [visited] has the vertices of [g] as its keys, and the
    objects of [w0] and the output are as they were. *)
Record cc_inv (g : graph.t V) (w0 : world V) st : Prop := CcInv {
  cci_keys : keys (cc_visited st) = graph.__iter__ g;
  cci_heap : length (heap w0) ≤ length (heap (cc_world st));
  cci_frame : ∀ l, l < length (heap w0) → deref (cc_world st) l = deref w0 l;
  cci_stdout : stdout (cc_world st) = stdout w0;
}.

(** The vertices [st] has visited are those of [S]. *)
Definition cc_visited_is st S : Prop :=
  ∀ u, dict_get (cc_visited st) u = Some true ↔ u ∈ S.

(** What the vertices [L] found below [v] satisfy, [S] being the vertices
    visited before: they are new vertices of [g], each found once and
    joined to [v] by a path of [g], and every neighbour of one of them is
    visited. *)
Record cc_found (g : graph.t V) (w0 : world V) S (v : V) L : Prop :=
  CcFound {
  ccf_nodup : NoDup L;
  ccf_fresh : ∀ u, u ∈ L → u ∈ graph.__iter__ g ∧ u ∉ S;
  ccf_reach : ∀ u, u ∈ L → rtc (λ a b, b ∈ graph_nbrs g w0 a) v u;
  ccf_closed : ∀ n b, n ∈ L → b ∈ graph_nbrs g w0 n →
                      b ∈ S ∪ list_to_set L;
}.

(** The call [explore(v)] on the state [st] ended in [st'] with the
    outcome [o]: either [visited[w]] raised [KeyError] for a neighbour [w]
    that is no vertex, or the call returned having appended [v] and the
    vertices it found to [this_comp]. *)
Definition cc_explored (g : graph.t V) (w0 : world V) S (v : V) st
    (o : outcome ()) st' : Prop :=
  cc_world st' = cc_world st ∧ comps st' = comps st
  ∧ (o = Exc KeyError ∧ ¬ graph_closed g w0
     ∨ o = Ret ()
       ∧ ∃ L,
           cc_inv g w0 st'
           ∧ cc_visited_is st' (S ∪ {[v]} ∪ list_to_set L)
           ∧ this_comp st' = this_comp st ++ v :: L
           ∧ cc_found g w0 (S ∪ {[v]}) v L
           ∧ ∀ b, b ∈ graph_nbrs g w0 v →
                  b ∈ S ∪ {[v]} ∪ list_to_set L).

(** What [explore] of [connected_components] does when called with [d]
    frames left on a vertex that is not visited. *)
Definition cc_explore_ok (set_order : gset V → list V) (g : graph.t V)
    (w0 : world V) (d : nat) : Prop :=
  ∀ v st S,
    v ∈ graph.__iter__ g → v ∉ S →
    cc_inv g w0 st → cc_visited_is st S →
    length (unvisited_in (graph.__iter__ g) S) ≤ d →
    ∃ o st',
      cc_explore set_order (graph_indexable g) d v st = (o, st')
      ∧ cc_explored g w0 S v st o st'.

(** The lists of vertices the outer loop collected, one per call of
    [explore], in the order of the calls: each starts with a vertex [r]
    that was not visited, goes on with the vertices found below [r], and
    leaves the visited vertices closed under adjacency. *)
Inductive cc_trace (g : graph.t V) (w0 : world V) : list (list V) → Prop :=
  | cc_trace_nil : cc_trace g w0 []
  | cc_trace_snoc Ls r L :
      cc_trace g w0 Ls →
      r ∈ graph.__iter__ g → r ∉ concat Ls →
      cc_found g w0 (list_to_set (concat Ls) ∪ {[r]}) r L →
      (∀ b, b ∈ graph_nbrs g w0 r →
            b ∈ (list_to_set (concat Ls) ∪ {[r]} ∪ list_to_set L : gset V)) →
      cc_trace g w0 (Ls ++ [r :: L]).

(** [c] is the subgraph of [g] on the vertices [L], in this order, held in
    set objects of its own that did not exist in [w0]. *)
Record cc_comp (g : graph.t V) (w0 w : world V) L (c : graph.t V)
    : Prop := CcComp {
  ccc_wf : graph_wf c w;
  ccc_iter : graph.__iter__ c = L;
  ccc_len : graph.__len__ c = Z.of_nat (length L);
  ccc_nbrs : ∀ v u, u ∈ graph_nbrs c w v ↔
                    v ∈ L ∧ u ∈ L ∧ u ∈ graph_nbrs g w0 v;
  ccc_new : ∀ v l, dict_get (graph.ve_dict c) v = Some l →
                   length (heap w0) ≤ l;
}.

(** What holds between two turns of the outer loop. *)
Record cc_top (g : graph.t V) (w0 : world V) st (Ls : list (list V))
    : Prop := CcTop {
  cct_inv : cc_inv g w0 st;
  cct_this : this_comp st = [];
  cct_visited : cc_visited_is st (list_to_set (concat Ls));
  cct_trace : cc_trace g w0 Ls;
  cct_comps : Forall2 (cc_comp g w0 (cc_world st)) Ls (comps st);
}.
End cc_vocabulary.

(** The body of the outer loop of [connected_components]. *)
Abbreviation cc_top_body set_order G d :=
  (λ v (_ : ()),
     b ⇐ cc_is_visited v ;;
     if negb b then
       cc_explore set_order (graph_indexable G) d v ;;; cc_collect G
     else ret ()).

(** The body of the loop of its [explore]. *)
Abbreviation cc_body set_order G d :=
  (λ w (_ : ()),
     b ⇐ cc_is_visited w ;;
     if negb b then cc_explore set_order G d w else ret ()).

(** ** Vocabulary of the edges in [dfs] *)

Section dfs_edge_vocabulary.
Context {V : Type} `{Countable V}.
Context (set_order : gset V → list V) (G : indexable V) (w : world V).
Implicit Types (s : dfs_state (V:=V)) (L : list V) (u v x : V) (c : nat).

(** [x] is in the list [G[u]] is iterated in. *)
Definition dfs_adj u x : Prop :=
  ∃ us, neighbours set_order G w u = Ret us ∧ x ∈ us.

(** Indexing [G] by a vertex succeeds. *)
Definition dfs_indexed : Prop :=
  ∀ v, v ∈ ix_iter G → ∃ us, neighbours set_order G w v = Ret us.

(** Indexing [G] by a vertex yields vertices only. *)
Definition dfs_closed : Prop :=
  ∀ u x, u ∈ ix_iter G → dfs_adj u x → x ∈ ix_iter G.

(** [visited] has no key but the vertices. *)
Definition dfs_known s : Prop :=
  ∀ u, u ∉ ix_iter G → dict_get (visited s) u = None.

(** Every vertex [s] has visited has got its first timestamp, and that
    lies below the counter [c]. *)
Definition dfs_seen s c : Prop :=
  ∀ u, dict_get (visited s) u = Some true →
       ∃ p l, dict_get (pre_post s) u = Some (p :: l) ∧ p < c.

(** What a piece of the traversal that started at the vertices [roots]
    and ended in [s'] with counter [c'] did to the vertices [L] it
    discovered: every neighbour of a vertex of [L] is visited, and was
    discovered before the vertex was left; every vertex of [L] is joined
    to a vertex of [roots] by a path, and to every vertex of [L] whose
    interval holds its own. *)
Record dfs_more (roots : list V) s' c' L : Prop := DfsMore {
  more_closed : ∀ u x, u ∈ L → dfs_adj u x →
                       dict_get (visited s') x = Some true;
  more_edge : ∀ u x p1 q1 p2 l,
    u ∈ L → dfs_adj u x →
    dict_get (pre_post s') u = Some [p1; q1] →
    dict_get (pre_post s') x = Some (p2 :: l) → p2 < q1;
  more_reach : ∀ x, x ∈ L → ∃ r, r ∈ roots ∧ rtc dfs_adj r x;
  more_desc : ∀ u x p1 q1 p2 q2,
    u ∈ L → x ∈ L →
    dict_get (pre_post s') u = Some [p1; q1] →
    dict_get (pre_post s') x = Some [p2; q2] →
    p1 < p2 → q2 < q1 → rtc dfs_adj u x;
  more_seen : dfs_seen s' c';
}.

(** What [explore] does when called with [d] frames left on a vertex that
    is not visited, whether or not [G] is closed: either [visited[u]]
    raises [KeyError] for a neighbour [u] that is no vertex, or the call
    returns. *)
Definition explore_cases (d : nat) : Prop :=
  ∀ v c s,
    v ∈ ix_iter G → dfs_ok (ix_iter G) s → dfs_known s → dfs_seen s c →
    dict_get (visited s) v = Some false →
    length (unvisited s (ix_iter G)) ≤ d →
    ∃ o s',
      explore set_order G w d v c s = (o, s')
      ∧ (o = Exc KeyError ∧ ¬ dfs_closed
         ∨ ∃ c' L,
             o = Ret c' ∧ dfs_step s c s' c' L ∧ v ∈ L
             ∧ dfs_more [v] s' c' L).
End dfs_edge_vocabulary.

(** ** The loops of the scripts *)

Section random_clients.
Context {V : Type} `{Countable V}.


End random_clients.

(** * Verification *)

(** ** The monad *)

Section monad_facts.
Context {S A B : Type}.

Lemma bind_Ret (m : py S A) (k : A → py S B) s a s1 :
  m s = (Ret a, s1) → bind m k s = k a s1.
Proof. unfold bind. by intros ->. Qed.

Lemma bind_Exc (m : py S A) (k : A → py S B) s e s1 :
  m s = (Exc e, s1) → bind m k s = (Exc e, s1).
Proof. unfold bind. by intros ->. Qed.

Lemma bind_Ret_inv (m : py S A) (k : A → py S B) s b s2 :
  bind m k s = (Ret b, s2) →
  ∃ a s1, m s = (Ret a, s1) ∧ k a s1 = (Ret b, s2).
Proof.
  unfold bind. destruct (m s) as [[a|e] s1]; [eauto | discriminate].
Qed.
End monad_facts.

(** ** Dictionaries *)

Section pydict_facts.
Context {K : Type} `{EqDecision K} {A : Type}.
Implicit Types (d : pydict K A) (k : K) (a : A).

Lemma dict_get_Some_keys d k a : dict_get d k = Some a → k ∈ keys d.
Proof.
  induction d as [|[k' a'] d IH]; simpl; [done|].
  case_decide; set_solver.
Qed.

Lemma dict_get_is_Some d k : is_Some (dict_get d k) ↔ k ∈ keys d.
Proof.
  induction d as [|[k' a'] d IH]; simpl.
  - split; [by intros [? ?] | by intros ?%elem_of_nil].
  - case_decide; subst.
    + split; [set_solver | eauto].
    + rewrite IH. set_solver.
Qed.

Lemma dict_get_None d k : dict_get d k = None ↔ k ∉ keys d.
Proof. rewrite <-dict_get_is_Some, eq_None_not_Some. done. Qed.

Lemma getitem_Ret d k a : getitem d k = Ret a ↔ dict_get d k = Some a.
Proof. unfold getitem. destruct (dict_get d k); naive_solver. Qed.

Lemma getitem_key d k : k ∈ keys d → ∃ a, getitem d k = Ret a.
Proof.
  intros [a Ha]%dict_get_is_Some. exists a. by apply getitem_Ret.
Qed.

Lemma contains_true d k : contains d k = true ↔ k ∈ keys d.
Proof. unfold contains. by rewrite bool_decide_eq_true. Qed.

Lemma dict_get_set d k a k' :
  dict_get (dict_set k a d) k' =
    if decide (k' = k) then Some a else dict_get d k'.
Proof.
  induction d as [|[k0 a0] d IH]; simpl.
  - by repeat case_decide.
  - repeat (case_decide; simpl; subst); try done.
Qed.

Lemma dict_get_set_eq d k a : dict_get (dict_set k a d) k = Some a.
Proof. rewrite dict_get_set. by case_decide. Qed.

Lemma dict_get_set_ne d k a k' :
  k' ≠ k → dict_get (dict_set k a d) k' = dict_get d k'.
Proof. intros. rewrite dict_get_set. by case_decide. Qed.

Lemma keys_set_present d k a : k ∈ keys d → keys (dict_set k a d) = keys d.
Proof.
  induction d as [|[k0 a0] d IH]; simpl; [by intros ?%elem_of_nil|].
  intros Hk. case_decide; simpl; subst; [done|].
  f_equal. apply IH. set_solver.
Qed.

Lemma keys_set_absent d k a :
  k ∉ keys d → keys (dict_set k a d) = keys d ++ [k].
Proof.
  induction d as [|[k0 a0] d IH]; simpl; [done|].
  intros Hk. case_decide; simpl; subst; [set_solver|].
  f_equal. apply IH. set_solver.
Qed.

Lemma elem_of_keys_set d k a k' :
  k' ∈ keys (dict_set k a d) ↔ k' = k ∨ k' ∈ keys d.
Proof.
  rewrite <-!dict_get_is_Some, dict_get_set.
  case_decide; naive_solver.
Qed.

Lemma NoDup_keys_set d k a : NoDup (keys d) → NoDup (keys (dict_set k a d)).
Proof.
  intros Hd. destruct (decide (k ∈ keys d)).
  - by rewrite keys_set_present.
  - rewrite keys_set_absent by done. apply NoDup_app.
    set_solver by eauto using NoDup_singleton.
Qed.
End pydict_facts.

(** ** The heap and [add_edge] *)

Section world_facts.
Context {V : Type} `{Countable V}.
Implicit Types (w : world V) (l : loc) (x : V).

Lemma deref_set_add w l x l' :
  l < length (heap w) →
  deref (set_add l x w) l' =
    if decide (l' = l) then deref w l ∪ {[x]} else deref w l'.
Proof.
  intros Hl. unfold deref at 1, set_add. simpl.
  case_decide; subst.
  - by rewrite list_lookup_insert_eq.
  - by rewrite list_lookup_insert_ne.
Qed.

Lemma length_heap_set_add w l x :
  length (heap (set_add l x w)) = length (heap w).
Proof. unfold set_add. simpl. by rewrite length_insert. Qed.

Lemma stdout_set_add w l x : stdout (set_add l x w) = stdout w.
Proof. done. Qed.
End world_facts.

Section add_edge.
Context {V : Type} `{Countable V}.
Implicit Types (g : graph.t V) (w : world V) (i j v : V).

Lemma graph_nbrs_getitem g w v l :
  dict_get (graph.ve_dict g) v = Some l → graph_nbrs g w v = deref w l.
Proof. unfold graph_nbrs. by intros ->. Qed.

Lemma graph_adj_run g w v :
  v ∈ keys (graph.ve_dict g) →
  graph.adj v (g, w) = (Ret (graph_nbrs g w v), (g, w)).
Proof.
  intros [l Hl]%dict_get_is_Some.
  unfold graph.adj, bind, get, lift, ret, getitem, graph_nbrs. simpl.
  by rewrite Hl.
Qed.

Lemma graph_incr_deg_run g w v d :
  dict_get (graph.degs g) v = Some d →
  graph.incr_deg v (g, w) =
    (Ret (), (graph.with_degs (dict_set v (d + 1)%Z (graph.degs g)) g, w)).
Proof.
  intros Hd. unfold graph.incr_deg, bind, get, lift, put, getitem. simpl.
  by rewrite Hd.
Qed.

Lemma graph_adj_add_run g w v x l :
  dict_get (graph.ve_dict g) v = Some l →
  graph.adj_add v x (g, w) = (Ret (), (g, set_add l x w)).
Proof.
  intros Hl. unfold graph.adj_add, bind, get, lift, put, getitem. simpl.
  by rewrite Hl.
Qed.

(** The state a successful [add_edge] ends in. *)
Lemma graph_add_edge_success g w i j li lj di dj :
  i ≠ j →
  dict_get (graph.ve_dict g) i = Some li →
  dict_get (graph.ve_dict g) j = Some lj →
  dict_get (graph.degs g) i = Some di →
  dict_get (graph.degs g) j = Some dj →
  i ∉ graph_nbrs g w j →
  graph.add_edge i j (g, w) =
    (Ret true,
     (graph.Graph (graph.ve_dict g)
        (dict_set j (dj + 1)%Z (dict_set i (di + 1)%Z (graph.degs g)))
        (graph.nv g) (graph.ne g + 1)%Q,
      set_add lj i (set_add li j w))).
Proof.
  intros Hij Hli Hlj Hdi Hdj Hnew.
  assert (i ∈ keys (graph.ve_dict g)) as Hi by eauto using dict_get_Some_keys.
  assert (j ∈ keys (graph.ve_dict g)) as Hj by eauto using dict_get_Some_keys.
  unfold graph.add_edge.
  unfold bind at 1, reads at 1. simpl.
  rewrite (proj2 (contains_true _ _) Hi), (proj2 (contains_true _ _) Hj).
  simpl. rewrite bool_decide_eq_false_2 by done.
  erewrite bind_Ret by (by apply graph_adj_run).
  rewrite bool_decide_eq_true_2 by done.
  unfold graph.incr_ne. unfold bind at 1, modify at 1. simpl.
  erewrite bind_Ret by (by apply graph_incr_deg_run).
  erewrite bind_Ret.
  2:{ apply graph_incr_deg_run. simpl. rewrite dict_get_set_ne by done. done. }
  erewrite bind_Ret by (by apply graph_adj_add_run).
  erewrite bind_Ret by (by apply graph_adj_add_run).
  done.
Qed.

Lemma graph_add_edge_failure g w i j :
  ¬ (i ∈ keys (graph.ve_dict g) ∧ j ∈ keys (graph.ve_dict g) ∧ i ≠ j
     ∧ i ∉ graph_nbrs g w j) →
  graph.add_edge i j (g, w) = (Ret false, (g, w)).
Proof.
  intros Hno. unfold graph.add_edge.
  unfold bind at 1, reads at 1. simpl.
  destruct (contains (graph.ve_dict g) i) eqn:Hi; simpl; [|done].
  destruct (contains (graph.ve_dict g) j) eqn:Hj; simpl; [|done].
  apply contains_true in Hi, Hj.
  case_bool_decide; [done|].
  erewrite bind_Ret by (by apply graph_adj_run).
  case_bool_decide; [|done]. naive_solver.
Qed.

Implicit Types (d : digraph.t V).

Lemma digraph_adj_run d w v :
  v ∈ keys (digraph.ve_dict d) →
  digraph.adj v (d, w) = (Ret (digraph_nbrs d w v), (d, w)).
Proof.
  intros [l Hl]%dict_get_is_Some.
  unfold digraph.adj, bind, get, lift, ret, getitem, digraph_nbrs. simpl.
  by rewrite Hl.
Qed.

Lemma digraph_add_edge_success d w i j li di :
  i ≠ j →
  dict_get (digraph.ve_dict d) i = Some li →
  j ∈ keys (digraph.ve_dict d) →
  dict_get (digraph.out_deg d) i = Some di →
  j ∉ digraph_nbrs d w i →
  digraph.add_edge i j (d, w) =
    (Ret true,
     (digraph.Digraph (digraph.ve_dict d)
        (dict_set i (di + 1)%Z (digraph.out_deg d))
        (digraph.nv d) (digraph.ne d + 1)%Z,
      set_add li j w)).
Proof.
  intros Hij Hli Hj Hdi Hnew.
  assert (i ∈ keys (digraph.ve_dict d)) as Hi by eauto using dict_get_Some_keys.
  unfold digraph.add_edge.
  unfold bind at 1, reads at 1. simpl.
  rewrite (proj2 (contains_true _ _) Hi), (proj2 (contains_true _ _) Hj).
  simpl. rewrite bool_decide_eq_false_2 by done.
  erewrite bind_Ret by (by apply digraph_adj_run).
  rewrite bool_decide_eq_true_2 by done.
  unfold digraph.incr_ne. unfold bind at 1, modify at 1. simpl.
  unfold digraph.incr_out_deg, digraph.adj_add, bind, get, lift, put,
    getitem, ret.
  simpl. rewrite Hdi. simpl.
  unfold digraph.with_out_deg, digraph.with_ne. simpl. by rewrite Hli.
Qed.

Lemma digraph_add_edge_failure d w i j :
  ¬ (i ∈ keys (digraph.ve_dict d) ∧ j ∈ keys (digraph.ve_dict d) ∧ i ≠ j
     ∧ j ∉ digraph_nbrs d w i) →
  digraph.add_edge i j (d, w) = (Ret false, (d, w)).
Proof.
  intros Hno. unfold digraph.add_edge.
  unfold bind at 1, reads at 1. simpl.
  destruct (contains (digraph.ve_dict d) i) eqn:Hi; simpl; [|done].
  destruct (contains (digraph.ve_dict d) j) eqn:Hj; simpl; [|done].
  apply contains_true in Hi, Hj.
  case_bool_decide; [done|].
  erewrite bind_Ret by (by apply digraph_adj_run).
  case_bool_decide; [|done]. naive_solver.
Qed.

Lemma graph_add_edge_spec g w i j :
  graph_wf g w →
  ∃ b g' w',
    graph.add_edge i j (g, w) = (Ret b, (g', w'))
    ∧ (b = true ↔
         i ∈ graph.__iter__ g ∧ j ∈ graph.__iter__ g ∧ i ≠ j
         ∧ i ∉ graph_nbrs g w j)
    ∧ (b = false → g' = g ∧ w' = w)
    ∧ (b = true →
       j ∈ graph_nbrs g' w' i ∧ i ∈ graph_nbrs g' w' j
       ∧ (∀ v, graph_nbrs g w v ⊆ graph_nbrs g' w' v
               ∧ graph_nbrs g' w' v ⊆ graph_nbrs g w v ∪ {[i; j]})
       ∧ graph_deg g' i = (λ n, n + 1)%Z <$> graph_deg g i
       ∧ graph_deg g' j = (λ n, n + 1)%Z <$> graph_deg g j
       ∧ (∀ v, v ≠ i → v ≠ j → graph_deg g' v = graph_deg g v)
       ∧ (graph.ne g' == graph.ne g + 1)%Q
       ∧ graph.ve_dict g' = graph.ve_dict g
       ∧ graph.nv g' = graph.nv g
       ∧ stdout w' = stdout w).
Proof.
  intros [Hkeys Hdegs Hlocs]. unfold graph.__iter__.
  destruct (decide (i ∈ keys (graph.ve_dict g) ∧ j ∈ keys (graph.ve_dict g)
                    ∧ i ≠ j ∧ i ∉ graph_nbrs g w j)) as [Hok|Hno].
  - destruct Hok as (Hi & Hj & Hij & Hnew).
    destruct (proj2 (dict_get_is_Some _ _) Hi) as [li Hli].
    destruct (proj2 (dict_get_is_Some _ _) Hj) as [lj Hlj].
    destruct (Hdegs i Hi) as [di Hdi]. destruct (Hdegs j Hj) as [dj Hdj].
    eexists true, _, _. split; [by eapply graph_add_edge_success|].
    pose proof (Hlocs _ _ Hli) as Hli'. pose proof (Hlocs _ _ Hlj) as Hlj'.
    split; [naive_solver|]. split; [done|]. intros _.
    unfold graph_nbrs, graph_deg. simpl. rewrite Hli, Hlj, Hdi, Hdj. simpl.
    rewrite !deref_set_add by (by rewrite ?length_heap_set_add).
    split; [repeat case_decide; set_solver|].
    split; [repeat case_decide; set_solver|].
    split.
    { intros v. destruct (dict_get (graph.ve_dict g) v) as [l|]; [|done].
      rewrite !deref_set_add by (by rewrite ?length_heap_set_add).
      repeat case_decide; subst; set_solver. }
    rewrite dict_get_set_eq, dict_get_set_ne, dict_get_set_eq by done.
    repeat split; try done.
    intros v ??. by rewrite !dict_get_set_ne.
  - exists false, g, w. split; [by apply graph_add_edge_failure|].
    split; [naive_solver|]. done.
Qed.

Lemma digraph_add_edge_spec d w i j :
  digraph_wf d w →
  ∃ b d' w',
    digraph.add_edge i j (d, w) = (Ret b, (d', w'))
    ∧ (b = false ↔
         i = j ∨ i ∉ digraph.__iter__ d ∨ j ∉ digraph.__iter__ d
         ∨ j ∈ digraph_nbrs d w i)
    ∧ (b = false → d' = d ∧ w' = w)
    ∧ (b = true →
       j ∈ digraph_nbrs d' w' i
       ∧ (∀ v, digraph_nbrs d w v ⊆ digraph_nbrs d' w' v
               ∧ digraph_nbrs d' w' v ⊆ digraph_nbrs d w v ∪ {[j]})
       ∧ digraph_out_deg d' i = (λ n, n + 1)%Z <$> digraph_out_deg d i
       ∧ (∀ v, v ≠ i → digraph_out_deg d' v = digraph_out_deg d v)
       ∧ digraph.ne d' = (digraph.ne d + 1)%Z
       ∧ digraph.ve_dict d' = digraph.ve_dict d
       ∧ digraph.nv d' = digraph.nv d
       ∧ stdout w' = stdout w).
Proof.
  intros [Hkeys Hdegs Hlocs]. unfold digraph.__iter__.
  destruct (decide (i ∈ keys (digraph.ve_dict d) ∧ j ∈ keys (digraph.ve_dict d)
                    ∧ i ≠ j ∧ j ∉ digraph_nbrs d w i)) as [Hok|Hno].
  - destruct Hok as (Hi & Hj & Hij & Hnew).
    destruct (proj2 (dict_get_is_Some _ _) Hi) as [li Hli].
    destruct (Hdegs i Hi) as [di Hdi].
    eexists true, _, _. split; [by eapply digraph_add_edge_success|].
    pose proof (Hlocs _ _ Hli) as Hli'.
    split; [naive_solver|]. split; [done|]. intros _.
    unfold digraph_nbrs, digraph_out_deg. simpl. rewrite Hli, Hdi. simpl.
    rewrite !deref_set_add by done.
    split; [repeat case_decide; set_solver|].
    split.
    { intros v. destruct (dict_get (digraph.ve_dict d) v) as [l|]; [|done].
      rewrite !deref_set_add by done.
      repeat case_decide; subst; set_solver. }
    rewrite dict_get_set_eq.
    repeat split; try done.
    intros v ?. by rewrite !dict_get_set_ne.
  - exists false, d, w. split; [by apply digraph_add_edge_failure|].
    split; [|done]. split; [|done]. intros _.
    destruct (decide (i = j)); [by left|].
    destruct (decide (i ∈ keys (digraph.ve_dict d))); [|by right; left].
    destruct (decide (j ∈ keys (digraph.ve_dict d))); [|by right; right; left].
    right; right; right.
    destruct (decide (j ∈ digraph_nbrs d w i)); naive_solver.
Qed.
End add_edge.

Section add_edge_contract.
Context {V : Type} `{Countable V}.

(** C1: [add_edge(i, j)] of either class returns a boolean and raises
    nothing.  It returns [False] exactly when [i == j], or an endpoint is
    no vertex, or the edge is already there (for the undirected class the
    code tests [i in ve_dict[j]], which is the presence of the edge under
    the symmetry invariant); then the instance and the heap of adjacency
    sets are unchanged.  When it returns [True] the edge is in the
    adjacency sets (in both directions for the undirected class), nothing
    but the two endpoints was added anywhere, the counters of the
    endpoints and [ne] went up by one and everything else is as before. *)
Theorem add_edge_contract (g : graph.t V) (d : digraph.t V) (w : world V)
    (i j : V) :
  graph_wf g w → digraph_wf d w →
  (∃ b g' w',
     graph.add_edge i j (g, w) = (Ret b, (g', w'))
     ∧ (b = true ↔
          i ∈ graph.__iter__ g ∧ j ∈ graph.__iter__ g ∧ i ≠ j
          ∧ i ∉ graph_nbrs g w j)
     ∧ (graph_symmetric g w →
        b = false ↔
          i = j ∨ i ∉ graph.__iter__ g ∨ j ∉ graph.__iter__ g
          ∨ j ∈ graph_nbrs g w i)
     ∧ (b = false → g' = g ∧ w' = w)
     ∧ (b = true →
        j ∈ graph_nbrs g' w' i ∧ i ∈ graph_nbrs g' w' j
        ∧ (∀ v, graph_nbrs g w v ⊆ graph_nbrs g' w' v
                ∧ graph_nbrs g' w' v ⊆ graph_nbrs g w v ∪ {[i; j]})
        ∧ graph_deg g' i = (λ n, n + 1)%Z <$> graph_deg g i
        ∧ graph_deg g' j = (λ n, n + 1)%Z <$> graph_deg g j
        ∧ (∀ v, v ≠ i → v ≠ j → graph_deg g' v = graph_deg g v)
        ∧ (graph.ne g' == graph.ne g + 1)%Q
        ∧ graph.ve_dict g' = graph.ve_dict g
        ∧ graph.nv g' = graph.nv g
        ∧ stdout w' = stdout w))
  ∧ (∃ b d' w',
       digraph.add_edge i j (d, w) = (Ret b, (d', w'))
       ∧ (b = false ↔
            i = j ∨ i ∉ digraph.__iter__ d ∨ j ∉ digraph.__iter__ d
            ∨ j ∈ digraph_nbrs d w i)
       ∧ (b = false → d' = d ∧ w' = w)
       ∧ (b = true →
          j ∈ digraph_nbrs d' w' i
          ∧ (∀ v, digraph_nbrs d w v ⊆ digraph_nbrs d' w' v
                  ∧ digraph_nbrs d' w' v ⊆ digraph_nbrs d w v ∪ {[j]})
          ∧ digraph_out_deg d' i = (λ n, n + 1)%Z <$> digraph_out_deg d i
          ∧ (∀ v, v ≠ i → digraph_out_deg d' v = digraph_out_deg d v)
          ∧ digraph.ne d' = (digraph.ne d + 1)%Z
          ∧ digraph.ve_dict d' = digraph.ve_dict d
          ∧ digraph.nv d' = digraph.nv d
          ∧ stdout w' = stdout w)).
Proof.
  intros Hg Hd. split; [|by apply digraph_add_edge_spec].
  destruct (graph_add_edge_spec g w i j Hg)
    as (b & g' & w' & Hrun & Hiff & Hfail & Hsucc).
  exists b, g', w'. split; [done|]. split; [done|]. split; [|done].
  intros Hsym. specialize (Hsym i j).
  rewrite <-not_true_iff_false, Hiff.
  destruct (decide (i = j)), (decide (i ∈ graph.__iter__ g)),
    (decide (j ∈ graph.__iter__ g)), (decide (j ∈ graph_nbrs g w i));
    tauto.
Qed.
End add_edge_contract.

(** [add_edge(0, 1)] on the two-vertex sample instances. *)
Lemma add_edge_contract_witness :
  graph_wf sample.g0 sample.w0 ∧ digraph_wf sample.d0 sample.w0
  ∧ ∃ b g' w',
      graph.add_edge 0 1 (sample.g0, sample.w0) = (Ret b, (g', w'))
      ∧ (b = false → g' = sample.g0 ∧ w' = sample.w0).
Proof.
  assert (graph_wf sample.g0 sample.w0) as Hg.
  { split.
    - apply (bool_decide_unpack _). vm_compute. exact I.
    - intros v Hv. apply dict_get_is_Some. exact Hv.
    - intros v l Hl. apply dict_get_Some_keys in Hl as Hv.
      simpl in Hv. apply elem_of_cons in Hv as [->|Hv];
        [|apply list_elem_of_singleton in Hv as ->];
        vm_compute in Hl; injection Hl as <-; simpl; lia. }
  assert (digraph_wf sample.d0 sample.w0) as Hd.
  { split.
    - apply (bool_decide_unpack _). vm_compute. exact I.
    - intros v Hv. apply dict_get_is_Some. exact Hv.
    - intros v l Hl. apply dict_get_Some_keys in Hl as Hv.
      simpl in Hv. apply elem_of_cons in Hv as [->|Hv];
        [|apply list_elem_of_singleton in Hv as ->];
        vm_compute in Hl; injection Hl as <-; simpl; lia. }
  split; [exact Hg|]. split; [exact Hd|].
  destruct (add_edge_contract sample.g0 sample.d0 sample.w0 0 1 Hg Hd)
    as [(b & g' & w' & Hrun & _ & _ & Hfail & _) _].
  exists b, g', w'. split; [exact Hrun | exact Hfail].
Defined.

(** ** The constructors *)

Section dict_facts.
Context {K : Type} `{EqDecision K} {A : Type}.
Implicit Types (d : pydict K A) (k : K) (a : A) (ps : list (K * A)).

Lemma dict_get_foldl_set ps d k :
  dict_get (foldl (λ d p, dict_set p.1 p.2 d) d ps) k =
    match dict_get (reverse ps) k with
    | Some a => Some a
    | None => dict_get d k
    end.
Proof.
  revert d. induction ps as [|[k0 a0] ps IH]; intros d; simpl; [done|].
  rewrite IH, reverse_cons.
  assert (∀ (l1 l2 : pydict K A),
            dict_get (l1 ++ l2) k =
              match dict_get l1 k with
              | Some a => Some a
              | None => dict_get l2 k
              end)
    as Happ.
  { intros l1 l2. induction l1 as [|[k1 a1] l1 IH1]; simpl; [done|].
    by case_decide. }
  rewrite Happ. destruct (dict_get (reverse ps) k); [done|].
  simpl. rewrite dict_get_set. by case_decide.
Qed.

Lemma dict_get_dict ps k : dict_get (dict ps) k = dict_get (reverse ps) k.
Proof.
  unfold dict. rewrite dict_get_foldl_set.
  by destruct (dict_get (reverse ps) k).
Qed.

Lemma NoDup_keys_foldl_set ps d :
  NoDup (keys d) → NoDup (keys (foldl (λ d p, dict_set p.1 p.2 d) d ps)).
Proof.
  revert d. induction ps as [|p ps IH]; intros d Hd; simpl; [done|].
  apply IH. by apply NoDup_keys_set.
Qed.

Lemma NoDup_keys_dict ps : NoDup (keys (dict ps)).
Proof. apply NoDup_keys_foldl_set. constructor. Qed.

Lemma elem_of_keys_dict ps k : k ∈ keys (dict ps) ↔ k ∈ ps.*1.
Proof.
  rewrite <-dict_get_is_Some, dict_get_dict, dict_get_is_Some.
  unfold keys. rewrite fmap_reverse, elem_of_reverse. done.
Qed.

(** A list of pairs with distinct keys is its own dictionary. *)
Lemma foldl_set_NoDup ps d :
  NoDup (keys d ++ ps.*1) →
  foldl (λ d p, dict_set p.1 p.2 d) d ps = d ++ ps.
Proof.
  revert d. induction ps as [|[k a] ps IH]; intros d Hd; simpl.
  - by rewrite app_nil_r.
  - assert (k ∉ keys d) as Hk.
    { apply NoDup_app in Hd as (_ & Hd & _). intros Hin.
      apply (Hd k Hin). set_solver. }
    assert (dict_set k a d = d ++ [(k, a)]) as ->.
    { clear -Hk. induction d as [|[k0 a0] d IHd]; simpl; [done|].
      case_decide; subst; [set_solver|]. f_equal. apply IHd. set_solver. }
    rewrite IH.
    + by rewrite <-app_assoc.
    + unfold keys in *. rewrite fmap_app. simpl. by rewrite <-app_assoc.
Qed.

Lemma dict_NoDup ps : NoDup ps.*1 → dict ps = ps.
Proof. intros Hps. unfold dict. by rewrite foldl_set_NoDup. Qed.
End dict_facts.

Section init.
Context {V : Type} `{Countable V}.
Implicit Types (w : world V) (ed : pydict V loc) (vs : list V).

Lemma seeded_pairs_run ed vs w :
  map_py (λ v, l ⇐ graph.get_or_new ed v ;; ret (v, l)) vs w =
    (Ret (seeded_pairs ed vs (length (heap w))), grown w (length vs)).
Proof.
  revert w. induction vs as [|v vs IH]; intros w.
  - unfold grown. simpl. rewrite app_nil_r. by destruct w.
  - simpl. unfold bind at 1. unfold bind at 1.
    unfold graph.get_or_new, bind at 1, new_set, ret at 1 2. simpl.
    unfold bind. rewrite IH. simpl. unfold ret, seeded_pairs, grown. simpl.
    rewrite length_app. simpl. f_equal.
    + f_equal. rewrite Nat.add_0_r. f_equal.
      apply imap_ext. intros i x _. simpl. do 2 f_equal. lia.
    + f_equal. rewrite <-app_assoc. done.
Qed.

Lemma graph_init_run (verts : collection V) ed w :
  graph.__init__ verts ed w =
    (Ret (graph.Graph
            (dict (seeded_pairs ed (iter verts) (length (heap w))))
            (dict ((λ v, (v, 0%Z)) <$> iter verts))
            (len verts)
            (inject_Z (graph.sum_len
                         (dict (seeded_pairs ed (iter verts) (length (heap w))))
                         (grown w (length (iter verts)))) / 2)%Q),
     grown w (length (iter verts))).
Proof.
  unfold graph.__init__. erewrite bind_Ret by apply seeded_pairs_run. done.
Qed.

Lemma digraph_init_run (verts : collection V) ed w :
  digraph.__init__ verts ed w =
    (Ret (digraph.Digraph
            (dict (seeded_pairs ed (iter verts) (length (heap w))))
            (dict ((λ v, (v, 0%Z)) <$> iter verts))
            (len verts)
            (graph.sum_len
               (dict (seeded_pairs ed (iter verts) (length (heap w))))
               (grown w (length (iter verts))))),
     grown w (length (iter verts))).
Proof.
  unfold digraph.__init__. erewrite bind_Ret by apply seeded_pairs_run. done.
Qed.

Lemma seeded_pairs_keys ed vs n : (seeded_pairs ed vs n).*1 = vs.
Proof.
  unfold seeded_pairs. revert n.
  induction vs as [|v vs IH]; intros n; simpl; [done|].
  f_equal. rewrite <-(IH (S n)) at 2. f_equal.
  apply imap_ext. intros; simpl. do 2 f_equal. lia.
Qed.

Lemma elem_of_seeded_pairs ed vs n v l :
  (v, l) ∈ seeded_pairs ed vs n →
  v ∈ vs ∧ (dict_get ed v = Some l
            ∨ dict_get ed v = None ∧ n ≤ l < n + length vs).
Proof.
  unfold seeded_pairs. intros (i & x & Heq & Hi)%elem_of_lookup_imap.
  injection Heq as -> ->. split; [by eapply list_elem_of_lookup_2|].
  apply lookup_lt_Some in Hi as Hlt.
  destruct (dict_get ed x); simpl; [by left|right]. split; [done|lia].
Qed.

Lemma dict_get_elem_of {A} (d : pydict V A) v a :
  dict_get d v = Some a → (v, a) ∈ d.
Proof.
  induction d as [|[k b] d IH]; simpl; [done|].
  case_decide; subst; [intros [= ->]; left | right; auto].
Qed.

Lemma deref_grown_old w n l :
  l < length (heap w) → deref (grown w n) l = deref w l.
Proof. intros. unfold deref, grown. simpl. by rewrite lookup_app_l. Qed.

Lemma deref_grown_new w n l : length (heap w) ≤ l → deref (grown w n) l = ∅.
Proof.
  intros. unfold deref, grown. simpl. rewrite lookup_app_r by done.
  destruct (replicate n ∅ !! (l - length (heap w))) eqn:E; [|done].
  by apply lookup_replicate in E as [-> _].
Qed.
End init.

Section init_policy.
Context {V : Type} `{Countable V}.
Implicit Types (w : world V) (ed : pydict V loc) (verts : collection V).

Lemma seeded_dict_get ed vs w v l :
  seed_allocated ed w →
  dict_get (dict (seeded_pairs ed vs (length (heap w)))) v = Some l →
  v ∈ vs
  ∧ l < length (heap w) + length vs
  ∧ deref (grown w (length vs)) l =
      match dict_get ed v with Some l0 => deref w l0 | None => ∅ end.
Proof.
  intros Hed Hget. rewrite dict_get_dict in Hget.
  apply dict_get_elem_of, elem_of_reverse, elem_of_seeded_pairs in Hget
    as [Hv [Hl|[Hl Hrange]]].
  - rewrite Hl. pose proof (Hed _ _ Hl).
    split; [done|]. split; [lia|]. by apply deref_grown_old.
  - rewrite Hl. split; [done|]. split; [lia|]. apply deref_grown_new. lia.
Qed.

Lemma seeded_keys ed vs n v :
  v ∈ keys (dict (seeded_pairs ed vs n)) ↔ v ∈ vs.
Proof. by rewrite elem_of_keys_dict, seeded_pairs_keys. Qed.

Lemma zero_keys (vs : list V) v :
  v ∈ keys (dict ((λ v, (v, 0%Z)) <$> vs)) ↔ v ∈ vs.
Proof.
  rewrite elem_of_keys_dict, <-list_fmap_compose.
  replace (fst ∘ (λ v0 : V, (v0, 0%Z)) <$> vs) with vs; [done|].
  induction vs; simpl; [done|]. by f_equal.
Qed.

Theorem graph_init_wf verts ed w g w' :
  seed_allocated ed w →
  graph.__init__ verts ed w = (Ret g, w') → graph_wf g w'.
Proof.
  intros Hed. rewrite graph_init_run. intros [= <- <-]. split; simpl.
  - apply NoDup_keys_dict.
  - intros v Hv. apply dict_get_is_Some, zero_keys. by apply seeded_keys in Hv.
  - intros v l Hl. apply seeded_dict_get in Hl as (_ & Hl & _); [|done].
    unfold grown. simpl. by rewrite length_app, length_replicate.
Qed.

Theorem digraph_init_wf verts ed w g w' :
  seed_allocated ed w →
  digraph.__init__ verts ed w = (Ret g, w') → digraph_wf g w'.
Proof.
  intros Hed. rewrite digraph_init_run. intros [= <- <-]. split; simpl.
  - apply NoDup_keys_dict.
  - intros v Hv. apply dict_get_is_Some, zero_keys. by apply seeded_keys in Hv.
  - intros v l Hl. apply seeded_dict_get in Hl as (_ & Hl & _); [|done].
    unfold grown. simpl. by rewrite length_app, length_replicate.
Qed.

(** C9 (amended): the constructor raises nothing and ignores every seed
    entry whose key is no vertex: the vertices of the instance are those of
    [verts], and the neighbour set of a vertex is the very set object the
    seed holds for it, as it is, or a new empty set.  Members of those sets
    are not filtered. *)
Theorem init_seed_policy verts ed w :
  seed_allocated ed w →
  (∃ g w',
      graph.__init__ verts ed w = (Ret g, w')
      ∧ (∀ v, v ∈ graph.__iter__ g ↔ v ∈ iter verts)
      ∧ (∀ v, v ∈ iter verts →
              graph_nbrs g w' v =
                match dict_get ed v with Some l => deref w l | None => ∅ end)
      ∧ (∀ v, v ∉ iter verts → graph_nbrs g w' v = ∅)
      ∧ stdout w' = stdout w
      ∧ (∀ l, l < length (heap w) → deref w' l = deref w l))
  ∧ (∃ g w',
      digraph.__init__ verts ed w = (Ret g, w')
      ∧ (∀ v, v ∈ digraph.__iter__ g ↔ v ∈ iter verts)
      ∧ (∀ v, v ∈ iter verts →
              digraph_nbrs g w' v =
                match dict_get ed v with Some l => deref w l | None => ∅ end)
      ∧ (∀ v, v ∉ iter verts → digraph_nbrs g w' v = ∅)
      ∧ stdout w' = stdout w
      ∧ (∀ l, l < length (heap w) → deref w' l = deref w l)).
Proof.
  intros Hed. split.
  - eexists _, _. split; [apply graph_init_run|].
    unfold graph.__iter__, graph_nbrs. simpl.
    split; [intros v; apply seeded_keys|].
    split; [|split; [|split; [done|intros; by apply deref_grown_old]]].
    + intros v Hv.
      destruct (dict_get (dict _) v) as [l|] eqn:Hl.
      * by apply seeded_dict_get in Hl as (_ & _ & ->).
      * apply dict_get_None in Hl. by rewrite seeded_keys in Hl.
    + intros v Hv.
      destruct (dict_get (dict _) v) as [l|] eqn:Hl; [|done].
      apply dict_get_Some_keys in Hl. by rewrite seeded_keys in Hl.
  - eexists _, _. split; [apply digraph_init_run|].
    unfold digraph.__iter__, digraph_nbrs. simpl.
    split; [intros v; apply seeded_keys|].
    split; [|split; [|split; [done|intros; by apply deref_grown_old]]].
    + intros v Hv.
      destruct (dict_get (dict _) v) as [l|] eqn:Hl.
      * by apply seeded_dict_get in Hl as (_ & _ & ->).
      * apply dict_get_None in Hl. by rewrite seeded_keys in Hl.
    + intros v Hv.
      destruct (dict_get (dict _) v) as [l|] eqn:Hl; [|done].
      apply dict_get_Some_keys in Hl. by rewrite seeded_keys in Hl.
Qed.
End init_policy.

(** C9 as stated fails: [graph([0, 1], {0: {5}})] keeps the neighbour 5. *)
Lemma init_keeps_unknown_neighbour :
  ∃ g w',
    graph.__init__ (sequence [0; 1]) [(0, 0)] (World [{[5]}] []) = (Ret g, w')
    ∧ 5 ∈ graph_nbrs g w' 0 ∧ 5 ∉ [0; 1].
Proof.
  eexists _, _. split; [apply graph_init_run|].
  split; [|set_solver]. by vm_compute.
Qed.

(** The constructor at a seed with one allocated set. *)
Lemma init_seed_policy_witness :
  seed_allocated [(0, 0)] (World [{[5]}] [])
  ∧ ∃ g w',
      graph.__init__ (sequence [0; 1]) [(0, 0)]
        (World [({[5]} : gset nat)] []) = (Ret g, w')
      ∧ (∀ v, v ∈ graph.__iter__ g ↔ v ∈ [0; 1]).
Proof.
  assert (seed_allocated [(0, 0)] (World [({[5]} : gset nat)] [])) as Hed.
  { intros v l. simpl. case_decide; [|done]. intros [= <-]. lia. }
  split; [exact Hed|].
  destruct (init_seed_policy (sequence [0; 1]) [(0, 0)] _ Hed)
    as [(g & w' & Hrun & Hkeys & _) _].
  exists g, w'. split; [exact Hrun | exact Hkeys].
Defined.

(** ** The sampler *)

Section sampler.
Context {K : Type}.
Implicit Types (wd items pre : pydict K Q) (cutoff : Q) (k : K).





End sampler.



(** ** [add_rand_edge] *)

Section stable.
Context {S : Type} (R : relation S) `{!PreOrder R}.

Lemma stable_ret {A} (a : A) : stable R (ret a).
Proof. intros s. simpl. reflexivity. Qed.
Lemma stable_raise {A} e : stable R (@raise S A e).
Proof. intros s. simpl. reflexivity. Qed.
Lemma stable_lift {A} (o : outcome A) : stable R (lift o).
Proof. intros s. simpl. reflexivity. Qed.
Lemma stable_get : stable R get.
Proof. intros s. simpl. reflexivity. Qed.
Lemma stable_reads {A} (f : S → A) : stable R (reads f).
Proof. intros s. simpl. reflexivity. Qed.
Lemma stable_modify (f : S → S) : (∀ s, R s (f s)) → stable R (modify f).
Proof. intros Hf s. apply Hf. Qed.
Lemma stable_put_get {A} (f : S → S) (m : py S A) :
  (∀ s, R s (f s)) → stable R (s ⇐ get ;; put (f s)).
Proof. intros Hf s. apply Hf. Qed.

Lemma stable_bind {A B} (m : py S A) (k : A → py S B) :
  stable R m → (∀ a, stable R (k a)) → stable R (bind m k).
Proof.
  intros Hm Hk s. unfold bind. specialize (Hm s).
  destruct (m s) as [[a|e] s1]; simpl in *; [|done].
  etrans; [done|]. apply Hk.
Qed.

Lemma stable_map_py {X Y} (f : X → py S Y) xs :
  (∀ x, stable R (f x)) → stable R (map_py f xs).
Proof.
  intros Hf. induction xs as [|x xs IH]; simpl; [apply stable_ret|].
  apply stable_bind; [done|]. intros y.
  apply stable_bind; [done|]. intros ys. apply stable_ret.
Qed.

Lemma stable_filter_py {X} (p : X → py S bool) xs :
  (∀ x, stable R (p x)) → stable R (filter_py p xs).
Proof.
  intros Hp. induction xs as [|x xs IH]; simpl; [apply stable_ret|].
  apply stable_bind; [done|]. intros y.
  apply stable_bind; [done|]. intros ys. apply stable_ret.
Qed.

Lemma stable_for_in {A X} (body : X → A → py S A) xs acc :
  (∀ x a, stable R (body x a)) → stable R (for_in xs acc body).
Proof.
  intros Hb. revert acc. induction xs as [|x xs IH]; intros acc; simpl;
    [apply stable_ret|].
  apply stable_bind; [done|]. intros y. apply IH.
Qed.
End stable.

Section add_rand_edge.
Context {V : Type} `{Countable V}.
Implicit Types (g : graph.t V) (d : digraph.t V) (w : world V) (v x : V).

Global Instance same_stdout_preorder {G} :
  PreOrder (same_stdout (V:=V) (G:=G)).
Proof.
  split.
  - intros s. red. reflexivity.
  - intros s1 s2 s3 H12 H23. red. red in H12, H23. by rewrite H23.
Qed.

Global Instance no_complete_error_preorder {G} :
  PreOrder (no_complete_error (V:=V) (G:=G)).
Proof.
  split.
  - intros s. exists []. split; [by rewrite app_nil_r | apply not_elem_of_nil].
  - intros s1 s2 s3 (o1 & H1 & Hn1) (o2 & H2 & Hn2). exists (o1 ++ o2).
    split; [by rewrite H2, H1, app_assoc|]. set_solver.
Qed.

Lemma graph_is_complete_norm g :
  graph.is_complete g = Qeq_bool (graph.norm g) 0.
Proof.
  unfold graph.is_complete, graph.norm.
  destruct (Qeq_bool (graph.ne g) _) eqn:E1; symmetry.
  - apply Qeq_bool_iff in E1. apply Qeq_bool_iff. rewrite E1. field.
  - apply not_true_iff_false. intros E2%Qeq_bool_iff.
    apply not_true_iff_false in E1. apply E1, Qeq_bool_iff.
    unfold Qdiv. change (/ 2)%Q with (1 # 2)%Q. lra.
Qed.

Lemma digraph_is_complete_norm d :
  digraph.is_complete d = (digraph.norm d =? 0)%Z.
Proof.
  unfold digraph.is_complete, digraph.norm.
  destruct (Z.eqb_spec (digraph.ne d) (digraph.nv d * (digraph.nv d - 1)));
    symmetry; [apply Z.eqb_eq | apply Z.eqb_neq]; lia.
Qed.

Ltac stable_step :=
  first
    [ apply stable_ret | apply stable_raise | apply stable_lift
    | apply stable_get | apply stable_reads
    | apply stable_map_py | apply stable_filter_py
    | apply stable_bind ];
  try (apply _).

Lemma graph_adj_stable (R : relation (graph.t V * world V)) `{!PreOrder R} v :
  stable R (graph.adj v).
Proof. unfold graph.adj. repeat (stable_step; intros). Qed.

Lemma graph_adj_add_quiet v x : stable same_stdout (graph.adj_add v x).
Proof.
  intros [g w]. unfold graph.adj_add, bind, get, lift, put. simpl.
  by destruct (getitem _ _).
Qed.

Lemma graph_incr_deg_quiet v : stable same_stdout (graph.incr_deg v).
Proof.
  intros [g w]. unfold graph.incr_deg, bind, get, lift, put. simpl.
  by destruct (getitem _ _).
Qed.

Lemma graph_incr_ne_quiet : stable same_stdout (@graph.incr_ne V _ _).
Proof. by intros [g w]. Qed.

Lemma graph_add_rand_edge_run_complete g w cutoff pick :
  graph.is_complete g = true →
  graph.add_rand_edge cutoff pick (g, w) =
    (Ret (), (g, print complete_error w)).
Proof.
  rewrite graph_is_complete_norm. intros Hnorm.
  unfold graph.add_rand_edge, bind at 1, reads at 1. simpl.
  by rewrite Hnorm.
Qed.

Lemma graph_add_rand_edge_quiet g w cutoff pick :
  graph.is_complete g = false →
  stdout (graph.add_rand_edge cutoff pick (g, w)).2.2 = stdout w.
Proof.
  rewrite graph_is_complete_norm. intros Hnorm.
  unfold graph.add_rand_edge, bind at 1, reads at 1. simpl.
  rewrite Hnorm. simpl.
  match goal with |- stdout (?m _).2.2 = _ =>
    cut (stable same_stdout m); [intros Hm; apply (Hm (g, w))|] end.
  unfold graph.choice_dict, graph.targets.
  repeat first
    [ apply graph_adj_add_quiet | apply graph_incr_deg_quiet
    | apply graph_incr_ne_quiet | apply graph_adj_stable; apply _
    | case_bool_decide
    | stable_step; intros ].
Qed.

Lemma digraph_adj_stable (R : relation (digraph.t V * world V))
    `{!PreOrder R} v :
  stable R (digraph.adj v).
Proof. unfold digraph.adj. repeat (stable_step; intros). Qed.

Lemma digraph_add_edge_quiet v x : stable same_stdout (digraph.add_edge v x).
Proof.
  intros [d w]. unfold digraph.add_edge, bind at 1, reads at 1. simpl.
  destruct (_ && _); [|done]. case_bool_decide; [done|].
  unfold bind at 1.
  pose proof (digraph_adj_stable same_stdout v (d, w)) as Ha.
  destruct (digraph.adj v (d, w)) as [[a|e] [d1 w1]]; [|done].
  red in Ha. simpl in Ha.
  case_bool_decide; [|done].
  unfold digraph.incr_ne, digraph.incr_out_deg, digraph.adj_add,
    bind, modify, get, lift, put, ret. simpl.
  destruct (getitem (digraph.out_deg d1) v); [|done]. simpl.
  by destruct (getitem (digraph.ve_dict d1) v).
Qed.

Lemma same_stdout_no_complete_error {G A} (m : py (G * world V) A) :
  stable same_stdout m → stable no_complete_error m.
Proof.
  intros Hm s. exists []. split; [|apply not_elem_of_nil].
  rewrite app_nil_r. apply Hm.
Qed.

Lemma digraph_add_rand_edge_run_complete fk d w cutoff pick :
  digraph.is_complete d = true →
  digraph.add_rand_edge fk cutoff pick (d, w) =
    (Ret (), (d, print complete_error w)).
Proof.
  rewrite digraph_is_complete_norm. intros Hnorm.
  unfold digraph.add_rand_edge, bind at 1, reads at 1. simpl.
  by rewrite Hnorm.
Qed.

Lemma weighted_choice_checked_prints {K} (wd : pydict K Q) cutoff :
  complete_error ∉ (weighted_choice_checked wd cutoff).2.
Proof.
  unfold weighted_choice_checked. destruct (negb _); simpl.
  - intros [=]%list_elem_of_singleton.
  - destruct (choice_loop _ _ _ _); apply not_elem_of_nil.
Qed.

Lemma stdout_prints w (out : list string) :
  stdout (foldl (λ w line, print line w) w out) = stdout w ++ out.
Proof.
  revert w. induction out as [|line out IH]; intros w; simpl.
  - by rewrite app_nil_r.
  - rewrite IH. unfold print. simpl. by rewrite <-app_assoc.
Qed.

Lemma digraph_add_rand_edge_quiet fk d w cutoff pick :
  digraph.is_complete d = false →
  ∃ out, stdout (digraph.add_rand_edge fk cutoff pick (d, w)).2.2
         = stdout w ++ out
         ∧ complete_error ∉ out.
Proof.
  rewrite digraph_is_complete_norm. intros Hnorm.
  unfold digraph.add_rand_edge, bind at 1, reads at 1. simpl.
  rewrite Hnorm. simpl.
  match goal with |- ∃ out, stdout (?m _).2.2 = _ ∧ _ =>
    cut (stable no_complete_error m); [intros Hm; apply (Hm (d, w))|] end.
  apply stable_bind; [apply _| |intros cd].
  { unfold digraph.choice_dict. repeat (stable_step; intros). }
  apply stable_bind; [apply _| |intros _].
  { intros [d1 w1]. unfold on_snd, modify. simpl.
    pose proof (weighted_choice_checked_prints cd cutoff) as Hout.
    exists (weighted_choice_checked cd cutoff).2. split; [|done].
    apply stdout_prints. }
  apply stable_bind; [apply _|apply stable_lift; apply _|intros c].
  apply stable_bind; [apply _| |intros ts].
  { unfold digraph.targets.
    apply stable_bind; [apply _|apply stable_reads; apply _|].
    intros self. apply stable_filter_py; [apply _|]. intros e.
    case_bool_decide; [|apply stable_ret; apply _].
    apply stable_bind; [apply _| |intros; apply stable_ret; apply _].
    unfold digraph.adj_of. destruct (digraph.as_key fk c);
      [apply digraph_adj_stable; apply _ | apply stable_raise; apply _]. }
  apply stable_bind; [apply _|apply stable_lift; apply _|intros x].
  destruct (digraph.as_key fk c); [|apply stable_ret; apply _].
  apply stable_bind; [apply _| |intros; apply stable_ret; apply _].
  apply same_stdout_no_complete_error, digraph_add_edge_quiet.
Qed.

(** C6 (amended): on a complete instance [add_rand_edge] prints its error
    message and returns [None], the value it also returns after an
    insertion, and leaves the instance and the heap of adjacency sets as
    they were.  On an instance that is not complete the message is never
    printed, whatever else the call does. *)
Theorem add_rand_edge_when_complete g d fk w cutoff pick :
  (graph.is_complete g = true →
   graph.add_rand_edge cutoff pick (g, w) =
     (Ret (), (g, World (heap w) (stdout w ++ [complete_error]))))
  ∧ (graph.is_complete g = false →
     stdout (graph.add_rand_edge cutoff pick (g, w)).2.2 = stdout w)
  ∧ (digraph.is_complete d = true →
     digraph.add_rand_edge fk cutoff pick (d, w) =
       (Ret (), (d, World (heap w) (stdout w ++ [complete_error]))))
  ∧ (digraph.is_complete d = false →
     ∃ out, stdout (digraph.add_rand_edge fk cutoff pick (d, w)).2.2
            = stdout w ++ out
            ∧ complete_error ∉ out).
Proof.
  split; [apply graph_add_rand_edge_run_complete|].
  split; [apply graph_add_rand_edge_quiet|].
  split; [apply digraph_add_rand_edge_run_complete|].
  apply digraph_add_rand_edge_quiet.
Qed.
End add_rand_edge.

(** ** Evaluations *)

(** C8, at its failing input: [G = graph([0, 1, 2])] after
    [G.add_edge(0, 1)] and [G.add_edge(0, 2)] is not complete and its weights
    sum to 1, yet at the draw 0.0 the sampler returns the saturated vertex 0,
    whose weight is 0: the list of targets is empty and [random.choice]
    raises [IndexError].  The same holds for the digraph with the edges
    0→1 and 0→2. *)
Theorem add_rand_edge_zero_draw (pick : nat) :
  (∃ g w,
      with_instance (graph.__init__ (sequence [0; 1; 2]) [])
        (graph.add_edge 0 1 ;;; graph.add_edge 0 2) (World [] [])
      = (Ret (true, g), w)
      ∧ graph.is_complete g = false
      ∧ (∃ cd q, (graph.choice_dict (g, w)).1 = Ret cd
                 ∧ (sum_values cd == 1)%Q
                 ∧ weighted_choice cd 0 = Ret 0
                 ∧ dict_get cd 0 = Some q ∧ (q == 0)%Q)
      ∧ (graph.targets 0 (g, w)).1 = Ret []
      ∧ (graph.add_rand_edge 0 pick (g, w)).1 = Exc IndexError)
  ∧ (∃ g w,
      with_instance (digraph.__init__ (sequence [0; 1; 2]) [])
        (digraph.add_edge 0 1 ;;; digraph.add_edge 0 2) (World [] [])
      = (Ret (true, g), w)
      ∧ digraph.is_complete g = false
      ∧ (∃ cd q, (digraph.choice_dict (g, w)).1 = Ret cd
                 ∧ (sum_values cd == 1)%Q
                 ∧ weighted_choice_checked cd 0 = (Ret (Chosen 0), [])
                 ∧ dict_get cd 0 = Some q ∧ (q == 0)%Q)
      ∧ (digraph.targets (Some 0) (g, w)).1 = Ret []
      ∧ (digraph.add_rand_edge (Some 0) 0 pick (g, w)).1 = Exc IndexError).
Proof.
  split.
  - eexists _, _. split; [vm_compute; reflexivity|].
    split; [reflexivity|]. split.
    { eexists _, _. split; [vm_compute; reflexivity|].
      split; [reflexivity|]. split; [reflexivity|].
      split; [vm_compute; reflexivity|]. reflexivity. }
    split; [vm_compute; reflexivity|]. vm_compute. reflexivity.
  - eexists _, _. split; [vm_compute; reflexivity|].
    split; [reflexivity|]. split.
    { eexists _, _. split; [vm_compute; reflexivity|].
      split; [reflexivity|]. split; [reflexivity|].
      split; [vm_compute; reflexivity|]. reflexivity. }
    split; [vm_compute; reflexivity|]. vm_compute. reflexivity.
Qed.

(** C2, at its failing input: [graph([0, 1], {0: {1}, 1: {0}})] has
    [ne == 1] while every degree counter is 0, and the digraph built from
    the same arguments has [ne == 2] while every out-degree counter is 0. *)
Theorem seeded_degrees_stay_zero :
  (∃ g w,
      graph.__init__ (sequence [0; 1]) [(0, 0); (1, 1)]
        (World [{[1]}; {[0]}] []) = (Ret g, w)
      ∧ graph_nbrs g w 0 = {[1]} ∧ graph_nbrs g w 1 = {[0]}
      ∧ (graph.ne g == 1)%Q
      ∧ graph_degree_sum g = 0%Z
      ∧ ¬ (graph.ne g == inject_Z (graph_degree_sum g) / 2)%Q)
  ∧ (∃ g w,
      digraph.__init__ (sequence [0; 1]) [(0, 0); (1, 1)]
        (World [{[1]}; {[0]}] []) = (Ret g, w)
      ∧ digraph_nbrs g w 0 = {[1]} ∧ digraph_nbrs g w 1 = {[0]}
      ∧ digraph.ne g = 2%Z
      ∧ digraph_out_degree_sum g = 0%Z).
Proof.
  split.
  - eexists _, _. split; [vm_compute; reflexivity|].
    repeat split; try (vm_compute; reflexivity).
    vm_compute. discriminate.
  - eexists _, _. split; [vm_compute; reflexivity|].
    repeat split; vm_compute; reflexivity.
Qed.

(** C5, at its failing input: [digraph([0, 1]).subgraph([0])] raises
    [NameError], since digraph.py binds no name [graph]; no call of
    [digraph.subgraph] returns an instance. *)
Theorem digraph_subgraph_raises :
  (∃ d w,
      digraph.__init__ (sequence [0; 1]) [] (World [] []) = (Ret d, w)
      ∧ (digraph.subgraph d (sequence [0]) w).1 = Exc NameError)
  ∧ (∀ (d : digraph.t nat) some_verts w,
       ∃ e, (digraph.subgraph d some_verts w).1 = Exc e).
Proof.
  split.
  - eexists _, _. split; [vm_compute; reflexivity|]. vm_compute. reflexivity.
  - intros d some_verts w. unfold digraph.subgraph, bind at 1.
    destruct (map_py _ _ w) as [[pairs|e] w1]; [|by exists e].
    exists NameError. reflexivity.
Qed.

(** C6 as stated fails: the call on the complete graph on two vertices and
    the call that inserts an edge into the empty graph on two vertices
    return the same value. *)
Lemma add_rand_edge_same_result :
  graph.is_complete sample.k2 = true
  ∧ (graph.add_rand_edge (1 # 2) 0 (sample.k2, sample.w_k2)).1 = Ret ()
  ∧ graph.is_complete sample.g0 = false
  ∧ ∃ g' w',
      graph.add_rand_edge (1 # 2) 0 (sample.g0, sample.w0)
      = (Ret (), (g', w'))
      ∧ 1 ∈ graph_nbrs g' w' 0.
Proof.
  split; [reflexivity|]. split; [reflexivity|]. split; [reflexivity|].
  eexists _, _. split; [vm_compute; reflexivity|]. by vm_compute.
Qed.

(** [add_rand_edge] on the complete graph on two vertices. *)
Lemma add_rand_edge_when_complete_witness :
  graph.add_rand_edge (1 # 2) 0 (sample.k2, sample.w_k2) =
    (Ret (), (sample.k2, World [{[1]}; {[0]}] [complete_error])).
Proof.
  apply (add_rand_edge_when_complete sample.k2 sample.d0 None sample.w_k2).
  reflexivity.
Defined.

(** ** Depth-first search *)

Section dfs_facts.
Context {V : Type} `{Countable V}.
Implicit Types (s : dfs_state (V:=V)) (vs L : list V) (u v : V) (c : nat).

Lemma all_stamps_ext s s' L :
  (∀ u, u ∈ L → dict_get (pre_post s') u = dict_get (pre_post s) u) →
  all_stamps s' L = all_stamps s L.
Proof.
  unfold all_stamps. induction L as [|u L IH]; intros Heq; simpl; [done|].
  rewrite Heq by left. f_equal. apply IH. intros; apply Heq. by right.
Qed.

Lemma all_stamps_cons s u L :
  all_stamps s (u :: L) =
    default [] (dict_get (pre_post s) u) ++ all_stamps s L.
Proof. done. Qed.

Lemma dfs_step_refl s c : dfs_step s c s c [].
Proof.
  split.
  - constructor.
  - by intros u ?%elem_of_nil.
  - intros u. by destruct (decide (u ∈ [])) as [?%elem_of_nil|].
  - simpl. lia.
  - done.
  - done.
  - by intros u ?%elem_of_nil.
  - by intros ?????? ?%elem_of_nil.
  - done.
Qed.

Lemma dfs_step_trans s c s1 c1 s2 c2 L1 L2 :
  dfs_step s c s1 c1 L1 → dfs_step s1 c1 s2 c2 L2 →
  dfs_step s c s2 c2 (L1 ++ L2).
Proof.
  intros [N1 New1 Vis1 C1 K1 Old1 St1 Ne1 P1]
         [N2 New2 Vis2 C2 K2 Old2 St2 Ne2 P2].
  assert (∀ u, u ∈ L2 → u ∉ L1) as Hdisj.
  { intros u Hu2 Hu1. apply New2 in Hu2. rewrite Vis1 in Hu2.
    by rewrite decide_True in Hu2. }
  assert (∀ u, u ∈ L1 → dict_get (pre_post s2) u = dict_get (pre_post s1) u)
    as Hkeep.
  { intros u Hu. apply Old2. intros ?. by eapply Hdisj. }
  split.
  - apply NoDup_app. naive_solver.
  - intros u [Hu|Hu]%elem_of_app; [by apply New1|].
    apply New2 in Hu as Hu'. rewrite Vis1 in Hu'.
    rewrite decide_False in Hu' by (by apply Hdisj). done.
  - intros u. rewrite Vis2, Vis1.
    repeat case_decide; set_solver.
  - rewrite length_app. lia.
  - by rewrite K2.
  - intros u Hu. rewrite Old2, Old1; set_solver.
  - intros u [Hu|Hu]%elem_of_app.
    + destruct (St1 u Hu) as (p & q & Hpq & ?). exists p, q.
      rewrite Hkeep by done. split; [done|]. lia.
    + destruct (St2 u Hu) as (p & q & Hpq & ?). exists p, q.
      split; [done|]. lia.
  - intros u1 u2 p1 q1 p2 q2 [Hu1|Hu1]%elem_of_app [Hu2|Hu2]%elem_of_app
      Hne E1 E2.
    + rewrite Hkeep in E1, E2 by done. eauto.
    + rewrite Hkeep in E1 by done.
      destruct (St1 u1 Hu1) as (p & q & Hpq & ?).
      destruct (St2 u2 Hu2) as (p' & q' & Hpq' & ?).
      simplify_eq. left. lia.
    + rewrite Hkeep in E2 by done.
      destruct (St1 u2 Hu2) as (p & q & Hpq & ?).
      destruct (St2 u1 Hu1) as (p' & q' & Hpq' & ?).
      simplify_eq. right; left. lia.
    + eauto.
  - unfold all_stamps in *. rewrite bind_app, length_app.
    replace (2 * (length L1 + length L2)) with (2 * length L1 + 2 * length L2)
      by lia.
    rewrite seq_app. apply Permutation_app.
    + rewrite <-P1. fold (all_stamps s2 L1). fold (all_stamps s1 L1).
      by rewrite (all_stamps_ext s1 s2 L1 Hkeep).
    + fold (all_stamps s2 L2). rewrite P2. by rewrite C1.
Qed.

Lemma filter_length_le {A} (P Q : A → Prop) `{!∀ x, Decision (P x)}
    `{!∀ x, Decision (Q x)} (l : list A) :
  (∀ x, x ∈ l → P x → Q x) → length (filter P l) ≤ length (filter Q l).
Proof.
  induction l as [|x l IH]; intros HPQ; [done|].
  rewrite !filter_cons.
  assert (length (filter P l) ≤ length (filter Q l))
    by (apply IH; intros; apply HPQ; [by right|done]).
  destruct (decide (P x)) as [HP|]; destruct (decide (Q x)) as [|HQ]; simpl;
    try lia.
  destruct HQ. apply HPQ; [left|done].
Qed.

Lemma filter_length_lt {A} (P Q : A → Prop) `{!∀ x, Decision (P x)}
    `{!∀ x, Decision (Q x)} (l : list A) y :
  (∀ x, x ∈ l → P x → Q x) → y ∈ l → Q y → ¬ P y →
  length (filter P l) < length (filter Q l).
Proof.
  induction l as [|x l IH]; intros HPQ Hy HQ HP; [by apply elem_of_nil in Hy|].
  rewrite !filter_cons.
  assert (length (filter P l) ≤ length (filter Q l))
    by (apply filter_length_le; intros; apply HPQ; [by right|done]).
  apply elem_of_cons in Hy as [<-|Hy].
  - rewrite decide_False, decide_True by done. simpl. lia.
  - assert (length (filter P l) < length (filter Q l))
      by (apply IH; [intros; apply HPQ; [by right|done]|done..]).
    destruct (decide (P x)) as [HPx|], (decide (Q x)) as [|HQx]; simpl; try lia.
    destruct HQx. apply HPQ; [left|done].
Qed.

Lemma unvisited_step s c s' c' L vs :
  dfs_step s c s' c' L → length (unvisited s' vs) ≤ length (unvisited s vs).
Proof.
  intros Hstep. apply filter_length_le. intros u _.
  rewrite (step_visited _ _ _ _ _ Hstep). by case_decide.
Qed.

Lemma dfs_ok_step vs s c s' c' L :
  dfs_ok vs s → dfs_step s c s' c' L → dfs_ok vs s'.
Proof.
  intros [Hkeys Hfresh] Hstep. split.
  - intros u Hu. rewrite (step_visited _ _ _ _ _ Hstep).
    case_decide; [done|]. by apply Hkeys.
  - intros u. rewrite (step_visited _ _ _ _ _ Hstep).
    case_decide; [done|]. intros Hu.
    rewrite (step_old _ _ _ _ _ Hstep) by done. by apply Hfresh.
Qed.

Lemma mark_run v s :
  mark v s = (Ret (), DfsState (dict_set v true (visited s)) (pre_post s)).
Proof. done. Qed.

Lemma stamp_run v c s l :
  dict_get (pre_post s) v = Some l →
  stamp v c s =
    (Ret (), DfsState (visited s) (dict_set v (l ++ [c]) (pre_post s))).
Proof.
  intros Hl. unfold stamp, bind, get, lift, put, getitem. simpl.
  by rewrite Hl.
Qed.

Lemma is_visited_run u s b :
  dict_get (visited s) u = Some b → is_visited u s = (Ret b, s).
Proof.
  intros Hb. unfold is_visited, bind, get, lift, getitem. simpl.
  by rewrite Hb.
Qed.
End dfs_facts.

Section dfs_explore.
Context {V : Type} `{Countable V}.
Context (set_order : gset V → list V) (G : indexable V) (w : world V).
Implicit Types (s : dfs_state (V:=V)) (L : list V) (u v : V) (c d : nat).

Hypothesis G_closed : ∀ v, v ∈ ix_iter G →
  ∃ us, neighbours set_order G w v = Ret us ∧ ∀ u, u ∈ us → u ∈ ix_iter G.

Lemma dfs_for_in_spec d us c s :
  explore_ok set_order G w d →
  (∀ u, u ∈ us → u ∈ ix_iter G) → dfs_ok (ix_iter G) s →
  length (unvisited s (ix_iter G)) ≤ d →
  ∃ c' s' L,
    for_in us c (dfs_body set_order G w d) s = (Ret c', s')
    ∧ dfs_step s c s' c' L
    ∧ ∀ u, u ∈ us → dict_get (visited s') u = Some true.
Proof.
  intros Hexp. revert c s. induction us as [|u us IH]; intros c s Hus Hok Hd.
  - exists c, s, []. split; [done|]. split; [apply dfs_step_refl|].
    by intros u ?%elem_of_nil.
  - assert (u ∈ ix_iter G) as Hu by (apply Hus; left).
    simpl. destruct (proj1 Hok u Hu) as [b Hb].
    assert (∃ c1 s1 L1,
               dfs_body set_order G w d u c s = (Ret c1, s1)
               ∧ dfs_step s c s1 c1 L1
               ∧ dict_get (visited s1) u = Some true)
      as (c1 & s1 & L1 & Hrun & Hstep1 & Hvis).
    { erewrite bind_Ret by (by apply is_visited_run).
      destruct b; simpl.
      - exists c, s, []. split; [done|]. split; [apply dfs_step_refl|done].
      - destruct (Hexp u c s Hu Hok Hb Hd)
          as (c1 & s1 & L1 & Hrun & Hstep & HuL).
        exists c1, s1, L1. split; [done|]. split; [done|].
        rewrite (step_visited _ _ _ _ _ Hstep). by rewrite decide_True. }
    erewrite bind_Ret by exact Hrun.
    destruct (IH c1 s1) as (c2 & s2 & L2 & Hrun2 & Hstep2 & Hvis2).
    { intros; apply Hus; by right. }
    { by eapply dfs_ok_step. }
    { etrans; [by eapply unvisited_step|done]. }
    exists c2, s2, (L1 ++ L2). split; [done|].
    split; [by eapply dfs_step_trans|].
    intros u' [->|Hu']%elem_of_cons; [|by apply Hvis2].
    rewrite (step_visited _ _ _ _ _ Hstep2). by case_decide.
Qed.

Lemma explore_spec d : explore_ok set_order G w d.
Proof.
  induction d as [|d IH]; intros v c s Hv Hok Hnew Hd.
  { exfalso. assert (0 < length (unvisited s (ix_iter G))); [|lia].
    assert (v ∈ unvisited s (ix_iter G)) as Hin
      by by apply list_elem_of_filter.
    destruct (unvisited s (ix_iter G));
      [by apply elem_of_nil in Hin|simpl; lia]. }
  destruct Hok as [Hkeys Hfresh].
  destruct (G_closed v Hv) as (us & Hus & Hclosed).
  set (s1 := DfsState (dict_set v true (visited s)) (pre_post s)).
  set (s2 := DfsState (visited s1) (dict_set v [c] (pre_post s1))).
  assert (dfs_ok (ix_iter G) s2) as Hok2.
  { split; simpl.
    - intros u Hu. rewrite dict_get_set. case_decide; [done|]. by apply Hkeys.
    - intros u. rewrite !dict_get_set. case_decide; [done|]. by apply Hfresh. }
  assert (length (unvisited s2 (ix_iter G)) ≤ d) as Hd2.
  { assert (length (unvisited s2 (ix_iter G))
            < length (unvisited s (ix_iter G))); [|lia].
    apply (filter_length_lt _ _ _ v); simpl; try done.
    - intros u _. rewrite dict_get_set. by case_decide.
    - by rewrite dict_get_set_eq. }
  destruct (dfs_for_in_spec d us (c + 1) s2 IH Hclosed Hok2 Hd2)
    as (c3 & s3 & L & Hloop & Hstep & _).
  assert (v ∉ L) as HvL.
  { intros HvL. apply (step_new _ _ _ _ _ Hstep) in HvL. simpl in HvL.
    by rewrite dict_get_set_eq in HvL. }
  assert (dict_get (pre_post s3) v = Some [c]) as Hpre.
  { rewrite (step_old _ _ _ _ _ Hstep) by done. simpl. apply dict_get_set_eq. }
  set (s4 := DfsState (visited s3) (dict_set v [c; c3] (pre_post s3))).
  exists (c3 + 1), s4, (v :: L). split.
  { simpl. rewrite (bind_Ret _ _ _ _ _ (mark_run v s)).
    erewrite bind_Ret by (apply stamp_run; simpl; by apply Hfresh).
    unfold lift at 1. rewrite Hus. unfold bind at 1. simpl.
    fold s1. fold s2. rewrite (bind_Ret _ _ _ _ _ Hloop).
    erewrite bind_Ret by (apply stamp_run; exact Hpre). done. }
  split; [|by left].
  pose proof (step_counter _ _ _ _ _ Hstep) as Hc3.
  split.
  - constructor; [done | apply (step_nodup _ _ _ _ _ Hstep)].
  - intros u [->|Hu]%elem_of_cons; [done|].
    apply (step_new _ _ _ _ _ Hstep) in Hu as Hu'. simpl in Hu'.
    rewrite dict_get_set in Hu'. by case_decide.
  - intros u. simpl. rewrite (step_visited _ _ _ _ _ Hstep). simpl.
    rewrite dict_get_set.
    destruct (decide (u = v)) as [->|Hne].
    + rewrite (decide_True (P := v ∈ v :: L)) by left. by case_decide.
    + destruct (decide (u ∈ L)).
      * by rewrite decide_True by by right.
      * rewrite decide_False; [done|]. by intros [?|?]%elem_of_cons.
  - simpl. lia.
  - simpl. rewrite keys_set_present by (by eapply dict_get_Some_keys).
    rewrite (step_keys _ _ _ _ _ Hstep). simpl.
    apply keys_set_present. eapply dict_get_Some_keys. by apply Hfresh.
  - intros u Hu. apply not_elem_of_cons in Hu as [Hne HuL]. simpl.
    rewrite dict_get_set_ne by done.
    rewrite (step_old _ _ _ _ _ Hstep) by done. simpl.
    by rewrite dict_get_set_ne.
  - intros u [->|Hu]%elem_of_cons; simpl.
    + exists c, c3. rewrite dict_get_set_eq. split; [done|]. lia.
    + destruct (step_stamps _ _ _ _ _ Hstep u Hu) as (p & q & Hpq & ?).
      exists p, q. rewrite dict_get_set_ne by (by intros ->).
      split; [done|]. lia.
  - assert (∀ u p q, u ∈ L → dict_get (pre_post s4) u = Some [p; q] →
              dict_get (pre_post s3) u = Some [p; q] ∧ c < p ∧ q < c3) as Hin.
    { intros u p q Hu. simpl. rewrite dict_get_set_ne by (by intros ->).
      intros Hpq. split; [done|].
      destruct (step_stamps _ _ _ _ _ Hstep u Hu) as (p' & q' & Hpq' & ?).
      simplify_eq. lia. }
    assert (∀ p q, dict_get (pre_post s4) v = Some [p; q] → p = c ∧ q = c3)
      as Hroot.
    { intros p q. simpl. rewrite dict_get_set_eq. by intros [= <- <-]. }
    intros u1 u2 p1 q1 p2 q2 [->|Hu1]%elem_of_cons [->|Hu2]%elem_of_cons
      Hne E1 E2; [done| | |].
    + apply Hroot in E1 as [-> ->]. apply Hin in E2 as (_ & ? & ?); [|done].
      right; right; left. lia.
    + apply Hroot in E2 as [-> ->]. apply Hin in E1 as (_ & ? & ?); [|done].
      right; right; right. lia.
    + apply Hin in E1 as [E1 _]; [|done]. apply Hin in E2 as [E2 _]; [|done].
      exact (step_nested _ _ _ _ _ Hstep u1 u2 p1 q1 p2 q2 Hu1 Hu2 Hne E1 E2).
  - rewrite all_stamps_cons. unfold s4 at 1. simpl pre_post.
    rewrite dict_get_set_eq. simpl default.
    rewrite (all_stamps_ext s3 s4 L).
    2:{ intros u Hu. simpl. apply dict_get_set_ne. by intros ->. }
    rewrite (step_perm _ _ _ _ _ Hstep).
    replace (2 * length (v :: L)) with (S (2 * length L + 1))
      by (simpl; lia).
    remember (2 * length L) as n eqn:Hn.
    replace (c + 1) with (S c) in * by lia.
    cbn [seq app]. constructor.
    rewrite seq_app. cbn [seq].
    replace (S c + n) with c3 by lia.
    apply Permutation_cons_append.
Qed.

Lemma dict_get_const {A} (a : A) (vs : list V) u :
  dict_get (dict ((λ v, (v, a)) <$> vs)) u =
    if decide (u ∈ vs) then Some a else None.
Proof.
  rewrite dict_get_dict, <-fmap_reverse.
  rewrite (decide_ext (u ∈ vs) (u ∈ reverse vs)) by by rewrite elem_of_reverse.
  induction (reverse vs) as [|x l IH].
  - by destruct (decide (u ∈ [])) as [?%elem_of_nil|].
  - cbn [fmap list_fmap dict_get]. destruct (decide (u = x)) as [->|Hne].
    + by rewrite decide_True by left.
    + rewrite IH. apply decide_ext. rewrite elem_of_cons. naive_solver.
Qed.

Lemma keys_const {A} (a : A) (vs : list V) :
  NoDup vs → keys (dict ((λ v, (v, a)) <$> vs)) = vs.
Proof.
  intros Hvs.
  assert (((λ v, (v, a)) <$> vs).*1 = vs) as Hfst.
  { rewrite <-list_fmap_compose. clear.
    induction vs; simpl; [done|]. by f_equal. }
  rewrite dict_NoDup by by rewrite Hfst. done.
Qed.

Lemma concat_values_stamps s :
  NoDup (keys (pre_post s)) →
  concat (values (pre_post s)) = all_stamps s (keys (pre_post s)).
Proof.
  unfold all_stamps. generalize (pre_post s). intros d.
  induction d as [|[k l] d IH]; intros Hd; simpl; [done|].
  apply NoDup_cons in Hd as [Hk Hd].
  rewrite decide_True by done. simpl. f_equal.
  rewrite IH by done. clear IH.
  assert (∀ (l0 : list V), (∀ u, u ∈ l0 → u ≠ k) →
            l0 ≫= (λ u, default [] (dict_get d u)) =
            l0 ≫= (λ u, default [] (if decide (u = k) then Some l
                                     else dict_get d u))) as Hext.
  { induction l0 as [|x l0 IHl]; intros Hne; simpl; [done|].
    rewrite decide_False by (apply Hne; left). f_equal.
    apply IHl. intros; apply Hne. by right. }
  apply Hext. intros u Hu ->. done.
Qed.

(** [dfs] on any closed indexable object with distinct vertices. *)
Lemma dfs_loop_spec depth :
  NoDup (ix_iter G) → length (ix_iter G) ≤ depth →
  ∃ c s,
    dfs_loop set_order G w depth (dfs_init G) = (Ret c, s)
    ∧ c = 2 * length (ix_iter G)
    ∧ keys (pre_post s) = ix_iter G
    ∧ (∀ v, v ∈ ix_iter G →
            ∃ p q, dict_get (pre_post s) v = Some [p; q] ∧ p < q ∧ q < c)
    ∧ (∀ u v p1 q1 p2 q2,
         u ≠ v →
         dict_get (pre_post s) u = Some [p1; q1] →
         dict_get (pre_post s) v = Some [p2; q2] →
         nested_or_disjoint p1 q1 p2 q2)
    ∧ concat (values (pre_post s)) ≡ₚ seq 0 c.
Proof.
  intros Hnodup Hdepth.
  assert (dfs_ok (ix_iter G) (dfs_init G)) as Hok.
  { split; unfold dfs_init; simpl.
    - intros u Hu. rewrite dict_get_const. by rewrite decide_True.
    - intros u. rewrite !dict_get_const. by case_decide. }
  destruct (dfs_for_in_spec depth (ix_iter G) 0 (dfs_init G))
    as (c & s & L & Hrun & Hstep & Hall).
  { apply explore_spec. }
  { done. }
  { done. }
  { etrans; [|exact Hdepth]. apply length_filter. }
  assert (∀ u, u ∈ L ↔ u ∈ ix_iter G) as HL.
  { intros u. split.
    - intros Hu%(step_new _ _ _ _ _ Hstep). unfold dfs_init in Hu. simpl in Hu.
      rewrite dict_get_const in Hu. by case_decide.
    - intros Hu%Hall. rewrite (step_visited _ _ _ _ _ Hstep) in Hu.
      case_decide; [done|]. unfold dfs_init in Hu. simpl in Hu.
      rewrite dict_get_const in Hu. by case_decide. }
  assert (L ≡ₚ ix_iter G) as Hperm.
  { apply NoDup_Permutation; [apply (step_nodup _ _ _ _ _ Hstep)|done..]. }
  assert (keys (pre_post s) = ix_iter G) as Hkeys.
  { rewrite (step_keys _ _ _ _ _ Hstep). unfold dfs_init. simpl.
    by apply keys_const. }
  pose proof (step_counter _ _ _ _ _ Hstep) as Hc. rewrite Hperm in Hc.
  simpl in Hc.
  exists c, s. split; [exact Hrun|]. split; [lia|]. split; [done|].
  split; [|split].
  - intros v Hv%HL.
    destruct (step_stamps _ _ _ _ _ Hstep v Hv) as (p & q & Hpq & ?).
    exists p, q. split; [done|]. lia.
  - intros u v p1 q1 p2 q2 Hne E1 E2.
    apply (step_nested _ _ _ _ _ Hstep u v); try done.
    + apply HL. rewrite <-Hkeys. by eapply dict_get_Some_keys.
    + apply HL. rewrite <-Hkeys. by eapply dict_get_Some_keys.
  - rewrite concat_values_stamps by (by rewrite Hkeys).
    rewrite Hkeys. unfold all_stamps. rewrite <-Hperm.
    fold (all_stamps s L). rewrite (step_perm _ _ _ _ _ Hstep).
    rewrite (step_counter _ _ _ _ _ Hstep). done.
Qed.
End dfs_explore.

Section dfs_claims.
Context {V : Type} `{Countable V}.
Context (set_order : gset V → list V).
Hypothesis set_order_elements : ∀ s, set_order s ≡ₚ elements s.

Lemma graph_indexable_closed (g : graph.t V) w :
  graph_closed g w →
  ∀ v, v ∈ ix_iter (graph_indexable g) →
    ∃ us, neighbours set_order (graph_indexable g) w v = Ret us
          ∧ ∀ u, u ∈ us → u ∈ ix_iter (graph_indexable g).
Proof.
  intros Hclosed v [l Hl]%dict_get_is_Some.
  exists (set_order (deref w l)). split.
  - unfold neighbours, graph_indexable, graph.__getitem__, getitem. simpl.
    by rewrite Hl.
  - intros u Hu. apply (Hclosed v). unfold graph_nbrs. rewrite Hl.
    rewrite set_order_elements in Hu. by apply elem_of_elements in Hu.
Qed.

Lemma digraph_indexable_closed (g : digraph.t V) w :
  digraph_closed g w →
  ∀ v, v ∈ ix_iter (digraph_indexable g) →
    ∃ us, neighbours set_order (digraph_indexable g) w v = Ret us
          ∧ ∀ u, u ∈ us → u ∈ ix_iter (digraph_indexable g).
Proof.
  intros Hclosed v [l Hl]%dict_get_is_Some.
  exists (set_order (deref w l)). split.
  - unfold neighbours, digraph_indexable, digraph.__getitem__, getitem. simpl.
    by rewrite Hl.
  - intros u Hu. apply (Hclosed v). unfold digraph_nbrs. rewrite Hl.
    rewrite set_order_elements in Hu. by apply elem_of_elements in Hu.
Qed.

Lemma dfs_indexable_spec (G : indexable V) w depth :
  (∀ v, v ∈ ix_iter G →
     ∃ us, neighbours set_order G w v = Ret us
           ∧ ∀ u, u ∈ us → u ∈ ix_iter G) →
  NoDup (ix_iter G) → length (ix_iter G) ≤ depth →
  ∃ c s,
    dfs_loop set_order G w depth (dfs_init G) = (Ret c, s)
    ∧ dfs set_order G w depth = Ret (pre_post s)
    ∧ c = 2 * length (ix_iter G)
    ∧ dfs_intervals (ix_iter G) (pre_post s)
    ∧ concat (values (pre_post s)) ≡ₚ seq 0 c.
Proof.
  intros Hclosed Hnodup Hdepth.
  destruct (dfs_loop_spec set_order G w Hclosed depth Hnodup Hdepth)
    as (c & s & Hrun & Hc & Hkeys & Hpairs & Hnest & Hperm).
  exists c, s. split; [done|]. split; [unfold dfs; by rewrite Hrun|].
  split; [done|]. split; [|done].
  split; [done|]. split; [|done].
  intros v Hv. destruct (Hpairs v Hv) as (p & q & ? & ? & ?). eauto.
Qed.

(** C3: on every graph or digraph whose adjacency sets mention vertices
    only, and with as many frames as there are vertices, [dfs] returns a
    dictionary that holds for every vertex exactly one pair [[pre, post]]
    with [pre < post], and the intervals of two distinct vertices are
    disjoint or one lies strictly inside the other. *)
Theorem dfs_interval_nesting (g : graph.t V) (d : digraph.t V) w depth :
  graph_wf g w → graph_closed g w → length (graph.__iter__ g) ≤ depth →
  digraph_wf d w → digraph_closed d w →
  length (digraph.__iter__ d) ≤ depth →
  (∃ pp, dfs set_order (graph_indexable g) w depth = Ret pp
         ∧ dfs_intervals (graph.__iter__ g) pp)
  ∧ (∃ pp, dfs set_order (digraph_indexable d) w depth = Ret pp
           ∧ dfs_intervals (digraph.__iter__ d) pp).
Proof.
  intros Hg Hgc Hgd Hd Hdc Hdd. split.
  - destruct (dfs_indexable_spec (graph_indexable g) w depth)
      as (c & s & _ & Hdfs & _ & Hint & _);
      [by apply graph_indexable_closed|apply (graph_wf_keys _ _ Hg)|done|].
    by exists (pre_post s).
  - destruct (dfs_indexable_spec (digraph_indexable d) w depth)
      as (c & s & _ & Hdfs & _ & Hint & _);
      [by apply digraph_indexable_closed|apply (digraph_wf_keys _ _ Hd)|done|].
    by exists (pre_post s).
Qed.

(** C10: on every graph or digraph with [nv] vertices (closed, and with
    enough frames) the counter of [dfs] ends at [2 * nv], and the timestamps
    of all the vertices together are the numbers [0 .. 2 * nv - 1], each
    exactly once. *)
Theorem dfs_counter_range (g : graph.t V) (d : digraph.t V) w depth :
  graph_wf g w → graph_closed g w → length (graph.__iter__ g) ≤ depth →
  graph.nv g = Z.of_nat (length (graph.__iter__ g)) →
  digraph_wf d w → digraph_closed d w →
  length (digraph.__iter__ d) ≤ depth →
  digraph.nv d = Z.of_nat (length (digraph.__iter__ d)) →
  (∃ c s,
      dfs_loop set_order (graph_indexable g) w depth
        (dfs_init (graph_indexable g)) = (Ret c, s)
      ∧ dfs set_order (graph_indexable g) w depth = Ret (pre_post s)
      ∧ Z.of_nat c = (2 * graph.nv g)%Z
      ∧ concat (values (pre_post s)) ≡ₚ seq 0 c)
  ∧ (∃ c s,
      dfs_loop set_order (digraph_indexable d) w depth
        (dfs_init (digraph_indexable d)) = (Ret c, s)
      ∧ dfs set_order (digraph_indexable d) w depth = Ret (pre_post s)
      ∧ Z.of_nat c = (2 * digraph.nv d)%Z
      ∧ concat (values (pre_post s)) ≡ₚ seq 0 c).
Proof.
  intros Hg Hgc Hgd Hgn Hd Hdc Hdd Hdn. split.
  - destruct (dfs_indexable_spec (graph_indexable g) w depth)
      as (c & s & Hrun & Hdfs & Hc & _ & Hperm);
      [by apply graph_indexable_closed|apply (graph_wf_keys _ _ Hg)|done|].
    exists c, s. repeat split; try done. rewrite Hgn, Hc. simpl. lia.
  - destruct (dfs_indexable_spec (digraph_indexable d) w depth)
      as (c & s & Hrun & Hdfs & Hc & _ & Hperm);
      [by apply digraph_indexable_closed|apply (digraph_wf_keys _ _ Hd)|done|].
    exists c, s. repeat split; try done. rewrite Hdn, Hc. simpl. lia.
Qed.
End dfs_claims.

Section samples.
Import sample.

Lemma sample_k2_wf : graph_wf k2 w1.
Proof.
  split.
  - apply (bool_decide_unpack _). vm_compute. exact I.
  - intros v Hv. apply dict_get_is_Some. exact Hv.
  - intros v l. unfold k2. simpl. repeat case_decide; intros [= <-]; simpl; lia.
Qed.

Lemma sample_d0_wf : digraph_wf d0 w1.
Proof.
  split.
  - apply (bool_decide_unpack _). vm_compute. exact I.
  - intros v Hv. apply dict_get_is_Some. exact Hv.
  - intros v l. unfold d0. simpl. repeat case_decide; intros [= <-]; simpl; lia.
Qed.

Lemma sample_k2_closed : graph_closed k2 w1.
Proof.
  intros v u. unfold graph_nbrs, k2, graph.__iter__. simpl.
  repeat case_decide; subst; unfold deref; simpl; set_solver.
Qed.

Lemma sample_d0_closed : digraph_closed d0 w1.
Proof.
  intros v u. unfold digraph_nbrs, d0, digraph.__iter__. simpl.
  repeat case_decide; subst; unfold deref; simpl; set_solver.
Qed.
End samples.

(** [dfs] on the complete graph on two vertices. *)
Lemma dfs_interval_nesting_witness :
  ∃ pp, dfs elements (graph_indexable sample.k2) sample.w1 2 = Ret pp
        ∧ dfs_intervals [0; 1] pp.
Proof.
  apply (dfs_interval_nesting elements (λ s, reflexivity _)
           sample.k2 sample.d0 sample.w1 2
           sample_k2_wf sample_k2_closed (le_n 2)
           sample_d0_wf sample_d0_closed (le_n 2)).
Defined.

(** The counter of [dfs] on the complete graph on two vertices. *)
Lemma dfs_counter_range_witness :
  ∃ c s,
    dfs_loop elements (graph_indexable sample.k2) sample.w1 2
      (dfs_init (graph_indexable sample.k2)) = (Ret c, s)
    ∧ dfs elements (graph_indexable sample.k2) sample.w1 2
      = Ret (pre_post s)
    ∧ Z.of_nat c = (2 * graph.nv sample.k2)%Z
    ∧ concat (values (pre_post s)) ≡ₚ seq 0 c.
Proof.
  apply (dfs_counter_range elements (λ s, reflexivity _)
           sample.k2 sample.d0 sample.w1 2
           sample_k2_wf sample_k2_closed (le_n 2) eq_refl
           sample_d0_wf sample_d0_closed (le_n 2) eq_refl).
Defined.

(** ** Spanning forests *)

Section forest_facts.
Context {V : Type} `{Countable V}.
Implicit Types (adj : relation V) (T : list (V * V)) (P : gset V).

Lemma attach_app P T1 T2 :
  attach P (T1 ++ T2) ↔ attach P T1 ∧ attach (list_to_set T1.*1 ∪ P) T2.
Proof.
  revert P. induction T1 as [|[u p] T1 IH]; intros P; simpl.
  - rewrite (left_id_L ∅ (∪)). tauto.
  - rewrite IH.
    replace (list_to_set T1.*1 ∪ ({[u]} ∪ P))
      with ({[u]} ∪ list_to_set T1.*1 ∪ P) by set_solver.
    tauto.
Qed.

Lemma attach_fresh P T u : attach P T → u ∈ T.*1 → u ∉ P.
Proof.
  revert P. induction T as [|[u' p] T IH]; intros P; simpl.
  - by intros _ ?%elem_of_nil.
  - intros (Hu' & _ & Hatt) [->|Hu]%elem_of_cons; [done|].
    specialize (IH _ Hatt Hu). set_solver.
Qed.

Lemma attach_NoDup P T : attach P T → NoDup T.*1.
Proof.
  revert P. induction T as [|[u p] T IH]; intros P; simpl; [constructor|].
  intros (_ & _ & Hatt). constructor; [|by eapply IH].
  intros Hu. eapply attach_fresh in Hu; [|done]. set_solver.
Qed.

Lemma attach_mono P P' T :
  attach P T → P ⊆ P' → (∀ u, u ∈ T.*1 → u ∉ P') → attach P' T.
Proof.
  revert P P'. induction T as [|[u p] T IH]; intros P P'; simpl; [done|].
  intros (Hu & Hp & Hatt) Hsub Hfresh.
  split; [apply Hfresh; left|]. split; [set_solver|].
  apply (IH ({[u]} ∪ P)); [done|set_solver|].
  intros u' Hu'. pose proof (attach_fresh _ _ _ Hatt Hu').
  assert (u' ∉ P') by (apply Hfresh; by right). set_solver.
Qed.

Lemma attach_parents P T u p : attach P T → (u, p) ∈ T → p ∈ P ∨ p ∈ T.*1.
Proof.
  revert P. induction T as [|[u' p'] T IH]; intros P; simpl.
  - by intros _ ?%elem_of_nil.
  - intros (Hu' & Hp' & Hatt) [[= -> ->]|Hin]%elem_of_cons; [by left|].
    destruct (IH _ Hatt Hin) as [[->%elem_of_singleton|?]%elem_of_union|?].
    + right. left.
    + by left.
    + right. by right.
Qed.

Lemma tadj_sym T : Symmetric (tadj T).
Proof. intros a b. unfold tadj. tauto. Qed.

Lemma tadj_mono T T' a b : T ⊆ T' → tadj T a b → tadj T' a b.
Proof. unfold tadj. set_solver. Qed.

Lemma rtc_tadj_mono T T' a b : T ⊆ T' → rtc (tadj T) a b → rtc (tadj T') a b.
Proof.
  intros Hsub. induction 1 as [|a b c Hab _ IH]; [done|].
  eapply rtc_l; [by eapply tadj_mono|done].
Qed.

(** Every attached vertex is joined by tree edges to a vertex of [P]. *)
Lemma attach_connected P T u :
  attach P T → u ∈ T.*1 → ∃ r, r ∈ P ∧ rtc (tadj T) r u.
Proof.
  revert P. induction T as [|[u' p] T IH]; intros P; simpl.
  - by intros _ ?%elem_of_nil.
  - intros (Hu' & Hp & Hatt) Hu.
    assert (tadj ((u', p) :: T) p u') as Hedge by (right; left).
    apply elem_of_cons in Hu as [->|Hu].
    + exists p. split; [done|]. by apply rtc_once.
    + destruct (IH _ Hatt Hu) as (r & Hr & Hpath).
      apply (rtc_tadj_mono T ((u', p) :: T)) in Hpath; [|set_solver].
      apply elem_of_union in Hr as [->%elem_of_singleton|Hr].
      * exists p. split; [done|]. by eapply rtc_l.
      * by exists r.
Qed.

(** Hanging a new vertex [u] on [p] by one edge creates no cycle. *)
Lemma acyclic_leaf adj adj' u p :
  acyclic adj →
  (∀ a b, adj a b → a ≠ u ∧ b ≠ u) → p ≠ u →
  (∀ a b, adj' a b → adj a b ∨ (a = u ∧ b = p) ∨ (a = p ∧ b = u)) →
  acyclic adj'.
Proof.
  intros Hac Hfresh Hpu Hadj' c (Hnd & Hlen & Hcyc).
  destruct (decide (u ∈ c)) as [Hu|Hu].
  - apply list_elem_of_lookup in Hu as [i Hi].
    apply lookup_lt_Some in Hi as Hlt.
    set (n := length c) in *.
    set (j := if decide (S i = n) then 0 else S i).
    set (k := if decide (i = 0) then n - 1 else i - 1).
    assert (S i `mod` n = j) as Hj.
    { unfold j. case_decide as E; [rewrite E; apply Nat.Div0.mod_same|].
      apply Nat.mod_small. lia. }
    assert (S k `mod` n = i) as Hk.
    { unfold k. case_decide as E.
      - subst i. replace (S (n - 1)) with n by lia. apply Nat.Div0.mod_same.
      - replace (S (i - 1)) with i by lia. apply Nat.mod_small. lia. }
    assert (j < n) as Hjn by (unfold j; case_decide; lia).
    assert (k < n) as Hkn by (unfold k; case_decide; lia).
    destruct (lookup_lt_is_Some_2 c j Hjn) as [b Hb].
    destruct (lookup_lt_is_Some_2 c k Hkn) as [a Ha].
    assert (b = p) as ->.
    { rewrite <-Hj in Hb. pose proof (Hcyc _ _ _ Hi Hb) as Hub.
      apply Hadj' in Hub as [Hub|[[_ ->]|[-> _]]]; [|done..].
      by apply Hfresh in Hub as [? _]. }
    assert (a = p) as ->.
    { rewrite <-Hk in Hi. pose proof (Hcyc _ _ _ Ha Hi) as Hau.
      apply Hadj' in Hau as [Hau|[[_ ?]|[-> _]]]; [|done..].
      by apply Hfresh in Hau as [_ ?]. }
    assert (j = k) as Hjk by (by eapply NoDup_lookup).
    unfold j, k in Hjk. repeat case_decide; lia.
  - apply (Hac c). split; [done|]. split; [done|].
    intros i a b Ha Hb.
    destruct (Hadj' a b (Hcyc _ _ _ Ha Hb)) as [?|[[-> _]|[_ ->]]]; [done|..].
    + destruct Hu. by eapply list_elem_of_lookup_2.
    + destruct Hu. by eapply list_elem_of_lookup_2.
Qed.

Lemma attach_acyclic P T : attach P T → acyclic (tadj T).
Proof.
  induction T as [|[u p] T IH] using rev_ind; intros Hatt.
  - intros c (_ & Hlen & Hcyc).
    destruct (lookup_lt_is_Some_2 c 0) as [a Ha]; [lia|].
    destruct (lookup_lt_is_Some_2 c (1 `mod` length c)) as [b Hb].
    { apply Nat.mod_upper_bound. lia. }
    destruct (Hcyc _ _ _ Ha Hb) as [?%elem_of_nil|?%elem_of_nil]; done.
  - apply attach_app in Hatt as [Hatt (Hu & Hp & _)].
    apply (acyclic_leaf (tadj T) _ u p); [by apply IH| | |].
    + intros a b [Hab|Hab].
      * split; [intros ->; apply Hu, elem_of_union_l, elem_of_list_to_set;
                 by apply (list_elem_of_fmap_2 fst) in Hab|].
        intros ->. apply Hu.
        destruct (attach_parents _ _ _ _ Hatt Hab); set_solver.
      * split; [|intros ->; apply Hu, elem_of_union_l, elem_of_list_to_set;
                  by apply (list_elem_of_fmap_2 fst) in Hab].
        intros ->. apply Hu.
        destruct (attach_parents _ _ _ _ Hatt Hab); set_solver.
    + intros ->. done.
    + intros a b [Hab|Hab].
      * apply elem_of_app in Hab as [?|[= -> ->]%list_elem_of_singleton];
          [by left; left|by right; left].
      * apply elem_of_app in Hab as [?|[= -> ->]%list_elem_of_singleton];
          [by left; right|by right; right].
Qed.
End forest_facts.

Section sf_facts.
Context {V : Type} `{Countable V}.
Implicit Types (st : sf_state (V:=V)) (S : gset V) (T : list (V * V)).

Lemma seeded_empty_get (vs : list V) n a l :
  NoDup vs →
  dict_get (seeded_pairs [] vs n) a = Some l ↔ n ≤ l ∧ vs !! (l - n) = Some a.
Proof.
  unfold seeded_pairs. revert n. induction vs as [|v vs IH]; intros n Hvs.
  - simpl. split; [done|]. by intros [_ ?].
  - apply NoDup_cons in Hvs as [Hv Hvs]. simpl.
    rewrite (imap_ext _ (λ i v0, (v0, default (S n + i) None)) vs)
      by (intros; simpl; f_equal; lia).
    case_decide as Ha; subst.
    + split.
      * intros [= <-]. split; [lia|]. by replace (n + 0 - n) with 0 by lia.
      * intros [Hle Hl]. destruct (l - n) as [|k] eqn:Hk.
        -- f_equal. lia.
        -- simpl in Hl. apply list_elem_of_lookup_2 in Hl. done.
    + rewrite (IH (S n) Hvs). split.
      * intros [Hle Hl]. split; [lia|].
        replace (l - n) with (S (l - S n)) by lia. done.
      * intros [Hle Hl]. destruct (l - n) as [|k] eqn:Hk.
        -- simpl in Hl. by injection Hl.
        -- simpl in Hl. split; [lia|]. by replace (l - S n) with k by lia.
Qed.

Lemma seeded_empty_inj (vs : list V) n a b l :
  NoDup vs →
  dict_get (seeded_pairs [] vs n) a = Some l →
  dict_get (seeded_pairs [] vs n) b = Some l → a = b.
Proof.
  intros Hvs [_ Ha]%seeded_empty_get [_ Hb]%seeded_empty_get; [|done..].
  congruence.
Qed.

Lemma seeded_empty_range (vs : list V) n a l :
  NoDup vs →
  dict_get (seeded_pairs [] vs n) a = Some l → n ≤ l < n + length vs.
Proof.
  intros Hvs [? Ha%lookup_lt_Some]%seeded_empty_get; [|done]. lia.
Qed.

Lemma seeded_empty_is_Some (vs : list V) n a :
  a ∈ vs → is_Some (dict_get (seeded_pairs [] vs n) a).
Proof.
  intros Ha. apply dict_get_is_Some. unfold keys.
  by rewrite seeded_pairs_keys.
Qed.

Lemma tadj_app T1 T2 (a b : V) :
  tadj (T1 ++ T2) a b ↔ tadj T1 a b ∨ tadj T2 a b.
Proof. unfold tadj. rewrite !elem_of_app. tauto. Qed.

Lemma tadj_singleton (u v a b : V) :
  tadj [(u, v)] a b ↔ (a = u ∧ b = v) ∨ (a = v ∧ b = u).
Proof.
  unfold tadj. rewrite !list_elem_of_singleton. split.
  - intros [[= -> ->]|[= -> ->]]; tauto.
  - intros [[-> ->]|[-> ->]]; tauto.
Qed.

Lemma sf_step_refl st : sf_step st st [].
Proof.
  split; simpl.
  - unfold inject_Z. simpl. ring.
  - intros a b. unfold tadj. split; [by left|].
    intros [?|[?%elem_of_nil|?%elem_of_nil]]; done.
Qed.

Lemma sf_step_trans st st1 st2 T1 T2 :
  sf_step st st1 T1 → sf_step st1 st2 T2 → sf_step st st2 (T1 ++ T2).
Proof.
  intros [Hne1 Hadj1] [Hne2 Hadj2]. split.
  - rewrite Hne2, Hne1, length_app, Nat2Z.inj_add, inject_Z_plus. ring.
  - intros a b. rewrite Hadj2, Hadj1, tadj_app. tauto.
Qed.
End sf_facts.

Section sf_run.
Context {V : Type} `{Countable V}.
Context (set_order : gset V → list V).
Hypothesis set_order_elements : ∀ s, set_order s ≡ₚ elements s.
Context (g : graph.t V) (w0 : world V).
Hypothesis g_wf : graph_wf g w0.
Hypothesis g_closed : graph_closed g w0.
Implicit Types (st : sf_state (V:=V)) (S : gset V) (T : list (V * V))
  (u v a b : V).

Lemma forest_add_edge st u v :
  sf_inv g w0 st → u ∈ graph.__iter__ g → v ∈ graph.__iter__ g →
  u ≠ v → u ∉ forest_nbrs st v →
  ∃ st',
    on_forest (graph.add_edge u v) st = (Ret true, st')
    ∧ sf_inv g w0 st'
    ∧ sf_visited st' = sf_visited st
    ∧ sf_step st st' [(u, v)].
Proof.
  intros Hinv Hu Hv Huv Hnew.
  pose proof (graph_wf_keys _ _ g_wf) as Hnodup.
  change (NoDup (graph.__iter__ g)) in Hnodup.
  destruct Hinv as [Hve Hdegs Hnv Hheap Hframe Hout Hvis].
  destruct (seeded_empty_is_Some (graph.__iter__ g) (length (heap w0)) u Hu)
    as [lu Hlu].
  destruct (seeded_empty_is_Some (graph.__iter__ g) (length (heap w0)) v Hv)
    as [lv Hlv].
  destruct (Hdegs u Hu) as [du Hdu]. destruct (Hdegs v Hv) as [dv Hdv].
  pose proof (seeded_empty_range _ _ _ _ Hnodup Hlu) as Hru.
  pose proof (seeded_empty_range _ _ _ _ Hnodup Hlv) as Hrv.
  assert (lu ≠ lv) as Hluv.
  { intros ->. apply Huv. by eapply seeded_empty_inj. }
  rewrite <-Hve in Hlu, Hlv.
  eexists. split.
  { unfold on_forest.
    rewrite (graph_add_edge_success _ _ u v lu lv du dv); done. }
  split; [split|split; [done|split]];
    cbn [sp_forest sf_world sf_visited
         graph.ve_dict graph.degs graph.nv graph.ne];
    try done.
  - intros x Hx. rewrite !dict_get_set. repeat case_decide; eauto.
  - by rewrite !length_heap_set_add.
  - intros l Hl.
    rewrite !deref_set_add by (rewrite ?length_heap_set_add; lia).
    rewrite !decide_False by lia. by apply Hframe.
  - intros a b. rewrite tadj_singleton. unfold forest_nbrs, graph_nbrs.
    cbn [sp_forest sf_world graph.ve_dict].
    destruct (dict_get (graph.ve_dict (sp_forest st)) a) as [la|] eqn:Hla.
    + rewrite !deref_set_add by (rewrite ?length_heap_set_add; lia).
      assert (la = lu ↔ a = u) as Hau.
      { split; [intros ->|by intros ->; congruence].
        rewrite Hve in Hla, Hlu. by eapply seeded_empty_inj. }
      assert (la = lv ↔ a = v) as Hav.
      { split; [intros ->|by intros ->; congruence].
        rewrite Hve in Hla, Hlv. by eapply seeded_empty_inj. }
      repeat case_decide; set_solver.
    + split; [set_solver|]. intros [?|[[-> _]|[-> _]]]; [done|congruence..].
Qed.

Lemma sf_is_visited_run st u S :
  sf_inv g w0 st → sf_visited_is st S → u ∈ graph.__iter__ g →
  sf_is_visited u st = (Ret (bool_decide (u ∈ S)), st).
Proof.
  intros Hinv Hvis Hu. destruct (inv_visited _ _ _ Hinv u Hu) as [b Hb].
  unfold sf_is_visited, bind, get, lift, getitem. simpl. rewrite Hb.
  do 2 f_equal. destruct b.
  - symmetry. apply bool_decide_eq_true. by apply Hvis.
  - symmetry. apply bool_decide_eq_false. intros Hin%Hvis. congruence.
Qed.

Lemma unvisited_in_mono S S' :
  S ⊆ S' →
  length (unvisited_in (graph.__iter__ g) S')
  ≤ length (unvisited_in (graph.__iter__ g) S).
Proof. intros Hsub. apply filter_length_le. set_solver. Qed.

Lemma unvisited_in_lt S v :
  v ∈ graph.__iter__ g → v ∉ S →
  length (unvisited_in (graph.__iter__ g) (S ∪ {[v]}))
  < length (unvisited_in (graph.__iter__ g) S).
Proof.
  intros Hv HvS.
  apply (filter_length_lt _ _ _ v); [set_solver|done..|set_solver].
Qed.

Lemma forest_within_step st st' S v T :
  forest_within st S → sf_step st st' T → sf_found g w0 S v T → v ∈ S →
  forest_within st' (S ∪ list_to_set T.*1).
Proof.
  intros Hwithin Hstep Hfound Hv a b Hab.
  apply (sfs_adj _ _ _ Hstep) in Hab as [Hab|Hab].
  { apply Hwithin in Hab. set_solver. }
  assert (∀ x y, (x, y) ∈ T →
                 x ∈ S ∪ list_to_set T.*1 ∧ y ∈ S ∪ list_to_set T.*1)
    as Hends.
  { intros x y Hxy. split.
    - apply elem_of_union_r, elem_of_list_to_set.
      by apply (list_elem_of_fmap_2 fst) in Hxy.
    - destruct (attach_parents _ _ _ _ (found_attach _ _ _ _ _ Hfound) Hxy);
        set_solver. }
  destruct Hab as [Hab|Hab]; apply Hends in Hab; tauto.
Qed.

Lemma sf_neighbours_run st v :
  sf_inv g w0 st → v ∈ graph.__iter__ g →
  neighbours set_order (graph_indexable g) (sf_world st) v =
    Ret (set_order (graph_nbrs g w0 v)).
Proof.
  intros Hinv [l Hl]%dict_get_is_Some.
  unfold neighbours, graph_indexable, graph.__getitem__, getitem, graph_nbrs.
  simpl. rewrite Hl. do 2 f_equal.
  apply (inv_frame _ _ _ Hinv). by apply (graph_wf_locs _ _ g_wf v).
Qed.

Lemma sf_found_nil S v : sf_found g w0 S v [].
Proof.
  split.
  - done.
  - by intros u ?%elem_of_nil.
  - by intros u p ?%elem_of_nil.
  - by intros n b ?%elem_of_nil.
Qed.

Lemma sf_found_app S v T1 T2 :
  sf_found g w0 S v T1 → sf_found g w0 (S ∪ list_to_set T1.*1) v T2 →
  sf_found g w0 S v (T1 ++ T2).
Proof.
  intros [Ha1 Hf1 He1 Hc1] [Ha2 Hf2 He2 Hc2]. split.
  - apply attach_app. split; [done|].
    apply (attach_mono {[v]}); [done|set_solver|].
    intros u Hu. pose proof (attach_fresh _ _ _ Ha2 Hu).
    apply Hf2 in Hu. set_solver.
  - intros u. rewrite fmap_app, elem_of_app. intros [Hu|Hu]; [by apply Hf1|].
    apply Hf2 in Hu. set_solver.
  - intros u p [?|?]%elem_of_app; eauto.
  - intros n b. rewrite fmap_app, elem_of_app, list_to_set_app_L.
    intros [Hn|Hn] Hb.
    + specialize (Hc1 n b Hn Hb). set_solver.
    + specialize (Hc2 n b Hn Hb). set_solver.
Qed.

Lemma sf_found_child S v u T :
  u ∈ graph.__iter__ g → u ∉ S → v ∈ S → u ∈ graph_nbrs g w0 v →
  sf_found g w0 (S ∪ {[u]}) u T →
  (∀ b, b ∈ graph_nbrs g w0 u → b ∈ S ∪ {[u]} ∪ list_to_set T.*1) →
  sf_found g w0 S v ((u, v) :: T).
Proof.
  intros Hu HuS Hv Huv [Ha Hf He Hc] Hcu. split.
  - simpl. split; [set_solver|]. split; [set_solver|].
    apply (attach_mono {[u]}); [done|set_solver|].
    intros x Hx. apply Hf in Hx. set_solver.
  - simpl. intros x [->|Hx]%elem_of_cons; [done|].
    apply Hf in Hx. set_solver.
  - intros x p [[= -> ->]|Hx]%elem_of_cons; eauto.
  - simpl. intros n b [->|Hn]%elem_of_cons Hb.
    + specialize (Hcu b Hb). set_solver.
    + specialize (Hc n b Hn Hb). set_solver.
Qed.

(** One turn of the loop of [sf_explore]. *)
Lemma sf_body_spec d v u st S :
  sf_explore_ok set_order g w0 d →
  v ∈ graph.__iter__ g → v ∈ S → u ∈ graph_nbrs g w0 v →
  sf_inv g w0 st → sf_visited_is st S → forest_within st S →
  length (unvisited_in (graph.__iter__ g) S) ≤ d →
  ∃ st' T,
    sf_body set_order (graph_indexable g) d v u () st = (Ret (), st')
    ∧ sf_inv g w0 st'
    ∧ sf_visited_is st' (S ∪ list_to_set T.*1)
    ∧ sf_step st st' T
    ∧ sf_found g w0 S v T
    ∧ u ∈ S ∪ list_to_set T.*1.
Proof.
  intros Hexp Hv HvS Huv Hinv Hvis Hwithin Hd.
  assert (u ∈ graph.__iter__ g) as Hu by by eapply g_closed.
  cbv beta. erewrite bind_Ret by (by eapply sf_is_visited_run).
  case_bool_decide as HuS; cbn [negb].
  { exists st, []. split; [done|]. split; [done|].
    split; [by replace (S ∪ list_to_set ([] : list (V * V)).*1) with S
               by set_solver|].
    split; [apply sf_step_refl|]. split; [apply sf_found_nil|set_solver]. }
  destruct (forest_add_edge st u v)
    as (st1 & Hrun1 & Hinv1 & Hvis1 & Hstep1);
    [done|done|done|by intros ->| |].
  { intros Hin. apply Hwithin in Hin. tauto. }
  erewrite bind_Ret by exact Hrun1.
  destruct (Hexp u st1 S)
    as (st2 & T & Hrun2 & Hinv2 & Hvis2 & Hstep2 & Hfound & Hcu);
    [done|done|done| | |done|].
  { intros x. unfold sf_visited_is in Hvis. by rewrite Hvis1. }
  { intros a b Hab. apply (sfs_adj _ _ _ Hstep1) in Hab as [Hab|Hab].
    - apply Hwithin in Hab. set_solver.
    - apply tadj_singleton in Hab. set_solver. }
  exists st2, ((u, v) :: T). split; [done|]. split; [done|].
  split; [|split; [|split]].
  - replace (S ∪ list_to_set ((u, v) :: T).*1)
      with (S ∪ {[u]} ∪ list_to_set T.*1) by set_solver.
    done.
  - by apply (sf_step_trans st st1 st2 [(u, v)] T).
  - by apply sf_found_child.
  - set_solver.
Qed.

Lemma sf_for_in_spec d v us st S :
  sf_explore_ok set_order g w0 d →
  v ∈ graph.__iter__ g → v ∈ S → (∀ u, u ∈ us → u ∈ graph_nbrs g w0 v) →
  sf_inv g w0 st → sf_visited_is st S → forest_within st S →
  length (unvisited_in (graph.__iter__ g) S) ≤ d →
  ∃ st' T,
    for_in us () (sf_body set_order (graph_indexable g) d v) st = (Ret (), st')
    ∧ sf_inv g w0 st'
    ∧ sf_visited_is st' (S ∪ list_to_set T.*1)
    ∧ sf_step st st' T
    ∧ sf_found g w0 S v T
    ∧ ∀ u, u ∈ us → u ∈ S ∪ list_to_set T.*1.
Proof.
  intros Hexp Hv. revert st S.
  induction us as [|u us IH]; intros st S HvS Hus Hinv Hvis Hwithin Hd.
  { exists st, []. split; [done|]. split; [done|].
    split; [by replace (S ∪ list_to_set ([] : list (V * V)).*1) with S
               by set_solver|].
    split; [apply sf_step_refl|].
    split; [apply sf_found_nil|by intros u ?%elem_of_nil]. }
  destruct (sf_body_spec d v u st S)
    as (st1 & T1 & Hrun1 & Hinv1 & Hvis1 & Hstep1 & Hfound1 & Hu1);
    [done|done|done|apply Hus; left|done..|].
  destruct (IH st1 (S ∪ list_to_set T1.*1))
    as (st2 & T2 & Hrun2 & Hinv2 & Hvis2 & Hstep2 & Hfound2 & Hus2).
  { set_solver. }
  { intros; apply Hus; by right. }
  { done. }
  { done. }
  { by eapply forest_within_step. }
  { etrans; [apply unvisited_in_mono|exact Hd]. set_solver. }
  exists st2, (T1 ++ T2). split.
  { cbn [for_in]. by erewrite bind_Ret by exact Hrun1. }
  split; [done|]. split; [|split; [|split]].
  - by rewrite fmap_app, list_to_set_app_L, (assoc_L (∪)).
  - by eapply sf_step_trans.
  - by apply sf_found_app.
  - rewrite fmap_app, list_to_set_app_L, (assoc_L (∪)).
    intros x [->|Hx]%elem_of_cons; [set_solver|by apply Hus2].
Qed.

Lemma sf_explore_spec d : sf_explore_ok set_order g w0 d.
Proof.
  induction d as [|d IH]; intros v st S Hv HvS Hinv Hvis Hwithin Hd.
  { exfalso.
    assert (v ∈ unvisited_in (graph.__iter__ g) S) as Hin
      by by apply list_elem_of_filter.
    destruct (unvisited_in (graph.__iter__ g) S);
      [by apply elem_of_nil in Hin|simpl in Hd; lia]. }
  set (st1 := SfState (dict_set v true (sf_visited st))
                      (sp_forest st) (sf_world st)).
  assert (sf_inv g w0 st1) as Hinv1.
  { destruct Hinv. split; try done. simpl. intros u Hu.
    rewrite dict_get_set. case_decide; eauto. }
  assert (sf_visited_is st1 (S ∪ {[v]})) as Hvis1.
  { intros u. simpl. rewrite dict_get_set. case_decide.
    - set_solver.
    - rewrite (Hvis u). set_solver. }
  destruct (sf_for_in_spec d v (set_order (graph_nbrs g w0 v)) st1 (S ∪ {[v]}))
    as (st2 & T & Hrun & Hinv2 & Hvis2 & Hstep & Hfound & Hall);
    [done|done|set_solver| |done|done|done| |].
  { intros u. rewrite set_order_elements. apply elem_of_elements. }
  { pose proof (unvisited_in_lt S v Hv HvS). lia. }
  exists st2, T. split.
  { cbn [sf_explore]. unfold sf_mark. unfold bind at 1, modify at 1.
    fold st1. unfold bind at 1, get at 1.
    rewrite (sf_neighbours_run st1 v Hinv1 Hv). unfold bind at 1, lift at 1.
    exact Hrun. }
  split; [done|]. split; [done|]. split; [|split; [done|]].
  - destruct Hstep as [Hne Hadj]. by split.
  - intros b Hb. apply Hall. rewrite set_order_elements.
    by apply elem_of_elements.
Qed.

Hypothesis g_symmetric : graph_symmetric g w0.

Lemma closed_rtc S a b :
  (∀ n x, n ∈ S → x ∈ graph_nbrs g w0 n → x ∈ S) →
  a ∈ S → rtc (λ a b, b ∈ graph_nbrs g w0 a) a b → b ∈ S.
Proof. intros Hclosed Ha Hab. induction Hab; eauto. Qed.

Lemma rtc_adjG_sym a b :
  rtc (λ a b, b ∈ graph_nbrs g w0 a) a b →
  rtc (λ a b, b ∈ graph_nbrs g w0 a) b a.
Proof.
  induction 1 as [|a b c Hab _ IH]; [done|].
  eapply rtc_r; [done|]. simpl. by apply g_symmetric.
Qed.

Lemma attach_ends P T a b :
  attach P T → tadj T a b →
  (a ∈ P ∨ a ∈ T.*1) ∧ (b ∈ P ∨ b ∈ T.*1).
Proof.
  intros Hatt [Hab|Hab].
  - split; [right; by apply (list_elem_of_fmap_2 fst) in Hab|].
    by eapply attach_parents.
  - split; [by eapply attach_parents|].
    right; by apply (list_elem_of_fmap_2 fst) in Hab.
Qed.

(** One turn of the outer loop. *)
Lemma sf_top_body_spec d v st R T :
  length (graph.__iter__ g) ≤ d → v ∈ graph.__iter__ g → sf_top g w0 st R T →
  ∃ st' R' T',
    sf_top_body set_order (graph_indexable g) d v () st = (Ret (), st')
    ∧ sf_top g w0 st' (R ++ R') (T ++ T')
    ∧ v ∈ (list_to_set (R ++ R') ∪ list_to_set (T ++ T').*1 : gset V).
Proof.
  intros Hd Hv Htop.
  destruct Htop
    as [Hinv Hvis Hatt Hnd Hroots Hch Hedges Hclosed Hadj Hne Hsep].
  set (S := (list_to_set R ∪ list_to_set T.*1 : gset V)) in *.
  cbv beta. erewrite bind_Ret by (by eapply sf_is_visited_run).
  case_bool_decide as HvS; cbn [negb].
  { exists st, [], []. rewrite !app_nil_r. split; [done|].
    split; [by split|done]. }
  destruct (sf_explore_spec d v st S)
    as (st' & Tn & Hrun & Hinv' & Hvis' & Hstep & Hfound & Hcv);
    [done|done|done|done| | |].
  { intros a b Hab%Hadj. apply (attach_ends _ _ _ _ Hatt) in Hab.
    unfold S. set_solver. }
  { etrans; [|exact Hd]. apply length_filter. }
  destruct Hfound as [Hatt' Hfresh Hedges' Hclosed'].
  assert ((list_to_set (R ++ [v]) ∪ list_to_set (T ++ Tn).*1 : gset V)
          = S ∪ {[v]} ∪ list_to_set Tn.*1) as HS'.
  { unfold S. rewrite fmap_app, !list_to_set_app_L. set_solver. }
  exists st', [v], Tn. split; [done|]. split; [|rewrite HS'; set_solver].
  split; try done.
  - by rewrite HS'.
  - apply attach_app. split.
    + apply (attach_mono (list_to_set R)); [done|set_solver|].
      intros u Hu. pose proof (attach_fresh _ _ _ Hatt Hu).
      rewrite list_to_set_app_L. unfold S in HvS. set_solver.
    + apply (attach_mono {[v]}); [done|set_solver|].
      intros u Hu. apply Hfresh in Hu. unfold S in Hu.
      rewrite list_to_set_app_L. set_solver.
  - apply NoDup_app. split; [done|]. split; [|apply NoDup_singleton].
    intros r Hr ->%list_elem_of_singleton. unfold S in HvS. set_solver.
  - intros r [?| ->%list_elem_of_singleton]%elem_of_app; eauto.
  - intros u. rewrite fmap_app, elem_of_app. intros [?|Hu]; [eauto|].
    by apply Hfresh in Hu as [? _].
  - intros u p [?|?]%elem_of_app; eauto.
  - rewrite HS'. intros n b Hn Hb.
    apply elem_of_union in Hn as [[Hn| ->%elem_of_singleton]%elem_of_union|Hn].
    + specialize (Hclosed n b Hn Hb). set_solver.
    + by apply Hcv.
    + apply elem_of_list_to_set in Hn. by eapply Hclosed'.
  - intros a b. rewrite (sfs_adj _ _ _ Hstep), Hadj, tadj_app. done.
  - rewrite (sfs_ne _ _ _ Hstep), Hne, length_app, Nat2Z.inj_add,
      inject_Z_plus. done.
  - intros r r' [Hr| ->%list_elem_of_singleton]%elem_of_app
      [Hr'| ->%list_elem_of_singleton]%elem_of_app Hpath; [eauto| | |done].
    + exfalso. apply HvS. apply (closed_rtc S r); [done| |done].
      unfold S. set_solver.
    + exfalso. apply HvS. apply rtc_adjG_sym in Hpath.
      apply (closed_rtc S r'); [done| |done]. unfold S. set_solver.
Qed.

Lemma sf_top_for_in_spec d us st R T :
  length (graph.__iter__ g) ≤ d → (∀ v, v ∈ us → v ∈ graph.__iter__ g) →
  sf_top g w0 st R T →
  ∃ st' R' T',
    for_in us () (sf_top_body set_order (graph_indexable g) d) st
    = (Ret (), st')
    ∧ sf_top g w0 st' (R ++ R') (T ++ T')
    ∧ ∀ v, v ∈ us →
           v ∈ (list_to_set (R ++ R') ∪ list_to_set (T ++ T').*1 : gset V).
Proof.
  intros Hd. revert st R T.
  induction us as [|v us IH]; intros st R T Hus Htop.
  { exists st, [], []. rewrite !app_nil_r. split; [done|]. split; [done|].
    by intros v ?%elem_of_nil. }
  destruct (sf_top_body_spec d v st R T)
    as (st1 & R1 & T1 & Hrun1 & Htop1 & Hv1);
    [done|apply Hus; left|done|].
  destruct (IH st1 (R ++ R1) (T ++ T1))
    as (st2 & R2 & T2 & Hrun2 & Htop2 & Hus2);
    [intros; apply Hus; by right|done|].
  exists st2, (R1 ++ R2), (T1 ++ T2). rewrite !app_assoc. split.
  { cbn [for_in]. by erewrite bind_Ret by exact Hrun1. }
  split; [done|]. intros x [->|Hx]%elem_of_cons; [|by apply Hus2].
  revert Hv1. rewrite !fmap_app, !list_to_set_app_L. set_solver.
Qed.
End sf_run.

Section spanning_forest.
Context {V : Type} `{Countable V}.
Context (set_order : gset V → list V).
Hypothesis set_order_elements : ∀ s, set_order s ≡ₚ elements s.
Implicit Types (g : graph.t V) (w : world V).

Lemma sum_len_empty (ve : pydict V loc) w :
  (∀ l, l ∈ values ve → deref w l = ∅) → graph.sum_len ve w = 0%Z.
Proof.
  unfold graph.sum_len. generalize (values ve). intros ls Hls.
  induction ls as [|l ls IH]; simpl; [done|].
  rewrite Hls by left. rewrite size_empty. simpl. apply IH.
  intros; apply Hls. by right.
Qed.

Lemma sf_top_init g w :
  graph_wf g w →
  ∃ f,
    graph.__init__ (graph.as_collection g) [] w
    = (Ret f, grown w (length (graph.__iter__ g)))
    ∧ sf_top g w
        (SfState (dict ((λ v, (v, false)) <$> graph.__iter__ g)) f
                 (grown w (length (graph.__iter__ g))))
        [] [].
Proof.
  intros Hwf. pose proof (graph_wf_keys _ _ Hwf) as Hnodup.
  change (NoDup (graph.__iter__ g)) in Hnodup.
  eexists. split; [apply graph_init_run|].
  cbn [graph.as_collection iter len].
  rewrite (dict_NoDup (seeded_pairs _ _ _))
    by (by rewrite seeded_pairs_keys).
  assert (∀ a l, dict_get (seeded_pairs [] (graph.__iter__ g)
                             (length (heap w))) a = Some l →
                 deref (grown w (length (graph.__iter__ g))) l = ∅)
    as Hempty.
  { intros a l Hl%seeded_empty_range; [|done]. apply deref_grown_new. lia. }
  split; [split|..];
    cbn [sp_forest sf_world sf_visited
         graph.ve_dict graph.degs graph.nv graph.ne];
    try done.
  - intros v Hv. apply dict_get_is_Some. by apply zero_keys.
  - unfold grown. simpl. by rewrite length_app, length_replicate.
  - intros l Hl. by apply deref_grown_old.
  - intros u Hu. rewrite dict_get_const. by rewrite decide_True.
  - intros u. simpl. rewrite dict_get_const.
    split; [by case_decide|set_solver].
  - constructor.
  - by intros r ?%elem_of_nil.
  - by intros u ?%elem_of_nil.
  - by intros u p ?%elem_of_nil.
  - intros a b. unfold forest_nbrs, graph_nbrs. simpl. unfold tadj.
    destruct (dict_get _ a) as [l|] eqn:Hl.
    + rewrite (Hempty _ _ Hl). set_solver.
    + set_solver.
  - rewrite sum_len_empty; [done|].
    intros l Hl. unfold values in Hl.
    apply list_elem_of_fmap in Hl as [[a l'] [-> Hin]].
    apply elem_of_seeded_pairs in Hin as [_ [[=]|[_ Hrange]]].
    apply deref_grown_new. simpl. lia.
  - by intros r r' ?%elem_of_nil.
Qed.

Lemma attach_no_reverse (P : gset V) (T : list (V * V)) a b :
  attach P T → (a, b) ∈ T → (b, a) ∉ T.
Proof.
  revert P. induction T as [|[u p] T IH]; intros P; simpl.
  - by intros _ ?%elem_of_nil.
  - intros (Hu & Hp & Hatt) Hab Hba.
    assert (∀ x y, (x, y) ∈ T → (x ∉ P) ∧ x ≠ u) as Hchild.
    { intros x y Hxy. apply (list_elem_of_fmap_2 fst) in Hxy. simpl in Hxy.
      pose proof (attach_fresh _ _ _ Hatt Hxy). set_solver. }
    apply elem_of_cons in Hab as [[= -> ->]|Hab];
      apply elem_of_cons in Hba as [[= ? ?]|Hba]; subst.
    + done.
    + apply Hchild in Hba. tauto.
    + apply Hchild in Hab. tauto.
    + by eapply IH.
Qed.

(** C4: on every undirected graph with [nv] vertices (symmetric, closed,
    and with as many frames as vertices) [spanning_forest] returns a graph
    on the same vertices whose adjacency is that of a list [edges] of
    [nv - c] edges of [g], each listed once, where [c] is the number of
    connected components of [g] ([roots] holds one vertex of each); the
    forest has no cycle, its counter [ne] is [nv - c], every vertex is
    joined within the forest to the root of its component, and the set
    objects that existed before the call, those of [g] among them, and the
    output are unchanged. *)
Theorem spanning_forest_correct g w depth :
  graph_wf g w → graph_closed g w → graph_symmetric g w →
  graph.nv g = Z.of_nat (length (graph.__iter__ g)) →
  length (graph.__iter__ g) ≤ depth →
  ∃ f w' roots edges,
    spanning_forest set_order g depth w = (Ret f, w')
    ∧ graph.__iter__ f = graph.__iter__ g
    ∧ (∀ a b, b ∈ graph_nbrs f w' a ↔ tadj edges a b)
    ∧ (∀ a b, (a, b) ∈ edges → a ∈ graph_nbrs g w b)
    ∧ NoDup edges ∧ (∀ a b, (a, b) ∈ edges → (b, a) ∉ edges)
    ∧ Z.of_nat (length edges) = (graph.nv g - Z.of_nat (length roots))%Z
    ∧ (graph.ne f == inject_Z (graph.nv g - Z.of_nat (length roots)))%Q
    ∧ acyclic (λ a b, b ∈ graph_nbrs f w' a)
    ∧ components (λ a b, b ∈ graph_nbrs g w a) (graph.__iter__ g) roots
    ∧ (∀ v, v ∈ graph.__iter__ g →
            ∃ r, r ∈ roots ∧ rtc (λ a b, b ∈ graph_nbrs f w' a) r v)
    ∧ (∀ l, l < length (heap w) → deref w' l = deref w l)
    ∧ stdout w' = stdout w.
Proof.
  intros Hwf Hclosed Hsym Hnv Hdepth.
  destruct (sf_top_init g w Hwf) as (f0 & Hinit & Htop0).
  destruct (sf_top_for_in_spec set_order set_order_elements g w Hwf Hclosed
              Hsym depth (graph.__iter__ g) _ [] [] Hdepth (λ v Hv, Hv) Htop0)
    as (st & R & T & Hrun & Htop & Hall).
  simpl in Htop, Hall.
  destruct Htop as [Hinv Hvis Hatt Hnd Hroots Hch Hedges Hcl Hadj Hne Hsep].
  assert (∀ a b, tadj T a b → b ∈ graph_nbrs g w a) as HTG.
  { intros a b [Hab|Hab]; [apply Hsym|]; by apply Hedges. }
  assert (∀ a b, rtc (tadj T) a b → rtc (λ a b, b ∈ graph_nbrs g w a) a b)
    as HTG'.
  { induction 1 as [|a b c Hab _ IH]; [done|]. eapply rtc_l; [|done].
    by apply HTG. }
  assert (∀ a b,
            rtc (tadj T) a b →
            rtc (λ a b, b ∈ graph_nbrs (sp_forest st) (sf_world st) a) a b)
    as HTF.
  { induction 1 as [|a b c Hab _ IH]; [done|]. eapply rtc_l; [|done].
    by apply Hadj. }
  assert (∀ v, v ∈ graph.__iter__ g → ∃ r, r ∈ R ∧ rtc (tadj T) r v)
    as Hconn.
  { intros v Hv. specialize (Hall v Hv).
    apply elem_of_union in Hall
      as [Hr%elem_of_list_to_set|Hc%elem_of_list_to_set].
    - by exists v.
    - destruct (attach_connected _ _ _ Hatt Hc)
        as (r & Hr%elem_of_list_to_set & ?).
      by exists r. }
  assert (R ++ T.*1 ≡ₚ graph.__iter__ g) as Hperm.
  { apply NoDup_Permutation.
    - apply NoDup_app. split; [done|]. split; [|by eapply attach_NoDup].
      intros r Hr Hr'. apply (attach_fresh _ _ _ Hatt) in Hr'.
      apply Hr'. by apply elem_of_list_to_set.
    - apply (graph_wf_keys _ _ Hwf).
    - intros v. rewrite elem_of_app. split; [intros [?|?]; eauto|].
      intros Hv. specialize (Hall v Hv). set_solver. }
  assert (length (graph.__iter__ g) = length R + length T) as Hlen.
  { rewrite <-Hperm, length_app, length_fmap. done. }
  exists (sp_forest st), (sf_world st), R, T. split.
  { unfold spanning_forest. erewrite bind_Ret by exact Hinit.
    cbv beta zeta. by rewrite Hrun. }
  split.
  { unfold graph.__iter__ at 1. rewrite (inv_ve _ _ _ Hinv).
    apply seeded_pairs_keys. }
  split; [exact Hadj|]. split; [exact Hedges|].
  split; [eapply NoDup_fmap_1, attach_NoDup; exact Hatt|].
  split; [intros a b; by apply attach_no_reverse with (P := list_to_set R)|].
  split; [lia|]. split.
  { rewrite Hne.
    replace (graph.nv g - Z.of_nat (length R))%Z
      with (Z.of_nat (length T)) by lia.
    done. }
  split.
  { intros c (Hc1 & Hc2 & Hc3). apply (attach_acyclic _ _ Hatt c).
    split; [done|]. split; [done|]. intros i a b Ha Hb.
    apply Hadj. by eapply Hc3. }
  split.
  { split; [done|]. split; [done|]. split; [|done].
    intros v Hv. destruct (Hconn v Hv) as (r & ? & ?). eauto. }
  split.
  { intros v Hv. destruct (Hconn v Hv) as (r & ? & ?). eauto. }
  split; [apply (inv_frame _ _ _ Hinv)|apply (inv_stdout _ _ _ Hinv)].
Qed.
End spanning_forest.

Lemma sample_k2_symmetric : graph_symmetric sample.k2 sample.w1.
Proof.
  intros u v. unfold graph_nbrs, sample.k2. simpl.
  repeat case_decide; subst; unfold deref; simpl; set_solver.
Qed.

(** [spanning_forest] on the complete graph on two vertices. *)
Lemma spanning_forest_correct_witness :
  ∃ f w' (roots : list nat) (edges : list (nat * nat)),
    spanning_forest elements sample.k2 2 sample.w1 = (Ret f, w')
    ∧ graph.__iter__ f = [0; 1]
    ∧ (∀ a b, b ∈ graph_nbrs f w' a ↔ tadj edges a b)
    ∧ Z.of_nat (length edges) = (2 - Z.of_nat (length roots))%Z
    ∧ acyclic (λ a b, b ∈ graph_nbrs f w' a).
Proof.
  destruct (spanning_forest_correct elements (λ s, reflexivity _)
              sample.k2 sample.w1 2
              sample_k2_wf sample_k2_closed sample_k2_symmetric
              eq_refl (le_n 2))
    as (f & w' & roots & edges & Hrun & Hkeys & Hadj & _ & _ & _ & Hlen
        & _ & Hacyclic & _).
  exists f, w', roots, edges. repeat split; try done; apply Hadj.
Defined.

(** ** The edge count and the degree counters *)

Section degree_sum.
Context {V : Type} `{Countable V}.
Implicit Types (d : pydict V Z) (g : graph.t V) (w : world V).

Lemma foldl_add_shift (l : list Z) (a : Z) :
  foldl Z.add a l = (a + foldl Z.add 0 l)%Z.
Proof.
  revert a. induction l as [|x l IH]; intros a; simpl; [lia|].
  rewrite (IH (a + x)%Z), (IH (0 + x)%Z). lia.
Qed.

Lemma sum_values_dict_set d k x y :
  dict_get d k = Some x →
  foldl Z.add 0%Z (values (dict_set k y d)) =
    (foldl Z.add 0 (values d) - x + y)%Z.
Proof.
  induction d as [|[k' x'] d IH]; simpl; [done|].
  case_decide; subst; simpl.
  - intros [= ->].
    rewrite (foldl_add_shift _ (0 + y)), (foldl_add_shift _ (0 + x)). lia.
  - intros Hk.
    rewrite (foldl_add_shift _ (0 + x')),
      (foldl_add_shift (values d) (0 + x')).
    unfold values in *. rewrite (IH Hk). lia.
Qed.

Lemma sum_values_zero (vs : list V) :
  foldl Z.add 0%Z (values (dict ((λ v, (v, 0%Z)) <$> vs))) = 0%Z.
Proof.
  assert (∀ d : pydict V Z, Forall (λ p, p.2 = 0%Z) d →
            foldl Z.add 0%Z (values d) = 0%Z) as Hzero.
  { intros d Hd. induction Hd as [|[k x] d Hx _ IH]; simpl in *; [done|].
    by subst. }
  apply Hzero. unfold dict.
  assert (∀ (ps : list (V * Z)) (d : pydict V Z),
            Forall (λ p, p.2 = 0%Z) ps → Forall (λ p, p.2 = 0%Z) d →
            Forall (λ p, p.2 = 0%Z) (foldl (λ d p, dict_set p.1 p.2 d) d ps))
    as Hfold.
  { induction ps as [|[k x] ps IH]; intros d Hps Hd; simpl; [done|].
    apply Forall_cons in Hps as [Hx Hps]. apply IH; [done|].
    simpl in *. subst. clear -Hd.
    induction d as [|[k' x'] d IHd]; simpl; [by repeat constructor|].
    apply Forall_cons in Hd as [? ?].
    case_decide; constructor; auto. }
  apply Hfold; [|constructor].
  apply Forall_fmap, Forall_forall. done.
Qed.
End degree_sum.

Section edge_count.
Context {V : Type} `{Countable V}.
Implicit Types (g : graph.t V) (dg : digraph.t V) (w : world V).

Lemma elem_of_dict_get {A} (d : pydict V A) k a :
  NoDup (keys d) → (k, a) ∈ d → dict_get d k = Some a.
Proof.
  induction d as [|[k' a'] d IH]; simpl; [by intros _ ?%elem_of_nil|].
  intros [Hk Hd]%NoDup_cons [[= -> ->]|Hin]%elem_of_cons.
  - by rewrite decide_True.
  - rewrite decide_False; [by apply IH|]. intros ->. apply Hk.
    by apply (list_elem_of_fmap_2 fst) in Hin.
Qed.

Lemma unseeded_sum_len (vs : list V) w :
  graph.sum_len (dict (seeded_pairs [] vs (length (heap w))))
                (grown w (length vs)) = 0%Z.
Proof.
  apply sum_len_empty. intros l Hl. unfold values in Hl.
  apply list_elem_of_fmap in Hl as [[k l'] [-> Hin]]. simpl.
  apply elem_of_dict_get in Hin; [|apply NoDup_keys_dict].
  rewrite dict_get_dict in Hin.
  apply dict_get_elem_of, elem_of_reverse, elem_of_seeded_pairs in Hin
    as [_ [[=]|[_ Hrange]]].
  apply deref_grown_new. lia.
Qed.

Lemma graph_add_edge_invariant g w i j :
  graph_wf g w → graph_counts_agree g →
  ∃ b g' w',
    graph.add_edge i j (g, w) = (Ret b, (g', w'))
    ∧ graph_wf g' w' ∧ graph_counts_agree g'.
Proof.
  intros Hwf Hagree. pose proof Hwf as [Hkeys Hdegs Hlocs].
  destruct (decide (i ∈ keys (graph.ve_dict g) ∧ j ∈ keys (graph.ve_dict g)
                    ∧ i ≠ j ∧ i ∉ graph_nbrs g w j)) as [Hok|Hno].
  2:{ exists false, g, w. by rewrite graph_add_edge_failure. }
  destruct Hok as (Hi & Hj & Hij & Hnew).
  destruct (proj2 (dict_get_is_Some _ _) Hi) as [li Hli].
  destruct (proj2 (dict_get_is_Some _ _) Hj) as [lj Hlj].
  destruct (Hdegs i Hi) as [di Hdi]. destruct (Hdegs j Hj) as [dj Hdj].
  eexists true, _, _. split; [by eapply graph_add_edge_success|].
  split;
    [split;
     cbn [graph.ve_dict graph.degs digraph.ve_dict digraph.out_deg]|].
  - done.
  - intros v Hv. rewrite !dict_get_set. repeat case_decide; eauto.
  - intros v l Hl. rewrite !length_heap_set_add. by eapply Hlocs.
  - unfold graph_counts_agree, graph_degree_sum in *. simpl.
    rewrite (sum_values_dict_set _ j dj) by by rewrite dict_get_set_ne.
    rewrite (sum_values_dict_set _ i di) by done.
    rewrite Hagree.
    replace (foldl Z.add 0 (values (graph.degs g)) - di + (di + 1) - dj
             + (dj + 1))%Z
      with (foldl Z.add 0 (values (graph.degs g)) + 2)%Z by lia.
    rewrite inject_Z_plus. field.
Qed.

Lemma digraph_add_edge_invariant dg w i j :
  digraph_wf dg w → digraph_counts_agree dg →
  ∃ b dg' w',
    digraph.add_edge i j (dg, w) = (Ret b, (dg', w'))
    ∧ digraph_wf dg' w' ∧ digraph_counts_agree dg'.
Proof.
  intros Hwf Hagree. pose proof Hwf as [Hkeys Hdegs Hlocs].
  destruct (decide (i ∈ keys (digraph.ve_dict dg)
                    ∧ j ∈ keys (digraph.ve_dict dg)
                    ∧ i ≠ j ∧ j ∉ digraph_nbrs dg w i)) as [Hok|Hno].
  2:{ exists false, dg, w. by rewrite digraph_add_edge_failure. }
  destruct Hok as (Hi & Hj & Hij & Hnew).
  destruct (proj2 (dict_get_is_Some _ _) Hi) as [li Hli].
  destruct (Hdegs i Hi) as [di Hdi].
  eexists true, _, _. split; [by eapply digraph_add_edge_success|].
  split;
    [split;
     cbn [graph.ve_dict graph.degs digraph.ve_dict digraph.out_deg]|].
  - done.
  - intros v Hv. rewrite !dict_get_set. repeat case_decide; eauto.
  - intros v l Hl. rewrite !length_heap_set_add. by eapply Hlocs.
  - unfold digraph_counts_agree, digraph_out_degree_sum in *. simpl.
    rewrite (sum_values_dict_set _ i di) by done. lia.
Qed.

(** Without seed edges the invariant of the data model holds after the
    constructor and after every sequence of [add_edge] calls. *)
Theorem unseeded_counts_agree (verts : collection V) (calls : list (V * V)) w :
  (∃ b g w',
      with_instance (graph.__init__ verts []) (graph_add_edges calls) w
      = (Ret (b, g), w')
      ∧ graph_wf g w' ∧ graph_counts_agree g)
  ∧ (∃ b dg w',
      with_instance (digraph.__init__ verts []) (digraph_add_edges calls) w
      = (Ret (b, dg), w')
      ∧ digraph_wf dg w' ∧ digraph_counts_agree dg).
Proof.
  split.
  - assert (∀ cs b g w, graph_wf g w → graph_counts_agree g →
              ∃ b' g' w',
                for_in cs b (λ c _, graph.add_edge c.1 c.2) (g, w)
                = (Ret b', (g', w'))
                ∧ graph_wf g' w' ∧ graph_counts_agree g') as Hloop.
    { induction cs as [|[i j] cs IH]; intros b g w1 Hwf Hagree; simpl.
      - by exists b, g, w1.
      - destruct (graph_add_edge_invariant g w1 i j Hwf Hagree)
          as (b1 & g1 & w2 & Hrun & Hwf1 & Hagree1).
        erewrite bind_Ret by exact Hrun. by apply IH. }
    destruct (graph.__init__ verts [] w) as [o w1] eqn:Hinit.
    pose proof Hinit as Hinit'. rewrite graph_init_run in Hinit'.
    injection Hinit' as <- <-.
    edestruct (Hloop calls true) as (b & g' & w' & Hrun & Hwf & Hagree).
    { eapply graph_init_wf; [|exact Hinit]. by intros v l. }
    { unfold graph_counts_agree, graph_degree_sum. simpl.
      by rewrite unseeded_sum_len, sum_values_zero. }
    exists b, g', w'. split; [|done].
    unfold with_instance, graph_add_edges. by rewrite Hinit, Hrun.
  - assert (∀ cs b dg w, digraph_wf dg w → digraph_counts_agree dg →
              ∃ b' dg' w',
                for_in cs b (λ c _, digraph.add_edge c.1 c.2) (dg, w)
                = (Ret b', (dg', w'))
                ∧ digraph_wf dg' w' ∧ digraph_counts_agree dg') as Hloop.
    { induction cs as [|[i j] cs IH]; intros b dg w1 Hwf Hagree; simpl.
      - by exists b, dg, w1.
      - destruct (digraph_add_edge_invariant dg w1 i j Hwf Hagree)
          as (b1 & g1 & w2 & Hrun & Hwf1 & Hagree1).
        erewrite bind_Ret by exact Hrun. by apply IH. }
    destruct (digraph.__init__ verts [] w) as [o w1] eqn:Hinit.
    pose proof Hinit as Hinit'. rewrite digraph_init_run in Hinit'.
    injection Hinit' as <- <-.
    edestruct (Hloop calls true) as (b & g' & w' & Hrun & Hwf & Hagree).
    { eapply digraph_init_wf; [|exact Hinit]. by intros v l. }
    { unfold digraph_counts_agree, digraph_out_degree_sum. simpl.
      by rewrite unseeded_sum_len, sum_values_zero. }
    exists b, g', w'. split; [|done].
    unfold with_instance, digraph_add_edges. by rewrite Hinit, Hrun.
Qed.
End edge_count.

(** ** [subgraph] of the undirected class *)

Section subgraph.
Context {V : Type} `{Countable V}.
Implicit Types (g : graph.t V) (w : world V) (sv : collection V).

Lemma map_py_cons {St X Y} (f : X → py St Y) x xs :
  map_py f (x :: xs) = (y ⇐ f x ;; ys ⇐ map_py f xs ;; ret (y :: ys)).
Proof. done. Qed.

Lemma subgraph_pair_run g sv v l w :
  dict_get (graph.ve_dict g) v = Some l →
  (l0 ⇐ lift (getitem (graph.ve_dict g) v) ;;
   w' ⇐ get ;;
   l' ⇐ new_set (filter (λ e, e ∈ iter sv) (deref w' l0)) ;;
   ret (v, l')) w
  = (Ret (v, length (heap w)),
     World (heap w ++ [filter (λ e, e ∈ iter sv) (deref w l)]) (stdout w)).
Proof.
  intros Hl. unfold bind, lift, getitem, get, new_set, ret. by rewrite Hl.
Qed.

(** The comprehension of [subgraph]: one new set per element of
    [some_verts]. *)
Lemma subgraph_pairs_run g w0 sv vs w :
  graph_wf g w0 → (∀ v, v ∈ vs → v ∈ graph.__iter__ g) →
  length (heap w0) ≤ length (heap w) →
  (∀ l, l < length (heap w0) → deref w l = deref w0 l) →
  ∃ pairs w1,
    map_py
      (λ v, l ⇐ lift (getitem (graph.ve_dict g) v) ;;
            w ⇐ get ;;
            l' ⇐ new_set (filter (λ e, e ∈ iter sv) (deref w l)) ;;
            ret (v, l'))
      vs w = (Ret pairs, w1)
    ∧ pairs.*1 = vs
    ∧ length (heap w1) = length (heap w) + length vs
    ∧ stdout w1 = stdout w
    ∧ (∀ l, l < length (heap w) → deref w1 l = deref w l)
    ∧ (∀ v l, (v, l) ∈ pairs →
              length (heap w) ≤ l < length (heap w1)
              ∧ deref w1 l = filter (λ e, e ∈ iter sv) (graph_nbrs g w0 v)).
Proof.
  intros Hwf. revert w. induction vs as [|v vs IH]; intros w Hvs Hlen Hframe.
  { exists [], w. split; [done|]. split; [done|]. split; [simpl; lia|].
    split; [done|]. split; [done|]. by intros ? ? ?%elem_of_nil. }
  assert (v ∈ graph.__iter__ g) as Hv by (apply Hvs; left).
  apply dict_get_is_Some in Hv as [l Hl].
  pose proof (graph_wf_locs _ _ Hwf _ _ Hl) as Hl0.
  set (s := filter (λ e, e ∈ iter sv) (deref w l)).
  set (w' := World (heap w ++ [s]) (stdout w)).
  assert (∀ l', l' < length (heap w) → deref w' l' = deref w l') as Hold.
  { intros l' Hl'. unfold deref, w'. simpl. by rewrite lookup_app_l. }
  destruct (IH w')
    as (pairs & w1 & Hrun & Hkeys & Hlen1 & Hout & Hframe1 & Hnew).
  { intros; apply Hvs; by right. }
  { unfold w'. simpl. rewrite length_app. simpl. lia. }
  { intros l' Hl'. rewrite Hold by lia. by apply Hframe. }
  assert (length (heap w') = S (length (heap w))) as Hlen'
    by (unfold w'; simpl; rewrite length_app; simpl; lia).
  exists ((v, length (heap w)) :: pairs), w1. split.
  { rewrite map_py_cons.
    erewrite bind_Ret by (by apply subgraph_pair_run).
    fold s. fold w'. by erewrite bind_Ret by exact Hrun. }
  split; [simpl; by f_equal|]. split; [simpl; lia|]. split; [done|].
  split; [intros l' Hl'; rewrite Hframe1 by lia; by apply Hold|].
  intros v' l' [[= -> ->]|Hin]%elem_of_cons.
  - split; [lia|]. rewrite Hframe1 by lia.
    unfold deref at 1, w'. simpl. rewrite lookup_app_r by lia.
    rewrite Nat.sub_diag. simpl. unfold s, graph_nbrs. rewrite Hl.
    by rewrite Hframe.
  - destruct (Hnew v' l' Hin) as [? ?]. split; [lia|done].
Qed.

(** [graph.subgraph]: the instance it returns has the vertices of
    [some_verts] and the edges of [g] between them, holds new set objects
    only, and leaves the objects of [g] as they were. *)
Theorem graph_subgraph_spec g w sv :
  graph_wf g w → (∀ v, v ∈ iter sv → v ∈ graph.__iter__ g) →
  ∃ g' w',
    graph.subgraph g sv w = (Ret g', w')
    ∧ (∀ v, v ∈ graph.__iter__ g' ↔ v ∈ iter sv)
    ∧ (∀ v u, u ∈ graph_nbrs g' w' v ↔
              v ∈ iter sv ∧ u ∈ iter sv ∧ u ∈ graph_nbrs g w v)
    ∧ (∀ v l, dict_get (graph.ve_dict g') v = Some l → length (heap w) ≤ l)
    ∧ (∀ l, l < length (heap w) → deref w' l = deref w l)
    ∧ stdout w' = stdout w.
Proof.
  intros Hwf HS.
  destruct (subgraph_pairs_run g w sv (iter sv) w Hwf HS)
    as (pairs & w1 & Hrun & Hkeys & Hlen1 & Hout & Hframe1 & Hnew);
    [done|done|].
  assert (seed_allocated (dict pairs) w1) as Hseed.
  { intros v l Hl. rewrite dict_get_dict in Hl.
    apply dict_get_elem_of, elem_of_reverse, Hnew in Hl. lia. }
  assert (∀ v l, dict_get (dict pairs) v = Some l →
                 length (heap w) ≤ l
                 ∧ deref w1 l = filter (λ e, e ∈ iter sv) (graph_nbrs g w v))
    as Hseed'.
  { intros v l Hl. rewrite dict_get_dict in Hl.
    apply dict_get_elem_of, elem_of_reverse, Hnew in Hl as [? ?].
    split; [lia|done]. }
  assert (∀ v, v ∈ iter sv → is_Some (dict_get (dict pairs) v)) as Hall.
  { intros v Hv. apply dict_get_is_Some, elem_of_keys_dict.
    by rewrite Hkeys. }
  eexists _, _. split.
  { unfold graph.subgraph. erewrite bind_Ret by exact Hrun.
    apply graph_init_run. }
  unfold graph.__iter__, graph_nbrs. cbn [graph.ve_dict].
  split; [intros v; apply seeded_keys|]. split; [|split; [|split]].
  - intros v u.
    destruct (dict_get (dict (seeded_pairs _ _ _)) v) as [l|] eqn:Hl.
    + apply seeded_dict_get in Hl as (Hv & _ & ->); [|done].
      destruct (Hall v Hv) as [l0 Hl0]. rewrite Hl0.
      destruct (Hseed' v l0 Hl0) as [_ ->].
      unfold graph_nbrs. rewrite elem_of_filter. tauto.
    + apply dict_get_None in Hl. rewrite seeded_keys in Hl.
      split; [set_solver|tauto].
  - intros v l Hl. rewrite dict_get_dict in Hl.
    apply dict_get_elem_of, elem_of_reverse, elem_of_seeded_pairs in Hl
      as [Hv [Hl|[_ ?]]]; [|lia].
    by apply Hseed' in Hl as [? _].
  - intros l Hl. rewrite deref_grown_old by lia. by apply Hframe1.
  - simpl. done.
Qed.
End subgraph.

(** ** More on the sampler *)

Section sampler_more.
Context {K : Type}.
Implicit Types (wd items pre : pydict K Q) (cutoff : Q) (k : K).









End sampler_more.


(** ** Instances built without seed edges *)

Section dict_fmap.
Context {K : Type} `{EqDecision K} {A : Type}.
Implicit Types (ks : list K) (f : K → A) (k : K).


Lemma values_fmap_pair ks f : values ((λ v, (v, f v)) <$> ks) = f <$> ks.
Proof. unfold values. by rewrite <-list_fmap_compose. Qed.

Lemma dict_get_fmap_pair ks f k :
  dict_get ((λ v, (v, f v)) <$> ks) k =
    if decide (k ∈ ks) then Some (f k) else None.
Proof.
  induction ks as [|k0 ks IH].
  - by destruct (decide (k ∈ [])) as [?%elem_of_nil|].
  - cbn [fmap list_fmap dict_get]. destruct (decide (k = k0)) as [->|Hne].
    + by rewrite decide_True by left.
    + rewrite IH. apply decide_ext. rewrite elem_of_cons. naive_solver.
Qed.

Lemma dict_set_fmap_pair ks f k y :
  NoDup ks → k ∈ ks →
  dict_set k y ((λ v, (v, f v)) <$> ks) =
    (λ v, (v, if decide (v = k) then y else f v)) <$> ks.
Proof.
  induction ks as [|k0 ks IH]; intros Hnd Hk; [by apply elem_of_nil in Hk|].
  apply NoDup_cons in Hnd as [Hk0 Hnd]. simpl.
  destruct (decide (k = k0)) as [->|Hne].
  - rewrite decide_True by done. f_equal.
    apply list_fmap_ext. intros i v Hv. rewrite decide_False; [done|].
    intros ->. by apply list_elem_of_lookup_2 in Hv.
  - rewrite decide_False by done. f_equal. apply IH; [done|].
    by apply elem_of_cons in Hk as [?|?].
Qed.

Lemma dict_set_const_present ks (a : A) k :
  k ∈ ks →
  dict_set k a ((λ v, (v, a)) <$> ks) = (λ v, (v, a)) <$> ks.
Proof.
  induction ks as [|k0 ks IH]; intros Hk; [by apply elem_of_nil in Hk|].
  simpl. case_decide; subst; [done|]. f_equal. apply IH.
  by apply elem_of_cons in Hk as [?|?].
Qed.

Lemma dict_set_const_absent ks (a : A) k :
  k ∉ ks →
  dict_set k a ((λ v, (v, a)) <$> ks) = (λ v, (v, a)) <$> (ks ++ [k]).
Proof.
  induction ks as [|k0 ks IH]; intros Hk; [done|].
  apply not_elem_of_cons in Hk as [Hne Hk].
  simpl. rewrite decide_False by done. f_equal. by apply IH.
Qed.

(** A dictionary built from pairs with one value depends on the keys
    alone. *)
Lemma dict_const_keys {B} (a : A) (ps : list (K * B)) :
  dict ((λ p, (p.1, a)) <$> ps) = (λ v, (v, a)) <$> keys (dict ps).
Proof.
  unfold dict.
  assert (∀ (d : pydict K A) (d' : pydict K B),
            d = (λ v, (v, a)) <$> keys d' →
            foldl (λ d p, dict_set p.1 p.2 d) d ((λ p, (p.1, a)) <$> ps)
            = (λ v, (v, a))
                <$> keys (foldl (λ d p, dict_set p.1 p.2 d) d' ps))
    as Hfold.
  { induction ps as [|[k b] ps IH]; intros d d' Hd; simpl; [done|].
    apply IH. subst d.
    destruct (decide (k ∈ keys d')) as [Hk|Hk].
    - by rewrite keys_set_present, dict_set_const_present.
    - by rewrite keys_set_absent, dict_set_const_absent. }
  by apply Hfold.
Qed.
End dict_fmap.

Section sums.
Context {V : Type}.

Lemma foldl_add_cons (x : Z) (l : list Z) :
  foldl Z.add 0%Z (x :: l) = (x + foldl Z.add 0%Z l)%Z.
Proof. simpl. rewrite foldl_add_shift. lia. Qed.

(** A sum of terms bounded by [m] reaches [m] times their number exactly
    when every term is [m]. *)
Lemma sum_bounded (f : V → Z) (m : Z) (l : list V) :
  (∀ v, v ∈ l → (f v ≤ m)%Z) →
  (foldl Z.add 0%Z (f <$> l) ≤ m * Z.of_nat (length l))%Z
  ∧ (foldl Z.add 0%Z (f <$> l) = (m * Z.of_nat (length l))%Z
     ↔ ∀ v, v ∈ l → f v = m).
Proof.
  induction l as [|x l IH]; intros Hle.
  - simpl. split; [lia|]. split; [by intros _ v ?%elem_of_nil|lia].
  - destruct IH as [IH1 IH2]; [intros; apply Hle; by right|].
    pose proof (Hle x (list_elem_of_here _ _)) as Hx.
    rewrite fmap_cons, foldl_add_cons. simpl length. split; [lia|].
    split.
    + intros Hsum v [->|Hv]%elem_of_cons; [lia|].
      apply IH2; [lia|done].
    + intros Hall. rewrite (Hall x) by left.
      rewrite (proj2 IH2) by (intros; apply Hall; by right). lia.
Qed.
End sums.

Section graph_consistent.
Context {V : Type} `{Countable V}.
Implicit Types (g : graph.t V) (w : world V) (i j u v : V).

Lemma graph_consistent_deg g w v :
  graph_consistent g w → v ∈ graph.__iter__ g →
  dict_get (graph.degs g) v = Some (Z.of_nat (size (graph_nbrs g w v))).
Proof.
  intros Hc Hv. rewrite (gc_degs _ _ Hc), dict_get_fmap_pair.
  by rewrite decide_True.
Qed.

Lemma graph_nbrs_no_key g w v :
  v ∉ graph.__iter__ g → graph_nbrs g w v = ∅.
Proof.
  intros Hv. unfold graph_nbrs.
  destruct (dict_get _ v) eqn:E; [|done].
  by apply dict_get_Some_keys in E.
Qed.

Lemma graph_degree_sum_sizes g w :
  graph_consistent g w →
  graph_degree_sum g =
    foldl Z.add 0%Z
      ((λ v, Z.of_nat (size (graph_nbrs g w v))) <$> graph.__iter__ g).
Proof.
  intros Hc. unfold graph_degree_sum.
  by rewrite (gc_degs _ _ Hc), values_fmap_pair.
Qed.

(** The neighbour sets after a successful [add_edge]. *)
Lemma graph_add_edge_nbrs g w i j li lj v :
  graph_consistent g w → i ≠ j →
  dict_get (graph.ve_dict g) i = Some li →
  dict_get (graph.ve_dict g) j = Some lj →
  match dict_get (graph.ve_dict g) v with
  | Some l => deref (set_add lj i (set_add li j w)) l
  | None => ∅
  end =
    if decide (v = i) then graph_nbrs g w v ∪ {[j]}
    else if decide (v = j) then graph_nbrs g w v ∪ {[i]}
    else graph_nbrs g w v.
Proof.
  intros Hc Hij Hli Hlj.
  pose proof (graph_wf_locs _ _ (gc_wf _ _ Hc)) as Hlocs.
  pose proof (Hlocs _ _ Hli). pose proof (Hlocs _ _ Hlj).
  assert (li ≠ lj) as Hl.
  { intros ->. by apply Hij, (gc_own _ _ Hc i j lj). }
  unfold graph_nbrs.
  destruct (dict_get (graph.ve_dict g) v) as [l|] eqn:Hv.
  - rewrite !deref_set_add by (by rewrite ?length_heap_set_add).
    destruct (decide (v = i)) as [->|Hvi].
    + assert (l = li) as -> by congruence.
      rewrite (decide_False (P := li = lj)) by done.
      by rewrite decide_True.
    + assert (l ≠ li) by (intros ->; by apply Hvi, (gc_own _ _ Hc v i li)).
      destruct (decide (v = j)) as [->|Hvj].
      * assert (l = lj) as -> by congruence.
        rewrite decide_True by done. by rewrite decide_False.
      * assert (l ≠ lj)
          by (intros ->; by apply Hvj, (gc_own _ _ Hc v j lj)).
        by rewrite !decide_False.
  - destruct (decide (v = i)) as [->|?]; [congruence|].
    destruct (decide (v = j)) as [->|?]; [congruence|done].
Qed.

(** [add_edge] keeps the invariant; when it returns [True] exactly the one
    edge was added, and no set object but those of the endpoints is
    touched. *)
Lemma graph_add_edge_consistent g w i j b g' w' :
  graph_consistent g w →
  graph.add_edge i j (g, w) = (Ret b, (g', w')) →
  graph_consistent g' w'
  ∧ graph.ve_dict g' = graph.ve_dict g
  ∧ graph.nv g' = graph.nv g
  ∧ length (heap w') = length (heap w)
  ∧ stdout w' = stdout w
  ∧ (∀ l, (∀ v, dict_get (graph.ve_dict g) v ≠ Some l) →
          deref w' l = deref w l)
  ∧ (b = false →
     g' = g ∧ w' = w
     ∧ (i ∈ graph.__iter__ g → j ∈ graph.__iter__ g → i ≠ j →
        j ∈ graph_nbrs g w i))
  ∧ (b = true →
     i ∈ graph.__iter__ g ∧ j ∈ graph.__iter__ g ∧ i ≠ j
     ∧ (j ∉ graph_nbrs g w i)
     ∧ graph_edge_added g w i j g' w').
Proof.
  intros Hc Hrun. pose proof (gc_wf _ _ Hc) as Hwf.
  pose proof Hwf as [Hkeys Hdegs Hlocs].
  destruct (decide (i ∈ keys (graph.ve_dict g) ∧ j ∈ keys (graph.ve_dict g)
                    ∧ i ≠ j ∧ i ∉ graph_nbrs g w j)) as [Hok|Hno].
  2:{ rewrite graph_add_edge_failure in Hrun by done.
      injection Hrun as <- <- <-. repeat (split; [done|]).
      split; [|done]. intros _. split; [done|]. split; [done|].
      intros Hi Hj Hij. apply (gc_symmetric _ _ Hc).
      destruct (decide (i ∈ graph_nbrs g w j)); [done|].
      destruct Hno. by repeat split. }
  destruct Hok as (Hi & Hj & Hij & Hnew).
  destruct (proj2 (dict_get_is_Some _ _) Hi) as [li Hli].
  destruct (proj2 (dict_get_is_Some _ _) Hj) as [lj Hlj].
  pose proof (graph_consistent_deg g w i Hc Hi) as Hdi.
  pose proof (graph_consistent_deg g w j Hc Hj) as Hdj.
  destruct (graph_add_edge_invariant g w i j Hwf (gc_ne _ _ Hc))
    as (b0 & g0 & w0 & Hrun0 & Hwf0 & Hne0).
  rewrite Hrun in Hrun0. injection Hrun0 as <- <- <-.
  rewrite (graph_add_edge_success g w i j li lj _ _ Hij Hli Hlj Hdi Hdj Hnew)
    in Hrun.
  injection Hrun as <- <- <-.
  assert (j ∉ graph_nbrs g w i) as Hnew'
    by (by rewrite (gc_symmetric _ _ Hc i j)).
  pose proof (λ v, graph_add_edge_nbrs g w i j li lj v Hc Hij Hli Hlj)
    as Hnbrs.
  split; [|split; [done|split; [done|split; [|split; [done|split]]]]].
  - split; try done.
    + apply (gc_own _ _ Hc).
    + intros v u. unfold graph_nbrs, graph.__iter__.
      cbn [graph.ve_dict]. rewrite Hnbrs.
      pose proof (gc_closed _ _ Hc v u) as Hcl. unfold graph.__iter__ in Hcl.
      repeat case_decide; set_solver.
    + intros u v. unfold graph_nbrs. cbn [graph.ve_dict]. rewrite !Hnbrs.
      pose proof (gc_symmetric _ _ Hc u v).
      repeat case_decide; set_solver.
    + intros v. unfold graph_nbrs. cbn [graph.ve_dict]. rewrite Hnbrs.
      pose proof (gc_loop_free _ _ Hc v).
      repeat case_decide; set_solver.
    + cbn [graph.degs]. unfold graph.__iter__, graph_nbrs.
      cbn [graph.ve_dict].
      rewrite (gc_degs _ _ Hc).
      rewrite !dict_set_fmap_pair by done.
      apply list_fmap_ext. intros n v Hv. f_equal.
      rewrite Hnbrs.
      destruct (decide (v = j)) as [->|Hvj].
      * rewrite decide_False by done.
        rewrite size_union by set_solver. rewrite size_singleton.
        unfold graph_nbrs. lia.
      * destruct (decide (v = i)) as [->|Hvi]; [|done].
        rewrite size_union by set_solver. rewrite size_singleton.
        unfold graph_nbrs. lia.
  - by rewrite !length_heap_set_add.
  - intros l Hl.
    pose proof (Hlocs _ _ Hli). pose proof (Hlocs _ _ Hlj).
    rewrite !deref_set_add by (by rewrite ?length_heap_set_add).
    rewrite !decide_False; [done|intros ->; by eapply Hl..].
  - split; [done|]. intros _. split; [done|]. split; [done|].
    split; [done|]. split; [done|]. split; [done|]. split; [done|].
    split; [cbn [graph.ne]; reflexivity|]. split; [|done].
    intros v. unfold graph_nbrs at 1. cbn [graph.ve_dict]. apply Hnbrs.
Qed.

(** The instance the constructor builds without seed edges. *)
Lemma graph_init_consistent (verts : collection V) w g w' :
  graph.__init__ verts [] w = (Ret g, w') →
  graph_consistent g w'
  ∧ (∀ v, graph_nbrs g w' v = ∅)
  ∧ (∀ v, v ∈ graph.__iter__ g ↔ v ∈ iter verts)
  ∧ graph.nv g = len verts
  ∧ stdout w' = stdout w
  ∧ (∀ l, l < length (heap w) → deref w' l = deref w l)
  ∧ (∀ v l, dict_get (graph.ve_dict g) v = Some l → length (heap w) ≤ l).
Proof.
  intros Hinit.
  assert (seed_allocated ([] : pydict V loc) w) as Hseed by (by intros v l).
  pose proof (graph_init_wf _ _ _ _ _ Hseed Hinit) as Hwf.
  rewrite graph_init_run in Hinit. injection Hinit as <- <-.
  set (ve := dict (seeded_pairs [] (iter verts) (length (heap w)))) in *.
  set (w' := grown w (length (iter verts))) in *.
  set (g := graph.Graph ve _ _ _) in *.
  assert (∀ v, graph_nbrs g w' v = ∅) as Hempty.
  { intros v. unfold graph_nbrs. cbn [g graph.ve_dict].
    destruct (dict_get ve v) as [l|] eqn:Hl; [|done].
    apply seeded_dict_get in Hl as (_ & _ & Hd); [|done].
    unfold w'. by rewrite Hd. }
  split; [split; try done|].
  - cbn [g graph.ve_dict]. intros u v l Hu Hv. unfold ve in Hu, Hv.
    rewrite dict_get_dict in Hu, Hv.
    apply dict_get_elem_of in Hu, Hv.
    apply (proj1 (elem_of_reverse _ _)) in Hu, Hv.
    unfold seeded_pairs in Hu, Hv.
    apply elem_of_lookup_imap in Hu as (iu & xu & [= -> ->] & Hxu).
    apply elem_of_lookup_imap in Hv as (iv & xv & [= -> Hl] & Hxv).
    simpl in Hl. assert (iu = iv) as -> by lia. congruence.
  - intros v u. by rewrite Hempty.
  - intros u v. by rewrite !Hempty.
  - intros v. by rewrite Hempty.
  - change (graph.degs g) with (dict ((λ v, (v, 0%Z)) <$> iter verts)).
    change (graph.__iter__ g) with (keys ve).
    assert ((λ v, (v, 0%Z)) <$> iter verts
            = (λ p : V * loc, (p.1, 0%Z))
                <$> seeded_pairs [] (iter verts) (length (heap w))) as ->.
    { rewrite <-(seeded_pairs_keys [] (iter verts) (length (heap w))) at 1.
      by rewrite <-list_fmap_compose. }
    rewrite (dict_const_keys 0%Z). fold ve.
    apply list_fmap_ext. intros n v Hv. by rewrite Hempty.
  - unfold graph_counts_agree, graph_degree_sum. cbn [g graph.ne graph.degs].
    unfold ve, w'. by rewrite unseeded_sum_len, sum_values_zero.
  - split; [done|]. split; [intros v; apply seeded_keys|].
    split; [done|]. split; [done|].
    split; [intros l Hl; by apply deref_grown_old|].
    intros v l Hl. cbn [g graph.ve_dict] in Hl. unfold ve in Hl.
    rewrite dict_get_dict in Hl. apply dict_get_elem_of in Hl.
    apply (proj1 (elem_of_reverse _ _)) in Hl.
    apply elem_of_seeded_pairs in Hl as [_ [[=]|[_ ?]]]. lia.
Qed.
End graph_consistent.

(** ** [is_complete] and [add_rand_edge] of the undirected class *)

Section py_runs.
Context {S X Y : Type}.


End py_runs.

Section q_sums.
Context {V : Type}.



Lemma sum_complement (f : V → Z) (c : Z) (l : list V) :
  foldl Z.add 0%Z ((λ v, c - f v - 1)%Z <$> l) =
    ((c - 1) * Z.of_nat (length l) - foldl Z.add 0%Z (f <$> l))%Z.
Proof.
  induction l as [|x l IH]; [simpl; lia|].
  rewrite !fmap_cons, !foldl_add_cons, IH. simpl length. lia.
Qed.
End q_sums.

Section graph_degrees.
Context {V : Type} `{Countable V}.
Implicit Types (g : graph.t V) (w : world V) (i j u v x : V).

Lemma graph_nbrs_bound g w v :
  graph_consistent g w → v ∈ graph.__iter__ g →
  graph_nbrs g w v ⊆ list_to_set (graph.__iter__ g) ∖ {[v]}
  ∧ size (list_to_set (graph.__iter__ g) ∖ {[v]} : gset V) + 1
    = length (graph.__iter__ g).
Proof.
  intros Hc Hv. split.
  - intros u Hu. apply elem_of_difference. split.
    + apply elem_of_list_to_set. by apply (gc_closed _ _ Hc v).
    + intros ->%elem_of_singleton. by apply (gc_loop_free _ _ Hc v).
  - rewrite size_difference by (apply singleton_subseteq_l;
                                 by apply elem_of_list_to_set).
    rewrite size_singleton, size_list_to_set
      by apply (graph_wf_keys _ _ (gc_wf _ _ Hc)).
    assert (0 < length (graph.__iter__ g)); [|lia].
    destruct (graph.__iter__ g); [by apply elem_of_nil in Hv|simpl; lia].
Qed.

Lemma graph_size_bound g w v :
  graph_consistent g w → v ∈ graph.__iter__ g →
  size (graph_nbrs g w v) + 1 ≤ length (graph.__iter__ g).
Proof.
  intros Hc Hv. destruct (graph_nbrs_bound g w v Hc Hv) as [Hsub <-].
  apply subseteq_size in Hsub. lia.
Qed.

(** A vertex has [n - 1] neighbours exactly when every other vertex is
    one. *)
Lemma graph_saturated g w v :
  graph_consistent g w → v ∈ graph.__iter__ g →
  size (graph_nbrs g w v) + 1 = length (graph.__iter__ g)
  ↔ ∀ u, u ∈ graph.__iter__ g → u ≠ v → u ∈ graph_nbrs g w v.
Proof.
  intros Hc Hv. destruct (graph_nbrs_bound g w v Hc Hv) as [Hsub Hsize].
  split.
  - intros Heq u Hu Huv.
    assert (graph_nbrs g w v = list_to_set (graph.__iter__ g) ∖ {[v]})
      as -> by (apply set_subseteq_size_eq; [done|lia]).
    set_solver.
  - intros Hall. rewrite <-Hsize. f_equal. apply set_size_proper.
    intros u. split; [by apply Hsub|].
    intros [Hu Huv]%elem_of_difference. apply Hall; set_solver.
Qed.

Lemma graph_norm_sum g w :
  graph_consistent g w → graph_sized g →
  (graph.norm g ==
   inject_Z (foldl Z.add 0%Z
               ((λ v, graph.nv g - Z.of_nat (size (graph_nbrs g w v)) - 1)%Z
                  <$> graph.__iter__ g)))%Q.
Proof.
  intros Hc Hn. unfold graph.norm.
  pose proof (gc_ne _ _ Hc) as Hne. unfold graph_counts_agree in Hne.
  rewrite Hne, (graph_degree_sum_sizes g w Hc).
  rewrite sum_complement, <-Hn.
  unfold Z.sub.
  rewrite !inject_Z_plus, !inject_Z_mult, !inject_Z_plus, !inject_Z_opp.
  change (inject_Z 1) with 1%Q. field.
Qed.




Lemma graph_complete_adjacent g w :
  graph_consistent g w → graph_sized g →
  graph.is_complete g = true ↔ graph_all_adjacent g w.
Proof.
  intros Hc Hn. rewrite graph_is_complete_norm, Qeq_bool_iff.
  rewrite (graph_norm_sum g w Hc Hn).
  change 0%Q with (inject_Z 0). rewrite inject_Z_injective.
  rewrite sum_complement.
  pose proof (sum_bounded (λ v, Z.of_nat (size (graph_nbrs g w v)))
                (graph.nv g - 1)%Z (graph.__iter__ g)) as [Hle Heq].
  { intros v Hv. pose proof (graph_size_bound g w v Hc Hv).
    rewrite Hn. lia. }
  split.
  - intros Hsum u v Hu Hv Huv.
    apply (proj1 (graph_saturated g w u Hc Hu)); [|done|by intros ->].
    assert (Z.of_nat (size (graph_nbrs g w u)) = (graph.nv g - 1)%Z) as Hsz
      by (apply Heq; [lia|done]).
    rewrite Hn in Hsz. lia.
  - intros Hall.
    rewrite (proj2 Heq); [lia|].
    intros v Hv. rewrite Hn.
    assert (size (graph_nbrs g w v) + 1 = length (graph.__iter__ g));
      [|lia].
    apply graph_saturated; [done..|].
    intros u Hu Huv. apply Hall; [done..|by intros ->].
Qed.
End graph_degrees.

Section random_choice.
Context {A : Type}.

Lemma random_choice_nil pick :
  random_choice pick ([] : list A) = Exc IndexError.
Proof. done. Qed.

End random_choice.

Section graph_add_rand_edge.
Context {V : Type} `{Countable V}.
Implicit Types (g : graph.t V) (w : world V) (i j u v x : V).





End graph_add_rand_edge.

(** ** The undirected class without seed edges *)

Section graph_extras.
Context {V : Type} `{Countable V}.
Implicit Types (g : graph.t V) (w : world V) (i j u v x : V).

(** A sequence of [add_edge] calls on an instance that satisfies the
    invariant. *)
Lemma graph_add_edges_run (cs : list (V * V)) b g w :
  graph_consistent g w →
  ∃ b' g' w',
    for_in cs b (λ c _, graph.add_edge c.1 c.2) (g, w) = (Ret b', (g', w'))
    ∧ graph_consistent g' w'
    ∧ graph.ve_dict g' = graph.ve_dict g
    ∧ graph.nv g' = graph.nv g
    ∧ stdout w' = stdout w
    ∧ (∀ l, (∀ v, dict_get (graph.ve_dict g) v ≠ Some l) →
            deref w' l = deref w l)
    ∧ (∀ u v, v ∈ graph_nbrs g' w' u ↔
              v ∈ graph_nbrs g w u
              ∨ (u ≠ v ∧ u ∈ graph.__iter__ g ∧ v ∈ graph.__iter__ g
                 ∧ ((u, v) ∈ cs ∨ (v, u) ∈ cs))).
Proof.
  revert b g w. induction cs as [|[i j] cs IH]; intros b g w Hc.
  { exists b, g, w. repeat (split; [done|]). intros u v.
    split; [by left|]. intros [?|(_ & _ & _ & [?%elem_of_nil|?%elem_of_nil])];
      done. }
  destruct (graph_add_edge_invariant g w i j (gc_wf _ _ Hc) (gc_ne _ _ Hc))
    as (b1 & g1 & w1 & Hrun1 & _ & _).
  destruct (graph_add_edge_consistent g w i j b1 g1 w1 Hc Hrun1)
    as (Hc1 & Hve1 & Hnv1 & _ & Hout1 & Hframe1 & Hfalse & Htrue).
  destruct (IH b1 g1 w1 Hc1)
    as (b2 & g2 & w2 & Hrun2 & Hc2 & Hve2 & Hnv2 & Hout2 & Hframe2 & Hadj2).
  exists b2, g2, w2. split.
  { cbn [for_in]. by erewrite bind_Ret by exact Hrun1. }
  split; [done|]. split; [congruence|]. split; [congruence|].
  split; [congruence|]. split.
  { intros l Hl. rewrite Hframe2 by (by rewrite Hve1). by apply Hframe1. }
  intros u v. rewrite Hadj2. unfold graph.__iter__ in *. rewrite Hve1.
  rewrite !elem_of_cons.
  destruct b1.
  - destruct Htrue as (Hi & Hj & Hij & Hnew & _ & _ & _ & Hnb & _); [done|].
    rewrite Hnb.
    repeat case_decide; subst; set_solver.
  - destruct Hfalse as (-> & -> & Hold); [done|].
    pose proof (gc_symmetric _ _ Hc i j) as Hsym.
    split.
    + intros [?|(Huv & Hu & Hv & [?|?])]; [by left|right..]; by eauto 10.
    + intros [?|(Huv & Hu & Hv & [[Heq|?]|[Heq|?]])].
      * by left.
      * left. injection Heq as -> ->. by apply Hold.
      * right. by eauto 10.
      * left. injection Heq as -> ->. apply Hsym, Hold; [done..|].
        by intros ->.
      * right. by eauto 10.
Qed.

(** X3: on a graph built without seed edges, after any sequence of
    [add_edge] calls, the adjacency holds exactly the pairs of distinct
    vertices that a call named, in both directions; every vertex owns its
    set, its degree counter is the size of that set, [ne] is half the sum
    of the counters, and the set objects that existed before the
    constructor ran are as they were. *)
Theorem graph_unseeded_consistent (verts : collection V)
    (calls : list (V * V)) w :
  ∃ b g w',
    with_instance (graph.__init__ verts []) (graph_add_edges calls) w
    = (Ret (b, g), w')
    ∧ graph_consistent g w'
    ∧ (∀ v, v ∈ graph.__iter__ g ↔ v ∈ iter verts)
    ∧ graph.__len__ g = len verts
    ∧ (∀ u v, v ∈ graph_nbrs g w' u ↔
              u ≠ v ∧ u ∈ iter verts ∧ v ∈ iter verts
              ∧ ((u, v) ∈ calls ∨ (v, u) ∈ calls))
    ∧ stdout w' = stdout w
    ∧ (∀ l, l < length (heap w) → deref w' l = deref w l).
Proof.
  destruct (graph.__init__ verts [] w) as [o w0] eqn:Hinit.
  pose proof Hinit as Hinit'. rewrite graph_init_run in Hinit'.
  injection Hinit' as <- <-. revert Hinit.
  set (g0 := graph.Graph _ _ _ _). set (w0 := grown _ _). intros Hinit.
  destruct (graph_init_consistent verts w g0 w0 Hinit)
    as (Hc0 & Hempty & Hkeys & Hnv & Hout & Hframe & Hnew).
  destruct (graph_add_edges_run calls true g0 w0 Hc0)
    as (b & g & w' & Hrun & Hc & Hve & Hnv' & Hout' & Hframe' & Hadj).
  exists b, g, w'. split.
  { unfold with_instance, graph_add_edges. by rewrite Hinit, Hrun. }
  split; [done|]. split.
  { intros v. unfold graph.__iter__. rewrite Hve. apply Hkeys. }
  split; [unfold graph.__len__; congruence|]. split.
  { intros u v. rewrite Hadj, Hempty, !Hkeys. set_solver. }
  split; [congruence|].
  intros l Hl. rewrite Hframe'; [by apply Hframe|].
  intros v Hv%Hnew. lia.
Qed.

(** X4: on a graph that satisfies the invariant of the instances built
    without seed edges and whose [nv] is its number of vertices,
    [is_complete] returns [True] exactly when every two distinct vertices
    are adjacent. *)
Theorem graph_is_complete_iff g w :
  graph_consistent g w → graph_sized g →
  graph.is_complete g = true ↔ graph_all_adjacent g w.
Proof. apply graph_complete_adjacent. Qed.

End graph_extras.

(** ** The directed class without seed edges *)

Section digraph_consistent.
Context {V : Type} `{Countable V}.
Implicit Types (g : digraph.t V) (w : world V) (i j u v x : V).

Lemma digraph_consistent_deg g w v :
  digraph_consistent g w → v ∈ digraph.__iter__ g →
  dict_get (digraph.out_deg g) v
  = Some (Z.of_nat (size (digraph_nbrs g w v))).
Proof.
  intros Hc Hv. rewrite (dc_out_deg _ _ Hc), dict_get_fmap_pair.
  by rewrite decide_True.
Qed.

Lemma digraph_degree_sum_sizes g w :
  digraph_consistent g w →
  digraph_out_degree_sum g =
    foldl Z.add 0%Z
      ((λ v, Z.of_nat (size (digraph_nbrs g w v))) <$> digraph.__iter__ g).
Proof.
  intros Hc. unfold digraph_out_degree_sum.
  by rewrite (dc_out_deg _ _ Hc), values_fmap_pair.
Qed.

(** The neighbour sets after a successful [add_edge]. *)
Lemma digraph_add_edge_nbrs g w i j li v :
  digraph_consistent g w →
  dict_get (digraph.ve_dict g) i = Some li →
  match dict_get (digraph.ve_dict g) v with
  | Some l => deref (set_add li j w) l
  | None => ∅
  end =
    if decide (v = i) then digraph_nbrs g w v ∪ {[j]}
    else digraph_nbrs g w v.
Proof.
  intros Hc Hli.
  pose proof (digraph_wf_locs _ _ (dc_wf _ _ Hc) _ _ Hli).
  unfold digraph_nbrs.
  destruct (dict_get (digraph.ve_dict g) v) as [l|] eqn:Hv.
  - rewrite !deref_set_add by done.
    destruct (decide (v = i)) as [->|Hvi].
    + assert (l = li) as -> by congruence. by rewrite decide_True.
    + rewrite decide_False; [done|].
      intros ->. by apply Hvi, (dc_own _ _ Hc v i li).
  - destruct (decide (v = i)) as [->|?]; [congruence|done].
Qed.

(** [add_edge] keeps the invariant; when it returns [True] exactly the one
    edge was added, and no set object but that of [i] is touched. *)
Lemma digraph_add_edge_consistent g w i j b g' w' :
  digraph_consistent g w →
  digraph.add_edge i j (g, w) = (Ret b, (g', w')) →
  digraph_consistent g' w'
  ∧ digraph.ve_dict g' = digraph.ve_dict g
  ∧ digraph.nv g' = digraph.nv g
  ∧ length (heap w') = length (heap w)
  ∧ stdout w' = stdout w
  ∧ (∀ l, (∀ v, dict_get (digraph.ve_dict g) v ≠ Some l) →
          deref w' l = deref w l)
  ∧ (b = false →
     g' = g ∧ w' = w
     ∧ (i ∈ digraph.__iter__ g → j ∈ digraph.__iter__ g → i ≠ j →
        j ∈ digraph_nbrs g w i))
  ∧ (b = true →
     i ∈ digraph.__iter__ g ∧ j ∈ digraph.__iter__ g ∧ i ≠ j
     ∧ (j ∉ digraph_nbrs g w i)
     ∧ digraph_edge_added g w i j g' w').
Proof.
  intros Hc Hrun. pose proof (dc_wf _ _ Hc) as Hwf.
  pose proof Hwf as [Hkeys Hdegs Hlocs].
  destruct (decide (i ∈ keys (digraph.ve_dict g)
                    ∧ j ∈ keys (digraph.ve_dict g)
                    ∧ i ≠ j ∧ j ∉ digraph_nbrs g w i)) as [Hok|Hno].
  2:{ rewrite digraph_add_edge_failure in Hrun by done.
      injection Hrun as <- <- <-. repeat (split; [done|]).
      split; [|done]. intros _. split; [done|]. split; [done|].
      intros Hi Hj Hij.
      destruct (decide (j ∈ digraph_nbrs g w i)); [done|].
      destruct Hno. by repeat split. }
  destruct Hok as (Hi & Hj & Hij & Hnew).
  destruct (proj2 (dict_get_is_Some _ _) Hi) as [li Hli].
  pose proof (digraph_consistent_deg g w i Hc Hi) as Hdi.
  destruct (digraph_add_edge_invariant g w i j Hwf (dc_ne _ _ Hc))
    as (b0 & g0 & w0 & Hrun0 & Hwf0 & Hne0).
  rewrite Hrun in Hrun0. injection Hrun0 as <- <- <-.
  rewrite (digraph_add_edge_success g w i j li _ Hij Hli Hj Hdi Hnew)
    in Hrun.
  injection Hrun as <- <- <-.
  pose proof (λ v, digraph_add_edge_nbrs g w i j li v Hc Hli) as Hnbrs.
  split; [|split; [done|split; [done|split; [|split; [done|split]]]]].
  - split; try done.
    + apply (dc_own _ _ Hc).
    + intros v u. unfold digraph_nbrs, digraph.__iter__.
      cbn [digraph.ve_dict]. rewrite Hnbrs.
      pose proof (dc_closed _ _ Hc v u) as Hcl.
      unfold digraph.__iter__ in Hcl.
      repeat case_decide; set_solver.
    + intros v. unfold digraph_nbrs. cbn [digraph.ve_dict]. rewrite Hnbrs.
      pose proof (dc_loop_free _ _ Hc v).
      repeat case_decide; set_solver.
    + cbn [digraph.out_deg]. unfold digraph.__iter__, digraph_nbrs.
      cbn [digraph.ve_dict].
      rewrite (dc_out_deg _ _ Hc).
      rewrite !dict_set_fmap_pair by done.
      apply list_fmap_ext. intros n v Hv. f_equal.
      rewrite Hnbrs.
      destruct (decide (v = i)) as [->|Hvi]; [|done].
      rewrite size_union by set_solver. rewrite size_singleton.
      unfold digraph_nbrs. lia.
  - by rewrite !length_heap_set_add.
  - intros l Hl.
    pose proof (Hlocs _ _ Hli).
    rewrite !deref_set_add by done.
    rewrite !decide_False; [done|intros ->; by eapply Hl].
  - split; [done|]. intros _. split; [done|]. split; [done|].
    split; [done|]. split; [done|]. split; [done|]. split; [done|].
    split; [done|]. split; [|done].
    intros v. unfold digraph_nbrs at 1. cbn [digraph.ve_dict]. apply Hnbrs.
Qed.

(** The instance the constructor builds without seed edges. *)
Lemma digraph_init_consistent (verts : collection V) w g w' :
  digraph.__init__ verts [] w = (Ret g, w') →
  digraph_consistent g w'
  ∧ (∀ v, digraph_nbrs g w' v = ∅)
  ∧ (∀ v, v ∈ digraph.__iter__ g ↔ v ∈ iter verts)
  ∧ digraph.ve_dict g
    = dict (seeded_pairs [] (iter verts) (length (heap w)))
  ∧ digraph.nv g = len verts
  ∧ stdout w' = stdout w
  ∧ w' = grown w (length (iter verts))
  ∧ (∀ l, l < length (heap w) → deref w' l = deref w l)
  ∧ (∀ v l, dict_get (digraph.ve_dict g) v = Some l →
            length (heap w) ≤ l).
Proof.
  intros Hinit.
  assert (seed_allocated ([] : pydict V loc) w) as Hseed by (by intros v l).
  pose proof (digraph_init_wf _ _ _ _ _ Hseed Hinit) as Hwf.
  rewrite digraph_init_run in Hinit. injection Hinit as <- <-.
  set (ve := dict (seeded_pairs [] (iter verts) (length (heap w)))) in *.
  set (w' := grown w (length (iter verts))) in *.
  set (g := digraph.Digraph ve _ _ _) in *.
  assert (∀ v, digraph_nbrs g w' v = ∅) as Hempty.
  { intros v. unfold digraph_nbrs. cbn [g digraph.ve_dict].
    destruct (dict_get ve v) as [l|] eqn:Hl; [|done].
    apply seeded_dict_get in Hl as (_ & _ & Hd); [|done].
    unfold w'. by rewrite Hd. }
  split; [split; try done|].
  - cbn [g digraph.ve_dict]. intros u v l Hu Hv. unfold ve in Hu, Hv.
    rewrite dict_get_dict in Hu, Hv.
    apply dict_get_elem_of in Hu, Hv.
    apply (proj1 (elem_of_reverse _ _)) in Hu, Hv.
    unfold seeded_pairs in Hu, Hv.
    apply elem_of_lookup_imap in Hu as (iu & xu & [= -> ->] & Hxu).
    apply elem_of_lookup_imap in Hv as (iv & xv & [= -> Hl] & Hxv).
    simpl in Hl. assert (iu = iv) as -> by lia. congruence.
  - intros v u. by rewrite Hempty.
  - intros v. by rewrite Hempty.
  - change (digraph.out_deg g)
      with (dict ((λ v, (v, 0%Z)) <$> iter verts)).
    change (digraph.__iter__ g) with (keys ve).
    assert ((λ v, (v, 0%Z)) <$> iter verts
            = (λ p : V * loc, (p.1, 0%Z))
                <$> seeded_pairs [] (iter verts) (length (heap w))) as ->.
    { rewrite <-(seeded_pairs_keys [] (iter verts) (length (heap w))) at 1.
      by rewrite <-list_fmap_compose. }
    rewrite (dict_const_keys 0%Z). fold ve.
    apply list_fmap_ext. intros n v Hv. by rewrite Hempty.
  - unfold digraph_counts_agree, digraph_out_degree_sum.
    cbn [g digraph.ne digraph.out_deg].
    unfold ve, w'. by rewrite unseeded_sum_len, sum_values_zero.
  - split; [done|]. split; [intros v; apply seeded_keys|].
    split; [done|]. split; [done|]. split; [done|]. split; [done|].
    split; [intros l Hl; by apply deref_grown_old|].
    intros v l Hl. cbn [g digraph.ve_dict] in Hl. unfold ve in Hl.
    rewrite dict_get_dict in Hl. apply dict_get_elem_of in Hl.
    apply (proj1 (elem_of_reverse _ _)) in Hl.
    apply elem_of_seeded_pairs in Hl as [_ [[=]|[_ ?]]]. lia.
Qed.

(** A sequence of [add_edge] calls on an instance that satisfies the
    invariant. *)
Lemma digraph_add_edges_run (cs : list (V * V)) b g w :
  digraph_consistent g w →
  ∃ b' g' w',
    for_in cs b (λ c _, digraph.add_edge c.1 c.2) (g, w)
    = (Ret b', (g', w'))
    ∧ digraph_consistent g' w'
    ∧ digraph.ve_dict g' = digraph.ve_dict g
    ∧ digraph.nv g' = digraph.nv g
    ∧ stdout w' = stdout w
    ∧ (∀ l, (∀ v, dict_get (digraph.ve_dict g) v ≠ Some l) →
            deref w' l = deref w l)
    ∧ (∀ u v, v ∈ digraph_nbrs g' w' u ↔
              v ∈ digraph_nbrs g w u
              ∨ (u ≠ v ∧ u ∈ digraph.__iter__ g ∧ v ∈ digraph.__iter__ g
                 ∧ (u, v) ∈ cs)).
Proof.
  revert b g w. induction cs as [|[i j] cs IH]; intros b g w Hc.
  { exists b, g, w. repeat (split; [done|]). intros u v.
    split; [by left|]. intros [?|(_ & _ & _ & ?%elem_of_nil)]; done. }
  destruct (digraph_add_edge_invariant g w i j (dc_wf _ _ Hc) (dc_ne _ _ Hc))
    as (b1 & g1 & w1 & Hrun1 & _ & _).
  destruct (digraph_add_edge_consistent g w i j b1 g1 w1 Hc Hrun1)
    as (Hc1 & Hve1 & Hnv1 & _ & Hout1 & Hframe1 & Hfalse & Htrue).
  destruct (IH b1 g1 w1 Hc1)
    as (b2 & g2 & w2 & Hrun2 & Hc2 & Hve2 & Hnv2 & Hout2 & Hframe2 & Hadj2).
  exists b2, g2, w2. split.
  { cbn [for_in]. by erewrite bind_Ret by exact Hrun1. }
  split; [done|]. split; [congruence|]. split; [congruence|].
  split; [congruence|]. split.
  { intros l Hl. rewrite Hframe2 by (by rewrite Hve1). by apply Hframe1. }
  intros u v. rewrite Hadj2. unfold digraph.__iter__ in *. rewrite Hve1.
  rewrite !elem_of_cons.
  destruct b1.
  - destruct Htrue as (Hi & Hj & Hij & Hnew & _ & _ & _ & Hnb & _); [done|].
    rewrite Hnb.
    repeat case_decide; subst; set_solver.
  - destruct Hfalse as (-> & -> & Hold); [done|].
    split.
    + intros [?|(Huv & Hu & Hv & ?)]; [by left|right]; by eauto 10.
    + intros [?|(Huv & Hu & Hv & [Heq|?])].
      * by left.
      * left. injection Heq as -> ->. by apply Hold.
      * right. by eauto 10.
Qed.
End digraph_consistent.

Section digraph_degrees.
Context {V : Type} `{Countable V}.
Implicit Types (g : digraph.t V) (w : world V) (i j u v x : V).

Lemma digraph_nbrs_bound g w v :
  digraph_consistent g w → v ∈ digraph.__iter__ g →
  digraph_nbrs g w v ⊆ list_to_set (digraph.__iter__ g) ∖ {[v]}
  ∧ size (list_to_set (digraph.__iter__ g) ∖ {[v]} : gset V) + 1
    = length (digraph.__iter__ g).
Proof.
  intros Hc Hv. split.
  - intros u Hu. apply elem_of_difference. split.
    + apply elem_of_list_to_set. by apply (dc_closed _ _ Hc v).
    + intros ->%elem_of_singleton. by apply (dc_loop_free _ _ Hc v).
  - rewrite size_difference by (apply singleton_subseteq_l;
                                 by apply elem_of_list_to_set).
    rewrite size_singleton, size_list_to_set
      by apply (digraph_wf_keys _ _ (dc_wf _ _ Hc)).
    assert (0 < length (digraph.__iter__ g)); [|lia].
    destruct (digraph.__iter__ g); [by apply elem_of_nil in Hv|simpl; lia].
Qed.

Lemma digraph_size_bound g w v :
  digraph_consistent g w → v ∈ digraph.__iter__ g →
  size (digraph_nbrs g w v) + 1 ≤ length (digraph.__iter__ g).
Proof.
  intros Hc Hv. destruct (digraph_nbrs_bound g w v Hc Hv) as [Hsub <-].
  apply subseteq_size in Hsub. lia.
Qed.

Lemma digraph_saturated g w v :
  digraph_consistent g w → v ∈ digraph.__iter__ g →
  size (digraph_nbrs g w v) + 1 = length (digraph.__iter__ g)
  ↔ ∀ u, u ∈ digraph.__iter__ g → u ≠ v → u ∈ digraph_nbrs g w v.
Proof.
  intros Hc Hv. destruct (digraph_nbrs_bound g w v Hc Hv) as [Hsub Hsize].
  split.
  - intros Heq u Hu Huv.
    assert (digraph_nbrs g w v = list_to_set (digraph.__iter__ g) ∖ {[v]})
      as -> by (apply set_subseteq_size_eq; [done|lia]).
    set_solver.
  - intros Hall. rewrite <-Hsize. f_equal. apply set_size_proper.
    intros u. split; [by apply Hsub|].
    intros [Hu Huv]%elem_of_difference. apply Hall; set_solver.
Qed.

Lemma digraph_norm_sum g w :
  digraph_consistent g w → digraph_sized g →
  digraph.norm g =
    foldl Z.add 0%Z
      ((λ v, digraph.nv g - Z.of_nat (size (digraph_nbrs g w v)) - 1)%Z
         <$> digraph.__iter__ g).
Proof.
  intros Hc Hn. unfold digraph.norm.
  pose proof (dc_ne _ _ Hc) as Hne. unfold digraph_counts_agree in Hne.
  rewrite Hne, (digraph_degree_sum_sizes g w Hc).
  rewrite sum_complement, <-Hn. lia.
Qed.


Lemma digraph_complete_adjacent g w :
  digraph_consistent g w → digraph_sized g →
  digraph.is_complete g = true ↔ digraph_all_adjacent g w.
Proof.
  intros Hc Hn. rewrite digraph_is_complete_norm, Z.eqb_eq.
  rewrite (digraph_norm_sum g w Hc Hn), sum_complement.
  pose proof (sum_bounded (λ v, Z.of_nat (size (digraph_nbrs g w v)))
                (digraph.nv g - 1)%Z (digraph.__iter__ g)) as [Hle Heq].
  { intros v Hv. pose proof (digraph_size_bound g w v Hc Hv).
    rewrite Hn. lia. }
  split.
  - intros Hsum u v Hu Hv Huv.
    apply (proj1 (digraph_saturated g w u Hc Hu)); [|done|by intros ->].
    assert (Z.of_nat (size (digraph_nbrs g w u)) = (digraph.nv g - 1)%Z)
      as Hsz by (apply Heq; [lia|done]).
    rewrite Hn in Hsz. lia.
  - intros Hall.
    rewrite (proj2 Heq); [lia|].
    intros v Hv. rewrite Hn.
    assert (size (digraph_nbrs g w v) + 1 = length (digraph.__iter__ g));
      [|lia].
    apply digraph_saturated; [done..|].
    intros u Hu Huv. apply Hall; [done..|by intros ->].
Qed.
End digraph_degrees.

Section digraph_add_rand_edge.
Context {V : Type} `{Countable V}.
Implicit Types (g : digraph.t V) (w : world V) (i j u v x : V).
Implicit Types (fk : option V).





End digraph_add_rand_edge.

Section digraph_extras.
Context {V : Type} `{Countable V}.
Implicit Types (g : digraph.t V) (w : world V) (i j u v x : V).

(** X6: on a digraph built without seed edges, after any sequence of
    [add_edge] calls, the adjacency holds exactly the pairs of distinct
    vertices that a call named, in the direction of the call; every vertex
    owns its set, its out-degree counter is the size of that set, [ne] is
    the sum of the counters, and the set objects that existed before the
    constructor ran are as they were. *)
Theorem digraph_unseeded_consistent (verts : collection V)
    (calls : list (V * V)) w :
  ∃ b g w',
    with_instance (digraph.__init__ verts []) (digraph_add_edges calls) w
    = (Ret (b, g), w')
    ∧ digraph_consistent g w'
    ∧ (∀ v, v ∈ digraph.__iter__ g ↔ v ∈ iter verts)
    ∧ digraph.__len__ g = len verts
    ∧ (∀ u v, v ∈ digraph_nbrs g w' u ↔
              u ≠ v ∧ u ∈ iter verts ∧ v ∈ iter verts ∧ (u, v) ∈ calls)
    ∧ stdout w' = stdout w
    ∧ (∀ l, l < length (heap w) → deref w' l = deref w l).
Proof.
  destruct (digraph.__init__ verts [] w) as [o w0] eqn:Hinit.
  pose proof Hinit as Hinit'. rewrite digraph_init_run in Hinit'.
  injection Hinit' as <- <-. revert Hinit.
  set (g0 := digraph.Digraph _ _ _ _). set (w0 := grown _ _). intros Hinit.
  destruct (digraph_init_consistent verts w g0 w0 Hinit)
    as (Hc0 & Hempty & Hkeys & _ & Hnv & Hout & _ & Hframe & Hnew).
  destruct (digraph_add_edges_run calls true g0 w0 Hc0)
    as (b & g & w' & Hrun & Hc & Hve & Hnv' & Hout' & Hframe' & Hadj).
  exists b, g, w'. split.
  { unfold with_instance, digraph_add_edges. by rewrite Hinit, Hrun. }
  split; [done|]. split.
  { intros v. unfold digraph.__iter__. rewrite Hve. apply Hkeys. }
  split; [unfold digraph.__len__; congruence|]. split.
  { intros u v. rewrite Hadj, Hempty, !Hkeys. set_solver. }
  split; [congruence|].
  intros l Hl. rewrite Hframe'; [by apply Hframe|].
  intros v Hv%Hnew. lia.
Qed.

(** X7: on a digraph that satisfies the invariant of the instances built
    without seed edges and whose [nv] is its number of vertices,
    [is_complete] returns [True] exactly when every vertex has an edge to
    every other vertex. *)
Theorem digraph_is_complete_iff g w :
  digraph_consistent g w → digraph_sized g →
  digraph.is_complete g = true ↔ digraph_all_adjacent g w.
Proof. apply digraph_complete_adjacent. Qed.

End digraph_extras.

(** ** [reverse] of the directed class *)

Section reverse.
Context {V : Type} `{Countable V}.
Context (set_order : gset V → list V).
Hypothesis set_order_elements : ∀ s, set_order s ≡ₚ elements s.
Implicit Types (d g : digraph.t V) (w : world V) (a b u v x : V).

Lemma elem_of_set_order (s : gset V) x : x ∈ set_order s ↔ x ∈ s.
Proof. by rewrite set_order_elements, elem_of_elements. Qed.

(** The inner loop of [reverse]: [add_edge(x, v)] for every [x] of [us]. *)
Lemma reverse_inner_run us v g w :
  digraph_consistent g w →
  ∃ g' w',
    for_in us () (λ x _, digraph.add_edge x v ;;; ret ()) (g, w)
    = (Ret (), (g', w'))
    ∧ digraph_consistent g' w'
    ∧ digraph.ve_dict g' = digraph.ve_dict g
    ∧ digraph.nv g' = digraph.nv g
    ∧ stdout w' = stdout w
    ∧ length (heap w') = length (heap w)
    ∧ (∀ l, (∀ u, dict_get (digraph.ve_dict g) u ≠ Some l) →
            deref w' l = deref w l)
    ∧ (∀ a b, b ∈ digraph_nbrs g' w' a ↔
              b ∈ digraph_nbrs g w a
              ∨ (a ≠ b ∧ a ∈ digraph.__iter__ g ∧ b ∈ digraph.__iter__ g
                 ∧ a ∈ us ∧ b = v)).
Proof.
  revert g w. induction us as [|x us IH]; intros g w Hc.
  { exists g, w. repeat (split; [done|]). intros a b.
    split; [by left|]. intros [?|(_ & _ & _ & ?%elem_of_nil & _)]; done. }
  destruct (digraph_add_edge_invariant g w x v (dc_wf _ _ Hc) (dc_ne _ _ Hc))
    as (b1 & g1 & w1 & Hrun1 & _ & _).
  destruct (digraph_add_edge_consistent g w x v b1 g1 w1 Hc Hrun1)
    as (Hc1 & Hve1 & Hnv1 & Hlen1 & Hout1 & Hframe1 & Hfalse & Htrue).
  destruct (IH g1 w1 Hc1)
    as (g2 & w2 & Hrun2 & Hc2 & Hve2 & Hnv2 & Hout2 & Hlen2 & Hframe2
        & Hadj2).
  exists g2, w2. split.
  { cbn [for_in]. erewrite bind_Ret.
    2:{ by erewrite bind_Ret by exact Hrun1. }
    exact Hrun2. }
  split; [done|]. split; [congruence|]. split; [congruence|].
  split; [congruence|]. split; [congruence|]. split.
  { intros l Hl. rewrite Hframe2 by (by rewrite Hve1). by apply Hframe1. }
  intros a b. rewrite Hadj2. unfold digraph.__iter__ in *. rewrite Hve1.
  rewrite !elem_of_cons.
  destruct b1.
  - destruct Htrue as (Hi & Hj & Hij & Hnew & _ & _ & _ & Hnb & _); [done|].
    rewrite Hnb.
    repeat case_decide; subst; set_solver.
  - destruct Hfalse as (-> & -> & Hold); [done|].
    split.
    + intros [?|(Hab & Ha & Hb & ? & ?)]; [by left|right]; by eauto 10.
    + intros [?|(Hab & Ha & Hb & [->|?] & ->)].
      * by left.
      * left. by apply Hold.
      * right. by eauto 10.
Qed.

(** The outer loop of [reverse] over the vertices [vs] of [d]; [g] is the
    digraph under construction, whose sets are not those of [d]. *)
Lemma reverse_outer_run d w0 vs g w :
  (∀ v, v ∈ vs → v ∈ digraph.__iter__ d) →
  (∀ v l, dict_get (digraph.ve_dict d) v = Some l →
          deref w l = deref w0 l
          ∧ ∀ u, dict_get (digraph.ve_dict g) u ≠ Some l) →
  digraph_consistent g w →
  ∃ g' w',
    for_in vs ()
      (λ v _,
         l ⇐ lift (getitem (digraph.ve_dict d) v) ;;
         s ⇐ get ;;
         for_in (set_order (deref s.2 l)) ()
           (λ x _, digraph.add_edge x v ;;; ret ()))
      (g, w)
    = (Ret (), (g', w'))
    ∧ digraph_consistent g' w'
    ∧ digraph.ve_dict g' = digraph.ve_dict g
    ∧ digraph.nv g' = digraph.nv g
    ∧ stdout w' = stdout w
    ∧ length (heap w') = length (heap w)
    ∧ (∀ l, (∀ u, dict_get (digraph.ve_dict g) u ≠ Some l) →
            deref w' l = deref w l)
    ∧ (∀ a b, b ∈ digraph_nbrs g' w' a ↔
              b ∈ digraph_nbrs g w a
              ∨ (a ≠ b ∧ a ∈ digraph.__iter__ g ∧ b ∈ digraph.__iter__ g
                 ∧ b ∈ vs ∧ a ∈ digraph_nbrs d w0 b)).
Proof.
  revert g w. induction vs as [|v vs IH]; intros g w Hvs Hsep Hc.
  { exists g, w. repeat (split; [done|]). intros a b.
    split; [by left|]. intros [?|(_ & _ & _ & ?%elem_of_nil & _)]; done. }
  assert (v ∈ digraph.__iter__ d) as Hv by (apply Hvs; left).
  apply dict_get_is_Some in Hv as [l Hl].
  destruct (Hsep v l Hl) as [Hsame _].
  destruct (reverse_inner_run (set_order (deref w l)) v g w Hc)
    as (g1 & w1 & Hrun1 & Hc1 & Hve1 & Hnv1 & Hout1 & Hlen1 & Hframe1
        & Hadj1).
  destruct (IH g1 w1) as (g2 & w2 & Hrun2 & Hc2 & Hve2 & Hnv2 & Hout2
                          & Hlen2 & Hframe2 & Hadj2).
  { intros; apply Hvs; by right. }
  { intros u lu Hlu. destruct (Hsep u lu Hlu) as [Hu Hno].
    split; [|by rewrite Hve1]. by rewrite Hframe1. }
  { done. }
  exists g2, w2. split.
  { cbn [for_in]. erewrite bind_Ret; [exact Hrun2|].
    unfold bind at 1, lift at 1, getitem. rewrite Hl.
    unfold bind at 1, get at 1. cbn [snd]. exact Hrun1. }
  split; [done|]. split; [congruence|]. split; [congruence|].
  split; [congruence|]. split; [congruence|]. split.
  { intros l' Hl'. rewrite Hframe2 by (by rewrite Hve1). by apply Hframe1. }
  intros a b. rewrite Hadj2, Hadj1. unfold digraph.__iter__ in *.
  rewrite Hve1, elem_of_cons, elem_of_set_order, Hsame.
  assert (digraph_nbrs d w0 v = deref w0 l) as Hnv
    by (unfold digraph_nbrs; by rewrite Hl).
  split.
  - intros [[?|(? & ? & ? & ? & ->)]|(? & ? & ? & ? & ?)];
      [by left|right..]; rewrite ?Hnv; by eauto 10.
  - intros [?|(? & ? & ? & [->|?] & Hin)].
    + by left; left.
    + left; right. rewrite Hnv in Hin. by eauto 10.
    + right. by eauto 10.
Qed.

Lemma dict_keys_iter (d : digraph.t V) :
  iter (dict_keys (digraph.ve_dict d)) = digraph.__iter__ d
  ∧ len (dict_keys (digraph.ve_dict d))
    = Z.of_nat (length (digraph.__iter__ d)).
Proof.
  unfold dict_keys, digraph.__iter__, keys. cbn [iter len].
  by rewrite length_fmap.
Qed.

(** What [reverse] returns. *)
Lemma reverse_spec d w :
  digraph_wf d w →
  ∃ d' w',
    digraph.reverse set_order d w = (Ret d', w')
    ∧ digraph_consistent d' w' ∧ digraph_sized d'
    ∧ digraph.__iter__ d' = digraph.__iter__ d
    ∧ (∀ a b, b ∈ digraph_nbrs d' w' a ↔
              a ∈ digraph_nbrs d w b ∧ a ≠ b
              ∧ a ∈ digraph.__iter__ d ∧ b ∈ digraph.__iter__ d)
    ∧ stdout w' = stdout w
    ∧ length (heap w') = length (heap w) + length (digraph.__iter__ d)
    ∧ (∀ l, l < length (heap w) → deref w' l = deref w l)
    ∧ (∀ v l, dict_get (digraph.ve_dict d') v = Some l →
              length (heap w) ≤ l).
Proof.
  intros Hwf. pose proof (digraph_wf_keys _ _ Hwf) as Hnd.
  destruct (dict_keys_iter d) as [Hiter Hlen].
  destruct (digraph.__init__ (dict_keys (digraph.ve_dict d)) [] w)
    as [o w0] eqn:Hinit.
  pose proof Hinit as Hinit'. rewrite digraph_init_run in Hinit'.
  injection Hinit' as <- <-. revert Hinit.
  set (g0 := digraph.Digraph _ _ _ _). set (w0 := grown _ _). intros Hinit.
  destruct (digraph_init_consistent _ w g0 w0 Hinit)
    as (Hc0 & Hempty & Hkeys & Hve0 & Hnv0 & Hout0 & Hw0 & Hframe0 & Hnew0).
  assert (digraph.__iter__ g0 = digraph.__iter__ d) as Hk0.
  { unfold digraph.__iter__ at 1. rewrite Hve0, Hiter.
    rewrite dict_NoDup by (by rewrite seeded_pairs_keys).
    apply seeded_pairs_keys. }
  destruct (reverse_outer_run d w (digraph.__iter__ d) g0 w0)
    as (g' & w' & Hrun & Hc & Hve & Hnv & Hout & Hlen' & Hframe & Hadj);
    [done| |done|].
  { intros v l Hl. pose proof (digraph_wf_locs _ _ Hwf _ _ Hl) as Hlt.
    split; [by apply Hframe0|]. intros u Hu%Hnew0. lia. }
  exists g', w'. split.
  { unfold digraph.reverse. erewrite bind_Ret by exact Hinit.
    cbv zeta. unfold digraph.__iter__ in Hrun.
    by rewrite Hrun. }
  assert (digraph.__iter__ g' = digraph.__iter__ d) as Hk'
    by (unfold digraph.__iter__ at 1; by rewrite Hve).
  split; [done|]. split.
  { unfold digraph_sized. rewrite Hk', Hnv, Hnv0. apply Hlen. }
  split; [done|]. split.
  { intros a b. rewrite Hadj, Hempty, Hk0. set_solver. }
  split; [congruence|]. split.
  { rewrite Hlen', Hw0. unfold grown. cbn [heap].
    by rewrite length_app, length_replicate, Hiter. }
  split.
  { intros l Hl. rewrite Hframe; [by apply Hframe0|].
    intros u Hu%Hnew0. lia. }
  intros v l. rewrite Hve. apply Hnew0.
Qed.
End reverse.

(** ** The sample instances satisfy the invariants *)

Section sample_facts.
Import sample.




Lemma sample_k2_nbrs v :
  graph_nbrs k2 w1 v = if decide (v = 0) then {[1]}
                       else if decide (v = 1) then {[0]} else ∅.
Proof. unfold graph_nbrs, k2. simpl. by repeat case_decide. Qed.

Lemma sample_k2_consistent : graph_consistent k2 w1.
Proof.
  split.
  - apply sample_k2_wf.
  - intros u v l. unfold k2. simpl. repeat case_decide; congruence.
  - apply sample_k2_closed.
  - apply sample_k2_symmetric.
  - intros v. rewrite sample_k2_nbrs. repeat case_decide; set_solver.
  - change (graph.__iter__ k2) with [0; 1].
    rewrite !fmap_cons, fmap_nil, !sample_k2_nbrs.
    rewrite (decide_True (P := 0 = 0)), (decide_False (P := 1 = 0)),
      (decide_True (P := 1 = 1)) by done.
    by rewrite !size_singleton.
  - reflexivity.
Qed.

Lemma sample_d0_nbrs v : digraph_nbrs d0 w1 v = ∅.
Proof. unfold digraph_nbrs, d0. simpl. by repeat case_decide. Qed.

Lemma sample_d0_consistent : digraph_consistent d0 w1.
Proof.
  split.
  - apply sample_d0_wf.
  - intros u v l. unfold d0. simpl. repeat case_decide; congruence.
  - apply sample_d0_closed.
  - intros v. by rewrite sample_d0_nbrs.
  - change (digraph.__iter__ d0) with [0; 1].
    by rewrite !fmap_cons, fmap_nil, !sample_d0_nbrs.
  - reflexivity.
Qed.
End sample_facts.

Section reverse_extras.
Context {V : Type} `{Countable V}.
Context (set_order : gset V → list V).
Hypothesis set_order_elements : ∀ s, set_order s ≡ₚ elements s.
Implicit Types (d : digraph.t V) (w : world V) (a b u v x : V).

Lemma digraph_nbrs_no_key d w v :
  v ∉ digraph.__iter__ d → digraph_nbrs d w v = ∅.
Proof.
  intros Hv. unfold digraph_nbrs.
  destruct (dict_get _ v) eqn:E; [|done].
  by apply dict_get_Some_keys in E.
Qed.


End reverse_extras.

(** [is_complete] on the complete graph on two vertices. *)
Lemma graph_is_complete_iff_witness :
  graph.is_complete sample.k2 = true
  ↔ graph_all_adjacent sample.k2 sample.w1.
Proof.
  apply (graph_is_complete_iff sample.k2 sample.w1
           sample_k2_consistent eq_refl).
Defined.


(** [is_complete] on the digraph on two vertices that has no edge. *)
Lemma digraph_is_complete_iff_witness :
  digraph.is_complete sample.d0 = true
  ↔ digraph_all_adjacent sample.d0 sample.w1.
Proof.
  apply (digraph_is_complete_iff sample.d0 sample.w1
           sample_d0_consistent eq_refl).
Defined.




(** ** [adj_mat] *)

Section numpy.
Implicit Types (mat : list (list Q)) (nv i j : Z) (r c n : nat).

Lemma np_index_in nv j :
  (- nv ≤ j < nv)%Z → ∃ c, np_index nv j = Ret c ∧ c < Z.to_nat nv.
Proof.
  intros Hj. unfold np_index.
  destruct (decide (0 ≤ j)%Z).
  - exists (Z.to_nat j).
    rewrite (proj2 (Z.leb_le 0 j)), (proj2 (Z.ltb_lt j nv)) by lia.
    split; [done|lia].
  - exists (Z.to_nat (j + nv)).
    rewrite (proj2 (Z.leb_gt 0 j)) by lia. cbn [andb].
    rewrite (proj2 (Z.leb_le (- nv) j)), (proj2 (Z.ltb_lt j 0)) by lia.
    split; [done|lia].
Qed.

Lemma np_index_out nv j :
  ¬ (- nv ≤ j < nv)%Z → np_index nv j = Exc IndexError.
Proof.
  intros Hj. unfold np_index.
  destruct (Z.leb_spec 0 j), (Z.ltb_spec j nv), (Z.leb_spec (- nv) j),
    (Z.ltb_spec j 0); cbn [andb]; try done; lia.
Qed.

Lemma np_index_row nv i :
  (0 ≤ i < nv)%Z → np_index nv i = Ret (Z.to_nat i).
Proof.
  intros Hi. unfold np_index.
  by rewrite (proj2 (Z.leb_le 0 i)), (proj2 (Z.ltb_lt i nv)) by lia.
Qed.

Lemma np_index_label nv j c :
  (0 ≤ j < nv)%Z → np_index nv j = Ret c ↔ c = Z.to_nat j.
Proof. intros Hj. rewrite np_index_row by done. naive_solver. Qed.

Lemma np_zeros_marks nv : np_marks (Z.to_nat nv) (np_zeros nv) (λ _ _, False).
Proof.
  unfold np_zeros. split; [split|].
  - apply length_replicate.
  - intros r row [-> _]%lookup_replicate. apply length_replicate.
  - intros r c Hr Hc. right. split; [|tauto].
    unfold np_entry. rewrite lookup_replicate_2 by done. simpl.
    by rewrite lookup_replicate_2.
Qed.

Lemma np_marks_iff n mat (P P' : nat → nat → Prop) :
  (∀ r c, r < n → c < n → P r c ↔ P' r c) →
  np_marks n mat P → np_marks n mat P'.
Proof.
  intros Hiff [Hshape Hm]. split; [done|]. intros r c Hr Hc.
  specialize (Hiff r c Hr Hc). destruct (Hm r c Hr Hc); [left|right]; tauto.
Qed.

(** One assignment [mat[i, j] = 1]. *)
Lemma np_setitem_marks nv mat i j P :
  np_marks (Z.to_nat nv) mat P → (0 ≤ i < nv)%Z → (- nv ≤ j < nv)%Z →
  ∃ mat',
    np_setitem nv mat i j 1 = Ret mat'
    ∧ np_marks (Z.to_nat nv) mat'
        (λ r c, P r c ∨ (r = Z.to_nat i ∧ np_index nv j = Ret c)).
Proof.
  intros [[Hlen Hrows] Hm] Hi Hj.
  destruct (np_index_in nv j Hj) as (cj & Hcj & Hlt).
  unfold np_setitem. rewrite (np_index_row nv i Hi), Hcj.
  eexists. split; [done|]. split; [split|].
  - by rewrite length_alter.
  - intros r row. destruct (decide (r = Z.to_nat i)) as [->|Hne].
    + rewrite list_lookup_alter_eq.
      destruct (mat !! Z.to_nat i) as [row0|] eqn:Hrow; [|done].
      intros [= <-]. rewrite length_insert. by eapply Hrows.
    + rewrite list_lookup_alter_ne by done. apply Hrows.
  - intros r c Hr Hc. unfold np_entry.
    destruct (decide (r = Z.to_nat i)) as [->|Hne].
    + rewrite list_lookup_alter_eq.
      destruct (lookup_lt_is_Some_2 mat (Z.to_nat i)) as [row Hrow];
        [lia|].
      rewrite Hrow. simpl.
      destruct (decide (c = cj)) as [->|Hc'].
      * left. split; [|by right].
        apply list_lookup_insert_eq. rewrite (Hrows _ _ Hrow). lia.
      * rewrite list_lookup_insert_ne by done.
        destruct (Hm (Z.to_nat i) c Hr Hc) as [[He ?]|[He ?]];
          unfold np_entry in He; rewrite Hrow in He; simpl in He;
          [left|right]; (split; [done|]); [by left|].
        intros [?|[_ Heq]]; [done|]. congruence.
    + rewrite list_lookup_alter_ne by done.
      destruct (Hm r c Hr Hc) as [[He ?]|[He ?]]; [left|right];
        (split; [done|]); [by left|].
      intros [?|[? _]]; done.
Qed.
End numpy.

Section adj_mat.
Context (set_order : gset Z → list Z).
Hypothesis set_order_elements : ∀ s, set_order s ≡ₚ elements s.
Implicit Types (mat : list (list Q)) (nv i j : Z) (r c n : nat).
Implicit Types (ve : pydict Z loc) (w : world Z).

(** The inner loop on the labels [js], all of them indices of the axis. *)
Lemma adj_mat_row_ok nv mat i js P :
  np_marks (Z.to_nat nv) mat P → (0 ≤ i < nv)%Z →
  (∀ j, j ∈ js → (- nv ≤ j < nv)%Z) →
  ∃ mat',
    for_in js mat (λ j mat, lift (np_setitem nv mat i j 1%Q)) ()
    = (Ret mat', ())
    ∧ np_marks (Z.to_nat nv) mat'
        (λ r c, P r c
                ∨ (r = Z.to_nat i ∧ ∃ j, j ∈ js ∧ np_index nv j = Ret c)).
Proof.
  intros Hm Hi. revert mat P Hm.
  induction js as [|j js IH]; intros mat P Hm Hjs.
  { exists mat. split; [done|]. eapply np_marks_iff; [|done].
    intros r c _ _. split; [by left|].
    intros [?|(_ & j & ?%elem_of_nil & _)]; done. }
  destruct (np_setitem_marks nv mat i j P Hm Hi) as (mat1 & Hset & Hm1);
    [apply Hjs; left|].
  destruct (IH mat1 _ Hm1) as (mat2 & Hrun & Hm2);
    [intros; apply Hjs; by right|].
  exists mat2. split.
  { cbn [for_in]. unfold bind at 1, lift at 1. by rewrite Hset. }
  eapply np_marks_iff; [|done]. intros r c _ _. cbv beta. split.
  - intros [[?|[-> ?]]|(-> & j' & ? & ?)]; [by left|right..];
      (split; [done|]); [exists j|exists j']; (split; [|done]);
      [left|by right].
  - intros [?|(-> & j' & [->|?]%elem_of_cons & ?)];
      [by left; left|left; right|right]; [done|].
    split; [done|]. by exists j'.
Qed.

(** The inner loop on labels of which one is no index. *)
Lemma adj_mat_row_bad nv mat i js P :
  np_marks (Z.to_nat nv) mat P → (0 ≤ i < nv)%Z →
  ¬ (∀ j, j ∈ js → (- nv ≤ j < nv)%Z) →
  for_in js mat (λ j mat, lift (np_setitem nv mat i j 1%Q)) ()
  = (Exc IndexError, ()).
Proof.
  intros Hm Hi. revert mat P Hm.
  induction js as [|j js IH]; intros mat P Hm Hbad.
  { destruct Hbad. by intros j ?%elem_of_nil. }
  cbn [for_in]. unfold bind at 1, lift at 1.
  destruct (decide (- nv ≤ j < nv)%Z) as [Hj|Hj].
  - destruct (np_setitem_marks nv mat i j P Hm Hi Hj) as (mat1 & -> & Hm1).
    apply (IH mat1 _ Hm1). intros Hall. apply Hbad.
    intros j' [->|?]%elem_of_cons; [done|by apply Hall].
  - unfold np_setitem.
    by rewrite (np_index_row nv i Hi), (np_index_out nv j Hj).
Qed.

Lemma labelled_nbrs_order ve w i l j :
  dict_get ve i = Some l →
  j ∈ set_order (deref w l) ↔ j ∈ labelled_nbrs ve w i.
Proof.
  intros Hl. unfold labelled_nbrs. rewrite Hl.
  by rewrite set_order_elements, elem_of_elements.
Qed.

(** The outer loop on the rows [is]. *)
Lemma adj_mat_rows_ok nv ve w mat (rows : list Z) P :
  np_marks (Z.to_nat nv) mat P →
  (∀ i, i ∈ rows →
        (0 ≤ i < nv)%Z ∧ i ∈ keys ve
        ∧ ∀ j, j ∈ labelled_nbrs ve w i → (- nv ≤ j < nv)%Z) →
  ∃ mat',
    for_in rows mat
      (λ i mat,
         l ⇐ lift (getitem ve i) ;;
         for_in (set_order (deref w l)) mat
           (λ j mat, lift (np_setitem nv mat i j 1%Q)))
      ()
    = (Ret mat', ())
    ∧ np_marks (Z.to_nat nv) mat'
        (λ r c, P r c
                ∨ ∃ i, i ∈ rows ∧ r = Z.to_nat i
                       ∧ ∃ j, j ∈ labelled_nbrs ve w i
                              ∧ np_index nv j = Ret c).
Proof.
  revert mat P. induction rows as [|i rows IH]; intros mat P Hm Hrows.
  { exists mat. split; [done|]. eapply np_marks_iff; [|done].
    intros r c _ _. split; [by left|].
    intros [?|(i & ?%elem_of_nil & _)]; done. }
  destruct (Hrows i) as (Hi & [l Hl]%dict_get_is_Some & Hin); [left|].
  destruct (adj_mat_row_ok nv mat i (set_order (deref w l)) P Hm Hi)
    as (mat1 & Hrow & Hm1).
  { intros j Hj. apply Hin. by eapply labelled_nbrs_order. }
  destruct (IH mat1 _ Hm1) as (mat2 & Hrun & Hm2);
    [intros; apply Hrows; by right|].
  exists mat2. split.
  { cbn [for_in]. erewrite bind_Ret; [exact Hrun|].
    unfold bind, lift, getitem. by rewrite Hl. }
  eapply np_marks_iff; [|done]. intros r c _ _. cbv beta. split.
  - intros [[?|(-> & j & Hj & ?)]|(i' & ? & -> & j & ? & ?)].
    + by left.
    + right. exists i. split; [left|]. split; [done|]. exists j.
      split; [|done]. by eapply labelled_nbrs_order.
    + right. exists i'. split; [by right|]. split; [done|]. by exists j.
  - intros [?|(i' & [->|?]%elem_of_cons & -> & j & Hj & ?)].
    + by left; left.
    + left; right. split; [done|]. exists j. split; [|done].
      by eapply labelled_nbrs_order.
    + right. exists i'. split; [done|]. split; [done|]. by exists j.
Qed.

Lemma adj_mat_rows_bad nv ve w mat (rows : list Z) P :
  np_marks (Z.to_nat nv) mat P →
  (∀ i, i ∈ rows → (0 ≤ i < nv)%Z) →
  ¬ (∀ i, i ∈ rows →
          i ∈ keys ve
          ∧ ∀ j, j ∈ labelled_nbrs ve w i → (- nv ≤ j < nv)%Z) →
  ∃ e,
    for_in rows mat
      (λ i mat,
         l ⇐ lift (getitem ve i) ;;
         for_in (set_order (deref w l)) mat
           (λ j mat, lift (np_setitem nv mat i j 1%Q)))
      ()
    = (Exc e, ())
    ∧ (e = KeyError ∨ e = IndexError).
Proof.
  revert mat P. induction rows as [|i rows IH]; intros mat P Hm Hrows Hbad.
  { destruct Hbad. by intros i ?%elem_of_nil. }
  assert (0 ≤ i < nv)%Z as Hi by (apply Hrows; left).
  cbn [for_in].
  destruct (dict_get ve i) as [l|] eqn:Hl.
  2:{ exists KeyError. split; [|by left].
      unfold bind, lift, getitem. by rewrite Hl. }
  destruct (decide (Forall (λ j, - nv ≤ j < nv)%Z (set_order (deref w l))))
    as [Hall|Hnot].
  - rewrite Forall_forall in Hall.
    destruct (adj_mat_row_ok nv mat i (set_order (deref w l)) P Hm Hi Hall)
      as (mat1 & Hrow & Hm1).
    destruct (IH mat1 _ Hm1) as (e & Hrun & He).
    { intros; apply Hrows; by right. }
    { intros Hrest. apply Hbad. intros i' [->|?]%elem_of_cons;
        [|by apply Hrest].
      split; [by eapply dict_get_Some_keys|].
      intros j Hj. apply Hall. by eapply labelled_nbrs_order. }
    exists e. split; [|done].
    erewrite bind_Ret; [exact Hrun|].
    unfold bind, lift, getitem. by rewrite Hl.
  - exists IndexError. split; [|by right].
    erewrite bind_Exc; [done|].
    unfold bind at 1, lift at 1, getitem. rewrite Hl.
    apply (adj_mat_row_bad nv mat i _ P Hm Hi).
    by rewrite <-Forall_forall.
Qed.

(** What [adj_mat] returns. *)
Lemma adj_mat_of_spec nv ve w :
  (0 ≤ nv)%Z →
  (indexable_by_labels nv ve w →
   ∃ mat,
     adj_mat_of set_order nv ve w = Ret mat
     ∧ np_marks (Z.to_nat nv) mat
         (λ r c, ∃ j, j ∈ labelled_nbrs ve w (Z.of_nat r)
                      ∧ np_index nv j = Ret c))
  ∧ (¬ indexable_by_labels nv ve w →
     ∃ e, adj_mat_of set_order nv ve w = Exc e
          ∧ (e = KeyError ∨ e = IndexError)).
Proof.
  intros Hnv.
  assert (∀ i, i ∈ seqZ 0 nv ↔ (0 ≤ i < nv)%Z) as Hseq
    by (intros i; rewrite elem_of_seqZ; lia).
  split.
  - intros Hok.
    destruct (adj_mat_rows_ok nv ve w (np_zeros nv) (seqZ 0 nv) _
                (np_zeros_marks nv)) as (mat & Hrun & Hm).
    { intros i Hi%Hseq. split; [done|]. by apply Hok. }
    exists mat. split; [unfold adj_mat_of; by rewrite Hrun|].
    eapply np_marks_iff; [|done]. intros r c Hr _. cbv beta. split.
    + intros [[]|(i & Hi%Hseq & -> & j & Hj & ?)].
      exists j. split; [|done]. by rewrite Z2Nat.id by lia.
    + intros (j & Hj & ?). right. exists (Z.of_nat r).
      split; [apply Hseq; lia|]. split; [by rewrite Nat2Z.id|].
      by exists j.
  - intros Hbad.
    destruct (adj_mat_rows_bad nv ve w (np_zeros nv) (seqZ 0 nv) _
                (np_zeros_marks nv)) as (e & Hrun & He).
    { intros i. apply Hseq. }
    { intros Hall. apply Hbad. intros i Hi. by apply Hall, Hseq. }
    exists e. split; [unfold adj_mat_of; by rewrite Hrun|done].
Qed.
End adj_mat.

Section adj_mat_extras.
Context (set_order : gset Z → list Z).
Hypothesis set_order_elements : ∀ s, set_order s ≡ₚ elements s.
Implicit Types (g : graph.t Z) (d : digraph.t Z) (w : world Z).


Lemma closed_labels_indexable nv (ve : pydict Z loc) w :
  (∀ i, i ∈ keys ve ↔ (0 ≤ i < nv)%Z) →
  (∀ i j, j ∈ labelled_nbrs ve w i → j ∈ keys ve) →
  indexable_by_labels nv ve w.
Proof.
  intros Hlabels Hclosed i Hi. split; [by apply Hlabels|].
  intros j Hj%Hclosed%Hlabels. lia.
Qed.

Lemma closed_labels_marks nv (ve : pydict Z loc) w mat :
  (∀ i, i ∈ keys ve ↔ (0 ≤ i < nv)%Z) →
  (∀ i j, j ∈ labelled_nbrs ve w i → j ∈ keys ve) →
  np_marks (Z.to_nat nv) mat
    (λ r c, ∃ j, j ∈ labelled_nbrs ve w (Z.of_nat r)
                 ∧ np_index nv j = Ret c) →
  np_marks (Z.to_nat nv) mat
    (λ r c, Z.of_nat c ∈ labelled_nbrs ve w (Z.of_nat r)).
Proof.
  intros Hlabels Hclosed. apply np_marks_iff. intros r c Hr Hc. split.
  - intros (j & Hj & Hidx).
    pose proof (proj1 (Hlabels _) (Hclosed _ _ Hj)) as Hrange.
    apply np_index_label in Hidx as ->; [|done].
    by rewrite Z2Nat.id by lia.
  - intros Hj. exists (Z.of_nat c). split; [done|].
    apply np_index_label; [lia|]. by rewrite Nat2Z.id.
Qed.

(** X12: when the vertices are the numbers [0 .. nv - 1] and the sets
    mention vertices only, [adj_mat] of either class returns the adjacency
    matrix: the array of shape [(nv, nv)] that holds 1 at [r, c] when [c]
    is in the set of [r] and 0 elsewhere; for a graph whose adjacency is
    symmetric the matrix is symmetric. *)
Theorem adj_mat_range_labels g d w :
  (∀ i, i ∈ graph.__iter__ g ↔ (0 ≤ i < graph.nv g)%Z) →
  graph_closed g w →
  (∀ i, i ∈ digraph.__iter__ d ↔ (0 ≤ i < digraph.nv d)%Z) →
  digraph_closed d w →
  (∃ mat,
     graph.adj_mat set_order g w = Ret mat
     ∧ np_marks (Z.to_nat (graph.nv g)) mat
         (λ r c, Z.of_nat c ∈ graph_nbrs g w (Z.of_nat r))
     ∧ (graph_symmetric g w →
        ∀ r c, r < Z.to_nat (graph.nv g) → c < Z.to_nat (graph.nv g) →
               np_entry mat r c = np_entry mat c r))
  ∧ (∃ mat,
       digraph.adj_mat set_order d w = Ret mat
       ∧ np_marks (Z.to_nat (digraph.nv d)) mat
           (λ r c, Z.of_nat c ∈ digraph_nbrs d w (Z.of_nat r))).
Proof.
  intros Hgl Hgc Hdl Hdc.
  assert (∀ nv (ve : pydict Z loc),
            (∀ i, i ∈ keys ve ↔ (0 ≤ i < nv)%Z) →
            (∀ i j, j ∈ labelled_nbrs ve w i → j ∈ keys ve) →
            ∃ mat,
              adj_mat_of set_order nv ve w = Ret mat
              ∧ np_marks (Z.to_nat nv) mat
                  (λ r c, Z.of_nat c ∈ labelled_nbrs ve w (Z.of_nat r)))
    as Hmat.
  { intros nv ve Hlabels Hclosed.
    destruct (decide (0 ≤ nv)%Z) as [Hnv|Hnv].
    - destruct (adj_mat_of_spec set_order set_order_elements nv ve w Hnv)
        as [Hok _].
      destruct Hok as (mat & Hrun & Hm);
        [by apply closed_labels_indexable|].
      exists mat. split; [done|]. by apply closed_labels_marks.
    - exists []. split.
      + unfold adj_mat_of, seqZ, np_zeros.
        by replace (Z.to_nat nv) with 0 by lia.
      + replace (Z.to_nat nv) with 0 by lia. split; [split; [done|]|].
        * by intros r row ?.
        * intros r c ?. lia. }
  split.
  - destruct (Hmat (graph.nv g) (graph.ve_dict g) Hgl)
      as (mat & Hrun & Hm); [apply Hgc|].
    exists mat. split; [done|]. split; [done|].
    intros Hsym r c Hr Hc. destruct Hm as [_ Hm].
    pose proof (Hsym (Z.of_nat r) (Z.of_nat c)) as Hrc.
    unfold graph_nbrs in Hrc. fold (labelled_nbrs (graph.ve_dict g) w) in Hrc.
    destruct (Hm r c Hr Hc) as [[-> ?]|[-> ?]],
      (Hm c r Hc Hr) as [[-> ?]|[-> ?]]; tauto.
  - destruct (Hmat (digraph.nv d) (digraph.ve_dict d) Hdl)
      as (mat & Hrun & Hm); [apply Hdc|].
    by exists mat.
Qed.
End adj_mat_extras.

Section int_sample_facts.
Import int_sample.

Lemma int_sample_k2_nbrs (v : Z) :
  graph_nbrs k2 w v = if decide (v = 0%Z) then {[1%Z]}
                      else if decide (v = 1%Z) then {[0%Z]} else ∅.
Proof. unfold graph_nbrs, k2. simpl. by repeat case_decide. Qed.

Lemma int_sample_d1_nbrs (v : Z) :
  digraph_nbrs d1 w v = if decide (v = 0%Z) then {[1%Z]} else ∅.
Proof. unfold digraph_nbrs, d1. simpl. by repeat case_decide. Qed.

Lemma int_sample_k2_labels (i : Z) :
  i ∈ graph.__iter__ k2 ↔ (0 ≤ i < graph.nv k2)%Z.
Proof.
  change (graph.__iter__ k2) with [0%Z; 1%Z]. cbn [graph.nv k2].
  rewrite !elem_of_cons, elem_of_nil. lia.
Qed.

Lemma int_sample_d1_labels (i : Z) :
  i ∈ digraph.__iter__ d1 ↔ (0 ≤ i < digraph.nv d1)%Z.
Proof.
  change (digraph.__iter__ d1) with [0%Z; 1%Z]. cbn [digraph.nv d1].
  rewrite !elem_of_cons, elem_of_nil. lia.
Qed.

Lemma int_sample_k2_closed : graph_closed k2 w.
Proof.
  intros v u. rewrite int_sample_k2_nbrs.
  change (graph.__iter__ k2) with [0%Z; 1%Z].
  repeat case_decide; set_solver.
Qed.

Lemma int_sample_d1_closed : digraph_closed d1 w.
Proof.
  intros v u. rewrite int_sample_d1_nbrs.
  change (digraph.__iter__ d1) with [0%Z; 1%Z].
  repeat case_decide; set_solver.
Qed.

End int_sample_facts.


(** The adjacency matrix of that graph. *)
Lemma adj_mat_range_labels_witness :
  ∃ mat,
    graph.adj_mat elements int_sample.k2 int_sample.w = Ret mat
    ∧ np_marks 2 mat
        (λ r c, Z.of_nat c
                ∈ graph_nbrs int_sample.k2 int_sample.w (Z.of_nat r)).
Proof.
  destruct (adj_mat_range_labels elements (λ s, reflexivity _)
              int_sample.k2 int_sample.d1 int_sample.w
              int_sample_k2_labels int_sample_k2_closed
              int_sample_d1_labels int_sample_d1_closed)
    as [(mat & Hrun & Hm & _) _].
  by exists mat.
Defined.

(** ** More on [subgraph] and the constructors *)

Section subgraph_more.
Context {V : Type} `{Countable V}.
Implicit Types (g : graph.t V) (w : world V) (sv : collection V).

(** The sum the constructor computes is the sum of the sizes of the
    neighbour sets. *)
Lemma sum_len_nbrs (ve : pydict V loc) w :
  NoDup (keys ve) →
  graph.sum_len ve w =
    foldl Z.add 0%Z
      ((λ v, Z.of_nat (size (match dict_get ve v with
                             | Some l => deref w l
                             | None => ∅
                             end))) <$> keys ve).
Proof.
  intros Hnd. unfold graph.sum_len. f_equal.
  unfold values, keys. rewrite <-!list_fmap_compose.
  apply list_fmap_ext. intros i [v l] Hi. simpl.
  rewrite (elem_of_dict_get ve v l Hnd); [done|].
  by eapply list_elem_of_lookup_2.
Qed.

(** The comprehension of [subgraph] on elements of which one is no
    vertex. *)
Lemma subgraph_pairs_bad g sv vs w :
  ¬ (∀ v, v ∈ vs → v ∈ graph.__iter__ g) →
  ∃ w1,
    map_py
      (λ v, l ⇐ lift (getitem (graph.ve_dict g) v) ;;
            w ⇐ get ;;
            l' ⇐ new_set (filter (λ e, e ∈ iter sv) (deref w l)) ;;
            ret (v, l'))
      vs w = (Exc KeyError, w1)
    ∧ stdout w1 = stdout w
    ∧ (∀ l, l < length (heap w) → deref w1 l = deref w l).
Proof.
  revert w. induction vs as [|v vs IH]; intros w Hbad.
  { destruct Hbad. by intros v ?%elem_of_nil. }
  rewrite map_py_cons.
  destruct (dict_get (graph.ve_dict g) v) as [l|] eqn:Hl.
  - erewrite bind_Ret by (by apply subgraph_pair_run).
    set (w' := World _ _).
    destruct (IH w') as (w1 & Hrun & Hout & Hframe).
    { intros Hall. apply Hbad. intros v' [->|?]%elem_of_cons;
        [by eapply dict_get_Some_keys|by apply Hall]. }
    exists w1. split; [by erewrite bind_Exc by exact Hrun|].
    split; [done|]. intros l' Hl'.
    rewrite Hframe by (unfold w'; simpl; rewrite length_app; lia).
    unfold deref, w'. simpl. by rewrite lookup_app_l.
  - exists w. split; [|done].
    unfold bind, lift, getitem. by rewrite Hl.
Qed.

(** X13: [graph.subgraph] raises [KeyError] exactly when an element of
    [some_verts] is no vertex.  Otherwise it returns a graph on the
    elements of [some_verts] whose edges are those of the source between
    them, held in new set objects; its [nv] is [len(some_verts)], its [ne]
    is half the sum of the sizes of its sets, and its degree counters are
    all 0, whatever its edges.  The source is not changed and nothing is
    printed in either case. *)
Theorem graph_subgraph_contract g w sv :
  graph_wf g w →
  ((∀ v, v ∈ iter sv → v ∈ graph.__iter__ g) →
   ∃ g' w',
     graph.subgraph g sv w = (Ret g', w')
     ∧ (∀ v, v ∈ graph.__iter__ g' ↔ v ∈ iter sv)
     ∧ (∀ v u, u ∈ graph_nbrs g' w' v ↔
               v ∈ iter sv ∧ u ∈ iter sv ∧ u ∈ graph_nbrs g w v)
     ∧ graph.__len__ g' = len sv
     ∧ (∀ v, v ∈ iter sv → graph_deg g' v = Some 0%Z)
     ∧ (graph.ne g' ==
        inject_Z (foldl Z.add 0%Z
                    ((λ v, Z.of_nat (size (graph_nbrs g' w' v)))
                       <$> graph.__iter__ g')) / 2)%Q
     ∧ (∀ v l, dict_get (graph.ve_dict g') v = Some l →
               length (heap w) ≤ l)
     ∧ (∀ l, l < length (heap w) → deref w' l = deref w l)
     ∧ stdout w' = stdout w)
  ∧ (¬ (∀ v, v ∈ iter sv → v ∈ graph.__iter__ g) →
     ∃ w',
       graph.subgraph g sv w = (Exc KeyError, w')
       ∧ (∀ l, l < length (heap w) → deref w' l = deref w l)
       ∧ stdout w' = stdout w).
Proof.
  intros Hwf. split.
  - intros Hsv.
    destruct (graph_subgraph_spec g w sv Hwf Hsv)
      as (g' & w' & Hrun & Hkeys & Hadj & Hnew & Hframe & Hout).
    exists g', w'. split; [done|]. split; [done|]. split; [done|].
    unfold graph.subgraph in Hrun.
    apply bind_Ret_inv in Hrun as (pairs & w1 & _ & Hinit).
    rewrite graph_init_run in Hinit. injection Hinit as <- <-.
    split; [done|]. split.
    { intros v Hv. unfold graph_deg. cbn [graph.degs].
      rewrite dict_get_const. by rewrite decide_True. }
    split; [|done].
    cbn [graph.ne]. unfold graph_nbrs, graph.__iter__. cbn [graph.ve_dict].
    by rewrite sum_len_nbrs by apply NoDup_keys_dict.
  - intros Hbad.
    destruct (subgraph_pairs_bad g sv (iter sv) w Hbad)
      as (w1 & Hrun & Hout & Hframe).
    exists w1. split; [|done].
    unfold graph.subgraph. by erewrite bind_Exc by exact Hrun.
Qed.
End subgraph_more.

(** [G.subgraph([0])] on the complete graph on two vertices. *)
Lemma graph_subgraph_contract_witness :
  ∃ g' w',
    graph.subgraph sample.k2 (sequence [0]) sample.w1 = (Ret g', w')
    ∧ (∀ v, v ∈ graph.__iter__ g' ↔ v ∈ [0]).
Proof.
  destruct (graph_subgraph_contract sample.k2 sample.w1 (sequence [0])
              sample_k2_wf) as [Hok _].
  destruct Hok as (g' & w' & Hrun & Hkeys & _).
  - intros v ->%list_elem_of_singleton. left.
  - by exists g', w'.
Defined.

Section init_more.
Context {V : Type} `{Countable V}.
Implicit Types (w : world V) (ed : pydict V loc) (vs : list V) (v j : V).

(** The set a seeded vertex gets from the constructor is the seed's. *)
Lemma seeded_loc ed vs n v l :
  v ∈ vs → dict_get ed v = Some l →
  dict_get (dict (seeded_pairs ed vs n)) v = Some l.
Proof.
  intros Hv Hl.
  destruct (proj2 (dict_get_is_Some (dict (seeded_pairs ed vs n)) v))
    as [l' Hl']; [by apply seeded_keys|].
  rewrite Hl'. rewrite dict_get_dict in Hl'.
  apply dict_get_elem_of in Hl'.
  apply (proj1 (elem_of_reverse _ _)) in Hl'.
  apply elem_of_seeded_pairs in Hl' as [_ [?|[? _]]]; congruence.
Qed.

(** X14: the constructor of either class takes the set objects of the
    seed over without copying them: indexing the new instance by a seeded
    vertex yields the very object the seed holds, and an [add_edge] from
    that vertex that returns [True] adds the other endpoint to that
    object, which the caller, and every other instance built from the
    seed, still holds. *)
Theorem init_shares_seed_sets (verts : collection V) ed w v l :
  seed_allocated ed w → v ∈ iter verts → dict_get ed v = Some l →
  (∃ g w',
     graph.__init__ verts ed w = (Ret g, w')
     ∧ graph.__getitem__ g v = Ret l
     ∧ ∀ j g2 w2,
         graph.add_edge v j (g, w') = (Ret true, (g2, w2)) →
         graph.__getitem__ g2 v = Ret l ∧ j ∈ deref w2 l)
  ∧ (∃ d w',
       digraph.__init__ verts ed w = (Ret d, w')
       ∧ digraph.__getitem__ d v = Ret l
       ∧ ∀ j d2 w2,
           digraph.add_edge v j (d, w') = (Ret true, (d2, w2)) →
           digraph.__getitem__ d2 v = Ret l ∧ j ∈ deref w2 l).
Proof.
  intros Hseed Hv Hl. split.
  - destruct (graph.__init__ verts ed w) as [o w'] eqn:Hinit.
    pose proof Hinit as Hrun. rewrite graph_init_run in Hrun.
    injection Hrun as <- <-. revert Hinit.
    set (g := graph.Graph _ _ _ _). set (w' := grown _ _). intros Hinit.
    pose proof (graph_init_wf _ _ _ _ _ Hseed Hinit) as Hwf.
    assert (dict_get (graph.ve_dict g) v = Some l) as Hget
      by (by apply seeded_loc).
    exists g, w'. split; [done|]. split.
    { unfold graph.__getitem__, getitem. by rewrite Hget. }
    intros j g2 w2 Hadd.
    destruct (graph_add_edge_spec g w' v j Hwf)
      as (b & g3 & w3 & Hrun & _ & _ & Htrue).
    rewrite Hadd in Hrun. injection Hrun as <- <- <-.
    destruct Htrue as (Hin & _ & _ & _ & _ & _ & _ & Hve & _); [done|].
    unfold graph_nbrs in Hin. rewrite Hve, Hget in Hin.
    split; [|done]. unfold graph.__getitem__, getitem. by rewrite Hve, Hget.
  - destruct (digraph.__init__ verts ed w) as [o w'] eqn:Hinit.
    pose proof Hinit as Hrun. rewrite digraph_init_run in Hrun.
    injection Hrun as <- <-. revert Hinit.
    set (d := digraph.Digraph _ _ _ _). set (w' := grown _ _). intros Hinit.
    pose proof (digraph_init_wf _ _ _ _ _ Hseed Hinit) as Hwf.
    assert (dict_get (digraph.ve_dict d) v = Some l) as Hget
      by (by apply seeded_loc).
    exists d, w'. split; [done|]. split.
    { unfold digraph.__getitem__, getitem. by rewrite Hget. }
    intros j d2 w2 Hadd.
    destruct (digraph_add_edge_spec d w' v j Hwf)
      as (b & d3 & w3 & Hrun & _ & _ & Htrue).
    rewrite Hadd in Hrun. injection Hrun as <- <- <-.
    destruct Htrue as (Hin & _ & _ & _ & _ & Hve & _); [done|].
    unfold digraph_nbrs in Hin. rewrite Hve, Hget in Hin.
    split; [|done].
    unfold digraph.__getitem__, getitem. by rewrite Hve, Hget.
Qed.

Lemma NoDup_length_le (l k : list V) :
  NoDup l → (∀ x, x ∈ l ↔ x ∈ k) →
  length l ≤ length k ∧ (length l = length k ↔ NoDup k).
Proof.
  intros Hl Hlk.
  assert (l ⊆+ k) as Hsub by (apply NoDup_submseteq; [done|]; apply Hlk).
  split; [by apply submseteq_length|]. split.
  - intros Hlen. rewrite <-(submseteq_length_Permutation l k); [done..|lia].
  - intros Hk. apply Nat.le_antisymm; [by apply submseteq_length|].
    apply submseteq_length, NoDup_submseteq; [done|]. apply Hlk.
Qed.

Lemma dup_length vs : ¬ NoDup vs → 2 ≤ length vs.
Proof.
  intros Hdup. destruct vs as [|x [|y vs]]; simpl; [..|lia].
  - destruct Hdup. constructor.
  - destruct Hdup. apply NoDup_singleton.
Qed.

Lemma dup_gap (n L s : Z) :
  (0 ≤ n < L)%Z → (2 ≤ L)%Z → (s ≤ (n - 1) * n)%Z → s ≠ (L * (L - 1))%Z.
Proof. nia. Qed.

(** X15: iterating over an instance of either class yields each distinct
    label of [verts] once, whereas [len] of the instance is the length of
    [verts]: the two agree exactly when [verts] repeats no label. *)
Theorem init_counts_duplicates vs ed w :
  (∃ g w',
     graph.__init__ (sequence vs) ed w = (Ret g, w')
     ∧ NoDup (graph.__iter__ g)
     ∧ (∀ v, v ∈ graph.__iter__ g ↔ v ∈ vs)
     ∧ graph.__len__ g = Z.of_nat (length vs)
     ∧ length (graph.__iter__ g) ≤ length vs
     ∧ (graph.__len__ g = Z.of_nat (length (graph.__iter__ g))
        ↔ NoDup vs))
  ∧ (∃ d w',
       digraph.__init__ (sequence vs) ed w = (Ret d, w')
       ∧ NoDup (digraph.__iter__ d)
       ∧ (∀ v, v ∈ digraph.__iter__ d ↔ v ∈ vs)
       ∧ digraph.__len__ d = Z.of_nat (length vs)
       ∧ length (digraph.__iter__ d) ≤ length vs
       ∧ (digraph.__len__ d = Z.of_nat (length (digraph.__iter__ d))
          ↔ NoDup vs)).
Proof.
  split.
  - eexists _, _. split; [apply graph_init_run|].
    unfold graph.__iter__, graph.__len__. cbn [graph.ve_dict graph.nv].
    cbn [sequence iter len].
    pose proof (NoDup_keys_dict (seeded_pairs ed vs (length (heap w))))
      as Hnd.
    destruct (NoDup_length_le _ vs Hnd (seeded_keys ed vs _)) as [Hle Heq].
    split; [done|]. split; [apply seeded_keys|]. split; [done|].
    split; [done|]. rewrite <-Heq. lia.
  - eexists _, _. split; [apply digraph_init_run|].
    unfold digraph.__iter__, digraph.__len__.
    cbn [digraph.ve_dict digraph.nv]. cbn [sequence iter len].
    pose proof (NoDup_keys_dict (seeded_pairs ed vs (length (heap w))))
      as Hnd.
    destruct (NoDup_length_le _ vs Hnd (seeded_keys ed vs _)) as [Hle Heq].
    split; [done|]. split; [apply seeded_keys|]. split; [done|].
    split; [done|]. rewrite <-Heq. lia.
Qed.

(** X16: a graph or digraph built, without seed edges, from a [verts] that
    repeats a label is never complete for [is_complete], whatever
    [add_edge] calls follow: [nv] counts the repetitions. *)
Theorem duplicate_labels_never_complete vs (calls : list (V * V)) w :
  ¬ NoDup vs →
  (∃ b g w',
     with_instance (graph.__init__ (sequence vs) []) (graph_add_edges calls)
       w = (Ret (b, g), w')
     ∧ graph.is_complete g = false)
  ∧ (∃ b d w',
       with_instance (digraph.__init__ (sequence vs) [])
         (digraph_add_edges calls) w = (Ret (b, d), w')
       ∧ digraph.is_complete d = false).
Proof.
  intros Hdup. split.
  - destruct (graph.__init__ (sequence vs) [] w) as [o w0] eqn:Hinit.
    pose proof Hinit as Hinit'. rewrite graph_init_run in Hinit'.
    injection Hinit' as <- <-. revert Hinit.
    set (g0 := graph.Graph _ _ _ _). set (w0 := grown _ _). intros Hinit.
    destruct (graph_init_consistent _ w g0 w0 Hinit)
      as (Hc0 & _ & Hkeys & Hnv & _).
    destruct (graph_add_edges_run calls true g0 w0 Hc0)
      as (b & g & w' & Hrun & Hc & Hve & Hnv' & _).
    exists b, g, w'. split.
    { unfold with_instance, graph_add_edges. by rewrite Hinit, Hrun. }
    pose proof (graph_wf_keys _ _ (gc_wf _ _ Hc)) as Hnd.
    destruct (NoDup_length_le (graph.__iter__ g) vs Hnd) as [Hle Heq].
    { intros v. unfold graph.__iter__. rewrite Hve. apply Hkeys. }
    assert (length (graph.__iter__ g) < length vs) as Hlt.
    { destruct (decide (length (graph.__iter__ g) = length vs)) as [E|];
        [|lia]. by apply Heq in E. }
    pose proof (sum_bounded (λ v, Z.of_nat (size (graph_nbrs g w' v)))
                  (Z.of_nat (length (graph.__iter__ g)) - 1)%Z
                  (graph.__iter__ g)) as [Hsum _].
    { intros v Hv. pose proof (graph_size_bound g w' v Hc Hv). lia. }
    rewrite <-(graph_degree_sum_sizes g w' Hc) in Hsum.
    unfold graph.is_complete.
    destruct (Qeq_bool _ _) eqn:E; [|done]. exfalso.
    apply Qeq_bool_iff in E.
    pose proof (gc_ne _ _ Hc) as Hne. unfold graph_counts_agree in Hne.
    rewrite Hne in E.
    assert (inject_Z (graph_degree_sum g)
            == inject_Z (graph.nv g * (graph.nv g - 1)))%Q as E'.
    { unfold Qdiv in E. change (/ 2)%Q with (1 # 2)%Q in E. lra. }
    apply (proj1 (inject_Z_injective _ _)) in E'.
    rewrite Hnv', Hnv in E'. cbn [sequence len] in E'.
    pose proof (dup_length vs Hdup).
    by eapply (dup_gap (Z.of_nat (length (graph.__iter__ g)))
                 (Z.of_nat (length vs))); [lia|lia|apply Hsum|].
  - destruct (digraph.__init__ (sequence vs) [] w) as [o w0] eqn:Hinit.
    pose proof Hinit as Hinit'. rewrite digraph_init_run in Hinit'.
    injection Hinit' as <- <-. revert Hinit.
    set (g0 := digraph.Digraph _ _ _ _). set (w0 := grown _ _).
    intros Hinit.
    destruct (digraph_init_consistent _ w g0 w0 Hinit)
      as (Hc0 & _ & Hkeys & _ & Hnv & _).
    destruct (digraph_add_edges_run calls true g0 w0 Hc0)
      as (b & g & w' & Hrun & Hc & Hve & Hnv' & _).
    exists b, g, w'. split.
    { unfold with_instance, digraph_add_edges. by rewrite Hinit, Hrun. }
    pose proof (digraph_wf_keys _ _ (dc_wf _ _ Hc)) as Hnd.
    destruct (NoDup_length_le (digraph.__iter__ g) vs Hnd) as [Hle Heq].
    { intros v. unfold digraph.__iter__. rewrite Hve. apply Hkeys. }
    assert (length (digraph.__iter__ g) < length vs) as Hlt.
    { destruct (decide (length (digraph.__iter__ g) = length vs)) as [E|];
        [|lia]. by apply Heq in E. }
    pose proof (sum_bounded (λ v, Z.of_nat (size (digraph_nbrs g w' v)))
                  (Z.of_nat (length (digraph.__iter__ g)) - 1)%Z
                  (digraph.__iter__ g)) as [Hsum _].
    { intros v Hv. pose proof (digraph_size_bound g w' v Hc Hv). lia. }
    rewrite <-(digraph_degree_sum_sizes g w' Hc) in Hsum.
    unfold digraph.is_complete.
    destruct (Z.eqb_spec (digraph.ne g)
                (digraph.nv g * (digraph.nv g - 1))) as [E|]; [|done].
    exfalso.
    pose proof (dc_ne _ _ Hc) as Hne. unfold digraph_counts_agree in Hne.
    rewrite Hne, Hnv', Hnv in E. cbn [sequence len] in E.
    pose proof (dup_length vs Hdup).
    by eapply (dup_gap (Z.of_nat (length (digraph.__iter__ g)))
                 (Z.of_nat (length vs))); [lia|lia|apply Hsum|].
Qed.
End init_more.

(** The constructor at the seed [{0: s}] for a set object [s]. *)
Lemma init_shares_seed_sets_witness :
  ∃ g w',
    graph.__init__ (sequence [0; 1]) [(0, 0)] (World [({[5]} : gset nat)] [])
    = (Ret g, w')
    ∧ graph.__getitem__ g 0 = Ret 0.
Proof.
  destruct (init_shares_seed_sets (sequence [0; 1]) [(0, 0)]
              (World [({[5]} : gset nat)] []) 0 0)
    as [(g & w' & Hrun & Hget & _) _].
  - intros v l. simpl. case_decide; [|done]. intros [= <-]. lia.
  - left.
  - reflexivity.
  - by exists g, w'.
Defined.

(** [graph([0, 0])], without calls. *)
Lemma duplicate_labels_never_complete_witness :
  ∃ b g w',
    with_instance (graph.__init__ (sequence [0; 0]) [])
      (graph_add_edges []) (World [] []) = (Ret (b, g), w')
    ∧ graph.is_complete g = false.
Proof.
  apply (duplicate_labels_never_complete [0; 0] [] (World [] [])).
  intros Hnd. apply NoDup_cons in Hnd as [Hin _]. apply Hin. left.
Defined.

Section unvisited.
Context {V : Type} `{Countable V}.

Lemma unvisited_mono (vs : list V) (S S' : gset V) :
  S ⊆ S' → length (unvisited_in vs S') ≤ length (unvisited_in vs S).
Proof. intros Hsub. apply filter_length_le. set_solver. Qed.

Lemma unvisited_lt (vs : list V) (S : gset V) v :
  v ∈ vs → v ∉ S →
  length (unvisited_in vs (S ∪ {[v]})) < length (unvisited_in vs S).
Proof.
  intros Hv HvS.
  apply (filter_length_lt _ _ _ v); [set_solver|done..|set_solver].
Qed.

Lemma unvisited_pos (vs : list V) (S : gset V) v :
  v ∈ vs → v ∉ S → 0 < length (unvisited_in vs S).
Proof.
  intros Hv HvS.
  assert (v ∈ unvisited_in vs S) as Hin by by apply list_elem_of_filter.
  destruct (unvisited_in vs S); [by apply elem_of_nil in Hin|simpl; lia].
Qed.
End unvisited.

Section cc_run.
Context {V : Type} `{Countable V}.
Context (set_order : gset V → list V).
Hypothesis set_order_elements : ∀ s, set_order s ≡ₚ elements s.
Context (g : graph.t V) (w0 : world V).
Hypothesis g_wf : graph_wf g w0.
Implicit Types (st : cc_state (V:=V)) (S : gset V) (L : list V)
  (u v a b : V).

Lemma cc_is_visited_run st u S :
  cc_inv g w0 st → cc_visited_is st S → u ∈ graph.__iter__ g →
  cc_is_visited u st = (Ret (bool_decide (u ∈ S)), st).
Proof.
  intros Hinv Hvis Hu.
  destruct (proj2 (dict_get_is_Some (cc_visited st) u)) as [b Hb].
  { by rewrite (cci_keys _ _ _ Hinv). }
  unfold cc_is_visited, bind, get, lift, getitem. rewrite Hb.
  do 2 f_equal. destruct b.
  - symmetry. apply bool_decide_eq_true. by apply Hvis.
  - symmetry. apply bool_decide_eq_false. intros Hin%Hvis. congruence.
Qed.

(** [visited[u]] for a label that is no vertex. *)
Lemma cc_is_visited_bad st u :
  cc_inv g w0 st → u ∉ graph.__iter__ g →
  cc_is_visited u st = (Exc KeyError, st).
Proof.
  intros Hinv Hu. unfold cc_is_visited, bind, get, lift, getitem.
  rewrite (proj2 (dict_get_None (cc_visited st) u)); [done|].
  by rewrite (cci_keys _ _ _ Hinv).
Qed.

Lemma cc_neighbours_run st v :
  cc_inv g w0 st → v ∈ graph.__iter__ g →
  neighbours set_order (graph_indexable g) (cc_world st) v =
    Ret (set_order (graph_nbrs g w0 v)).
Proof.
  intros Hinv [l Hl]%dict_get_is_Some.
  unfold neighbours, graph_indexable, graph.__getitem__, getitem, graph_nbrs.
  simpl. rewrite Hl. do 2 f_equal.
  apply (cci_frame _ _ _ Hinv). by apply (graph_wf_locs _ _ g_wf v).
Qed.

Lemma cc_found_nil S v : cc_found g w0 S v [].
Proof.
  split.
  - constructor.
  - by intros u ?%elem_of_nil.
  - by intros u ?%elem_of_nil.
  - by intros n b ?%elem_of_nil.
Qed.

Lemma cc_found_app S v L1 L2 :
  cc_found g w0 S v L1 → cc_found g w0 (S ∪ list_to_set L1) v L2 →
  cc_found g w0 S v (L1 ++ L2).
Proof.
  intros [Hn1 Hf1 Hr1 Hc1] [Hn2 Hf2 Hr2 Hc2]. split.
  - apply NoDup_app. split; [done|]. split; [|done].
    intros u Hu1 Hu2. apply Hf2 in Hu2. set_solver.
  - intros u [Hu|Hu]%elem_of_app; [by apply Hf1|].
    apply Hf2 in Hu. set_solver.
  - intros u [?|?]%elem_of_app; eauto.
  - intros n b. rewrite list_to_set_app_L. intros [Hn|Hn]%elem_of_app Hb.
    + specialize (Hc1 n b Hn Hb). set_solver.
    + specialize (Hc2 n b Hn Hb). set_solver.
Qed.

Lemma cc_found_child S v u L :
  u ∈ graph.__iter__ g → u ∉ S → u ∈ graph_nbrs g w0 v →
  cc_found g w0 (S ∪ {[u]}) u L →
  (∀ b, b ∈ graph_nbrs g w0 u → b ∈ S ∪ {[u]} ∪ list_to_set L) →
  cc_found g w0 S v (u :: L).
Proof.
  intros Hu HuS Huv [Hn Hf Hr Hc] Hcu. split.
  - constructor; [|done]. intros Hin. apply Hf in Hin. set_solver.
  - intros x [->|Hx]%elem_of_cons; [done|]. apply Hf in Hx. set_solver.
  - intros x [->|Hx]%elem_of_cons.
    + by apply rtc_once.
    + eapply rtc_l; [exact Huv|]. by apply Hr.
  - intros n b [->|Hn']%elem_of_cons Hb.
    + specialize (Hcu b Hb). set_solver.
    + specialize (Hc n b Hn' Hb). set_solver.
Qed.

(** One turn of the loop of [explore]. *)
Lemma cc_body_spec d v u st S :
  cc_explore_ok set_order g w0 d →
  u ∈ graph_nbrs g w0 v →
  cc_inv g w0 st → cc_visited_is st S →
  length (unvisited_in (graph.__iter__ g) S) ≤ d →
  ∃ o st',
    cc_body set_order (graph_indexable g) d u () st = (o, st')
    ∧ cc_world st' = cc_world st ∧ comps st' = comps st
    ∧ (o = Exc KeyError ∧ ¬ graph_closed g w0
       ∨ o = Ret ()
         ∧ ∃ L,
             cc_inv g w0 st'
             ∧ cc_visited_is st' (S ∪ list_to_set L)
             ∧ this_comp st' = this_comp st ++ L
             ∧ cc_found g w0 S v L
             ∧ u ∈ S ∪ list_to_set L).
Proof.
  intros Hexp Huv Hinv Hvis Hd. cbv beta.
  destruct (decide (u ∈ graph.__iter__ g)) as [Hu|Hu].
  2:{ exists (Exc KeyError), st. split.
      { by erewrite bind_Exc by (by apply cc_is_visited_bad). }
      split; [done|]. split; [done|]. left. split; [done|].
      intros Hclosed. apply Hu. by eapply Hclosed. }
  erewrite bind_Ret by (by eapply cc_is_visited_run).
  case_bool_decide as HuS; cbn [negb].
  { exists (Ret ()), st. split; [done|]. split; [done|]. split; [done|].
    right. split; [done|]. exists []. rewrite app_nil_r.
    split; [done|].
    split; [by replace (S ∪ list_to_set []) with S by set_solver|].
    split; [done|]. split; [apply cc_found_nil|set_solver]. }
  destruct (Hexp u st S Hu HuS Hinv Hvis Hd)
    as (o & st' & Hrun & Hw & Hc & Hres).
  exists o, st'. split; [done|]. split; [done|]. split; [done|].
  destruct Hres as [?|[-> (L & Hinv' & Hvis' & Hthis & Hfound & Hcu)]];
    [by left|].
  right. split; [done|]. exists (u :: L). split; [done|]. split.
  { by replace (S ∪ list_to_set (u :: L))
      with (S ∪ {[u]} ∪ list_to_set L) by set_solver. }
  split; [done|]. split; [by apply cc_found_child|set_solver].
Qed.

Lemma cc_for_in_spec d v us st S :
  cc_explore_ok set_order g w0 d →
  (∀ u, u ∈ us → u ∈ graph_nbrs g w0 v) →
  cc_inv g w0 st → cc_visited_is st S →
  length (unvisited_in (graph.__iter__ g) S) ≤ d →
  ∃ o st',
    for_in us () (cc_body set_order (graph_indexable g) d) st = (o, st')
    ∧ cc_world st' = cc_world st ∧ comps st' = comps st
    ∧ (o = Exc KeyError ∧ ¬ graph_closed g w0
       ∨ o = Ret ()
         ∧ ∃ L,
             cc_inv g w0 st'
             ∧ cc_visited_is st' (S ∪ list_to_set L)
             ∧ this_comp st' = this_comp st ++ L
             ∧ cc_found g w0 S v L
             ∧ ∀ u, u ∈ us → u ∈ S ∪ list_to_set L).
Proof.
  intros Hexp. revert st S.
  induction us as [|u us IH]; intros st S Hus Hinv Hvis Hd.
  { exists (Ret ()), st. split; [done|]. split; [done|]. split; [done|].
    right. split; [done|]. exists []. rewrite app_nil_r.
    split; [done|].
    split; [by replace (S ∪ list_to_set []) with S by set_solver|].
    split; [done|].
    split; [apply cc_found_nil|by intros u ?%elem_of_nil]. }
  destruct (cc_body_spec d v u st S)
    as (o1 & st1 & Hrun1 & Hw1 & Hc1 & Hres1);
    [done|apply Hus; left|done..|].
  destruct Hres1
    as [[-> Hbad]|[-> (L1 & Hinv1 & Hvis1 & Hthis1 & Hfound1 & Hu1)]].
  { exists (Exc KeyError), st1. split.
    { cbn [for_in]. by erewrite bind_Exc by exact Hrun1. }
    split; [done|]. split; [done|]. by left. }
  destruct (IH st1 (S ∪ list_to_set L1))
    as (o2 & st2 & Hrun2 & Hw2 & Hc2 & Hres2).
  { intros; apply Hus; by right. }
  { done. }
  { done. }
  { etrans; [apply unvisited_mono|exact Hd]. set_solver. }
  exists o2, st2. split.
  { cbn [for_in]. by erewrite bind_Ret by exact Hrun1. }
  split; [congruence|]. split; [congruence|].
  destruct Hres2
    as [?|[-> (L2 & Hinv2 & Hvis2 & Hthis2 & Hfound2 & Hus2)]]; [by left|].
  right. split; [done|]. exists (L1 ++ L2). split; [done|]. split.
  { by rewrite list_to_set_app_L, (assoc_L (∪)). }
  split; [by rewrite Hthis2, Hthis1, app_assoc|].
  split; [by apply cc_found_app|].
  rewrite list_to_set_app_L, (assoc_L (∪)).
  intros x [->|Hx]%elem_of_cons; [set_solver|by apply Hus2].
Qed.

Lemma cc_explore_spec d : cc_explore_ok set_order g w0 d.
Proof.
  induction d as [|d IH]; intros v st S Hv HvS Hinv Hvis Hd.
  { pose proof (unvisited_pos _ _ _ Hv HvS). lia. }
  set (st1 := CcState (dict_set v true (cc_visited st)) (this_comp st ++ [v])
                      (comps st) (cc_world st)).
  assert (cc_inv g w0 st1) as Hinv1.
  { destruct Hinv as [Hk Hh Hf Ho]. split; try done.
    cbn [st1 cc_visited]. rewrite keys_set_present; [done|]. by rewrite Hk. }
  assert (cc_visited_is st1 (S ∪ {[v]})) as Hvis1.
  { intros u. simpl. rewrite dict_get_set. case_decide.
    - set_solver.
    - rewrite (Hvis u). set_solver. }
  destruct (cc_for_in_spec d v (set_order (graph_nbrs g w0 v)) st1
              (S ∪ {[v]}))
    as (o & st2 & Hrun & Hw & Hc & Hres); [done| |done|done| |].
  { intros u. rewrite set_order_elements. apply elem_of_elements. }
  { pose proof (unvisited_lt _ S v Hv HvS). lia. }
  exists o, st2. split.
  { cbn [cc_explore]. unfold cc_append, cc_mark.
    unfold bind at 1, modify at 1. unfold bind at 1, modify at 1.
    cbn [cc_visited this_comp comps cc_world]. fold st1.
    unfold bind at 1, get at 1.
    rewrite (cc_neighbours_run st1 v Hinv1 Hv). unfold bind at 1, lift at 1.
    exact Hrun. }
  split; [done|]. split; [done|].
  destruct Hres as [?|[-> (L & Hinv2 & Hvis2 & Hthis & Hfound & Hall)]];
    [by left|].
  right. split; [done|]. exists L. split; [done|]. split; [done|]. split.
  { rewrite Hthis. cbn [st1 this_comp]. by rewrite <-app_assoc. }
  split; [done|]. intros b Hb. apply Hall.
  rewrite set_order_elements. by apply elem_of_elements.
Qed.
End cc_run.

Section cc_trace.
Context {V : Type} `{Countable V}.
Context (g : graph.t V) (w0 : world V).
Implicit Types (L : list V) (Ls : list (list V)) (u v a b : V).

(** A component collected earlier is not touched by what is allocated
    later. *)
Lemma cc_comp_later w w' L c :
  cc_comp g w0 w L c →
  length (heap w) ≤ length (heap w') →
  (∀ l, l < length (heap w) → deref w' l = deref w l) →
  cc_comp g w0 w' L c.
Proof.
  intros [[Hk Hd Hl] Hi Hn Hadj Hnew] Hlen Hframe.
  assert (∀ v, graph_nbrs c w' v = graph_nbrs c w v) as Hsame.
  { intros v. unfold graph_nbrs.
    destruct (dict_get (graph.ve_dict c) v) as [l|] eqn:E; [|done].
    apply Hframe. by eapply Hl. }
  split; [split|..]; try done.
  - intros v l E. specialize (Hl v l E). lia.
  - intros v u. rewrite Hsame. apply Hadj.
Qed.

Lemma cc_trace_facts Ls :
  cc_trace g w0 Ls →
  NoDup (concat Ls)
  ∧ (∀ v, v ∈ concat Ls → v ∈ graph.__iter__ g)
  ∧ (∀ n b, n ∈ concat Ls → b ∈ graph_nbrs g w0 n → b ∈ concat Ls).
Proof.
  induction 1 as [|Ls r L Htr (IHn & IHv & IHc) Hr HrS [Hn Hf Hre Hc] Hcr].
  { simpl. split; [constructor|].
    split; [by intros ? ?%elem_of_nil|by intros ? ? ?%elem_of_nil]. }
  rewrite concat_app. simpl. rewrite app_nil_r. split; [|split].
  - apply NoDup_app. split; [done|]. split.
    + intros x Hx [->|Hx']%elem_of_cons; [done|].
      apply Hf in Hx'. set_solver.
    + constructor; [|done]. intros Hin. apply Hf in Hin. set_solver.
  - intros v [?|[->|Hv]%elem_of_cons]%elem_of_app; [eauto|done|].
    by apply Hf in Hv as [? _].
  - intros n b Hn' Hb. rewrite elem_of_app, elem_of_cons.
    apply elem_of_app in Hn' as [Hn'|[->|Hn']%elem_of_cons].
    + left. eauto.
    + specialize (Hcr b Hb). set_solver.
    + specialize (Hc n b Hn' Hb). set_solver.
Qed.

(** A run that returns has looked every neighbour up in [visited]. *)
Lemma cc_trace_closed Ls :
  cc_trace g w0 Ls → concat Ls ≡ₚ graph.__iter__ g → graph_closed g w0.
Proof.
  intros Htr Hperm v u Hu.
  destruct (cc_trace_facts Ls Htr) as (_ & _ & Hclosed).
  destruct (decide (v ∈ graph.__iter__ g)) as [Hv|Hv].
  - rewrite <-Hperm. apply (Hclosed v); [by rewrite Hperm|done].
  - rewrite graph_nbrs_no_key in Hu by done. set_solver.
Qed.

Hypothesis g_symmetric : graph_symmetric g w0.

Lemma symmetric_closed : graph_closed g w0.
Proof.
  intros v u Hu. apply g_symmetric in Hu.
  destruct (decide (u ∈ graph.__iter__ g)) as [|Hno]; [done|].
  rewrite graph_nbrs_no_key in Hu by done. set_solver.
Qed.

(** In an undirected graph the lists collected are the connected
    components, and their first vertices are one vertex of each. *)
Lemma cc_trace_components Ls :
  cc_trace g w0 Ls →
  ∃ roots,
    Forall2 (λ r L, head L = Some r
                    ∧ ∀ v, v ∈ L ↔
                           rtc (λ a b, b ∈ graph_nbrs g w0 a) r v)
            roots Ls
    ∧ components (λ a b, b ∈ graph_nbrs g w0 a) (concat Ls) roots.
Proof.
  induction 1 as [|Ls r L Htr (roots & Hall & Hcomp) Hr HrS Hfound Hcr].
  { exists []. split; [constructor|]. split; [constructor|].
    split; [by intros ? ?%elem_of_nil|].
    split; [by intros ? ?%elem_of_nil|by intros ? ? ?%elem_of_nil]. }
  destruct (cc_trace_facts Ls Htr) as (_ & _ & Hclosed).
  destruct (cc_trace_facts (Ls ++ [r :: L])) as (_ & _ & Hclosed').
  { by apply cc_trace_snoc. }
  destruct Hcomp as (Hnd & Hsub & Hcover & Hsep).
  assert (∀ (l : list V) x y,
            (∀ n b, n ∈ l → b ∈ graph_nbrs g w0 n → b ∈ l) →
            x ∈ l → rtc (λ a b, b ∈ graph_nbrs g w0 a) x y → y ∈ l)
    as Hstay.
  { intros l x y Hl Hx Hpath.
    apply (elem_of_list_to_set (C := gset V)).
    apply (closed_rtc g w0 (list_to_set l) x y); [|set_solver|done].
    intros n b Hn Hb. apply elem_of_list_to_set.
    apply (Hl n b); [|done]. by apply (elem_of_list_to_set (C := gset V)). }
  assert (∀ x, x ∈ concat Ls →
               ¬ rtc (λ a b, b ∈ graph_nbrs g w0 a) r x) as Hapart.
  { intros x Hx Hpath. apply HrS.
    apply (rtc_adjG_sym g w0 g_symmetric) in Hpath.
    by apply (Hstay (concat Ls) x r). }
  assert (∀ x, x ∈ r :: L ↔ rtc (λ a b, b ∈ graph_nbrs g w0 a) r x)
    as Hreach.
  { intros x. split.
    - intros [->|Hx]%elem_of_cons; [done|].
      by apply (ccf_reach _ _ _ _ _ Hfound).
    - intros Hpath.
      assert (x ∈ concat (Ls ++ [r :: L])) as Hx.
      { apply (Hstay _ r x); [done| |done].
        rewrite concat_app. simpl. set_solver. }
      rewrite concat_app in Hx. simpl in Hx. rewrite app_nil_r in Hx.
      apply elem_of_app in Hx as [Hx|Hx]; [|done].
      by apply Hapart in Hx. }
  exists (roots ++ [r]). split.
  { apply Forall2_app; [done|]. constructor; [done|constructor]. }
  rewrite concat_app. simpl. rewrite app_nil_r.
  split; [|split; [|split]].
  - apply NoDup_app. split; [done|]. split; [|apply NoDup_singleton].
    intros x Hx ->%list_elem_of_singleton. apply HrS. by apply Hsub.
  - intros x [Hx| ->%list_elem_of_singleton]%elem_of_app; [|set_solver].
    apply elem_of_app. left. by apply Hsub.
  - intros x [Hx|Hx]%elem_of_app.
    + destruct (Hcover x Hx) as (r' & Hr' & Hpath).
      exists r'. split; [set_solver|done].
    + exists r. split; [set_solver|]. by apply Hreach.
  - intros r1 r2 [Hr1| ->%list_elem_of_singleton]%elem_of_app
      [Hr2| ->%list_elem_of_singleton]%elem_of_app Hpath;
      [eauto| | |done].
    + exfalso. apply (Hapart r1); [by apply Hsub|].
      by apply (rtc_adjG_sym g w0 g_symmetric).
    + exfalso. apply (Hapart r2); [by apply Hsub|done].
Qed.
End cc_trace.

Section cc_top.
Context {V : Type} `{Countable V}.
Context (set_order : gset V → list V).
Hypothesis set_order_elements : ∀ s, set_order s ≡ₚ elements s.
Context (g : graph.t V) (w0 : world V).
Hypothesis g_wf : graph_wf g w0.
Implicit Types (st : cc_state (V:=V)) (S : gset V) (L : list V)
  (Ls : list (list V)) (u v a b : V).

(** [G.subgraph(this_comp)] in a later world. *)
Lemma cc_subgraph_run w L :
  length (heap w0) ≤ length (heap w) →
  (∀ l, l < length (heap w0) → deref w l = deref w0 l) →
  NoDup L → (∀ v, v ∈ L → v ∈ graph.__iter__ g) →
  ∃ c w',
    graph.subgraph g (sequence L) w = (Ret c, w')
    ∧ cc_comp g w0 w' L c
    ∧ length (heap w) ≤ length (heap w')
    ∧ (∀ l, l < length (heap w) → deref w' l = deref w l)
    ∧ stdout w' = stdout w.
Proof.
  intros Hlen Hframe Hnd HL.
  destruct (subgraph_pairs_run g w0 (sequence L) L w g_wf HL Hlen Hframe)
    as (pairs & w1 & Hrun & Hkeys & Hlen1 & Hout & Hframe1 & Hnew).
  cbn [sequence iter] in Hnew.
  assert (seed_allocated (dict pairs) w1) as Hseed.
  { intros v l Hl. rewrite dict_get_dict in Hl.
    apply dict_get_elem_of, elem_of_reverse, Hnew in Hl. lia. }
  assert (∀ v l, dict_get (dict pairs) v = Some l →
                 length (heap w) ≤ l
                 ∧ deref w1 l = filter (λ e, e ∈ L) (graph_nbrs g w0 v))
    as Hseed'.
  { intros v l Hl. rewrite dict_get_dict in Hl.
    apply dict_get_elem_of, elem_of_reverse, Hnew in Hl as [? ?].
    split; [lia|done]. }
  assert (∀ v, v ∈ L → is_Some (dict_get (dict pairs) v)) as Hall.
  { intros v Hv. apply dict_get_is_Some, elem_of_keys_dict.
    by rewrite Hkeys. }
  pose proof (graph_init_wf _ _ _ _ _ Hseed
                (graph_init_run (sequence L) (dict pairs) w1)) as Hwf.
  eexists _, _. split.
  { unfold graph.subgraph. cbn [sequence iter].
    erewrite bind_Ret by exact Hrun. apply graph_init_run. }
  cbn [sequence iter len] in *.
  split; [split|].
  - exact Hwf.
  - unfold graph.__iter__. cbn [graph.ve_dict].
    rewrite dict_NoDup by (by rewrite seeded_pairs_keys).
    apply seeded_pairs_keys.
  - done.
  - intros v u. unfold graph_nbrs at 1. cbn [graph.ve_dict].
    destruct (dict_get (dict (seeded_pairs _ _ _)) v) as [l|] eqn:Hl.
    + apply seeded_dict_get in Hl as (Hv & _ & ->); [|done].
      destruct (Hall v Hv) as [l0 Hl0]. rewrite Hl0.
      destruct (Hseed' v l0 Hl0) as [_ ->].
      rewrite elem_of_filter. tauto.
    + apply dict_get_None in Hl. rewrite seeded_keys in Hl.
      split; [set_solver|tauto].
  - cbn [graph.ve_dict]. intros v l Hl. rewrite dict_get_dict in Hl.
    apply dict_get_elem_of, elem_of_reverse, elem_of_seeded_pairs in Hl
      as [Hv [Hl|[_ ?]]]; [|lia].
    apply Hseed' in Hl as [? _]. lia.
  - split; [|split].
    + unfold grown. simpl. rewrite length_app. lia.
    + intros l Hl. rewrite deref_grown_old by lia. by apply Hframe1.
    + simpl. done.
Qed.
(** One turn of the outer loop. *)
Lemma cc_top_body_spec d v st Ls :
  length (graph.__iter__ g) ≤ d → v ∈ graph.__iter__ g →
  cc_top g w0 st Ls →
  ∃ o st',
    cc_top_body set_order g d v () st = (o, st')
    ∧ (∀ l, l < length (heap w0) → deref (cc_world st') l = deref w0 l)
    ∧ stdout (cc_world st') = stdout w0
    ∧ (o = Exc KeyError ∧ ¬ graph_closed g w0
       ∨ o = Ret ()
         ∧ ∃ Ls', cc_top g w0 st' (Ls ++ Ls') ∧ v ∈ concat (Ls ++ Ls')).
Proof.
  intros Hd Hv [Hinv Hthis Hvis Htr Hcomps].
  pose proof (cc_trace_facts g w0 Ls Htr) as (Hnd & Hverts & Hclosed).
  set (S := list_to_set (concat Ls) : gset V) in *.
  cbv beta.
  erewrite bind_Ret by (by eapply (cc_is_visited_run g w0)).
  case_bool_decide as HvS; cbn [negb].
  { exists (Ret ()), st. split; [done|].
    split; [apply Hinv|]. split; [apply Hinv|]. right. split; [done|].
    exists []. rewrite app_nil_r. split; [by split|].
    unfold S in HvS. set_solver. }
  destruct (cc_explore_spec set_order set_order_elements g w0 g_wf d v st S)
    as (o & st1 & Hrun & Hw & Hc & Hres); [done|done|done|done| |].
  { etrans; [|exact Hd]. apply length_filter. }
  destruct Hres
    as [[-> Hbad]|[-> (L & Hinv1 & Hvis1 & Hthis1 & Hfound & Hcv)]].
  { exists (Exc KeyError), st1. split.
    { by erewrite bind_Exc by exact Hrun. }
    rewrite Hw. split; [apply Hinv|]. split; [apply Hinv|]. by left. }
  erewrite bind_Ret by exact Hrun.
  rewrite Hthis in Hthis1. simpl in Hthis1.
  assert (NoDup (v :: L)) as HndL.
  { constructor; [|apply Hfound].
    intros Hin. apply (ccf_fresh _ _ _ _ _ Hfound) in Hin. set_solver. }
  destruct (cc_subgraph_run (cc_world st1) (v :: L))
    as (c & w2 & Hsub & Hcomp & Hlen2 & Hframe2 & Hout2);
    [apply Hinv1|apply Hinv1|done| |].
  { intros x [->|Hx]%elem_of_cons; [done|].
    by apply (ccf_fresh _ _ _ _ _ Hfound) in Hx as [? _]. }
  exists (Ret ()), (CcState (cc_visited st1) [] (comps st1 ++ [c]) w2).
  split.
  { unfold cc_collect, bind at 1, get at 1. by rewrite Hthis1, Hsub. }
  assert (∀ l, l < length (heap w0) → deref w2 l = deref w0 l) as Hframe.
  { intros l Hl. rewrite Hframe2 by (pose proof (cci_heap _ _ _ Hinv1); lia).
    by apply (cci_frame _ _ _ Hinv1). }
  assert (stdout w2 = stdout w0) as Hout.
  { rewrite Hout2. apply Hinv1. }
  split; [done|]. split; [done|]. right. split; [done|].
  exists [v :: L]. split.
  2:{ rewrite concat_app. simpl. set_solver. }
  assert (v ∉ concat Ls) as HvLs by (unfold S in HvS; set_solver).
  split; cbn [cc_visited this_comp comps cc_world].
  - split; cbn [cc_visited cc_world]; [apply Hinv1| |done..].
    pose proof (cci_heap _ _ _ Hinv1). lia.
  - done.
  - intros x. rewrite (Hvis1 x), concat_app, list_to_set_app_L. simpl.
    rewrite app_nil_r. unfold S. set_solver.
  - by apply cc_trace_snoc.
  - apply Forall2_app; [|constructor; [done|constructor]].
    rewrite Hc. eapply Forall2_impl; [exact Hcomps|].
    intros L' c' Hc'. apply (cc_comp_later g w0 (cc_world st)); [done|..].
    + by rewrite <-Hw.
    + intros l Hl. rewrite <-Hw. apply Hframe2. by rewrite Hw.
Qed.

Lemma cc_top_for_in_spec d us st Ls :
  length (graph.__iter__ g) ≤ d → (∀ v, v ∈ us → v ∈ graph.__iter__ g) →
  cc_top g w0 st Ls →
  ∃ o st',
    for_in us () (cc_top_body set_order g d) st = (o, st')
    ∧ (∀ l, l < length (heap w0) → deref (cc_world st') l = deref w0 l)
    ∧ stdout (cc_world st') = stdout w0
    ∧ (o = Exc KeyError ∧ ¬ graph_closed g w0
       ∨ o = Ret ()
         ∧ ∃ Ls',
             cc_top g w0 st' (Ls ++ Ls')
             ∧ ∀ v, v ∈ us → v ∈ concat (Ls ++ Ls')).
Proof.
  intros Hd. revert st Ls.
  induction us as [|v us IH]; intros st Ls Hus Htop.
  { exists (Ret ()), st. split; [done|].
    split; [apply Htop|]. split; [apply Htop|]. right. split; [done|].
    exists []. rewrite app_nil_r. split; [done|]. by intros v ?%elem_of_nil. }
  destruct (cc_top_body_spec d v st Ls)
    as (o1 & st1 & Hrun1 & Hframe1 & Hout1 & Hres1);
    [done|apply Hus; left|done|].
  destruct Hres1 as [[-> Hbad]|[-> (Ls1 & Htop1 & Hv1)]].
  { exists (Exc KeyError), st1. split.
    { cbn [for_in]. by erewrite bind_Exc by exact Hrun1. }
    split; [done|]. split; [done|]. by left. }
  destruct (IH st1 (Ls ++ Ls1))
    as (o2 & st2 & Hrun2 & Hframe2 & Hout2 & Hres2);
    [intros; apply Hus; by right|done|].
  exists o2, st2. split.
  { cbn [for_in]. by erewrite bind_Ret by exact Hrun1. }
  split; [done|]. split; [done|].
  destruct Hres2 as [?|[-> (Ls2 & Htop2 & Hus2)]]; [by left|].
  right. split; [done|]. exists (Ls1 ++ Ls2). rewrite app_assoc.
  split; [done|]. intros x [->|Hx]%elem_of_cons; [|by apply Hus2].
  rewrite concat_app. set_solver.
Qed.

Lemma cc_top_init :
  cc_top g w0
    (CcState (dict ((λ v, (v, false)) <$> graph.__iter__ g)) [] [] w0) [].
Proof.
  split; cbn [cc_visited this_comp comps cc_world].
  - split; cbn [cc_visited cc_world]; [|done..].
    apply keys_const, (graph_wf_keys _ _ g_wf).
  - done.
  - intros u. cbn [cc_visited]. rewrite dict_get_const. simpl.
    split; [by case_decide|set_solver].
  - constructor.
  - constructor.
Qed.

(** The whole run. *)
Lemma cc_run_spec depth :
  length (graph.__iter__ g) ≤ depth →
  ∃ o w',
    connected_components set_order g depth w0 = (o, w')
    ∧ (∀ l, l < length (heap w0) → deref w' l = deref w0 l)
    ∧ stdout w' = stdout w0
    ∧ (o = Exc KeyError ∧ ¬ graph_closed g w0
       ∨ ∃ cs Ls,
           o = Ret cs
           ∧ cc_trace g w0 Ls
           ∧ Forall2 (cc_comp g w0 w') Ls cs
           ∧ concat Ls ≡ₚ graph.__iter__ g).
Proof.
  intros Hd.
  destruct (cc_top_for_in_spec depth (graph.__iter__ g) _ [] Hd
              (λ v Hv, Hv) cc_top_init)
    as (o & st & Hrun & Hframe & Hout & Hres).
  unfold connected_components. cbv zeta. rewrite Hrun. cbn [fst snd].
  destruct Hres as [[-> Hbad]|[-> (Ls & Htop & Hall)]].
  { eexists _, _. split; [done|]. split; [done|]. split; [done|]. by left. }
  eexists _, _. split; [done|]. split; [done|]. split; [done|]. right.
  simpl in Htop, Hall. destruct Htop as [Hinv Hthis Hvis Htr Hcomps].
  exists (comps st), Ls. split; [done|]. split; [done|]. split; [done|].
  destruct (cc_trace_facts g w0 Ls Htr) as (Hnd & Hverts & _).
  apply NoDup_Permutation; [done|apply (graph_wf_keys _ _ g_wf)|].
  intros v. split; [apply Hverts|apply Hall].
Qed.

End cc_top.

Lemma Forall2_compose {A B C} (P : A → B → Prop) (Q : B → C → Prop)
    (R : A → C → Prop) (l : list A) (k : list B) (m : list C) :
  (∀ x y z, P x y → Q y z → R x z) →
  Forall2 P l k → Forall2 Q k m → Forall2 R l m.
Proof.
  intros HR HP. revert m.
  induction HP; intros m HQ; inversion HQ; subst; constructor; eauto.
Qed.

Section cc_extras.
Context {V : Type} `{Countable V}.
Context (set_order : gset V → list V).
Hypothesis set_order_elements : ∀ s, set_order s ≡ₚ elements s.
Implicit Types (g c : graph.t V) (w : world V).

Lemma cc_comp_iters g w0 w (Ls : list (list V)) (cs : list (graph.t V)) :
  Forall2 (cc_comp g w0 w) Ls cs → graph.__iter__ <$> cs = Ls.
Proof.
  induction 1 as [|L c Ls cs Hc _ IH]; [done|].
  rewrite fmap_cons, IH. f_equal. apply Hc.
Qed.

(** X17: on an undirected graph (symmetric adjacency, at least as many
    frames as vertices) [connected_components] returns one graph per
    connected component, in the order in which the first vertices
    [roots] of the components are met: the vertices of the graphs
    together are the vertices of [g], each once; the vertices of a graph
    are those joined to its first vertex by a path of [g]; the graph has
    their neighbour sets, in new set objects, and their number as its
    length; no two of the first vertices are joined by a path.  The sets
    that existed before the call and the output are as they were. *)
Theorem connected_components_correct g w depth :
  graph_wf g w → graph_symmetric g w →
  length (graph.__iter__ g) ≤ depth →
  ∃ cs w' roots,
    connected_components set_order g depth w = (Ret cs, w')
    ∧ concat (graph.__iter__ <$> cs) ≡ₚ graph.__iter__ g
    ∧ Forall2
        (λ r c,
           head (graph.__iter__ c) = Some r
           ∧ (∀ v, v ∈ graph.__iter__ c ↔
                   rtc (λ a b, b ∈ graph_nbrs g w a) r v)
           ∧ (∀ v, v ∈ graph.__iter__ c →
                   graph_nbrs c w' v = graph_nbrs g w v)
           ∧ graph.__len__ c = Z.of_nat (length (graph.__iter__ c))
           ∧ (∀ v l, dict_get (graph.ve_dict c) v = Some l →
                     length (heap w) ≤ l < length (heap w')))
        roots cs
    ∧ components (λ a b, b ∈ graph_nbrs g w a) (graph.__iter__ g) roots
    ∧ (∀ l, l < length (heap w) → deref w' l = deref w l)
    ∧ stdout w' = stdout w.
Proof.
  intros Hwf Hsym Hdepth.
  destruct (cc_run_spec set_order set_order_elements g w Hwf depth Hdepth)
    as (o & w' & Hrun & Hframe & Hout & Hres).
  destruct Hres as [[_ Hbad]|(cs & Ls & -> & Htr & Hcomps & Hperm)].
  { destruct Hbad. by apply symmetric_closed. }
  destruct (cc_trace_components g w Hsym Ls Htr) as (roots & Hroots & Hcc).
  exists cs, w', roots. split; [done|].
  split; [by rewrite (cc_comp_iters _ _ _ _ _ Hcomps)|].
  split; [|split; [|done]].
  - eapply Forall2_compose; [|exact Hroots|exact Hcomps].
    intros r L c [Hhead Hreach] [Hcwf Hiter Hlen Hadj Hnew]. simpl.
    rewrite Hiter. split; [done|]. split; [done|].
    split; [|split; [by rewrite Hlen|]].
    + intros v Hv. apply set_eq. intros u. rewrite Hadj.
      split; [tauto|]. intros Hu. split; [done|]. split; [|done].
      apply Hreach. eapply rtc_r; [by apply Hreach|done].
    + intros v l Hl. split; [by eapply Hnew|].
      by apply (graph_wf_locs _ _ Hcwf v).
  - destruct Hcc as (Hnd & Hsub & Hcover & Hsep).
    split; [done|]. split; [|split; [|done]].
    + intros r Hr. rewrite <-Hperm. by apply Hsub.
    + intros v Hv. apply Hcover. by rewrite Hperm.
Qed.

(** X18: on a graph one of whose adjacency sets holds a label that is no
    vertex (the constructor keeps such labels of a seed),
    [connected_components] raises [KeyError], from the lookup
    [visited[w]]; the sets that existed before the call and the output are
    as they were. *)
Theorem connected_components_key_error g w depth :
  graph_wf g w → ¬ graph_closed g w →
  length (graph.__iter__ g) ≤ depth →
  ∃ w',
    connected_components set_order g depth w = (Exc KeyError, w')
    ∧ (∀ l, l < length (heap w) → deref w' l = deref w l)
    ∧ stdout w' = stdout w.
Proof.
  intros Hwf Hopen Hdepth.
  destruct (cc_run_spec set_order set_order_elements g w Hwf depth Hdepth)
    as (o & w' & Hrun & Hframe & Hout & Hres).
  destruct Hres as [[-> _]|(cs & Ls & -> & Htr & _ & Hperm)].
  - by exists w'.
  - destruct Hopen. by apply (cc_trace_closed g w Ls).
Qed.
End cc_extras.

(** [connected_components] on the complete graph on two vertices. *)
Lemma connected_components_correct_witness :
  ∃ cs w' (roots : list nat),
    connected_components elements sample.k2 2 sample.w1 = (Ret cs, w')
    ∧ concat (graph.__iter__ <$> cs) ≡ₚ [0; 1]
    ∧ length cs = length roots
    ∧ components (λ a b, b ∈ graph_nbrs sample.k2 sample.w1 a) [0; 1] roots.
Proof.
  destruct (connected_components_correct elements (λ s, reflexivity _)
              sample.k2 sample.w1 2
              sample_k2_wf sample_k2_symmetric (le_n 2))
    as (cs & w' & roots & Hrun & Hperm & Hall & Hcc & _).
  exists cs, w', roots. split; [done|]. split; [done|].
  split; [|done]. symmetry. by eapply Forall2_length.
Defined.

(** [connected_components(graph([0], {0: {5}}))]. *)
Lemma connected_components_key_error_witness :
  ∃ w',
    connected_components elements
      (graph.Graph [(0, 0)] [(0, 0%Z)] 1 (1 # 2))
      1 (World [({[5]} : gset nat)] [])
    = (Exc KeyError, w').
Proof.
  destruct (connected_components_key_error elements (λ s, reflexivity _)
              (graph.Graph [(0, 0)] [(0, 0%Z)] 1 (1 # 2))
              (World [({[5]} : gset nat)] []) 1)
    as (w' & Hrun & _).
  - split; simpl.
    + apply NoDup_singleton.
    + intros v ->%list_elem_of_singleton. simpl. eauto.
    + intros v l. case_decide; [|done]. intros [= <-]. simpl. lia.
  - intros Hclosed.
    assert (5 ∈ graph.__iter__ (graph.Graph [(0, 0)] [(0, 0%Z)] 1 (1 # 2)))
      as Hin.
    { apply (Hclosed 0 5). unfold graph_nbrs, deref. simpl. set_solver. }
    simpl in Hin. by apply list_elem_of_singleton in Hin.
  - simpl. lia.
  - by exists w'.
Defined.

Section dfs_cases.
Context {V : Type} `{Countable V}.
Context (set_order : gset V → list V) (G : indexable V) (w : world V).
Implicit Types (s : dfs_state (V:=V)) (L : list V) (u v x : V) (c d : nat).

Abbreviation adj := (dfs_adj set_order G w).
Abbreviation more := (dfs_more set_order G w).

Lemma dfs_known_step s c s' c' L :
  dfs_known G s → dfs_step s c s' c' L → dfs_known G s'.
Proof.
  intros Hknown Hstep u Hu. rewrite (step_visited _ _ _ _ _ Hstep).
  case_decide as HuL; [|by apply Hknown].
  apply (step_new _ _ _ _ _ Hstep) in HuL. rewrite Hknown in HuL; done.
Qed.

Lemma dfs_more_refl roots s c : dfs_seen s c → more roots s c [].
Proof.
  intros Hseen. split; [..|done].
  - by intros u x ?%elem_of_nil.
  - by intros u x p1 q1 p2 l ?%elem_of_nil.
  - by intros x ?%elem_of_nil.
  - by intros u x p1 q1 p2 q2 ?%elem_of_nil.
Qed.

Lemma dfs_more_roots roots roots' s c L :
  (∀ r, r ∈ roots → r ∈ roots') → more roots s c L → more roots' s c L.
Proof.
  intros Hsub [M1 M2 M3 M4 M5]. split; try done.
  intros x Hx. destruct (M3 x Hx) as (r & Hr & Hpath). eauto.
Qed.

Lemma dfs_more_trans roots1 roots2 s c s1 c1 s2 c2 L1 L2 :
  dfs_step s c s1 c1 L1 → dfs_step s1 c1 s2 c2 L2 →
  more roots1 s1 c1 L1 → more roots2 s2 c2 L2 →
  more (roots1 ++ roots2) s2 c2 (L1 ++ L2).
Proof.
  intros Hstep1 Hstep2 [C1 E1 R1 D1 S1] [C2 E2 R2 D2 S2].
  assert (∀ u, u ∈ L2 → u ∉ L1) as Hdisj.
  { intros u Hu2 Hu1. apply (step_new _ _ _ _ _ Hstep2) in Hu2.
    rewrite (step_visited _ _ _ _ _ Hstep1) in Hu2.
    by rewrite decide_True in Hu2. }
  assert (∀ u, u ∉ L2 → dict_get (pre_post s2) u = dict_get (pre_post s1) u)
    as Hkeep by apply (step_old _ _ _ _ _ Hstep2).
  assert (∀ u, dict_get (visited s1) u = Some true → u ∉ L2) as Hdone.
  { intros u Hu Hu2. apply (step_new _ _ _ _ _ Hstep2) in Hu2. congruence. }
  assert (∀ u, dict_get (visited s1) u = Some true →
               dict_get (visited s2) u = Some true) as Hmono.
  { intros u Hu. rewrite (step_visited _ _ _ _ _ Hstep2).
    by case_decide. }
  assert (∀ u p q, u ∈ L1 → dict_get (pre_post s2) u = Some [p; q] →
                   dict_get (pre_post s1) u = Some [p; q]
                   ∧ p < q ∧ q < c1) as Hin1.
  { intros u p q Hu Hpq.
    rewrite Hkeep in Hpq by (intros ?; by eapply Hdisj).
    destruct (step_stamps _ _ _ _ _ Hstep1 u Hu) as (p' & q' & Hpq' & ?).
    split; [done|]. simplify_eq. lia. }
  assert (∀ u p q, u ∈ L2 → dict_get (pre_post s2) u = Some [p; q] →
                   c1 ≤ p ∧ p < q) as Hin2.
  { intros u p q Hu Hpq.
    destruct (step_stamps _ _ _ _ _ Hstep2 u Hu) as (p' & q' & Hpq' & ?).
    simplify_eq. lia. }
  split; [| | | |done].
  - intros u x [Hu|Hu]%elem_of_app Hux; [|eauto]. apply Hmono. eauto.
  - intros u x p1 q1 p2 l [Hu|Hu]%elem_of_app Hux Hpq Hx; [|eauto].
    apply Hin1 in Hpq as (Hpq & _); [|done].
    apply (E1 u x p1 q1 p2 l); [done..|].
    rewrite <-Hkeep; [done|]. apply Hdone. eauto.
  - intros x [Hx|Hx]%elem_of_app.
    + destruct (R1 x Hx) as (r & Hr & ?). exists r. split; [set_solver|done].
    + destruct (R2 x Hx) as (r & Hr & ?). exists r. split; [set_solver|done].
  - intros u x p1 q1 p2 q2 [Hu|Hu]%elem_of_app [Hx|Hx]%elem_of_app
      Hpu Hpx Hp Hq.
    + apply Hin1 in Hpu as (Hpu & _); [|done].
      apply Hin1 in Hpx as (Hpx & _); [|done]. eauto.
    + apply Hin1 in Hpu as (_ & ? & ?); [|done].
      apply Hin2 in Hpx as (? & ?); [|done]. lia.
    + apply Hin2 in Hpu as (? & ?); [|done].
      apply Hin1 in Hpx as (_ & ? & ?); [|done]. lia.
    + eauto.
Qed.

Hypothesis G_indexed : dfs_indexed set_order G w.

Lemma dfs_for_in_cases d us c s :
  explore_cases set_order G w d →
  dfs_ok (ix_iter G) s → dfs_known G s → dfs_seen s c →
  length (unvisited s (ix_iter G)) ≤ d →
  ∃ o s',
    for_in us c (dfs_body set_order G w d) s = (o, s')
    ∧ (o = Exc KeyError
       ∧ (¬ dfs_closed set_order G w ∨ ∃ u, u ∈ us ∧ u ∉ ix_iter G)
       ∨ ∃ c' L,
           o = Ret c' ∧ dfs_step s c s' c' L ∧ more us s' c' L
           ∧ ∀ u, u ∈ us → dict_get (visited s') u = Some true).
Proof.
  intros Hexp. revert c s.
  induction us as [|u us IH]; intros c s Hok Hknown Hseen Hd.
  { exists (Ret c), s. split; [done|]. right. exists c, [].
    split; [done|]. split; [apply dfs_step_refl|].
    split; [by apply dfs_more_refl|by intros u ?%elem_of_nil]. }
  destruct (decide (u ∈ ix_iter G)) as [Hu|Hu].
  2:{ exists (Exc KeyError), s. split.
      { cbn [for_in]. unfold bind at 1, is_visited, bind, get, lift, getitem.
        by rewrite (Hknown u Hu). }
      left. split; [done|]. right. exists u. split; [left|done]. }
  destruct (proj1 Hok u Hu) as [b Hb].
  assert (∃ o1 s1,
            dfs_body set_order G w d u c s = (o1, s1)
            ∧ (o1 = Exc KeyError ∧ ¬ dfs_closed set_order G w
               ∨ ∃ c1 L1,
                   o1 = Ret c1 ∧ dfs_step s c s1 c1 L1 ∧ more [u] s1 c1 L1
                   ∧ dict_get (visited s1) u = Some true))
    as (o1 & s1 & Hrun1 & Hres1).
  { cbv beta. erewrite bind_Ret by (by apply is_visited_run).
    destruct b; cbn [negb].
    - exists (Ret c), s. split; [done|]. right. exists c, [].
      split; [done|]. split; [apply dfs_step_refl|].
      split; [by apply dfs_more_refl|done].
    - destruct (Hexp u c s Hu Hok Hknown Hseen Hb Hd)
        as (o1 & s1 & Hrun & Hres).
      exists o1, s1. split; [done|].
      destruct Hres as [?|(c1 & L1 & -> & Hstep & HuL & Hmore)]; [by left|].
      right. exists c1, L1. split; [done|]. split; [done|]. split; [done|].
      rewrite (step_visited _ _ _ _ _ Hstep). by rewrite decide_True. }
  destruct Hres1 as [[-> Hbad]|(c1 & L1 & -> & Hstep1 & Hmore1 & Hvis1)].
  { exists (Exc KeyError), s1. split.
    { cbn [for_in]. by erewrite bind_Exc by exact Hrun1. }
    left. split; [done|]. by left. }
  destruct (IH c1 s1) as (o2 & s2 & Hrun2 & Hres2).
  { by eapply dfs_ok_step. }
  { by eapply dfs_known_step. }
  { apply Hmore1. }
  { etrans; [by eapply unvisited_step|done]. }
  exists o2, s2. split.
  { cbn [for_in]. by erewrite bind_Ret by exact Hrun1. }
  destruct Hres2
    as [[-> Hbad]|(c2 & L2 & -> & Hstep2 & Hmore2 & Hvis2)].
  { left. split; [done|]. destruct Hbad as [?|(x & ? & ?)]; [by left|].
    right. exists x. split; [by right|done]. }
  right. exists c2, (L1 ++ L2). split; [done|].
  split; [by eapply dfs_step_trans|]. split.
  { by apply (dfs_more_trans [u] us s c s1 c1). }
  intros x [->|Hx]%elem_of_cons; [|by apply Hvis2].
  rewrite (step_visited _ _ _ _ _ Hstep2). by case_decide.
Qed.
Lemma explore_cases_spec d : explore_cases set_order G w d.
Proof.
  induction d as [|d IH]; intros v c s Hv Hok Hknown Hseen Hnew Hd.
  { exfalso. assert (0 < length (unvisited s (ix_iter G))); [|lia].
    assert (v ∈ unvisited s (ix_iter G)) as Hin
      by by apply list_elem_of_filter.
    destruct (unvisited s (ix_iter G));
      [by apply elem_of_nil in Hin|simpl; lia]. }
  destruct Hok as [Hkeys Hfresh].
  destruct (G_indexed v Hv) as (us & Hus).
  assert (∀ x, adj v x ↔ x ∈ us) as Hadj.
  { intros x. split; [|by exists us].
    intros (us' & Hus' & Hx). congruence. }
  set (s1 := DfsState (dict_set v true (visited s)) (pre_post s)).
  set (s2 := DfsState (visited s1) (dict_set v [c] (pre_post s1))).
  assert (dfs_ok (ix_iter G) s2) as Hok2.
  { split; simpl.
    - intros u Hu. rewrite dict_get_set. case_decide; [done|]. by apply Hkeys.
    - intros u. rewrite !dict_get_set. case_decide; [done|]. by apply Hfresh. }
  assert (dfs_known G s2) as Hknown2.
  { intros u Hu. simpl. rewrite dict_get_set.
    case_decide; [by subst|by apply Hknown]. }
  assert (dfs_seen s2 (c + 1)) as Hseen2.
  { intros u. simpl. rewrite !dict_get_set. case_decide.
    - intros _. exists c, []. split; [done|lia].
    - intros Hu. destruct (Hseen u Hu) as (p & l & ? & ?).
      exists p, l. split; [done|lia]. }
  assert (length (unvisited s2 (ix_iter G)) ≤ d) as Hd2.
  { assert (length (unvisited s2 (ix_iter G))
            < length (unvisited s (ix_iter G))); [|lia].
    apply (filter_length_lt _ _ _ v); simpl; try done.
    - intros u _. rewrite dict_get_set. by case_decide.
    - by rewrite dict_get_set_eq. }
  destruct (dfs_for_in_cases d us (c + 1) s2 IH Hok2 Hknown2 Hseen2 Hd2)
    as (o3 & s3 & Hloop & Hres).
  assert (explore set_order G w (S d) v c s =
            bind (for_in us (c + 1) (dfs_body set_order G w d))
                 (λ counter, stamp v counter ;;; ret (counter + 1)) s2)
    as Hrun.
  { simpl. rewrite (bind_Ret _ _ _ _ _ (mark_run v s)).
    erewrite bind_Ret by (apply stamp_run; simpl; by apply Hfresh).
    unfold lift at 1. rewrite Hus. unfold bind at 1. done. }
  destruct Hres
    as [[-> Hbad]|(c3 & L & -> & Hstep & Hmore & Hvis3)].
  { exists (Exc KeyError), s3. split.
    { rewrite Hrun. by erewrite bind_Exc by exact Hloop. }
    left. split; [done|]. destruct Hbad as [?|(u & Hu & Hno)]; [done|].
    intros Hclosed. apply Hno. apply (Hclosed v u Hv). by apply Hadj. }
  assert (v ∉ L) as HvL.
  { intros HvL. apply (step_new _ _ _ _ _ Hstep) in HvL. simpl in HvL.
    by rewrite dict_get_set_eq in HvL. }
  assert (dict_get (pre_post s3) v = Some [c]) as Hpre.
  { rewrite (step_old _ _ _ _ _ Hstep) by done. simpl. apply dict_get_set_eq. }
  set (s4 := DfsState (visited s3) (dict_set v [c; c3] (pre_post s3))).
  exists (Ret (c3 + 1)), s4. split.
  { rewrite Hrun. rewrite (bind_Ret _ _ _ _ _ Hloop).
    erewrite bind_Ret by (apply stamp_run; exact Hpre). done. }
  right. exists (c3 + 1), (v :: L). split; [done|].
  pose proof (step_counter _ _ _ _ _ Hstep) as Hc3.
  split; [|split; [by left|]].
  - split.
    + constructor; [done | apply (step_nodup _ _ _ _ _ Hstep)].
    + intros u [->|Hu]%elem_of_cons; [done|].
      apply (step_new _ _ _ _ _ Hstep) in Hu as Hu'. simpl in Hu'.
      rewrite dict_get_set in Hu'. by case_decide.
    + intros u. simpl. rewrite (step_visited _ _ _ _ _ Hstep). simpl.
      rewrite dict_get_set.
      destruct (decide (u = v)) as [->|Hne].
      * rewrite (decide_True (P := v ∈ v :: L)) by left. by case_decide.
      * destruct (decide (u ∈ L)).
        -- by rewrite decide_True by by right.
        -- rewrite decide_False; [done|]. by intros [?|?]%elem_of_cons.
    + simpl. lia.
    + simpl. rewrite keys_set_present by (by eapply dict_get_Some_keys).
      rewrite (step_keys _ _ _ _ _ Hstep). simpl.
      apply keys_set_present. eapply dict_get_Some_keys. by apply Hfresh.
    + intros u Hu. apply not_elem_of_cons in Hu as [Hne HuL]. simpl.
      rewrite dict_get_set_ne by done.
      rewrite (step_old _ _ _ _ _ Hstep) by done. simpl.
      by rewrite dict_get_set_ne.
    + intros u [->|Hu]%elem_of_cons; simpl.
      * exists c, c3. rewrite dict_get_set_eq. split; [done|]. lia.
      * destruct (step_stamps _ _ _ _ _ Hstep u Hu) as (p & q & Hpq & ?).
        exists p, q. rewrite dict_get_set_ne by (by intros ->).
        split; [done|]. lia.
    + assert (∀ u p q, u ∈ L → dict_get (pre_post s4) u = Some [p; q] →
                dict_get (pre_post s3) u = Some [p; q] ∧ c < p ∧ q < c3)
        as Hin.
      { intros u p q Hu. simpl. rewrite dict_get_set_ne by (by intros ->).
        intros Hpq. split; [done|].
        destruct (step_stamps _ _ _ _ _ Hstep u Hu) as (p' & q' & Hpq' & ?).
        simplify_eq. lia. }
      assert (∀ p q, dict_get (pre_post s4) v = Some [p; q] → p = c ∧ q = c3)
        as Hroot.
      { intros p q. simpl. rewrite dict_get_set_eq. by intros [= <- <-]. }
      intros u1 u2 p1 q1 p2 q2 [->|Hu1]%elem_of_cons [->|Hu2]%elem_of_cons
        Hne E1 E2; [done| | |].
      * apply Hroot in E1 as [-> ->].
        apply Hin in E2 as (_ & ? & ?); [|done].
        right; right; left. lia.
      * apply Hroot in E2 as [-> ->].
        apply Hin in E1 as (_ & ? & ?); [|done].
        right; right; right. lia.
      * apply Hin in E1 as [E1 _]; [|done].
        apply Hin in E2 as [E2 _]; [|done].
        exact (step_nested _ _ _ _ _ Hstep u1 u2 p1 q1 p2 q2
                 Hu1 Hu2 Hne E1 E2).
    + rewrite all_stamps_cons. unfold s4 at 1. simpl pre_post.
      rewrite dict_get_set_eq. simpl default.
      rewrite (all_stamps_ext s3 s4 L).
      2:{ intros u Hu. simpl. apply dict_get_set_ne. by intros ->. }
      rewrite (step_perm _ _ _ _ _ Hstep).
      replace (2 * length (v :: L)) with (S (2 * length L + 1))
        by (simpl; lia).
      remember (2 * length L) as n eqn:Hn.
      replace (c + 1) with (S c) in * by lia.
      cbn [seq app]. constructor.
      rewrite seq_app. cbn [seq].
      replace (S c + n) with c3 by lia.
      apply Permutation_cons_append.
  - destruct Hmore as [C E R D S3].
    assert (∀ u, dict_get (pre_post s4) u =
                 if decide (u = v) then Some [c; c3]
                 else dict_get (pre_post s3) u) as Hpp.
    { intros u. simpl. apply dict_get_set. }
    assert (∀ u p q, u ∈ L → dict_get (pre_post s3) u = Some [p; q] →
                     c + 1 ≤ p ∧ p < q ∧ q < c3) as Hin.
    { intros u p q Hu Hpq.
      destruct (step_stamps _ _ _ _ _ Hstep u Hu) as (p' & q' & Hpq' & ?).
      simplify_eq. lia. }
    assert (∀ u, u ∈ L → u ≠ v) as Hne by (by intros u ? ->).
    split.
    + intros u x [->|Hu]%elem_of_cons Hux; [|by eapply C].
      apply Hvis3. by apply Hadj.
    + intros u x p1 q1 p2 l [->|Hu]%elem_of_cons Hux Hpu Hpx;
        rewrite Hpp in Hpu, Hpx.
      * rewrite decide_True in Hpu by done. injection Hpu as <- <-.
        destruct (decide (x = v)) as [->|Hxv]; [injection Hpx as <- _; lia|].
        destruct (S3 x) as (p & l' & Hp & ?);
          [apply Hvis3; by apply Hadj|].
        rewrite Hp in Hpx. injection Hpx as <- _. done.
      * rewrite decide_False in Hpu by (by apply Hne).
        destruct (Hin u p1 q1 Hu Hpu) as (? & ? & ?).
        destruct (decide (x = v)) as [->|Hxv]; [injection Hpx as <- _; lia|].
        by eapply E.
    + intros x [->|Hx]%elem_of_cons.
      * exists v. split; [left|done].
      * destruct (R x Hx) as (r & Hr & Hpath). exists v. split; [left|].
        eapply rtc_l; [|exact Hpath]. by apply Hadj.
    + intros u x p1 q1 p2 q2 [->|Hu]%elem_of_cons [->|Hx]%elem_of_cons
        Hpu Hpx Hp Hq; rewrite Hpp in Hpu, Hpx.
      * done.
      * destruct (R x Hx) as (r & Hr & Hpath).
        eapply rtc_l; [|exact Hpath]. by apply Hadj.
      * rewrite decide_True in Hpx by done. injection Hpx as <- <-.
        rewrite decide_False in Hpu by (by apply Hne).
        destruct (Hin u p1 q1 Hu Hpu) as (? & ? & ?). lia.
      * rewrite decide_False in Hpu by (by apply Hne).
        rewrite decide_False in Hpx by (by apply Hne). by eapply D.
    + intros u. simpl. intros Hu. rewrite dict_get_set. case_decide.
      * exists c, [c3]. split; [done|lia].
      * destruct (S3 u Hu) as (p & l & ? & ?). exists p, l.
        split; [done|lia].
Qed.
(** The outer loop of [dfs] on any indexable object with distinct
    vertices. *)
Lemma dfs_loop_cases depth :
  NoDup (ix_iter G) → length (ix_iter G) ≤ depth →
  ∃ o s,
    dfs_loop set_order G w depth (dfs_init G) = (o, s)
    ∧ (o = Exc KeyError ∧ ¬ dfs_closed set_order G w
       ∨ ∃ c,
           o = Ret c
           ∧ dfs_closed set_order G w
           ∧ (∀ u x p1 q1 p2 q2,
                adj u x →
                dict_get (pre_post s) u = Some [p1; q1] →
                dict_get (pre_post s) x = Some [p2; q2] → p2 < q1)
           ∧ (∀ u x p1 q1 p2 q2,
                dict_get (pre_post s) u = Some [p1; q1] →
                dict_get (pre_post s) x = Some [p2; q2] →
                p1 < p2 → q2 < q1 → rtc adj u x)).
Proof.
  intros Hnodup Hdepth.
  assert (dfs_ok (ix_iter G) (dfs_init G)) as Hok.
  { split; unfold dfs_init; simpl.
    - intros u Hu. rewrite dict_get_const. by rewrite decide_True.
    - intros u. rewrite !dict_get_const. by case_decide. }
  assert (dfs_known G (dfs_init G)) as Hknown.
  { intros u Hu. unfold dfs_init. simpl. rewrite dict_get_const.
    by rewrite decide_False. }
  assert (dfs_seen (dfs_init G) 0) as Hseen.
  { intros u. unfold dfs_init. simpl. rewrite dict_get_const.
    by case_decide. }
  destruct (dfs_for_in_cases depth (ix_iter G) 0 (dfs_init G))
    as (o & s & Hrun & Hres).
  { apply explore_cases_spec. }
  { done. }
  { done. }
  { done. }
  { etrans; [|exact Hdepth]. apply length_filter. }
  exists o, s. split; [done|].
  destruct Hres as [[-> Hbad]|(c & L & -> & Hstep & Hmore & Hall)].
  { left. split; [done|]. by destruct Hbad as [?|(u & ? & ?)]. }
  right. exists c. split; [done|].
  assert (∀ u, u ∈ L ↔ u ∈ ix_iter G) as HL.
  { intros u. split.
    - intros Hu%(step_new _ _ _ _ _ Hstep). unfold dfs_init in Hu. simpl in Hu.
      rewrite dict_get_const in Hu. by case_decide.
    - intros Hu%Hall. rewrite (step_visited _ _ _ _ _ Hstep) in Hu.
      case_decide; [done|]. unfold dfs_init in Hu. simpl in Hu.
      rewrite dict_get_const in Hu. by case_decide. }
  assert (keys (pre_post s) = ix_iter G) as Hkeys.
  { rewrite (step_keys _ _ _ _ _ Hstep). unfold dfs_init. simpl.
    by apply keys_const. }
  assert (∀ u l, dict_get (pre_post s) u = Some l → u ∈ L) as Hstamped.
  { intros u l Hl. apply HL. rewrite <-Hkeys.
    by eapply dict_get_Some_keys. }
  pose proof (dfs_known_step _ _ _ _ _ Hknown Hstep) as Hknown'.
  destruct Hmore as [C E R D S'].
  split; [|split].
  - intros u x Hu%HL Hux. specialize (C u x Hu Hux).
    destruct (decide (x ∈ ix_iter G)) as [|Hx]; [done|].
    rewrite (Hknown' x Hx) in C. done.
  - intros u x p1 q1 p2 q2 Hux Hpu Hpx.
    apply (E u x p1 q1 p2 [q2]); [by eapply Hstamped|done..].
  - intros u x p1 q1 p2 q2 Hpu Hpx.
    apply (D u x p1 q1 p2 q2); [by eapply Hstamped..|done|done].
Qed.
End dfs_cases.

Section dfs_nbrs.
Context {V : Type} `{Countable V}.
Context (set_order : gset V → list V).
Hypothesis set_order_elements : ∀ s, set_order s ≡ₚ elements s.
Context (G : indexable V) (w : world V) (nbrs : V → gset V).
Hypothesis G_nbrs : ∀ v, v ∈ ix_iter G →
  neighbours set_order G w v = Ret (set_order (nbrs v)).
Hypothesis G_none : ∀ v, v ∉ ix_iter G → nbrs v = ∅.

Lemma dfs_adj_nbrs u x :
  u ∈ ix_iter G → dfs_adj set_order G w u x ↔ x ∈ nbrs u.
Proof.
  intros Hu. unfold dfs_adj. rewrite (G_nbrs u Hu). split.
  - intros (us & [= <-] & Hx). rewrite set_order_elements in Hx.
    by apply elem_of_elements in Hx.
  - intros Hx. eexists. split; [done|]. rewrite set_order_elements.
    by apply elem_of_elements.
Qed.

Lemma dfs_closed_nbrs :
  dfs_closed set_order G w ↔ ∀ u x, x ∈ nbrs u → x ∈ ix_iter G.
Proof.
  split.
  - intros Hclosed u x Hx. destruct (decide (u ∈ ix_iter G)) as [Hu|Hu].
    + apply (Hclosed u x Hu). by apply dfs_adj_nbrs.
    + rewrite (G_none u Hu) in Hx. set_solver.
  - intros Hclosed u x Hu Hux. apply (Hclosed u). by apply dfs_adj_nbrs.
Qed.

Lemma dfs_path_nbrs u x :
  dfs_closed set_order G w → u ∈ ix_iter G →
  rtc (dfs_adj set_order G w) u x → rtc (λ a b, b ∈ nbrs a) u x.
Proof.
  intros Hclosed Hu Hpath. induction Hpath as [|a b c Hab _ IH]; [done|].
  eapply rtc_l; [by apply dfs_adj_nbrs|]. apply IH. by eapply Hclosed.
Qed.

(** [dfs] on an object whose vertices are distinct and have the
    neighbour sets [nbrs]. *)
Lemma dfs_indexable_cases depth :
  NoDup (ix_iter G) → length (ix_iter G) ≤ depth →
  (¬ (∀ u x, x ∈ nbrs u → x ∈ ix_iter G)
   ∧ dfs set_order G w depth = Exc KeyError)
  ∨ ((∀ u x, x ∈ nbrs u → x ∈ ix_iter G)
     ∧ ∃ pp,
         dfs set_order G w depth = Ret pp
         ∧ dfs_intervals (ix_iter G) pp
         ∧ (∀ u x p1 q1 p2 q2,
              x ∈ nbrs u →
              dict_get pp u = Some [p1; q1] →
              dict_get pp x = Some [p2; q2] → p2 < q1)
         ∧ (∀ u x p1 q1 p2 q2,
              dict_get pp u = Some [p1; q1] →
              dict_get pp x = Some [p2; q2] →
              p1 < p2 → q2 < q1 → rtc (λ a b, b ∈ nbrs a) u x)).
Proof.
  intros Hnodup Hdepth.
  assert (dfs_indexed set_order G w) as Hindexed.
  { intros v Hv. rewrite (G_nbrs v Hv). eauto. }
  destruct (dfs_loop_cases set_order G w Hindexed depth Hnodup Hdepth)
    as (o & s & Hrun & Hres).
  destruct Hres as [[-> Hbad]|(c & -> & Hclosed & Hedge & Hdesc)].
  { left. split; [by rewrite <-dfs_closed_nbrs|].
    unfold dfs. by rewrite Hrun. }
  right. split; [by apply dfs_closed_nbrs|].
  destruct (dfs_indexable_spec set_order G w depth)
    as (c' & s' & Hrun' & Hdfs & _ & Hint & _); [|done|done|].
  { intros v Hv. eexists. split; [by apply G_nbrs|].
    intros u Hu. apply (Hclosed v u Hv). eexists. by split; [apply G_nbrs|]. }
  rewrite Hrun in Hrun'. injection Hrun' as <- <-.
  exists (pre_post s). split; [done|]. split; [done|].
  assert (∀ u l, dict_get (pre_post s) u = Some l → u ∈ ix_iter G)
    as Hstamped.
  { intros u l Hl. destruct Hint as [<- _]. by eapply dict_get_Some_keys. }
  split.
  - intros u x p1 q1 p2 q2 Hux Hpu Hpx.
    apply (Hedge u x p1 q1 p2 q2); [|done..].
    apply dfs_adj_nbrs; [by eapply Hstamped|done].
  - intros u x p1 q1 p2 q2 Hpu Hpx Hp Hq.
    apply dfs_path_nbrs; [done|by eapply Hstamped|]. by eapply Hdesc.
Qed.
End dfs_nbrs.

Section dfs_more_extras.
Context {V : Type} `{Countable V}.
Context (set_order : gset V → list V).
Hypothesis set_order_elements : ∀ s, set_order s ≡ₚ elements s.
Implicit Types (g : graph.t V) (d : digraph.t V) (w : world V).

Lemma graph_neighbours_run g w v :
  v ∈ graph.__iter__ g →
  neighbours set_order (graph_indexable g) w v =
    Ret (set_order (graph_nbrs g w v)).
Proof.
  intros [l Hl]%dict_get_is_Some.
  unfold neighbours, graph_indexable, graph.__getitem__, getitem, graph_nbrs.
  simpl. by rewrite Hl.
Qed.

Lemma digraph_neighbours_run d w v :
  v ∈ digraph.__iter__ d →
  neighbours set_order (digraph_indexable d) w v =
    Ret (set_order (digraph_nbrs d w v)).
Proof.
  intros [l Hl]%dict_get_is_Some.
  unfold neighbours, digraph_indexable, digraph.__getitem__, getitem,
    digraph_nbrs.
  simpl. by rewrite Hl.
Qed.

(** [dfs] on a graph: it raises [KeyError] when an adjacency set holds a
    label that is no vertex, and returns otherwise. *)
Lemma graph_dfs_cases g w depth :
  graph_wf g w → length (graph.__iter__ g) ≤ depth →
  (¬ graph_closed g w
   ∧ dfs set_order (graph_indexable g) w depth = Exc KeyError)
  ∨ (graph_closed g w
     ∧ ∃ pp,
         dfs set_order (graph_indexable g) w depth = Ret pp
         ∧ dfs_intervals (graph.__iter__ g) pp
         ∧ (∀ u x p1 q1 p2 q2,
              x ∈ graph_nbrs g w u →
              dict_get pp u = Some [p1; q1] →
              dict_get pp x = Some [p2; q2] → p2 < q1)
         ∧ (∀ u x p1 q1 p2 q2,
              dict_get pp u = Some [p1; q1] →
              dict_get pp x = Some [p2; q2] →
              p1 < p2 → q2 < q1 →
              rtc (λ a b, b ∈ graph_nbrs g w a) u x)).
Proof.
  intros Hwf Hdepth.
  apply (dfs_indexable_cases set_order set_order_elements
           (graph_indexable g) w (graph_nbrs g w)); [| |..|done].
  - intros v Hv. by apply graph_neighbours_run.
  - intros v Hv. by apply graph_nbrs_no_key.
  - apply (graph_wf_keys _ _ Hwf).
Qed.

Lemma digraph_dfs_cases d w depth :
  digraph_wf d w → length (digraph.__iter__ d) ≤ depth →
  (¬ digraph_closed d w
   ∧ dfs set_order (digraph_indexable d) w depth = Exc KeyError)
  ∨ (digraph_closed d w
     ∧ ∃ pp,
         dfs set_order (digraph_indexable d) w depth = Ret pp
         ∧ dfs_intervals (digraph.__iter__ d) pp
         ∧ (∀ u x p1 q1 p2 q2,
              x ∈ digraph_nbrs d w u →
              dict_get pp u = Some [p1; q1] →
              dict_get pp x = Some [p2; q2] → p2 < q1)
         ∧ (∀ u x p1 q1 p2 q2,
              dict_get pp u = Some [p1; q1] →
              dict_get pp x = Some [p2; q2] →
              p1 < p2 → q2 < q1 →
              rtc (λ a b, b ∈ digraph_nbrs d w a) u x)).
Proof.
  intros Hwf Hdepth.
  apply (dfs_indexable_cases set_order set_order_elements
           (digraph_indexable d) w (digraph_nbrs d w)); [| |..|done].
  - intros v Hv. by apply digraph_neighbours_run.
  - intros v Hv. by apply digraph_nbrs_no_key.
  - apply (digraph_wf_keys _ _ Hwf).
Qed.

(** X19: on a graph or digraph one of whose adjacency sets holds a label
    that is no vertex, [dfs] raises [KeyError] (from the lookup
    [visited[u]]), given as many frames as vertices. *)
Theorem dfs_key_error g d w depth :
  graph_wf g w → ¬ graph_closed g w → length (graph.__iter__ g) ≤ depth →
  digraph_wf d w → ¬ digraph_closed d w →
  length (digraph.__iter__ d) ≤ depth →
  dfs set_order (graph_indexable g) w depth = Exc KeyError
  ∧ dfs set_order (digraph_indexable d) w depth = Exc KeyError.
Proof.
  intros Hg Hgo Hgd Hd Hdo Hdd. split.
  - by destruct (graph_dfs_cases g w depth Hg Hgd) as [[_ ?]|[? _]].
  - by destruct (digraph_dfs_cases d w depth Hd Hdd) as [[_ ?]|[? _]].
Qed.

(** X20: in the dictionary [dfs] returns for a graph or digraph (closed,
    with as many frames as vertices), every neighbour [x] of a vertex [u]
    has its first timestamp before the last one of [u]: no edge leads
    from a vertex that was left to one that was not discovered yet. *)
Theorem dfs_edge_order g d w depth :
  graph_wf g w → graph_closed g w → length (graph.__iter__ g) ≤ depth →
  digraph_wf d w → digraph_closed d w →
  length (digraph.__iter__ d) ≤ depth →
  (∃ pp, dfs set_order (graph_indexable g) w depth = Ret pp
         ∧ ∀ u x p1 q1 p2 q2,
             x ∈ graph_nbrs g w u →
             dict_get pp u = Some [p1; q1] →
             dict_get pp x = Some [p2; q2] → p2 < q1)
  ∧ (∃ pp, dfs set_order (digraph_indexable d) w depth = Ret pp
           ∧ ∀ u x p1 q1 p2 q2,
               x ∈ digraph_nbrs d w u →
               dict_get pp u = Some [p1; q1] →
               dict_get pp x = Some [p2; q2] → p2 < q1).
Proof.
  intros Hg Hgc Hgd Hd Hdc Hdd. split.
  - destruct (graph_dfs_cases g w depth Hg Hgd)
      as [[? _]|(_ & pp & Hrun & _ & Hedge & _)]; [done|]. eauto.
  - destruct (digraph_dfs_cases d w depth Hd Hdd)
      as [[? _]|(_ & pp & Hrun & _ & Hedge & _)]; [done|]. eauto.
Qed.

(** X21: in the dictionary [dfs] returns for a graph or digraph (closed,
    with as many frames as vertices), a vertex whose interval lies inside
    the interval of a vertex [u] is joined to [u] by a path that starts
    at [u]. *)
Theorem dfs_descendant_path g d w depth :
  graph_wf g w → graph_closed g w → length (graph.__iter__ g) ≤ depth →
  digraph_wf d w → digraph_closed d w →
  length (digraph.__iter__ d) ≤ depth →
  (∃ pp, dfs set_order (graph_indexable g) w depth = Ret pp
         ∧ ∀ u x p1 q1 p2 q2,
             dict_get pp u = Some [p1; q1] →
             dict_get pp x = Some [p2; q2] →
             p1 < p2 → q2 < q1 →
             rtc (λ a b, b ∈ graph_nbrs g w a) u x)
  ∧ (∃ pp, dfs set_order (digraph_indexable d) w depth = Ret pp
           ∧ ∀ u x p1 q1 p2 q2,
               dict_get pp u = Some [p1; q1] →
               dict_get pp x = Some [p2; q2] →
               p1 < p2 → q2 < q1 →
               rtc (λ a b, b ∈ digraph_nbrs d w a) u x).
Proof.
  intros Hg Hgc Hgd Hd Hdc Hdd. split.
  - destruct (graph_dfs_cases g w depth Hg Hgd)
      as [[? _]|(_ & pp & Hrun & _ & _ & Hdesc)]; [done|]. eauto.
  - destruct (digraph_dfs_cases d w depth Hd Hdd)
      as [[? _]|(_ & pp & Hrun & _ & _ & Hdesc)]; [done|]. eauto.
Qed.

(** X22: in the dictionary [dfs] returns for a digraph (closed, with as
    many frames as vertices), an edge from [u] to another vertex [x]
    either leads to a vertex that is left before [u] is, or closes a
    cycle: then the interval of [u] lies inside that of [x] and a path
    leads from [x] back to [u].  On a digraph without cycles the last
    timestamps so decrease along every edge. *)
Theorem dfs_post_order d w depth :
  digraph_wf d w → digraph_closed d w →
  length (digraph.__iter__ d) ≤ depth →
  ∃ pp,
    dfs set_order (digraph_indexable d) w depth = Ret pp
    ∧ (∀ u x p1 q1 p2 q2,
         x ∈ digraph_nbrs d w u → x ≠ u →
         dict_get pp u = Some [p1; q1] →
         dict_get pp x = Some [p2; q2] →
         q2 < q1
         ∨ (p2 < p1 ∧ q1 < q2
            ∧ rtc (λ a b, b ∈ digraph_nbrs d w a) x u))
    ∧ ((∀ u x, x ∈ digraph_nbrs d w u →
               ¬ rtc (λ a b, b ∈ digraph_nbrs d w a) x u) →
       ∀ u x p1 q1 p2 q2,
         x ∈ digraph_nbrs d w u →
         dict_get pp u = Some [p1; q1] →
         dict_get pp x = Some [p2; q2] → q2 < q1).
Proof.
  intros Hd Hdc Hdd.
  destruct (digraph_dfs_cases d w depth Hd Hdd)
    as [[? _]|(_ & pp & Hrun & Hint & Hedge & Hdesc)]; [done|].
  destruct Hint as (Hkeys & Hpairs & Hnest).
  assert (∀ u p q, dict_get pp u = Some [p; q] → p < q) as Hpq.
  { intros u p q Hu.
    destruct (Hpairs u) as (p' & q' & Hu' & ?);
      [rewrite <-Hkeys; by eapply dict_get_Some_keys|].
    by simplify_eq. }
  assert (∀ u x p1 q1 p2 q2,
            x ∈ digraph_nbrs d w u → x ≠ u →
            dict_get pp u = Some [p1; q1] →
            dict_get pp x = Some [p2; q2] →
            q2 < q1
            ∨ (p2 < p1 ∧ q1 < q2
               ∧ rtc (λ a b, b ∈ digraph_nbrs d w a) x u)) as Hpost.
  { intros u x p1 q1 p2 q2 Hux Hne Hpu Hpx.
    pose proof (Hedge u x p1 q1 p2 q2 Hux Hpu Hpx) as Hlt.
    pose proof (Hpq _ _ _ Hpu).
    destruct (Hnest u x p1 q1 p2 q2) as [?|[?|[[? ?]|[? ?]]]];
      [done..|lia|left; lia|by left|].
    right. split; [done|]. split; [done|]. by eapply Hdesc. }
  exists pp. split; [done|]. split; [done|].
  intros Hacyclic u x p1 q1 p2 q2 Hux Hpu Hpx.
  assert (x ≠ u) as Hne.
  { intros ->. by apply (Hacyclic u u Hux). }
  destruct (Hpost u x p1 q1 p2 q2 Hux Hne Hpu Hpx) as [?|(_ & _ & Hback)];
    [done|].
  by apply Hacyclic in Hback.
Qed.

(** X23: in the dictionary [dfs] returns for an undirected graph
    (symmetric adjacency, as many frames as vertices), the intervals of
    two adjacent vertices lie one inside the other, and two vertices are
    joined by a path exactly when the interval of some vertex holds the
    intervals of both: the connected components can be read off the
    timestamps. *)
Theorem dfs_undirected_components g w depth :
  graph_wf g w → graph_symmetric g w →
  length (graph.__iter__ g) ≤ depth →
  ∃ pp,
    dfs set_order (graph_indexable g) w depth = Ret pp
    ∧ (∀ u x p1 q1 p2 q2,
         x ∈ graph_nbrs g w u → x ≠ u →
         dict_get pp u = Some [p1; q1] →
         dict_get pp x = Some [p2; q2] →
         (p1 < p2 ∧ q2 < q1) ∨ (p2 < p1 ∧ q1 < q2))
    ∧ (∀ u x p1 q1 p2 q2,
         dict_get pp u = Some [p1; q1] →
         dict_get pp x = Some [p2; q2] →
         rtc (λ a b, b ∈ graph_nbrs g w a) u x ↔
         ∃ r p q,
           dict_get pp r = Some [p; q]
           ∧ p ≤ p1 ∧ q1 ≤ q ∧ p ≤ p2 ∧ q2 ≤ q).
Proof.
  intros Hg Hsym Hgd.
  assert (graph_closed g w) as Hgc by (by apply symmetric_closed).
  destruct (graph_dfs_cases g w depth Hg Hgd)
    as [[? _]|(_ & pp & Hrun & Hint & Hedge & Hdesc)]; [done|].
  destruct Hint as (Hkeys & Hpairs & Hnest).
  assert (∀ u p q, dict_get pp u = Some [p; q] → p < q) as Hpq.
  { intros u p q Hu.
    destruct (Hpairs u) as (p' & q' & Hu' & ?);
      [rewrite <-Hkeys; by eapply dict_get_Some_keys|].
    by simplify_eq. }
  assert (∀ u x p1 q1 p2 q2,
            x ∈ graph_nbrs g w u → x ≠ u →
            dict_get pp u = Some [p1; q1] →
            dict_get pp x = Some [p2; q2] →
            (p1 < p2 ∧ q2 < q1) ∨ (p2 < p1 ∧ q1 < q2)) as Hadj.
  { intros u x p1 q1 p2 q2 Hux Hne Hpu Hpx.
    pose proof (Hedge u x p1 q1 p2 q2 Hux Hpu Hpx).
    pose proof (Hedge x u p2 q2 p1 q1 (proj1 (Hsym u x) Hux) Hpx Hpu).
    destruct (Hnest u x p1 q1 p2 q2) as [?|[?|[?|?]]];
      [done..|lia|lia|by left|by right]. }
  assert (∀ r u p q p1 q1,
            dict_get pp r = Some [p; q] → dict_get pp u = Some [p1; q1] →
            p ≤ p1 → q1 ≤ q → rtc (λ a b, b ∈ graph_nbrs g w a) r u)
    as Hinside.
  { intros r u p q p1 q1 Hr Hu Hp Hq.
    destruct (decide (r = u)) as [->|Hne]; [done|].
    pose proof (Hpq _ _ _ Hu).
    destruct (Hnest r u p q p1 q1 Hne Hr Hu) as [?|[?|[[? ?]|[? ?]]]];
      [lia|lia|by eapply Hdesc|lia]. }
  exists pp. split; [done|]. split; [done|].
  intros u x p1 q1 p2 q2 Hpu Hpx. split.
  - intros Hpath. revert p1 q1 Hpu.
    induction Hpath as [x|u y x Huy Hyx IH]; intros p1 q1 Hpu.
    { rewrite Hpx in Hpu. injection Hpu as <- <-.
      exists x, p2, q2. split; [done|]. lia. }
    specialize (IH Hpx).
    assert (y ∈ graph.__iter__ g) as Hy by (by eapply Hgc).
    destruct (Hpairs y Hy) as (p3 & q3 & Hpy & _).
    destruct (IH p3 q3 Hpy) as (r & p & q & Hr & ? & ? & ? & ?).
    destruct (decide (y = u)) as [->|Hne].
    { rewrite Hpy in Hpu. injection Hpu as <- <-.
      exists r, p, q. split; [done|]. lia. }
    destruct (Hadj u y p1 q1 p3 q3 Huy Hne Hpu Hpy) as [[? ?]|[? ?]].
    + destruct (decide (r = u)) as [->|Hru].
      { rewrite Hr in Hpu. injection Hpu as <- <-.
        exists u, p, q. split; [done|]. lia. }
      pose proof (Hpq _ _ _ Hpy).
      destruct (Hnest r u p q p1 q1 Hru Hr Hpu) as [?|[?|[[? ?]|[? ?]]]];
        [lia|lia| |].
      * exists r, p, q. split; [done|]. lia.
      * exists u, p1, q1. split; [done|]. lia.
    + exists r, p, q. split; [done|]. lia.
  - intros (r & p & q & Hr & ? & ? & ? & ?).
    etrans; [|by eapply (Hinside r x)].
    apply (rtc_adjG_sym g w Hsym). by eapply (Hinside r u).
Qed.
End dfs_more_extras.

Lemma int_sample_k2_wf : graph_wf int_sample.k2 int_sample.w.
Proof.
  split.
  - apply (bool_decide_unpack _). vm_compute. exact I.
  - intros v Hv. apply dict_get_is_Some. exact Hv.
  - intros v l. unfold int_sample.k2. simpl.
    repeat case_decide; intros [= <-]; simpl; lia.
Qed.

Lemma int_sample_d1_wf : digraph_wf int_sample.d1 int_sample.w.
Proof.
  split.
  - apply (bool_decide_unpack _). vm_compute. exact I.
  - intros v Hv. apply dict_get_is_Some. exact Hv.
  - intros v l. unfold int_sample.d1. simpl.
    repeat case_decide; intros [= <-]; simpl; lia.
Qed.

Lemma int_sample_k2_symmetric :
  graph_symmetric int_sample.k2 int_sample.w.
Proof.
  intros u v. rewrite !int_sample_k2_nbrs.
  repeat case_decide; subst; set_solver.
Qed.

(** [dfs] on [graph([0], {0: {5}})] and [digraph([0], {0: {5}})]. *)
Lemma dfs_key_error_witness :
  dfs elements (graph_indexable (graph.Graph [(0, 0)] [(0, 0%Z)] 1 (1 # 2)))
    (World [({[5]} : gset nat)] []) 1 = Exc KeyError
  ∧ dfs elements
      (digraph_indexable (digraph.Digraph [(0, 0)] [(0, 0%Z)] 1 1))
      (World [({[5]} : gset nat)] []) 1 = Exc KeyError.
Proof.
  apply (dfs_key_error elements (λ s, reflexivity _)).
  - split; simpl.
    + apply NoDup_singleton.
    + intros v ->%list_elem_of_singleton. simpl. eauto.
    + intros v l. case_decide; [|done]. intros [= <-]. simpl. lia.
  - intros Hclosed.
    assert (5 ∈ graph.__iter__ (graph.Graph [(0, 0)] [(0, 0%Z)] 1 (1 # 2)))
      as Hin.
    { apply (Hclosed 0 5). unfold graph_nbrs, deref. simpl. set_solver. }
    simpl in Hin. by apply list_elem_of_singleton in Hin.
  - simpl. lia.
  - split; simpl.
    + apply NoDup_singleton.
    + intros v ->%list_elem_of_singleton. simpl. eauto.
    + intros v l. case_decide; [|done]. intros [= <-]. simpl. lia.
  - intros Hclosed.
    assert (5 ∈ digraph.__iter__
                  (digraph.Digraph [(0, 0)] [(0, 0%Z)] 1 1)) as Hin.
    { apply (Hclosed 0 5). unfold digraph_nbrs, deref. simpl. set_solver. }
    simpl in Hin. by apply list_elem_of_singleton in Hin.
  - simpl. lia.
Defined.

(** [dfs] on the complete graph on 0 and 1 and on the digraph with the
    edge from 0 to 1. *)
Lemma dfs_edge_order_witness :
  (∃ pp, dfs elements (graph_indexable int_sample.k2) int_sample.w 2 = Ret pp
         ∧ ∀ p1 q1 p2 q2,
             dict_get pp 0%Z = Some [p1; q1] →
             dict_get pp 1%Z = Some [p2; q2] → p2 < q1)
  ∧ (∃ pp,
       dfs elements (digraph_indexable int_sample.d1) int_sample.w 2 = Ret pp
       ∧ ∀ p1 q1 p2 q2,
           dict_get pp 0%Z = Some [p1; q1] →
           dict_get pp 1%Z = Some [p2; q2] → p2 < q1).
Proof.
  destruct (dfs_edge_order elements (λ s, reflexivity _)
              int_sample.k2 int_sample.d1 int_sample.w 2
              int_sample_k2_wf int_sample_k2_closed (le_n 2)
              int_sample_d1_wf int_sample_d1_closed (le_n 2))
    as [(pp & Hrun & Hedge) (pp' & Hrun' & Hedge')].
  split.
  - exists pp. split; [done|]. intros p1 q1 p2 q2.
    apply (Hedge 0%Z 1%Z). rewrite int_sample_k2_nbrs. set_solver.
  - exists pp'. split; [done|]. intros p1 q1 p2 q2.
    apply (Hedge' 0%Z 1%Z). rewrite int_sample_d1_nbrs. set_solver.
Defined.

Lemma dfs_descendant_path_witness :
  (∃ pp, dfs elements (graph_indexable int_sample.k2) int_sample.w 2 = Ret pp)
  ∧ (∃ pp,
       dfs elements (digraph_indexable int_sample.d1) int_sample.w 2
       = Ret pp).
Proof.
  destruct (dfs_descendant_path elements (λ s, reflexivity _)
              int_sample.k2 int_sample.d1 int_sample.w 2
              int_sample_k2_wf int_sample_k2_closed (le_n 2)
              int_sample_d1_wf int_sample_d1_closed (le_n 2))
    as [(pp & Hrun & _) (pp' & Hrun' & _)].
  eauto.
Defined.

(** [dfs] on the digraph with the one edge from 0 to 1. *)
Lemma dfs_post_order_witness :
  ∃ pp,
    dfs elements (digraph_indexable int_sample.d1) int_sample.w 2 = Ret pp
    ∧ ∀ p1 q1 p2 q2,
        dict_get pp 0%Z = Some [p1; q1] →
        dict_get pp 1%Z = Some [p2; q2] → q2 < q1.
Proof.
  destruct (dfs_post_order elements (λ s, reflexivity _)
              int_sample.d1 int_sample.w 2
              int_sample_d1_wf int_sample_d1_closed (le_n 2))
    as (pp & Hrun & _ & Hacyclic).
  exists pp. split; [done|]. intros p1 q1 p2 q2.
  apply (Hacyclic).
  - intros u x. rewrite int_sample_d1_nbrs.
    case_decide; [|set_solver]. intros ->%elem_of_singleton Hpath. subst.
    inversion Hpath as [|a b c Hab _]; subst.
    rewrite int_sample_d1_nbrs in Hab. by rewrite decide_False in Hab.
  - rewrite int_sample_d1_nbrs. set_solver.
Defined.

(** [dfs] on the complete graph on 0 and 1. *)
Lemma dfs_undirected_components_witness :
  ∃ pp,
    dfs elements (graph_indexable int_sample.k2) int_sample.w 2 = Ret pp
    ∧ ∀ p1 q1 p2 q2,
        dict_get pp 0%Z = Some [p1; q1] →
        dict_get pp 1%Z = Some [p2; q2] →
        (p1 < p2 ∧ q2 < q1) ∨ (p2 < p1 ∧ q1 < q2).
Proof.
  destruct (dfs_undirected_components elements (λ s, reflexivity _)
              int_sample.k2 int_sample.w 2
              int_sample_k2_wf int_sample_k2_symmetric (le_n 2))
    as (pp & Hrun & Hadj & _).
  exists pp. split; [done|]. intros p1 q1 p2 q2.
  apply (Hadj 0%Z 1%Z); [|done].
  rewrite int_sample_k2_nbrs. set_solver.
Defined.

Section components_count.
Context {V : Type} `{Countable V}.
Implicit Types (adj : relation V) (vs roots : list V).

Lemma roots_le adj (l1 l2 : list V) :
  NoDup l1 →
  (∀ r, r ∈ l1 → ∃ r', r' ∈ l2 ∧ rtc adj r' r) →
  (∀ r1 r2 r', r1 ∈ l1 → r2 ∈ l1 →
               rtc adj r' r1 → rtc adj r' r2 → r1 = r2) →
  length l1 ≤ length l2.
Proof.
  revert l2. induction l1 as [|r l1 IH]; intros l2 Hnd Hmap Hinj;
    [simpl; lia|].
  apply NoDup_cons in Hnd as [Hr Hnd].
  destruct (Hmap r) as (r' & Hr' & Hpath); [left|].
  apply elem_of_Permutation in Hr' as [l2' Hl2]. rewrite Hl2. simpl.
  apply le_n_S, IH; [done| |].
  - intros x Hx. destruct (Hmap x) as (x' & Hx' & Hpx); [by right|].
    exists x'. split; [|done]. rewrite Hl2 in Hx'.
    apply elem_of_cons in Hx' as [->|]; [|done].
    destruct Hr. by rewrite (Hinj r x r'); [|left|right|..].
  - intros r1 r2 r0 Hr1 Hr2. apply Hinj; by right.
Qed.

(** Two lists that hold one vertex of every connected component have the
    same length. *)
Lemma components_length adj vs roots1 roots2 :
  (∀ a b, rtc adj a b → rtc adj b a) →
  components adj vs roots1 → components adj vs roots2 →
  length roots1 = length roots2.
Proof.
  intros Hsym (Hnd1 & Hsub1 & Hcover1 & Hsep1)
    (Hnd2 & Hsub2 & Hcover2 & Hsep2).
  apply Nat.le_antisymm; apply (roots_le adj); try done.
  - intros r Hr. apply Hcover2. by apply Hsub1.
  - intros r1 r2 r' Hr1 Hr2 Hp1 Hp2. apply Hsep1; [done..|].
    etrans; [apply Hsym; exact Hp1|done].
  - intros r Hr. apply Hcover1. by apply Hsub2.
  - intros r1 r2 r' Hr1 Hr2 Hp1 Hp2. apply Hsep2; [done..|].
    etrans; [apply Hsym; exact Hp1|done].
Qed.

Lemma components_ext adj adj' vs roots :
  (∀ a b, adj a b ↔ adj' a b) →
  components adj vs roots → components adj' vs roots.
Proof.
  intros Hext (Hnd & Hsub & Hcover & Hsep).
  assert (∀ a b, rtc adj a b ↔ rtc adj' a b) as Hrtc.
  { intros a b. split; apply rtc_subrel; intros x y; apply Hext. }
  split; [done|]. split; [done|]. split.
  - intros v Hv. destruct (Hcover v Hv) as (r & ? & ?). exists r.
    split; [done|]. by apply Hrtc.
  - intros r r' Hr Hr' Hpath. apply Hsep; [done..|]. by apply Hrtc.
Qed.
End components_count.

Section sf_cc.
Context {V : Type} `{Countable V}.
Context (set_order : gset V → list V).
Hypothesis set_order_elements : ∀ s, set_order s ≡ₚ elements s.
Implicit Types (g : graph.t V) (w : world V).

(** The edge count of the forest [spanning_forest] returns. *)
Lemma spanning_forest_ne g w depth :
  graph_wf g w → graph_closed g w → graph_symmetric g w →
  graph.nv g = Z.of_nat (length (graph.__iter__ g)) →
  length (graph.__iter__ g) ≤ depth →
  ∃ f w' roots,
    spanning_forest set_order g depth w = (Ret f, w')
    ∧ (graph.ne f == inject_Z (graph.nv g - Z.of_nat (length roots)))%Q
    ∧ components (λ a b, b ∈ graph_nbrs g w a) (graph.__iter__ g) roots
    ∧ length (heap w) ≤ length (heap w')
    ∧ (∀ l, l < length (heap w) → deref w' l = deref w l)
    ∧ stdout w' = stdout w.
Proof.
  intros Hwf Hclosed Hsym Hnv Hdepth.
  destruct (sf_top_init set_order set_order_elements g w Hwf)
    as (f0 & Hinit & Htop0).
  destruct (sf_top_for_in_spec set_order set_order_elements g w Hwf Hclosed
              Hsym depth (graph.__iter__ g) _ [] [] Hdepth (λ v Hv, Hv) Htop0)
    as (st & R & T & Hrun & Htop & Hall).
  simpl in Htop, Hall.
  destruct Htop as [Hinv Hvis Hatt Hnd Hroots Hch Hedges Hcl Hadj Hne Hsep].
  assert (∀ a b, tadj T a b → b ∈ graph_nbrs g w a) as HTG.
  { intros a b [Hab|Hab]; [apply Hsym|]; by apply Hedges. }
  assert (∀ a b, rtc (tadj T) a b → rtc (λ a b, b ∈ graph_nbrs g w a) a b)
    as HTG'.
  { induction 1 as [|a b c Hab _ IH]; [done|]. eapply rtc_l; [|done].
    by apply HTG. }
  assert (∀ v, v ∈ graph.__iter__ g → ∃ r, r ∈ R ∧ rtc (tadj T) r v)
    as Hconn.
  { intros v Hv. specialize (Hall v Hv).
    apply elem_of_union in Hall
      as [Hr%elem_of_list_to_set|Hc%elem_of_list_to_set].
    - by exists v.
    - destruct (attach_connected _ _ _ Hatt Hc)
        as (r & Hr%elem_of_list_to_set & ?).
      by exists r. }
  assert (R ++ T.*1 ≡ₚ graph.__iter__ g) as Hperm.
  { apply NoDup_Permutation.
    - apply NoDup_app. split; [done|]. split; [|by eapply attach_NoDup].
      intros r Hr Hr'. apply (attach_fresh _ _ _ Hatt) in Hr'.
      apply Hr'. by apply elem_of_list_to_set.
    - apply (graph_wf_keys _ _ Hwf).
    - intros v. rewrite elem_of_app. split; [intros [?|?]; eauto|].
      intros Hv. specialize (Hall v Hv). set_solver. }
  assert (length (graph.__iter__ g) = length R + length T) as Hlen.
  { rewrite <-Hperm, length_app, length_fmap. done. }
  exists (sp_forest st), (sf_world st), R. split.
  { unfold spanning_forest. erewrite bind_Ret by exact Hinit.
    cbv beta zeta. by rewrite Hrun. }
  split.
  { rewrite Hne.
    replace (graph.nv g - Z.of_nat (length R))%Z
      with (Z.of_nat (length T)) by lia.
    done. }
  split.
  { split; [done|]. split; [done|]. split; [|done].
    intros v Hv. destruct (Hconn v Hv) as (r & ? & ?). eauto. }
  split; [rewrite (inv_heap _ _ _ Hinv); lia|].
  split; [apply (inv_frame _ _ _ Hinv)|apply (inv_stdout _ _ _ Hinv)].
Qed.

(** X24: on an undirected graph whose vertices are distinct (symmetric
    adjacency, as many frames as vertices), the forest [spanning_forest]
    returns has [len(G)] minus [len(connected_components(G))] edges,
    [connected_components] being called after [spanning_forest]. *)
Theorem spanning_forest_counts_components g w depth :
  graph_wf g w → graph_symmetric g w →
  graph.__len__ g = Z.of_nat (length (graph.__iter__ g)) →
  length (graph.__iter__ g) ≤ depth →
  ∃ f w1 cs w2,
    spanning_forest set_order g depth w = (Ret f, w1)
    ∧ connected_components set_order g depth w1 = (Ret cs, w2)
    ∧ (graph.ne f ==
       inject_Z (graph.__len__ g - Z.of_nat (length cs)))%Q.
Proof.
  intros Hwf Hsym Hnv Hdepth.
  assert (graph_closed g w) as Hclosed by (by apply symmetric_closed).
  destruct (spanning_forest_ne g w depth Hwf Hclosed Hsym Hnv Hdepth)
    as (f & w1 & roots & Hsf & Hne & Hcomp & Hheap & Hframe & _).
  assert (∀ v, graph_nbrs g w1 v = graph_nbrs g w v) as Hsame.
  { intros v. unfold graph_nbrs.
    destruct (dict_get (graph.ve_dict g) v) as [l|] eqn:Hl; [|done].
    apply Hframe. by apply (graph_wf_locs _ _ Hwf v). }
  assert (graph_wf g w1) as Hwf1.
  { destruct Hwf as [Hk Hd Hl]. split; [done..|].
    intros v l Hv. specialize (Hl v l Hv). lia. }
  assert (graph_symmetric g w1) as Hsym1.
  { intros u v. rewrite !Hsame. apply Hsym. }
  destruct (cc_run_spec set_order set_order_elements g w1 Hwf1 depth Hdepth)
    as (o & w2 & Hcc & _ & _ & Hres).
  destruct Hres as [[_ Hbad]|(cs & Ls & -> & Htr & Hcomps & Hperm)].
  { destruct Hbad. by apply symmetric_closed. }
  destruct (cc_trace_components g w1 Hsym1 Ls Htr) as (roots' & Hroots & Hcc').
  exists f, w1, cs, w2. split; [done|]. split; [done|].
  assert (length cs = length roots) as ->; [|done].
  rewrite <-(Forall2_length _ _ _ Hcomps), <-(Forall2_length _ _ _ Hroots).
  apply (components_length (λ a b, b ∈ graph_nbrs g w a) (graph.__iter__ g)).
  - apply (rtc_adjG_sym g w Hsym).
  - apply (components_ext (λ a b, b ∈ graph_nbrs g w1 a)).
    { intros a b. by rewrite Hsame. }
    destruct Hcc' as (Hnd & Hsub & Hcover & Hsep).
    split; [done|]. split; [|split; [|done]].
    + intros r Hr. rewrite <-Hperm. by apply Hsub.
    + intros v Hv. apply Hcover. by rewrite Hperm.
  - done.
Qed.
End sf_cc.

(** [spanning_forest] and [connected_components] on the complete graph
    on two vertices. *)
Lemma spanning_forest_counts_components_witness :
  ∃ f w1 cs w2,
    spanning_forest elements sample.k2 2 sample.w1 = (Ret f, w1)
    ∧ connected_components elements sample.k2 2 w1 = (Ret cs, w2)
    ∧ (graph.ne f == inject_Z (2 - Z.of_nat (length cs)))%Q.
Proof.
  apply (spanning_forest_counts_components elements (λ s, reflexivity _)
           sample.k2 sample.w1 2
           sample_k2_wf sample_k2_symmetric eq_refl (le_n 2)).
Defined.

Section random_graph.
Context {V : Type} `{Countable V}.
Implicit Types (g : graph.t V) (w : world V) (v x : V).




End random_graph.

Section random_graph_extras.
Context {V : Type} `{Countable V}.
Context (set_order : gset V → list V).
Hypothesis set_order_elements : ∀ s, set_order s ≡ₚ elements s.
Implicit Types (g : graph.t V) (w : world V) (v x : V).



End random_graph_extras.



Section edge_pairs.
Context {V : Type} `{Countable V}.
Implicit Types (N : V → gset V) (vs : list V).

(** The sum of the sizes of the sets [N v] counts the pairs [(v, x)] with
    [x] in [N v]. *)
Lemma sum_sizes_pairs N vs :
  foldl Z.add 0%Z ((λ v, Z.of_nat (size (N v))) <$> vs) =
    Z.of_nat (length (vs ≫= λ v, (λ x, (v, x)) <$> elements (N v))).
Proof.
  induction vs as [|v vs IH]; [done|].
  rewrite fmap_cons, foldl_add_cons, IH. cbn [mbind list_bind].
  rewrite length_app, length_fmap. unfold size, set_size. simpl. lia.
Qed.

Lemma elem_of_pairs N vs a b :
  (a, b) ∈ (vs ≫= λ v, (λ x, (v, x)) <$> elements (N v)) ↔
  a ∈ vs ∧ b ∈ N a.
Proof.
  rewrite list_elem_of_bind. split.
  - intros (v & Hab & Hv).
    apply list_elem_of_fmap in Hab as (x & [= -> ->] & Hx).
    split; [done|]. by apply elem_of_elements.
  - intros [Ha Hb]. exists a. split; [|done].
    apply list_elem_of_fmap. exists b. split; [done|].
    by apply elem_of_elements.
Qed.

Lemma NoDup_pairs N vs :
  NoDup vs → NoDup (vs ≫= λ v, (λ x, (v, x)) <$> elements (N v)).
Proof.
  intros Hnd. apply NoDup_bind; [| |done].
  - intros v1 v2 [a b] _ _ H1 H2.
    apply list_elem_of_fmap in H1 as (x1 & [= -> ->] & _).
    by apply list_elem_of_fmap in H2 as (x2 & [= -> _] & _).
  - intros v _. apply NoDup_fmap_2; [|apply NoDup_elements].
    by intros x y [=].
Qed.

(** Reversing every edge keeps the number of edges. *)
Lemma reversed_count N N' vs :
  NoDup vs →
  (∀ a b, b ∈ N' a ↔ a ∈ N b) →
  (∀ a b, b ∈ N a → a ∈ vs ∧ b ∈ vs) →
  foldl Z.add 0%Z ((λ v, Z.of_nat (size (N' v))) <$> vs) =
  foldl Z.add 0%Z ((λ v, Z.of_nat (size (N v))) <$> vs).
Proof.
  intros Hnd Hrev Hclosed. rewrite !sum_sizes_pairs. f_equal.
  rewrite <-(length_fmap (λ p : V * V, (p.2, p.1))
               (vs ≫= λ v, (λ x, (v, x)) <$> elements (N v))).
  apply Permutation_length, NoDup_Permutation.
  - by apply NoDup_pairs.
  - apply NoDup_fmap_2; [|by apply NoDup_pairs].
    by intros [a b] [a' b'] [= -> ->].
  - intros [a b]. rewrite elem_of_pairs, list_elem_of_fmap. split.
    + intros [Ha Hb]. exists (b, a). split; [done|].
      apply elem_of_pairs. apply Hrev in Hb. split; [|done].
      by apply Hclosed in Hb as [? _].
    + intros ([b' a'] & [= -> ->] & Hba). apply elem_of_pairs in Hba as [_ Hba].
      split; [by apply Hclosed in Hba as [_ ?]|by apply Hrev].
Qed.
End edge_pairs.

Section random_digraph.
Context {V : Type} `{Countable V}.
Context (fk : option V).
Implicit Types (g d : digraph.t V) (w : world V) (v x : V).




End random_digraph.

Section random_digraph_extras.
Context {V : Type} `{Countable V}.
Context (set_order : gset V → list V).
Hypothesis set_order_elements : ∀ s, set_order s ≡ₚ elements s.
Implicit Types (g d : digraph.t V) (w : world V) (v x : V).

(** [reverse] on a digraph that satisfies the invariant. *)
Lemma reverse_consistent_run d w :
  digraph_consistent d w →
  ∃ d' w',
    digraph.reverse set_order d w = (Ret d', w')
    ∧ digraph_consistent d' w' ∧ digraph_sized d'
    ∧ digraph.__iter__ d' = digraph.__iter__ d
    ∧ (∀ a b, b ∈ digraph_nbrs d' w' a ↔ a ∈ digraph_nbrs d w b)
    ∧ digraph.ne d' = digraph.ne d.
Proof.
  intros Hc.
  destruct (reverse_spec set_order set_order_elements d w (dc_wf _ _ Hc))
    as (d' & w' & Hrun & Hc' & Hn' & Hiter & Hadj & _).
  assert (∀ a b, b ∈ digraph_nbrs d' w' a ↔ a ∈ digraph_nbrs d w b) as Hrev.
  { intros a b. rewrite Hadj. split; [tauto|]. intros Hab.
    split; [done|]. split.
    { intros ->. by apply (dc_loop_free _ _ Hc b). }
    split; [by apply (dc_closed _ _ Hc b)|].
    destruct (decide (b ∈ digraph.__iter__ d)) as [|Hno]; [done|].
    rewrite digraph_nbrs_no_key in Hab by done. set_solver. }
  exists d', w'. split; [done|]. split; [done|]. split; [done|].
  split; [done|]. split; [done|].
  pose proof (dc_ne _ _ Hc) as Hne. pose proof (dc_ne _ _ Hc') as Hne'.
  unfold digraph_counts_agree in Hne, Hne'.
  rewrite Hne, Hne', (digraph_degree_sum_sizes d w Hc),
    (digraph_degree_sum_sizes d' w' Hc'), Hiter.
  apply reversed_count; [apply (digraph_wf_keys _ _ (dc_wf _ _ Hc))|done|].
  intros a b Hab. split; [|by apply (dc_closed _ _ Hc a)].
  destruct (decide (a ∈ digraph.__iter__ d)) as [|Hno]; [done|].
  rewrite digraph_nbrs_no_key in Hab by done. set_solver.
Qed.


End random_digraph_extras.



Section adj_mat_reverse.
Context (set_order : gset Z → list Z).
Hypothesis set_order_elements : ∀ s, set_order s ≡ₚ elements s.
Implicit Types (d : digraph.t Z) (w : world Z).

(** [adj_mat] when the labels are the indices and the sets mention labels
    only. *)
Lemma adj_mat_of_closed nv (ve : pydict Z loc) w :
  (∀ i, i ∈ keys ve ↔ (0 ≤ i < nv)%Z) →
  (∀ i j, j ∈ labelled_nbrs ve w i → j ∈ keys ve) →
  ∃ mat,
    adj_mat_of set_order nv ve w = Ret mat
    ∧ np_marks (Z.to_nat nv) mat
        (λ r c, Z.of_nat c ∈ labelled_nbrs ve w (Z.of_nat r)).
Proof.
  intros Hlabels Hclosed.
  destruct (decide (0 ≤ nv)%Z) as [Hnv|Hnv].
  - destruct (adj_mat_of_spec set_order set_order_elements nv ve w Hnv)
      as [Hok _].
    destruct Hok as (mat & Hrun & Hm);
      [by apply closed_labels_indexable|].
    exists mat. split; [done|]. by apply closed_labels_marks.
  - exists []. split.
    + unfold adj_mat_of, seqZ, np_zeros.
      by replace (Z.to_nat nv) with 0 by lia.
    + replace (Z.to_nat nv) with 0 by lia. split; [split; [done|]|].
      * by intros r row ?.
      * intros r c ?. lia.
Qed.

(** X29: on a digraph that satisfies the invariant of the instances built
    without seed edges and whose vertices are the numbers [0 .. nv - 1],
    the adjacency matrix of [reverse()] is the transpose of the adjacency
    matrix of the digraph. *)
Theorem adj_mat_reverse_transpose d w :
  digraph_consistent d w → digraph_sized d →
  (∀ i, i ∈ digraph.__iter__ d ↔ (0 ≤ i < digraph.nv d)%Z) →
  ∃ mat d' w' mat',
    digraph.adj_mat set_order d w = Ret mat
    ∧ digraph.reverse set_order d w = (Ret d', w')
    ∧ digraph.adj_mat set_order d' w' = Ret mat'
    ∧ np_shape (Z.to_nat (digraph.nv d)) mat
    ∧ np_shape (Z.to_nat (digraph.nv d)) mat'
    ∧ ∀ r c, r < Z.to_nat (digraph.nv d) → c < Z.to_nat (digraph.nv d) →
             np_entry mat' r c = np_entry mat c r.
Proof.
  intros Hc Hn Hlabels.
  destruct (reverse_consistent_run set_order set_order_elements d w Hc)
    as (d' & w' & Hrun & Hc' & Hn' & Hiter & Hrev & _).
  assert (digraph.nv d' = digraph.nv d) as Hnv.
  { unfold digraph_sized in Hn, Hn'. by rewrite Hn, Hn', Hiter. }
  destruct (adj_mat_of_closed (digraph.nv d) (digraph.ve_dict d) w)
    as (mat & Hmat & Hshape & Hm); [done|apply (dc_closed _ _ Hc)|].
  destruct (adj_mat_of_closed (digraph.nv d') (digraph.ve_dict d') w')
    as (mat' & Hmat' & Hshape' & Hm').
  { intros i. rewrite Hnv, <-Hlabels. unfold digraph.__iter__ in Hiter.
    by rewrite Hiter. }
  { apply (dc_closed _ _ Hc'). }
  rewrite Hnv in Hshape', Hm'.
  exists mat, d', w', mat'. split; [done|]. split; [done|].
  split; [done|]. split; [done|]. split; [done|].
  intros r c Hr Hcc.
  pose proof (Hrev (Z.of_nat r) (Z.of_nat c)) as Hrc.
  change (digraph_nbrs d' w') with (labelled_nbrs (digraph.ve_dict d') w')
    in Hrc.
  change (digraph_nbrs d w) with (labelled_nbrs (digraph.ve_dict d) w)
    in Hrc.
  destruct (Hm' r c Hr Hcc) as [[-> ?]|[-> ?]],
    (Hm c r Hcc Hr) as [[-> ?]|[-> ?]]; tauto.
Qed.
End adj_mat_reverse.

Lemma int_sample_d1_consistent :
  digraph_consistent int_sample.d1 int_sample.w.
Proof.
  split.
  - apply int_sample_d1_wf.
  - intros u v l. unfold int_sample.d1. simpl.
    repeat case_decide; intros; simplify_eq; done.
  - apply int_sample_d1_closed.
  - intros v. rewrite int_sample_d1_nbrs. case_decide; set_solver.
  - change (digraph.__iter__ int_sample.d1) with [0%Z; 1%Z].
    rewrite !fmap_cons, fmap_nil, !int_sample_d1_nbrs.
    rewrite (decide_True (P := 0%Z = 0%Z)) by done.
    rewrite (decide_False (P := 1%Z = 0%Z)) by done.
    by rewrite size_singleton, size_empty.
  - reflexivity.
Qed.

(** The digraph with the one edge from 0 to 1 and its reverse. *)
Lemma adj_mat_reverse_transpose_witness :
  ∃ mat d' w' mat',
    digraph.adj_mat elements int_sample.d1 int_sample.w = Ret mat
    ∧ digraph.reverse elements int_sample.d1 int_sample.w = (Ret d', w')
    ∧ digraph.adj_mat elements d' w' = Ret mat'
    ∧ np_entry mat' 1 0 = np_entry mat 0 1.
Proof.
  destruct (adj_mat_reverse_transpose elements (λ s, reflexivity _)
              int_sample.d1 int_sample.w
              int_sample_d1_consistent eq_refl int_sample_d1_labels)
    as (mat & d' & w' & mat' & Hmat & Hrun & Hmat' & _ & _ & Ht).
  exists mat, d', w', mat'. split; [done|]. split; [done|].
  split; [done|]. apply Ht; cbn; lia.
Defined.
